(** * mg_rpc: the RPC multiplexer of rpc-common (src/mg_rpc/mg_rpc.c)

    A shallow embedding of the multiplexer's registries, of the pending
    request table, of the bounded send queue and of the channel event
    handler, followed by the properties of the specification that concern
    them.

    Conventions of the embedding.
    - The multiplexer [struct mg_rpc *c] is the state threaded by the monad
      [M]; a computation that dereferences a null or dangling pointer has
      no result ([None]).  The [c == NULL] early returns of the public
      functions have no state to act on and are not part of [M].
    - Heap objects that the code compares by address (channel entries,
      queue entries) carry the address they were allocated at.
    - Everything outside the file (transports, callbacks, [rand], the JSON
      scanner and printer, the URI helpers) is a field of [World]; a call
      that has an effect outside the multiplexer is recorded in the
      [trace] of the state, and the answer of an outside call may depend on
      the trace so far.  Callbacks are recorded, not run: what a callback
      does to the multiplexer is a later operation of its own. *)

From Stdlib Require Import ZArith List String Ascii Bool Arith Lia.
From Stdlib Require Import DecimalString.
Import ListNotations.
Local Open Scope Z_scope.

Set Implicit Arguments.

(** ** Data model *)

(** Addresses of heap objects, of channels and of callbacks. *)
Definition ptr := nat.

Bind Scope nat_scope with ptr.

(** [struct mg_str]: a length-delimited byte string. *)
Definition mg_str := string.

Bind Scope string_scope with mg_str.

Definition MG_NULL_STR : mg_str := EmptyString.

Infix "+++" := String.append (right associativity, at level 60).

Definition str_empty (s : mg_str) : bool := Nat.eqb (String.length s) 0.

(** [mg_strcmp (a, b) == 0] *)
Definition mg_str_eq (a b : mg_str) : bool := String.eqb a b.

Definition NUL : ascii := Ascii.zero.

(** The C string that starts at a buffer: the bytes before the first NUL. *)
Fixpoint c_str (s : string) : string :=
  match s with
  | EmptyString => EmptyString
  | String a s' => if Ascii.eqb a NUL then EmptyString else String a (c_str s')
  end.

(** The buffer [n] bytes further on. *)
Fixpoint str_drop (n : nat) (s : string) : string :=
  match n, s with
  | O, _ => s
  | S _, EmptyString => EmptyString
  | S n', String _ s' => str_drop n' s'
  end.

(** [mg_vcmp (&s, cstr) == 0] *)
Definition mg_vcmp_eq (s : mg_str) (cstr : string) : bool :=
  String.eqb s (c_str cstr).

(** Two's complement wrap-around of an [int64_t]. *)
Definition wrap64 (z : Z) : Z := (z + 2 ^ 63) mod 2 ^ 64 - 2 ^ 63.

Record mg_rpc_cfg := {
  cfg_id : string;
  max_queue_length : Z;
  default_out_channel_idle_close_timeout : Z
}.

Record mg_rpc_handler_info := {
  hi_method : string;
  hi_args_fmt : string;
  hi_cb : ptr;
  hi_cb_arg : ptr
}.

Record mg_rpc_channel_info_internal := {
  ci_ptr : ptr;            (* the address of the entry *)
  ci_dst : mg_str;
  ci_ch : ptr;             (* struct mg_rpc_channel * *)
  is_open : bool;
  is_busy : bool
}.

Record mg_rpc_sent_request_info := {
  sri_id : Z;
  sri_cb : ptr;
  sri_cb_arg : ptr
}.

Record mg_rpc_queue_entry := {
  qe_ptr : ptr;            (* the address of the entry *)
  qe_dst : mg_str;
  qe_frame : mg_str;
  qe_ci : option ptr       (* the pinned channel entry, or NULL *)
}.

Record mg_rpc_observer_info := {
  oi_cb : ptr;
  oi_cb_arg : ptr
}.

Record mg_rpc_frame := {
  version : Z;
  frame_id : Z;
  error_code : Z;
  frame_src : mg_str;
  frame_dst : mg_str;
  frame_tag : mg_str;
  frame_method : mg_str;
  frame_args : mg_str;
  frame_result : mg_str;
  error_msg : mg_str;
  frame_auth : mg_str
}.

Record mg_rpc_request_info := {
  ri_id : Z;
  ri_src : mg_str;
  ri_dst : mg_str;
  ri_tag : mg_str;
  ri_auth : mg_str;
  ri_method : mg_str;
  ri_args_fmt : string;
  ri_ch : ptr
}.

Record mg_rpc_frame_info := { channel_type : string }.

Record mg_rpc_call_opts := {
  opts_src : mg_str;
  opts_dst : mg_str;
  opts_tag : mg_str;
  opts_key : mg_str;
  opts_broadcast : bool;
  opts_no_queue : bool
}.

Record mg_rpc_channel_ws_out_cfg := {
  server_address : mg_str;
  ssl_ca_file : mg_str;
  ssl_client_cert_file : mg_str;
  ssl_server_name : mg_str;
  reconnect_interval_min : Z;
  reconnect_interval_max : Z;
  idle_close_timeout : Z
}.

Inductive mg_rpc_event := MG_RPC_EV_CHANNEL_OPEN | MG_RPC_EV_CHANNEL_CLOSED.

(** [enum mg_rpc_channel_event] together with its [ev_data]. *)
Inductive mg_rpc_channel_event :=
| MG_RPC_CHANNEL_OPEN
| MG_RPC_CHANNEL_FRAME_RECD (f : mg_str)
| MG_RPC_CHANNEL_FRAME_RECD_PARSED (frame : mg_rpc_frame)
| MG_RPC_CHANNEL_FRAME_SENT (success : Z)
| MG_RPC_CHANNEL_CLOSED.

(** The parts of a destination that [mg_parse_uri] returns. *)
Record uri := {
  uri_scheme : mg_str;
  uri_user_info : mg_str;
  uri_host : mg_str;
  uri_port : Z;
  uri_path : mg_str;
  uri_query : mg_str;
  uri_fragment : mg_str
}.

(** What the multiplexer does to the outside. *)
Inductive event :=
| EV_rand (r : Z)
| EV_log_error (msg : string)
| EV_ch_connect (ch : ptr)
| EV_ch_close (ch : ptr)
| EV_ch_destroy (ch : ptr)
| EV_send_frame (ch : ptr) (f : mg_str) (result : bool)
| EV_channel_ws_out (chcfg : mg_rpc_channel_ws_out_cfg) (ch : option ptr)
| EV_prehandler (cb cb_arg : ptr) (ri : mg_rpc_request_info)
    (fi : mg_rpc_frame_info) (args : mg_str) (ok : bool)
| EV_handler (cb cb_arg : ptr) (ri : mg_rpc_request_info)
    (fi : mg_rpc_frame_info) (args : mg_str)
| EV_result_cb (cb cb_arg : ptr) (fi : mg_rpc_frame_info)
    (result : mg_str) (error_code : Z) (error_msg : mg_str)
| EV_observer (cb cb_arg : ptr) (ev : mg_rpc_event) (dst : mg_str).

(** The targets that [json_scanf] fills in [mg_rpc_parse_frame]; [None] is a
    field that was not found, whose target is left as it was. *)
Record frame_scan := {
  scan_v : option Z;
  scan_id : option Z;
  scan_src : option mg_str;
  scan_dst : option mg_str;
  scan_tag : option mg_str;
  scan_method : option mg_str;
  scan_args : option mg_str;
  scan_auth : option mg_str;
  (* the token of result and whether its type is JSON_TYPE_STRING *)
  scan_result : option (mg_str * bool);
  scan_error_code : option Z;
  scan_error_msg : option mg_str
}.

(** Everything the file calls and does not define. *)
Record World := {
  (* <stdlib.h> *)
  rand : list event -> Z;
  atoi : string -> Z;
  (* struct mg_rpc_channel: the methods of a transport *)
  send_frame : list event -> ptr -> mg_str -> bool;
  is_persistent : list event -> ptr -> bool;
  has_is_broadcast_enabled : ptr -> bool;
  is_broadcast_enabled : list event -> ptr -> bool;
  get_type : ptr -> string;
  mg_rpc_channel_ws_out :
    list event -> mg_rpc_channel_ws_out_cfg -> option ptr;
  (* the outcome of the installed pre-handler *)
  prehandler_cb :
    list event -> ptr -> ptr -> mg_rpc_request_info -> mg_rpc_frame_info ->
    mg_str -> bool;
  (* mongoose *)
  mg_parse_uri : mg_str -> option uri;
  mg_assemble_uri :
    mg_str -> mg_str -> mg_str -> Z -> mg_str -> mg_str -> option mg_str;
  (* whether mg_assemble_uri writes the null string to *uri when it fails *)
  mg_assemble_uri_clears : bool;
  mg_get_http_var : mg_str -> string -> option string;
  MG_ENABLE_SSL : bool;
  (* mgos_sys_config *)
  rpc_ws_reconnect_interval_min : Z;
  rpc_ws_reconnect_interval_max : Z;
  (* frozen: the scan of a frame, its return value, %Q, %d and %lld *)
  json_scanf_frame : mg_str -> frame_scan;
  json_scanf_frame_ret : mg_str -> Z;
  json_quote : string -> string;
  print_int : Z -> string;
  (* mg_rpc.h *)
  MG_RPC_DST_DEFAULT : string
}.

(** [struct mg_rpc], with the allocator and the trace of the model. *)
Record mg_rpc := {
  cfg : mg_rpc_cfg;
  next_id : Z;
  queue_len : Z;
  local_ids : string;
  prehandler : option ptr;
  prehandler_arg : ptr;
  handlers : list mg_rpc_handler_info;
  channels : list mg_rpc_channel_info_internal;
  requests : list mg_rpc_sent_request_info;
  observers : list mg_rpc_observer_info;
  queue : list mg_rpc_queue_entry;
  heap_next : ptr;
  trace : list event
}.

(** Field updates of [struct mg_rpc]. *)
Definition set_next_id (v : Z) (c : mg_rpc) : mg_rpc :=
  {| cfg := cfg c; next_id := v; queue_len := queue_len c;
     local_ids := local_ids c; prehandler := prehandler c;
     prehandler_arg := prehandler_arg c; handlers := handlers c;
     channels := channels c; requests := requests c;
     observers := observers c; queue := queue c;
     heap_next := heap_next c; trace := trace c |}.

Definition set_queue_len (v : Z) (c : mg_rpc) : mg_rpc :=
  {| cfg := cfg c; next_id := next_id c; queue_len := v;
     local_ids := local_ids c; prehandler := prehandler c;
     prehandler_arg := prehandler_arg c; handlers := handlers c;
     channels := channels c; requests := requests c;
     observers := observers c; queue := queue c;
     heap_next := heap_next c; trace := trace c |}.

Definition set_local_ids (v : string) (c : mg_rpc) : mg_rpc :=
  {| cfg := cfg c; next_id := next_id c; queue_len := queue_len c;
     local_ids := v; prehandler := prehandler c;
     prehandler_arg := prehandler_arg c; handlers := handlers c;
     channels := channels c; requests := requests c;
     observers := observers c; queue := queue c;
     heap_next := heap_next c; trace := trace c |}.

Definition set_prehandler (cb : option ptr) (arg : ptr) (c : mg_rpc) : mg_rpc :=
  {| cfg := cfg c; next_id := next_id c; queue_len := queue_len c;
     local_ids := local_ids c; prehandler := cb;
     prehandler_arg := arg; handlers := handlers c;
     channels := channels c; requests := requests c;
     observers := observers c; queue := queue c;
     heap_next := heap_next c; trace := trace c |}.

Definition set_handlers (v : list mg_rpc_handler_info) (c : mg_rpc) : mg_rpc :=
  {| cfg := cfg c; next_id := next_id c; queue_len := queue_len c;
     local_ids := local_ids c; prehandler := prehandler c;
     prehandler_arg := prehandler_arg c; handlers := v;
     channels := channels c; requests := requests c;
     observers := observers c; queue := queue c;
     heap_next := heap_next c; trace := trace c |}.

Definition set_channels (v : list mg_rpc_channel_info_internal) (c : mg_rpc)
  : mg_rpc :=
  {| cfg := cfg c; next_id := next_id c; queue_len := queue_len c;
     local_ids := local_ids c; prehandler := prehandler c;
     prehandler_arg := prehandler_arg c; handlers := handlers c;
     channels := v; requests := requests c;
     observers := observers c; queue := queue c;
     heap_next := heap_next c; trace := trace c |}.

Definition set_requests (v : list mg_rpc_sent_request_info) (c : mg_rpc)
  : mg_rpc :=
  {| cfg := cfg c; next_id := next_id c; queue_len := queue_len c;
     local_ids := local_ids c; prehandler := prehandler c;
     prehandler_arg := prehandler_arg c; handlers := handlers c;
     channels := channels c; requests := v;
     observers := observers c; queue := queue c;
     heap_next := heap_next c; trace := trace c |}.

Definition set_observers (v : list mg_rpc_observer_info) (c : mg_rpc) : mg_rpc :=
  {| cfg := cfg c; next_id := next_id c; queue_len := queue_len c;
     local_ids := local_ids c; prehandler := prehandler c;
     prehandler_arg := prehandler_arg c; handlers := handlers c;
     channels := channels c; requests := requests c;
     observers := v; queue := queue c;
     heap_next := heap_next c; trace := trace c |}.

Definition set_queue (v : list mg_rpc_queue_entry) (c : mg_rpc) : mg_rpc :=
  {| cfg := cfg c; next_id := next_id c; queue_len := queue_len c;
     local_ids := local_ids c; prehandler := prehandler c;
     prehandler_arg := prehandler_arg c; handlers := handlers c;
     channels := channels c; requests := requests c;
     observers := observers c; queue := v;
     heap_next := heap_next c; trace := trace c |}.

Definition set_heap_next (v : ptr) (c : mg_rpc) : mg_rpc :=
  {| cfg := cfg c; next_id := next_id c; queue_len := queue_len c;
     local_ids := local_ids c; prehandler := prehandler c;
     prehandler_arg := prehandler_arg c; handlers := handlers c;
     channels := channels c; requests := requests c;
     observers := observers c; queue := queue c;
     heap_next := v; trace := trace c |}.

Definition set_trace (v : list event) (c : mg_rpc) : mg_rpc :=
  {| cfg := cfg c; next_id := next_id c; queue_len := queue_len c;
     local_ids := local_ids c; prehandler := prehandler c;
     prehandler_arg := prehandler_arg c; handlers := handlers c;
     channels := channels c; requests := requests c;
     observers := observers c; queue := queue c;
     heap_next := heap_next c; trace := v |}.

(** ** The monad of multiplexer code

    A computation reads and updates the multiplexer; [None] is undefined
    behaviour. *)
Definition M (A : Type) : Type := mg_rpc -> option (A * mg_rpc).

Definition ret {A} (a : A) : M A := fun c => Some (a, c).

Definition bind {A B} (m : M A) (k : A -> M B) : M B :=
  fun c => match m c with
           | Some (a, c') => k a c'
           | None => None
           end.

Notation "x <- m ;; k" := (bind m (fun x => k))
  (at level 61, m at next level, right associativity).
Notation "m ;; k" := (bind m (fun _ => k))
  (at level 61, right associativity).

Definition undefined {A} : M A := fun _ => None.

Definition get : M mg_rpc := fun c => Some (c, c).

Definition modify (f : mg_rpc -> mg_rpc) : M unit := fun c => Some (tt, f c).

(** An effect on the outside, appended to the trace. *)
Definition emit (e : event) : M unit :=
  modify (fun c => set_trace (trace c ++ [e]) c).

(** [calloc]: a fresh address.  But for [mg_rpc_create], the code uses the
    result of [calloc] without a test: this is a model of the runs in which
    [calloc] succeeds, and it says nothing of a run in which it fails. *)
Definition alloc : M ptr :=
  fun c => Some (heap_next c, set_heap_next (S (heap_next c)) c).

(** A loop over the elements of a list that was read before the loop. *)
Fixpoint foreach {A} (l : list A) (body : A -> M unit) : M unit :=
  match l with
  | [] => ret tt
  | x :: l' => body x ;; foreach l' body
  end.

(** ** The multiplexer *)

Section Multiplexer.

Variable W : World.

(** *** Channel entries behind their addresses *)

Fixpoint find_ci (p : ptr) (l : list mg_rpc_channel_info_internal)
  : option mg_rpc_channel_info_internal :=
  match l with
  | [] => None
  | ci :: l' => if Nat.eqb (ci_ptr ci) p then Some ci else find_ci p l'
  end.

Fixpoint update_ci (p : ptr)
    (f : mg_rpc_channel_info_internal -> mg_rpc_channel_info_internal)
    (l : list mg_rpc_channel_info_internal)
  : list mg_rpc_channel_info_internal :=
  match l with
  | [] => []
  | ci :: l' => if Nat.eqb (ci_ptr ci) p then f ci :: l'
                else ci :: update_ci p f l'
  end.

(** [SLIST_REMOVE (&c->channels, ci, ...)] *)
Fixpoint remove_ci (p : ptr) (l : list mg_rpc_channel_info_internal)
  : list mg_rpc_channel_info_internal :=
  match l with
  | [] => []
  | ci :: l' => if Nat.eqb (ci_ptr ci) p then l' else ci :: remove_ci p l'
  end.

(** Reading [*ci]; a [ci] that is not an entry of the registry dangles. *)
Definition deref_ci (p : ptr) : M mg_rpc_channel_info_internal :=
  fun c => match find_ci p (channels c) with
           | Some ci => Some (ci, c)
           | None => None
           end.

(** Writing fields of [*ci]. *)
Definition store_ci (p : ptr)
    (f : mg_rpc_channel_info_internal -> mg_rpc_channel_info_internal)
  : M unit :=
  _ <- deref_ci p ;;
  modify (fun c => set_channels (update_ci p f (channels c)) c).

Definition set_is_open (b : bool) (ci : mg_rpc_channel_info_internal) :=
  {| ci_ptr := ci_ptr ci; ci_dst := ci_dst ci; ci_ch := ci_ch ci;
     is_open := b; is_busy := is_busy ci |}.

Definition set_is_busy (b : bool) (ci : mg_rpc_channel_info_internal) :=
  {| ci_ptr := ci_ptr ci; ci_dst := ci_dst ci; ci_ch := ci_ch ci;
     is_open := is_open ci; is_busy := b |}.

Definition set_ci_dst (d : mg_str) (ci : mg_rpc_channel_info_internal) :=
  {| ci_ptr := ci_ptr ci; ci_dst := d; ci_ch := ci_ch ci;
     is_open := is_open ci; is_busy := is_busy ci |}.

(** *** Request ids, observers, channel lookup *)

Definition mg_rpc_get_id : M Z :=
  c <- get ;;
  let r := rand W (trace c) in
  emit (EV_rand r) ;;
  let id := wrap64 (next_id c + r) in
  modify (set_next_id id) ;;
  ret id.

Definition mg_rpc_call_observers (ev : mg_rpc_event) (ev_arg : mg_str)
  : M unit :=
  c <- get ;;
  foreach (observers c)
    (fun oi => emit (EV_observer (oi_cb oi) (oi_cb_arg oi) ev ev_arg)).

Definition mg_rpc_get_channel_info_internal (ch : ptr) : M (option ptr) :=
  c <- get ;;
  ret (option_map ci_ptr
         (find (fun ci => Nat.eqb (ci_ch ci) ch) (channels c))).

Definition mg_rpc_add_channel_internal (dst : mg_str) (ch : ptr) : M ptr :=
  p <- alloc ;;
  modify (fun c =>
    set_channels
      ({| ci_ptr := p;
          ci_dst := if negb (str_empty dst) then dst else MG_NULL_STR;
          ci_ch := ch; is_open := false; is_busy := false |}
       :: channels c) c) ;;
  ret p.

(** *** Destinations *)

Definition canonicalize_dst_uri (u : uri) : option mg_str :=
  mg_assemble_uri W (uri_scheme u) (uri_user_info u) (uri_host u)
    (uri_port u) (uri_path u) (uri_query u).

(** [u1] and [u2] are not initialised, and both are freed.  When the first
    call of [canonicalize_dst_uri] fails the second one is not made, and
    [free (u2.p)] frees what was never written: no defined behaviour.  When
    the second call fails, [u2] holds what [mg_assemble_uri] has left in it:
    the null string, or nothing at all, and then there is no defined
    behaviour either. *)
Definition dst_is_equal (d1 d2 : mg_str) : option bool :=
  match mg_parse_uri W d1, mg_parse_uri W d2 with
  | None, None => Some (mg_str_eq d1 d2)
  | Some u1, Some u2 =>
      match canonicalize_dst_uri u1 with
      | Some c1 =>
          match canonicalize_dst_uri u2 with
          | Some c2 => Some (mg_str_eq c1 c2)
          | None => if mg_assemble_uri_clears W then Some false else None
          end
      | None => None
      end
  | _, _ => Some false   (* URI vs simple ID comparisons remain undefined *)
  end.

(** The scan of the registry in [mg_rpc_get_channel_info_internal_by_dst]:
    the entry that [goto out] leaves with, and [default_ch]; nothing when a
    comparison has no defined behaviour. *)
Fixpoint scan_channels (dst : mg_str)
    (l : list mg_rpc_channel_info_internal) (default_ch : option ptr)
  : option (option ptr * option ptr) :=
  match l with
  | [] => Some (None, default_ch)
  | ci :: l' =>
      match (if negb (str_empty dst) then dst_is_equal dst (ci_dst ci)
             else Some false) with
      | Some true => Some (Some (ci_ptr ci), default_ch)
      | Some false =>
          scan_channels dst l'
            (if mg_vcmp_eq (ci_dst ci) (MG_RPC_DST_DEFAULT W)
             then Some (ci_ptr ci) else default_ch)
      | None => None
      end
  end.

(** [is_uri], with the parts of the destination when it holds. *)
Definition dst_uri (dst : mg_str) : option uri :=
  if negb (str_empty dst) then
    match mg_parse_uri W dst with
    | Some u => if negb (str_empty (uri_scheme u)) then Some u else None
    | None => None
    end
  else None.

Definition http_var_str (fragment : mg_str) (name : string) : mg_str :=
  match mg_get_http_var W fragment name with
  | Some v => v
  | None => MG_NULL_STR
  end.

Definition http_var_int (fragment : mg_str) (name : string) (dflt : Z) : Z :=
  match mg_get_http_var W fragment name with
  | Some v => atoi W v
  | None => dflt
  end.

Definition ws_out_cfg (c : mg_rpc) (u : uri) (canon_dst : mg_str)
  : mg_rpc_channel_ws_out_cfg :=
  let fragment := uri_fragment u in
  let ssl name :=
    if MG_ENABLE_SSL W then http_var_str fragment name else MG_NULL_STR in
  {| server_address := canon_dst;
     ssl_ca_file := ssl "ssl_ca_file"%string;
     ssl_client_cert_file := ssl "ssl_client_cert_file"%string;
     ssl_server_name := ssl "ssl_server_name"%string;
     reconnect_interval_min :=
       http_var_int fragment "reconnect_interval_min"
         (rpc_ws_reconnect_interval_min W);
     reconnect_interval_max :=
       http_var_int fragment "reconnect_interval_max"
         (rpc_ws_reconnect_interval_max W);
     idle_close_timeout :=
       http_var_int fragment "idle_close_timeout"
         (default_out_channel_idle_close_timeout (cfg c)) |}.

Definition is_ws_scheme (scheme : mg_str) : bool :=
  mg_vcmp_eq scheme "ws" || mg_vcmp_eq scheme "wss" ||
  mg_vcmp_eq scheme "http" || mg_vcmp_eq scheme "https".

(** Returns the entry and what is left in [*dst]. *)
Definition mg_rpc_get_channel_info_internal_by_dst (dst : mg_str)
  : M (option ptr * mg_str) :=
  c <- get ;;
  let is_uri := dst_uri dst in
  let out (ci : option ptr) : M (option ptr * mg_str) :=
    ret (ci, match is_uri with Some _ => MG_NULL_STR | None => dst end) in
  match scan_channels dst (channels c) None with
  | None => undefined
  | Some (Some ci, _) => out (Some ci)
  | Some (None, default_ch) =>
      match is_uri with
      | Some u =>
          if is_ws_scheme (uri_scheme u) then
            let canon_dst :=
              match canonicalize_dst_uri u with
              | Some s => s
              | None => MG_NULL_STR
              end in
            let chcfg := ws_out_cfg c u canon_dst in
            let ch := mg_rpc_channel_ws_out W (trace c) chcfg in
            emit (EV_channel_ws_out chcfg ch) ;;
            match ch with
            | Some ch =>
                ci <- mg_rpc_add_channel_internal canon_dst ch ;;
                emit (EV_ch_connect ch) ;;
                out (Some ci)
            | None =>
                emit (EV_log_error
                        ("Failed to create RPC channel from " +++ dst)) ;;
                out None
            end
          else
            emit (EV_log_error
                    ("Unsupported connection scheme in " +++ dst)) ;;
            out None
      | None => out default_ch
      end
  end.

(** *** The send queue *)

Definition mg_rpc_send_frame (ci : option ptr) (f : mg_str) : M bool :=
  match ci with
  | None => ret false
  | Some p =>
      e <- deref_ci p ;;
      if negb (is_open e) || is_busy e then ret false
      else
        c <- get ;;
        let result := send_frame W (trace c) (ci_ch e) f in
        emit (EV_send_frame (ci_ch e) f result) ;;
        (if result then store_ci p (set_is_busy true) else ret tt) ;;
        ret result
  end.

Definition mg_rpc_enqueue_frame (ci : option ptr) (dst f : mg_str) : M bool :=
  c <- get ;;
  if queue_len c >=? max_queue_length (cfg c) then ret false
  else
    qe <- alloc ;;
    modify (fun c =>
      set_queue_len (queue_len c + 1)
        (set_queue
           (queue c ++
            [{| qe_ptr := qe; qe_dst := dst; qe_frame := f; qe_ci := ci |}])
           c)) ;;
    ret true.

(** [STAILQ_REMOVE (&c->queue, qe, ...)]; an entry that is not on the queue
    cannot be unlinked. *)
Fixpoint unlink_qe (p : ptr) (q : list mg_rpc_queue_entry)
  : option (list mg_rpc_queue_entry) :=
  match q with
  | [] => None
  | e :: q' => if Nat.eqb (qe_ptr e) p then Some q'
               else option_map (cons e) (unlink_qe p q')
  end.

Definition mg_rpc_remove_queue_entry (qe : ptr) : M unit :=
  fun c => match unlink_qe qe (queue c) with
           | Some q' =>
               Some (tt, set_queue_len (queue_len c - 1) (set_queue q' c))
           | None => None
           end.

(** The body of the loop of [mg_rpc_process_queue]. *)
Definition process_queue_entry (qe : mg_rpc_queue_entry) : M unit :=
  ci <- match qe_ci qe with
        | Some p => ret (Some p)
        | None =>
            r <- mg_rpc_get_channel_info_internal_by_dst (qe_dst qe) ;;
            ret (fst r)
        end ;;
  ok <- mg_rpc_send_frame ci (qe_frame qe) ;;
  if ok then mg_rpc_remove_queue_entry (qe_ptr qe) else ret tt.

(** [STAILQ_FOREACH_SAFE]: the successor is read before the body runs, and
    the body unlinks no entry but the current one. *)
Definition mg_rpc_process_queue : M unit :=
  c <- get ;;
  foreach (queue c) process_queue_entry.

(** *** Emitting frames *)

(** The double quote, and a key as [json_printf] prints it. *)
Definition DQ : string := String (ascii_of_nat 34) EmptyString.

Definition json_key (name : string) : string := DQ +++ name +++ DQ +++ ":".

(** [%Q] of a [char *] that may be NULL. *)
Definition json_Q_cstr (buf : option string) : string :=
  match buf with
  | Some s => json_quote W (c_str s)
  | None => "null"%string
  end.

(** [c->local_ids.buf]: NULL until the first id is appended. *)
Definition local_ids_buf (c : mg_rpc) : option string :=
  if str_empty (local_ids c) then None else Some (local_ids c).

(** The bytes that [mg_rpc_dispatch_frame] prints into [fb];
    [payload] is what [json_vprintf (payload_jsonf, ap)] prints. *)
Definition frame_bytes (c : mg_rpc) (src final_dst : mg_str) (id : Z)
    (tag key payload_prefix_json : mg_str) (payload : option string)
  : mg_str :=
  ("{" +++
   (if negb (Z.eqb id 0)
    then json_key "id" +++ print_int W id +++ "," else "") +++
   (if negb (str_empty src) then json_key "src" +++ json_quote W src
    else json_key "src" +++ json_Q_cstr (local_ids_buf c)) +++
   (if negb (str_empty final_dst)
    then "," +++ json_key "dst" +++ json_quote W final_dst else "") +++
   (if negb (str_empty tag)
    then "," +++ json_key "tag" +++ json_quote W tag else "") +++
   (if negb (str_empty key)
    then "," +++ json_key "key" +++ json_quote W key else "") +++
   (if negb (str_empty payload_prefix_json)
    then "," +++ payload_prefix_json else "") +++
   (match payload with Some p => p | None => "" end) +++
   "}")%string.

Definition mg_rpc_dispatch_frame (src dst : mg_str) (id : Z)
    (tag key : mg_str) (ci : option ptr) (enqueue : bool)
    (payload_prefix_json : mg_str) (payload : option string) : M bool :=
  r <- match ci with
       | None => mg_rpc_get_channel_info_internal_by_dst dst
       | Some p => ret (Some p, dst)
       end ;;
  let ci := fst r in
  let final_dst := snd r in
  c <- get ;;
  let f := frame_bytes c src final_dst id tag key payload_prefix_json payload in
  (* Try sending directly first or put on the queue. *)
  sent <- mg_rpc_send_frame ci f ;;
  if sent then ret true
  else if enqueue then
    queued <- mg_rpc_enqueue_frame ci dst f ;;
    if queued then ret true else ret false
  else ret false.

Definition mg_rpc_send_responsef (ri : mg_rpc_request_info)
    (result_json : option string) : M bool :=
  let result_json :=
    match result_json with
    | Some r => r
    | None => "null"%string
    end in
  ci <- mg_rpc_get_channel_info_internal (ri_ch ri) ;;
  mg_rpc_dispatch_frame (ri_dst ri) (ri_src ri) (ri_id ri) (ri_tag ri)
    MG_NULL_STR ci true (json_key "result") (Some result_json).

(** [error_msg] is what the message format prints, when there is one. *)
Definition send_errorf (ri : mg_rpc_request_info) (error_code : Z)
    (is_json : bool) (error_msg : option string) : M bool :=
  let message :=
    match error_msg with
    | Some m =>
        if (0 <? String.length m)%nat
        then ("," +++ json_key "message" +++
              json_quote W (if is_json then m else c_str m))%string
        else ""%string
    | None => ""%string
    end in
  let prefb :=
    (json_key "error" +++ "{" +++ json_key "code" +++
     print_int W error_code +++ message +++ "}")%string in
  ci <- mg_rpc_get_channel_info_internal (ri_ch ri) ;;
  mg_rpc_dispatch_frame (ri_dst ri) (ri_src ri) (ri_id ri) (ri_tag ri)
    MG_NULL_STR ci true prefb None.

Definition mg_rpc_send_errorf (ri : mg_rpc_request_info) (error_code : Z)
    (error_msg : option string) : M bool :=
  send_errorf ri error_code false error_msg.

Definition mg_rpc_send_error_jsonf (ri : mg_rpc_request_info) (error_code : Z)
    (error_msg : option string) : M bool :=
  send_errorf ri error_code true error_msg.

(** *** Inbound frames *)

Definition mg_rpc_handle_request (ci : ptr) (frame : mg_rpc_frame) : M bool :=
  e <- deref_ci ci ;;
  c <- get ;;
  let ri args_fmt :=
    {| ri_id := frame_id frame; ri_src := frame_src frame;
       ri_dst := frame_dst frame; ri_tag := frame_tag frame;
       ri_auth := frame_auth frame; ri_method := frame_method frame;
       ri_args_fmt := args_fmt; ri_ch := ci_ch e |} in
  match find (fun hi => mg_vcmp_eq (frame_method frame) (hi_method hi))
          (handlers c) with
  | None =>
      emit (EV_log_error ("No handler for " +++ frame_method frame)) ;;
      _ <- mg_rpc_send_errorf (ri ""%string) 404
             (Some ("No handler for " +++ frame_method frame)) ;;
      ret true
  | Some hi =>
      let fi := {| channel_type := get_type W (ci_ch e) |} in
      let ri := ri (hi_args_fmt hi) in
      ok <- match prehandler c with
            | Some cb =>
                let ok := prehandler_cb W (trace c) cb (prehandler_arg c)
                            ri fi (frame_args frame) in
                emit (EV_prehandler cb (prehandler_arg c) ri fi
                        (frame_args frame) ok) ;;
                ret ok
            | None => ret true
            end ;;
      (if ok
       then emit (EV_handler (hi_cb hi) (hi_cb_arg hi) ri fi (frame_args frame))
       else ret tt) ;;
      ret true
  end.

(** The first pending request with the id, and the list without it
    ([SLIST_FOREACH] with [break], then [SLIST_REMOVE]). *)
Fixpoint take_request (id : Z) (l : list mg_rpc_sent_request_info)
  : option (mg_rpc_sent_request_info * list mg_rpc_sent_request_info) :=
  match l with
  | [] => None
  | ri :: l' =>
      if sri_id ri =? id then Some (ri, l')
      else match take_request id l' with
           | Some (r, rest) => Some (r, ri :: rest)
           | None => None
           end
  end.

Definition mg_rpc_handle_response (ci : ptr) (id : Z) (result : mg_str)
    (error_code : Z) (error_msg : mg_str) : M bool :=
  if id =? 0 then
    emit (EV_log_error "Response without an ID") ;;
    ret false
  else
    c <- get ;;
    match take_request id (requests c) with
    | None => ret true
    | Some (ri, rest) =>
        modify (set_requests rest) ;;
        e <- deref_ci ci ;;
        let fi := {| channel_type := get_type W (ci_ch e) |} in
        emit (EV_result_cb (sri_cb ri) (sri_cb_arg ri) fi result error_code
                error_msg) ;;
        ret true
    end.

(** The number of targets that a scan filled. *)
Definition scan_count (s : frame_scan) : Z :=
  let one {A} (o : option A) : Z :=
    match o with Some _ => 1 | None => 0 end in
  one (scan_v s) + one (scan_id s) + one (scan_src s) + one (scan_dst s) +
  one (scan_tag s) + one (scan_method s) + one (scan_args s) +
  one (scan_auth s) + one (scan_result s) + one (scan_error_code s) +
  one (scan_error_msg s).

Definition mg_rpc_parse_frame (f : mg_str) : option mg_rpc_frame :=
  if json_scanf_frame_ret W f <? 1 then None
  else
    let s := json_scanf_frame W f in
    let int (o : option Z) := match o with Some z => z | None => 0 end in
    let token (o : option mg_str) :=
      match o with Some t => t | None => MG_NULL_STR end in
    let result :=
      match scan_result s with
      | Some (t, true) => DQ +++ t +++ DQ
      | Some (t, false) => t
      | None => MG_NULL_STR
      end in
    Some {| version := int (scan_v s);
            frame_id := int (scan_id s);
            error_code := int (scan_error_code s);
            frame_src := token (scan_src s);
            frame_dst := token (scan_dst s);
            frame_tag := token (scan_tag s);
            frame_method := token (scan_method s);
            frame_args := token (scan_args s);
            frame_result := result;
            error_msg := token (scan_error_msg s);
            frame_auth := token (scan_auth s) |}.

(** The loop of [is_local_id] over the buffer from [buf + i] on; every
    round moves on by at least one byte, so the length of the buffer is
    enough fuel. *)
Fixpoint is_local_id_loop (fuel : nat) (rest : string) (id : mg_str) : bool :=
  match fuel with
  | O => false
  | S fuel' =>
      if str_empty rest then false
      else
        let local_id := c_str rest in
        if mg_str_eq id local_id then true
        else is_local_id_loop fuel'
               (str_drop (String.length local_id + 1) rest) id
  end.

Definition is_local_id (c : mg_rpc) (id : mg_str) : bool :=
  is_local_id_loop (String.length (local_ids c)) (local_ids c) id.

Definition mg_rpc_handle_frame (ci : ptr) (frame : mg_rpc_frame) : M bool :=
  e <- deref_ci ci ;;
  c <- get ;;
  if negb (is_open e) then
    emit (EV_log_error "Ignored frame from closed channel") ;;
    ret false
  else if negb (str_empty (frame_dst frame)) &&
          negb (is_local_id c (frame_dst frame)) then
    emit (EV_log_error ("Wrong dst: " +++ frame_dst frame)) ;;
    ret false
  else
    (* If this channel did not have an associated address, record it now. *)
    (if str_empty (ci_dst e) then store_ci ci (set_ci_dst (frame_src frame))
     else ret tt) ;;
    if (0 <? String.length (frame_method frame))%nat then
      ok <- mg_rpc_handle_request ci frame ;;
      if negb ok then ret false else ret true
    else
      ok <- mg_rpc_handle_response ci (frame_id frame) (frame_result frame)
              (error_code frame) (error_msg frame) ;;
      if negb ok then ret false else ret true.

(** *** Channel events *)

Definition mg_rpc_ev_handler (ch : ptr) (ev : mg_rpc_channel_event) : M unit :=
  c <- get ;;
  match find (fun ci => Nat.eqb (ci_ch ci) ch) (channels c) with
  | None =>
      (* This shouldn't happen, there must be info for all chans, but... *)
      ret tt
  | Some e =>
      let ci := ci_ptr e in
      match ev with
      | MG_RPC_CHANNEL_OPEN =>
          store_ci ci (set_is_open true) ;;
          store_ci ci (set_is_busy false) ;;
          mg_rpc_process_queue ;;
          e <- deref_ci ci ;;
          if (0 <? String.length (ci_dst e))%nat
          then mg_rpc_call_observers MG_RPC_EV_CHANNEL_OPEN (ci_dst e)
          else ret tt
      | MG_RPC_CHANNEL_FRAME_RECD f =>
          ok <- match mg_rpc_parse_frame f with
                | Some frame => mg_rpc_handle_frame ci frame
                | None => ret false
                end ;;
          if negb ok then
            emit (EV_log_error ("INVALID FRAME: " +++ f)) ;;
            c <- get ;;
            if negb (is_persistent W (trace c) ch)
            then emit (EV_ch_close ch) else ret tt
          else ret tt
      | MG_RPC_CHANNEL_FRAME_RECD_PARSED frame =>
          ok <- mg_rpc_handle_frame ci frame ;;
          if negb ok then
            emit (EV_log_error
                    ("INVALID PARSED FRAME from " +++ frame_src frame)) ;;
            c <- get ;;
            if negb (is_persistent W (trace c) ch)
            then emit (EV_ch_close ch) else ret tt
          else ret tt
      | MG_RPC_CHANNEL_FRAME_SENT success =>
          store_ci ci (set_is_busy false) ;;
          mg_rpc_process_queue
      | MG_RPC_CHANNEL_CLOSED =>
          let remove := negb (is_persistent W (trace c) ch) in
          store_ci ci (set_is_busy false) ;;
          store_ci ci (set_is_open false) ;;
          e <- deref_ci ci ;;
          (if (0 <? String.length (ci_dst e))%nat
           then mg_rpc_call_observers MG_RPC_EV_CHANNEL_CLOSED (ci_dst e)
           else ret tt) ;;
          if remove then
            c <- get ;;
            foreach (queue c) (fun qe =>
              match qe_ci qe with
              | Some p => if Nat.eqb p ci
                          then mg_rpc_remove_queue_entry (qe_ptr qe)
                          else ret tt
              | None => ret tt
              end) ;;
            modify (fun c => set_channels (remove_ci ci (channels c)) c) ;;
            emit (EV_ch_destroy ch)
          else ret tt
      end
  end.

(** *** The public operations *)

Definition mg_rpc_add_channel (dst : mg_str) (ch : ptr) : M unit :=
  _ <- mg_rpc_add_channel_internal dst ch ;;
  ret tt.

Definition mg_rpc_connect : M unit :=
  c <- get ;;
  foreach (channels c) (fun ci => emit (EV_ch_connect (ci_ch ci))).

Definition mg_rpc_disconnect : M unit :=
  c <- get ;;
  foreach (channels c) (fun ci => emit (EV_ch_close (ci_ch ci))).

Definition mg_rpc_add_local_id (id : mg_str) : M unit :=
  if str_empty id then ret tt
  else modify (fun c =>
         set_local_ids (local_ids c +++ id +++ String NUL EmptyString) c).

Definition mg_rpc_create (cfg : mg_rpc_cfg) : mg_rpc :=
  let c :=
    {| cfg := cfg; next_id := 0; queue_len := 0; local_ids := EmptyString;
       prehandler := None; prehandler_arg := O; handlers := [];
       channels := []; requests := []; observers := []; queue := [];
       heap_next := 1%nat; trace := [] |} in
  match mg_rpc_add_local_id (c_str (cfg_id cfg)) c with
  | Some (_, c') => c'
  | None => c
  end.

(** The loop of a broadcast call over the registry. *)
Fixpoint vcallf_broadcast (l : list mg_rpc_channel_info_internal)
    (src dst : mg_str) (id : Z) (tag key pprefix : mg_str)
    (args : option string) (result : bool) : M bool :=
  match l with
  | [] => ret result
  | ci :: l' =>
      c <- get ;;
      if negb (has_is_broadcast_enabled W (ci_ch ci)) ||
         negb (is_broadcast_enabled W (trace c) (ci_ch ci))
      then vcallf_broadcast l' src dst id tag key pprefix args result
      else
        r <- mg_rpc_dispatch_frame src dst id tag key (Some (ci_ptr ci))
               false pprefix args ;;
        vcallf_broadcast l' src dst id tag key pprefix args (result || r)
  end.

(** A field of the options read behind its guard:
    [if (opts != NULL && opts->field.len > 0) x = opts->field;]
    with [x] initialised to [MG_NULL_STR]. *)
Definition guarded_opt (opts : option mg_rpc_call_opts)
    (field : mg_rpc_call_opts -> mg_str) : mg_str :=
  match opts with
  | Some o => if (0 <? String.length (field o))%nat then field o
              else MG_NULL_STR
  | None => MG_NULL_STR
  end.

(** [args] is what [args_jsonf] prints with the arguments of the call,
    [None] when [args_jsonf] is NULL; [opts] is [None] when it is NULL. *)
Definition mg_rpc_vcallf (method : mg_str) (cb : option ptr) (cb_arg : ptr)
    (opts : option mg_rpc_call_opts) (args : option string) : M bool :=
  id <- mg_rpc_get_id ;;
  let dst := guarded_opt opts opts_dst in
  let tag := guarded_opt opts opts_tag in
  let key := guarded_opt opts opts_key in
  let ri :=
    match cb with
    | Some f => Some {| sri_id := id; sri_cb := f; sri_cb_arg := cb_arg |}
    | None => None
    end in
  let pprefix :=
    ((match cb with
      | Some _ => ""
      | None =>
          (* No callback - put marker in the frame that no response is
             expected *)
          json_key "nr" +++ "true,"
      end) +++
     json_key "method" +++ json_quote W method +++
     (match args with Some _ => "," +++ json_key "args" | None => "" end))%string in
  match opts with
  | None => undefined   (* opts->src *)
  | Some o =>
      c <- get ;;
      let src :=
        if str_empty (opts_src o) then c_str (cfg_id (cfg c))
        else opts_src o in
      result <-
        (if negb (opts_broadcast o) then
           let enqueue := negb (opts_no_queue o) in
           mg_rpc_dispatch_frame src dst id tag key None enqueue pprefix args
         else
           vcallf_broadcast (channels c) src dst id tag key pprefix args
             false) ;;
      match ri with
      | Some ri =>
          if result then
            modify (fun c => set_requests (ri :: requests c) c) ;;
            ret true
          else
            (* Could not send or queue, drop on the floor. *)
            ret false
      | None => ret false
      end
  end.

Definition mg_rpc_callf (method : mg_str) (cb : option ptr) (cb_arg : ptr)
    (opts : option mg_rpc_call_opts) (args : option string) : M bool :=
  mg_rpc_vcallf method cb cb_arg opts args.

Definition mg_rpc_add_handler (method args_fmt : string) (cb cb_arg : ptr)
  : M unit :=
  modify (fun c =>
    set_handlers
      ({| hi_method := method; hi_args_fmt := args_fmt; hi_cb := cb;
          hi_cb_arg := cb_arg |} :: handlers c) c).

Definition mg_rpc_set_prehandler (cb : option ptr) (cb_arg : ptr) : M unit :=
  modify (set_prehandler cb cb_arg).

Definition mg_rpc_is_connected : M bool :=
  r <- mg_rpc_get_channel_info_internal_by_dst (c_str (MG_RPC_DST_DEFAULT W)) ;;
  match fst r with
  | Some p => e <- deref_ci p ;; ret (is_open e)
  | None => ret false
  end.

Definition mg_rpc_can_send : M bool :=
  r <- mg_rpc_get_channel_info_internal_by_dst (c_str (MG_RPC_DST_DEFAULT W)) ;;
  match fst r with
  | Some p => e <- deref_ci p ;; ret (is_open e && negb (is_busy e))
  | None => ret false
  end.

Definition mg_rpc_add_observer (cb cb_arg : ptr) : M unit :=
  modify (fun c =>
    set_observers ({| oi_cb := cb; oi_cb_arg := cb_arg |} :: observers c) c).

Fixpoint remove_observer (cb cb_arg : ptr) (l : list mg_rpc_observer_info)
  : list mg_rpc_observer_info :=
  match l with
  | [] => []
  | oi :: l' =>
      if Nat.eqb (oi_cb oi) cb && Nat.eqb (oi_cb_arg oi) cb_arg then l'
      else oi :: remove_observer cb cb_arg l'
  end.

Definition mg_rpc_remove_observer (cb cb_arg : ptr) : M unit :=
  modify (fun c => set_observers (remove_observer cb cb_arg (observers c)) c).

(** *** The multiplexer as a transition system

    What the application, the handlers and the transports can ask of a
    multiplexer once it is created. *)
Inductive op :=
| Op_add_local_id (id : mg_str)
| Op_add_handler (method args_fmt : string) (cb cb_arg : ptr)
| Op_set_prehandler (cb : option ptr) (cb_arg : ptr)
| Op_add_observer (cb cb_arg : ptr)
| Op_remove_observer (cb cb_arg : ptr)
| Op_add_channel (dst : mg_str) (ch : ptr)
| Op_connect
| Op_disconnect
| Op_is_connected
| Op_can_send
| Op_callf (method : mg_str) (cb : option ptr) (cb_arg : ptr)
    (opts : option mg_rpc_call_opts) (args : option string)
| Op_send_responsef (ri : mg_rpc_request_info) (result_json : option string)
| Op_send_errorf (ri : mg_rpc_request_info) (error_code : Z)
    (error_msg : option string)
| Op_send_error_jsonf (ri : mg_rpc_request_info) (error_code : Z)
    (error_msg : option string)
| Op_ev_handler (ch : ptr) (ev : mg_rpc_channel_event).

Definition run_op (o : op) : M unit :=
  match o with
  | Op_add_local_id id => mg_rpc_add_local_id id
  | Op_add_handler method args_fmt cb cb_arg =>
      mg_rpc_add_handler method args_fmt cb cb_arg
  | Op_set_prehandler cb cb_arg => mg_rpc_set_prehandler cb cb_arg
  | Op_add_observer cb cb_arg => mg_rpc_add_observer cb cb_arg
  | Op_remove_observer cb cb_arg => mg_rpc_remove_observer cb cb_arg
  | Op_add_channel dst ch => mg_rpc_add_channel dst ch
  | Op_connect => mg_rpc_connect
  | Op_disconnect => mg_rpc_disconnect
  | Op_is_connected => _ <- mg_rpc_is_connected ;; ret tt
  | Op_can_send => _ <- mg_rpc_can_send ;; ret tt
  | Op_callf method cb cb_arg opts args =>
      _ <- mg_rpc_callf method cb cb_arg opts args ;; ret tt
  | Op_send_responsef ri result_json =>
      _ <- mg_rpc_send_responsef ri result_json ;; ret tt
  | Op_send_errorf ri error_code error_msg =>
      _ <- mg_rpc_send_errorf ri error_code error_msg ;; ret tt
  | Op_send_error_jsonf ri error_code error_msg =>
      _ <- mg_rpc_send_error_jsonf ri error_code error_msg ;; ret tt
  | Op_ev_handler ch ev => mg_rpc_ev_handler ch ev
  end.

(** The observable moments of a multiplexer created from [cfg]: the states
    between two operations. *)
Inductive reachable (cfg : mg_rpc_cfg) : mg_rpc -> Prop :=
| reachable_create : reachable cfg (mg_rpc_create cfg)
| reachable_step c o c' :
    reachable cfg c -> run_op o c = Some (tt, c') -> reachable cfg c'.

End Multiplexer.

(** ** The rest of the file: the built-in handlers, the list of channels
    and digest authentication *)

(** [struct mg_rpc_channel_info], as [mg_rpc_get_channel_info] fills it. *)
Record mg_rpc_channel_info := {
  chi_dst : mg_str;
  chi_type : mg_str;
  chi_info : mg_str;
  chi_is_open : bool;
  chi_is_persistent : bool;
  chi_is_broadcast_enabled : bool
}.

(** The five tokens that [json_scanf] fills in [mg_rpc_check_digest_auth]. *)
Record auth_scan := {
  auth_realm : mg_str;
  auth_username : mg_str;
  auth_nonce : mg_str;
  auth_cnonce : mg_str;
  auth_response : mg_str
}.

(** What these functions call and the multiplexer proper does not. *)
Record Env := {
  (* struct mg_rpc_channel: [get_info], a string or NULL *)
  get_info : list event -> ptr -> option string;
  (* <stdlib.h>: whether [realloc] to [n] records succeeds *)
  realloc_ok : nat -> bool;
  (* frozen: [json_scanf (args, fmt, &t)] with one target; a token when
     the return value is 1 *)
  json_scanf_token : string -> mg_str -> option mg_str;
  (* frozen: the scan of [ri->auth]; the tokens when the return value
     is 5 *)
  json_scanf_auth : mg_str -> option auth_scan;
  (* mgos_sys_config *)
  rpc_auth_domain : string;
  rpc_auth_file : string;
  (* <stdio.h>: [fopen (path, "r")], a stream or NULL *)
  fopen_r : list event -> string -> option ptr;
  (* mongoose: method, uri, username, cnonce, response, qop, nc, nonce,
     realm and the stream *)
  mg_check_digest_auth :
    mg_str -> mg_str -> mg_str -> mg_str -> mg_str -> mg_str -> mg_str ->
    mg_str -> mg_str -> ptr -> Z;
  (* the addresses of the three static handlers *)
  mg_rpc_list_handler_addr : ptr;
  mg_rpc_describe_handler_addr : ptr;
  mg_rpc_ping_handler_addr : ptr
}.

Section Builtin.

Variable W : World.
Variable E : Env.

(** *** RPC.List, RPC.Describe, RPC.Ping *)

(** The loop of [mg_rpc_list_handler] over the registry, from the bytes
    that [mbuf] holds. *)
Fixpoint list_handler_loop (l : list mg_rpc_handler_info) (mbuf : string)
  : string :=
  match l with
  | [] => mbuf
  | hi :: l' =>
      let mbuf :=
        if (1 <? String.length mbuf)%nat then (mbuf +++ ",")%string
        else mbuf in
      list_handler_loop l' (mbuf +++ json_quote W (c_str (hi_method hi)))
  end.

(** [%.*s] prints the bytes of the buffer up to a NUL. *)
Definition mg_rpc_list_handler (ri : mg_rpc_request_info) : M unit :=
  c <- get ;;
  let mbuf := (list_handler_loop (handlers c) "[" +++ "]")%string in
  _ <- mg_rpc_send_responsef W ri (Some (c_str mbuf)) ;;
  ret tt.

Definition mg_rpc_describe_handler (ri : mg_rpc_request_info) (args : mg_str)
  : M unit :=
  match json_scanf_token E (ri_args_fmt ri) args with
  | None =>
      _ <- mg_rpc_send_errorf W ri 400 (Some "name is required"%string) ;;
      ret tt
  | Some name =>
      c <- get ;;
      match find (fun hi => mg_vcmp_eq name (hi_method hi)) (handlers c) with
      | Some hi =>
          let mbuf :=
            ("{" +++ json_key "name" +++ " " +++ json_quote W name +++
             ", " +++ json_key "args_fmt" +++ " " +++
             json_quote W (c_str (hi_args_fmt hi)) +++ "}")%string in
          _ <- mg_rpc_send_responsef W ri (Some (c_str mbuf)) ;;
          ret tt
      | None =>
          _ <- mg_rpc_send_errorf W ri 404 (Some "name not found"%string) ;;
          ret tt
      end
  end.

Definition mg_rpc_ping_handler (ri : mg_rpc_request_info) : M unit :=
  c <- get ;;
  let info :=
    match get_info E (trace c) (ri_ch ri) with
    | Some i => i
    | None => EmptyString
    end in
  _ <- mg_rpc_send_responsef W ri
         (Some ("{" +++ json_key "channel_info" +++ " " +++
                json_quote W (c_str info) +++ "}")%string) ;;
  ret tt.

Definition mg_rpc_add_list_handler : M unit :=
  mg_rpc_add_handler "RPC.List" "" (mg_rpc_list_handler_addr E) 0%nat ;;
  mg_rpc_add_handler "RPC.Describe" "{name: %T}"
    (mg_rpc_describe_handler_addr E) 0%nat ;;
  mg_rpc_add_handler "RPC.Ping" "" (mg_rpc_ping_handler_addr E) 0%nat.

(** *** The list of channels *)

(** The loop of [mg_rpc_get_channel_info] from the records filled so far:
    the result and the array, or nothing when the loop calls the
    [is_broadcast_enabled] of a channel that has none. *)
Fixpoint get_channel_info_loop (t : list event)
    (l : list mg_rpc_channel_info_internal) (ci : list mg_rpc_channel_info)
  : option (bool * list mg_rpc_channel_info) :=
  match l with
  | [] => Some (true, ci)
  | cii :: l' =>
      let ch := ci_ch cii in
      if negb (realloc_ok E (S (List.length ci))) then Some (false, ci)
      else if negb (has_is_broadcast_enabled W ch) then None
      else
        get_channel_info_loop t l'
          (ci ++
           [{| chi_dst := ci_dst cii;
               chi_type := c_str (get_type W ch);
               chi_info := match get_info E t ch with
                           | Some i => c_str i
                           | None => MG_NULL_STR
                           end;
               chi_is_open := is_open cii;
               chi_is_persistent := is_persistent W t ch;
               chi_is_broadcast_enabled := is_broadcast_enabled W t ch |}])
  end.

(** The return value, [*ci] (NULL is the empty array) and [*num_ci]. *)
Definition mg_rpc_get_channel_info
  : M (bool * list mg_rpc_channel_info * Z) :=
  c <- get ;;
  match get_channel_info_loop (trace c) (channels c) [] with
  | Some (true, ci) => ret (true, ci, Z.of_nat (List.length ci))
  | Some (false, _) =>
      (* clean: the records are freed *)
      ret (false, [], 0)
  | None => undefined
  end.

(** *** Digest authentication *)


End Builtin.

(** ** Specifications of multiplexer code *)

(** Partial correctness: from a state where [P] holds, a result [a] in
    state [c'] satisfies [Q a c']. *)
Definition hoare {A} (P : mg_rpc -> Prop) (m : M A)
    (Q : A -> mg_rpc -> Prop) : Prop :=
  forall c a c', P c -> m c = Some (a, c') -> Q a c'.

(** The computation has a result from every state where [P] holds. *)
Definition defined {A} (P : mg_rpc -> Prop) (m : M A) : Prop :=
  forall c, P c -> exists a c', m c = Some (a, c').

(** Every URI that [mg_parse_uri] accepts can be assembled. *)
Definition uris_assemble (W : World) : Prop :=
  forall d u, mg_parse_uri W d = Some u -> canonicalize_dst_uri W u <> None.

(** The destination can be looked up in any registry: it is empty, so that
    it is compared with nothing, or [mg_parse_uri] rejects it, so that
    nothing is assembled, or every URI that [mg_parse_uri] accepts can be
    assembled. *)
Definition dst_safe (W : World) (d : mg_str) : Prop :=
  str_empty d = false -> mg_parse_uri W d = None \/ uris_assemble W.

Definition chan_ptrs (c : mg_rpc) : list ptr := map ci_ptr (channels c).

Definition queue_ptrs (c : mg_rpc) : list ptr := map qe_ptr (queue c).

(** A channel entry pointer that is NULL or the address of a live entry. *)
Definition valid_ci (c : mg_rpc) (ci : option ptr) : Prop :=
  match ci with
  | Some p => In p (chan_ptrs c)
  | None => True
  end.

(** What holds of the heap objects of a multiplexer between operations:
    live entries have distinct addresses below the allocator mark, a
    pinned channel entry is live, and the two invariants of the
    specification on channel flags and on the queue length. *)
Record wf (cfg0 : mg_rpc_cfg) (c : mg_rpc) : Prop := {
  wf_cfg : cfg c = cfg0;
  wf_chan_nodup : NoDup (chan_ptrs c);
  wf_chan_heap : forall p, In p (chan_ptrs c) -> (p < heap_next c)%nat;
  wf_queue_nodup : NoDup (queue_ptrs c);
  wf_queue_heap : forall p, In p (queue_ptrs c) -> (p < heap_next c)%nat;
  wf_pinned : forall qe, In qe (queue c) -> valid_ci c (qe_ci qe);
  wf_busy_open :
    forall ci, In ci (channels c) -> is_busy ci = true -> is_open ci = true;
  wf_queue_len : queue_len c = Z.of_nat (List.length (queue c));
  wf_queue_bound : queue_len c <= Z.max 0 (max_queue_length cfg0)
}.

(** [wf], with a set of channel entries that are known to be live. *)
Definition live (cfg0 : mg_rpc_cfg) (ps : list ptr) (c : mg_rpc) : Prop :=
  wf cfg0 c /\ incl ps (chan_ptrs c).

(** The queue entry is pinned to the channel entry at [ci]. *)
Definition pinned_to (ci : ptr) (qe : mg_rpc_queue_entry) : bool :=
  match qe_ci qe with
  | Some p => Nat.eqb p ci
  | None => false
  end.

(** The computation leaves a part of the state as it was. *)
Definition unchanged {A B} (part : mg_rpc -> B) (m : M A) : Prop :=
  forall c a c', m c = Some (a, c') -> part c' = part c.

(** No field of a frame was recognised. *)
Definition no_field_found (s : frame_scan) : Prop :=
  scan_v s = None /\ scan_id s = None /\ scan_src s = None /\
  scan_dst s = None /\ scan_tag s = None /\ scan_method s = None /\
  scan_args s = None /\ scan_auth s = None /\ scan_result s = None /\
  scan_error_code s = None /\ scan_error_msg s = None.

(** The computation appends events to the trace, and all of them
    satisfy [P]. *)
Definition only_events {A} (P : event -> Prop) (m : M A) : Prop :=
  forall c a c', m c = Some (a, c') ->
  exists evs, trace c' = trace c ++ evs /\ Forall P evs.

(** The C strings that a buffer of NUL-terminated strings holds, in order;
    bytes after the last NUL form a last string. *)
Fixpoint cstrings (buf : string) : list string :=
  match buf with
  | EmptyString => []
  | String a buf' =>
      if Ascii.eqb a NUL then EmptyString :: cstrings buf'
      else match cstrings buf' with
           | [] => [String a EmptyString]
           | s :: l => String a s :: l
           end
  end.

(** The local identities of a multiplexer. *)
Definition local_identities (c : mg_rpc) : list string :=
  cstrings (local_ids c).

(** The events of dispatching a request: a pre-handler or a handler is
    called. *)
Definition is_dispatch_event (e : event) : Prop :=
  match e with
  | EV_prehandler _ _ _ _ _ _ => True
  | EV_handler _ _ _ _ _ => True
  | _ => False
  end.



(** The entries that a channel entry pointer refers to. *)
Definition optl (ci : option ptr) : list ptr :=
  match ci with
  | Some p => [p]
  | None => []
  end.


(** *** The drain of the queue, after the words of the specification

    "The drain walks the queue in FIFO order and, for each entry, resolves
    its channel (pinned if present, else by destination), attempts a send,
    and removes the entry on success.  Entries whose send fails remain in
    place; drain does not reorder." *)

(** The channel of a queue entry: pinned if present, else by destination. *)
Definition resolve_channel (W : World) (qe : mg_rpc_queue_entry)
  : M (option ptr) :=
  match qe_ci qe with
  | Some p => ret (Some p)
  | None =>
      r <- mg_rpc_get_channel_info_internal_by_dst W (qe_dst qe) ;;
      ret (fst r)
  end.

(** The walk: one send attempt per entry, first entry first; the result
    says for each entry whether its send succeeded. *)
Fixpoint drain (W : World) (q : list mg_rpc_queue_entry) : M (list bool) :=
  match q with
  | [] => ret []
  | qe :: q' =>
      ci <- resolve_channel W qe ;;
      ok <- mg_rpc_send_frame W ci (qe_frame qe) ;;
      oks <- drain W q' ;;
      ret (ok :: oks)
  end.

(** The entries whose send failed: they remain, in their order. *)
Fixpoint unsent (q : list mg_rpc_queue_entry) (oks : list bool)
  : list mg_rpc_queue_entry :=
  match q, oks with
  | qe :: q', ok :: oks' =>
      if ok then unsent q' oks' else qe :: unsent q' oks'
  | _, _ => []
  end.

(** The entries whose send succeeded: they are removed. *)
Fixpoint sent (q : list mg_rpc_queue_entry) (oks : list bool)
  : list mg_rpc_queue_entry :=
  match q, oks with
  | qe :: q', ok :: oks' =>
      if ok then qe :: sent q' oks' else sent q' oks'
  | _, _ => []
  end.

(** The frames that transports accepted, in the order of the trace. *)
Fixpoint accepted_frames (evs : list event) : list mg_str :=
  match evs with
  | [] => []
  | EV_send_frame _ f true :: evs' => f :: accepted_frames evs'
  | _ :: evs' => accepted_frames evs'
  end.

Definition not_send (e : event) : Prop :=
  match e with
  | EV_send_frame _ _ _ => False
  | _ => True
  end.

(** The multiplexer with another queue. *)
Definition with_queue (n : Z) (q : list mg_rpc_queue_entry) (c : mg_rpc)
  : mg_rpc :=
  set_queue_len n (set_queue q c).

Definition lift_queue {A} (n : Z) (q : list mg_rpc_queue_entry)
    (r : option (A * mg_rpc)) : option (A * mg_rpc) :=
  match r with
  | Some (a, c') => Some (a, with_queue n q c')
  | None => None
  end.

(** The computation neither reads nor writes the queue. *)
Definition queue_blind {A} (m : M A) : Prop :=
  forall n q c, m (with_queue n q c) = lift_queue n q (m c).

(** The number of sends that succeeded. *)
Fixpoint count_true (oks : list bool) : Z :=
  match oks with
  | [] => 0
  | ok :: oks' => (if ok then 1 else 0) + count_true oks'
  end.

(** The computation unlinks no channel entry. *)
Definition keeps_channels {A} (m : M A) : Prop :=
  forall c a c', m c = Some (a, c') -> incl (chan_ptrs c) (chan_ptrs c').

(** ** Routes *)

(** The entry answers to the destination: the test of the scan of the
    registry in [mg_rpc_get_channel_info_internal_by_dst]. *)
Definition dst_matches (W : World) (dst : mg_str)
    (ci : mg_rpc_channel_info_internal) : bool :=
  negb (str_empty dst) &&
  match dst_is_equal W dst (ci_dst ci) with
  | Some b => b
  | None => false
  end.

Definition is_default_route (W : World) (ci : mg_rpc_channel_info_internal)
  : bool :=
  mg_vcmp_eq (ci_dst ci) (MG_RPC_DST_DEFAULT W).

(** The default route: of the entries registered for MG_RPC_DST_DEFAULT,
    the one that was registered first.  The registry holds the entries
    newest first. *)
Definition default_route (W : World) (l : list mg_rpc_channel_info_internal)
  : option mg_rpc_channel_info_internal :=
  find (is_default_route W) (rev l).

(** The route of a destination that is not a URI: the newest entry that
    answers to it, and the default route when there is none. *)
Definition plain_route (W : World) (dst : mg_str)
    (l : list mg_rpc_channel_info_internal)
  : option mg_rpc_channel_info_internal :=
  match find (dst_matches W dst) l with
  | Some e => Some e
  | None => default_route W l
  end.

(** ** Invariants of computations *)

(** The computation keeps [I]. *)
Definition preserves {A} (I : mg_rpc -> Prop) (m : M A) : Prop :=
  forall c a c', I c -> m c = Some (a, c') -> I c'.

(** The address [p] is that of a registered channel entry that satisfies
    [Q]; the allocator is past it. *)
Definition entry_sat (p : ptr) (Q : mg_rpc_channel_info_internal -> Prop)
    (c : mg_rpc) : Prop :=
  (p < heap_next c)%nat /\
  exists e, find_ci p (channels c) = Some e /\ Q e.

(** The address [p] is that of a registered channel entry for the channel
    [ch] whose destination satisfies [Pd]. *)
Definition entry_with (p : ptr) (Pd : mg_str -> Prop) (ch : ptr)
    (c : mg_rpc) : Prop :=
  entry_sat p (fun e => Pd (ci_dst e) /\ ci_ch e = ch) c.

(** The events of a channel on which the event handler writes the flags of
    the entry, or unlinks it. *)
Definition is_flag_event (ev : mg_rpc_channel_event) : Prop :=
  match ev with
  | MG_RPC_CHANNEL_OPEN => True
  | MG_RPC_CHANNEL_FRAME_SENT _ => True
  | MG_RPC_CHANNEL_CLOSED => True
  | _ => False
  end.

(** The writes of the event handler to the flags of the entry of the
    channel keep [Q]. *)
Definition flags_kept (Q : mg_rpc_channel_info_internal -> Prop)
    (ev : mg_rpc_channel_event) : Prop :=
  match ev with
  | MG_RPC_CHANNEL_OPEN =>
      (forall e, Q e -> Q (set_is_open true e)) /\
      (forall e, Q e -> Q (set_is_busy false e))
  | MG_RPC_CHANNEL_FRAME_SENT _ => forall e, Q e -> Q (set_is_busy false e)
  | MG_RPC_CHANNEL_CLOSED => False
  | _ => True
  end.

(** The two checks that [mg_rpc_handle_frame] makes on a frame that came
    in on the entry [e]: the entry is open, and the frame is for us. *)
Definition frame_admitted (c : mg_rpc) (e : mg_rpc_channel_info_internal)
    (frame : mg_rpc_frame) : bool :=
  is_open e &&
  (str_empty (frame_dst frame) || is_local_id c (frame_dst frame)).

(** ** The registries *)

(** What the application has configured and registered. *)
Definition registries (c : mg_rpc) :=
  (cfg c, local_ids c, prehandler c, prehandler_arg c, handlers c,
   observers c).

(** The registries and the pending requests: what the transports and the
    queue have no part in. *)
Definition application_state (c : mg_rpc) := (registries c, requests c).

(** The buffer is empty or its last byte is NUL. *)
Fixpoint ends_with_nul (s : string) : bool :=
  match s with
  | EmptyString => true
  | String a EmptyString => Ascii.eqb a NUL
  | String _ s' => ends_with_nul s'
  end.

(** ** Frames that go out *)

(** The payload of an error reply with a message. *)
Definition error_payload (W : World) (code : Z) (msg : string) : mg_str :=
  (json_key "error" +++ "{" +++ json_key "code" +++ print_int W code +++
   "," +++ json_key "message" +++ json_quote W (c_str msg) +++ "}")%string.

(** The frame of a reply to the request [ri]. *)
Definition reply_bytes (W : World) (c : mg_rpc) (ri : mg_rpc_request_info)
    (prefix : mg_str) (payload : option string) : mg_str :=
  frame_bytes W c (ri_dst ri) (ri_src ri) (ri_id ri) (ri_tag ri) MG_NULL_STR
    prefix payload.

(** The request info that [mg_rpc_handle_request] builds for a frame that
    came in on the channel [ch]. *)
Definition request_info_of (frame : mg_rpc_frame) (args_fmt : string)
    (ch : ptr) : mg_rpc_request_info :=
  {| ri_id := frame_id frame; ri_src := frame_src frame;
     ri_dst := frame_dst frame; ri_tag := frame_tag frame;
     ri_auth := frame_auth frame; ri_method := frame_method frame;
     ri_args_fmt := args_fmt; ri_ch := ch |}.

(** The queue entry of a frame that waits for the entry [p]. *)
Definition pinned_entry (c : mg_rpc) (p : ptr) (dst f : mg_str)
  : mg_rpc_queue_entry :=
  {| qe_ptr := heap_next c; qe_dst := dst; qe_frame := f; qe_ci := Some p |}.

Definition is_call_event (e : event) : Prop :=
  match e with
  | EV_prehandler _ _ _ _ _ _ => True
  | EV_handler _ _ _ _ _ => True
  | EV_result_cb _ _ _ _ _ _ => True
  | EV_observer _ _ _ _ => True
  | _ => False
  end.

(** No callback of the application. *)
Definition not_call (e : event) : Prop := ~ is_call_event e.

(** ** Notifications *)

Definition not_note (e : event) : Prop :=
  match e with
  | EV_observer _ _ _ _ => False
  | _ => True
  end.

(** The calls of observers among the events, in their order. *)
Fixpoint notifications (evs : list event) : list event :=
  match evs with
  | [] => []
  | EV_observer cb cb_arg ev dst :: evs' =>
      EV_observer cb cb_arg ev dst :: notifications evs'
  | _ :: evs' => notifications evs'
  end.

(** One call for every observer, newest first. *)
Definition notes (ev : mg_rpc_event) (dst : mg_str)
    (l : list mg_rpc_observer_info) : list event :=
  map (fun oi => EV_observer (oi_cb oi) (oi_cb_arg oi) ev dst) l.

(** What the observers are to hear of an operation: the OPEN and the
    CLOSED event of a channel whose entry has a destination. *)
Definition expected_notifications (c : mg_rpc) (o : op) : list event :=
  match o with
  | Op_ev_handler ch ev =>
      match find (fun ci => Nat.eqb (ci_ch ci) ch) (channels c) with
      | Some e =>
          if (0 <? String.length (ci_dst e))%nat then
            match ev with
            | MG_RPC_CHANNEL_OPEN =>
                notes MG_RPC_EV_CHANNEL_OPEN (ci_dst e) (observers c)
            | MG_RPC_CHANNEL_CLOSED =>
                notes MG_RPC_EV_CHANNEL_CLOSED (ci_dst e) (observers c)
            | _ => []
            end
          else []
      | None => []
      end
  | _ => []
  end.

(** ** The built-in handlers and the list of channels *)

(** The names of the registered methods as [%Q] prints them, newest
    first. *)
Definition quoted_methods (W : World) (l : list mg_rpc_handler_info)
  : list string :=
  map (fun hi => json_quote W (c_str (hi_method hi))) l.

(** The description of a handler under the name it was asked for. *)
Definition description (W : World) (name : mg_str) (hi : mg_rpc_handler_info)
  : string :=
  ("{" +++ json_key "name" +++ " " +++ json_quote W name +++
   ", " +++ json_key "args_fmt" +++ " " +++
   json_quote W (c_str (hi_args_fmt hi)) +++ "}")%string.

(** The three handlers that [mg_rpc_add_list_handler] registers. *)
Definition builtin_handlers (E : Env) : list mg_rpc_handler_info :=
  [{| hi_method := "RPC.Ping"; hi_args_fmt := "";
      hi_cb := mg_rpc_ping_handler_addr E; hi_cb_arg := 0%nat |};
   {| hi_method := "RPC.Describe"; hi_args_fmt := "{name: %T}";
      hi_cb := mg_rpc_describe_handler_addr E; hi_cb_arg := 0%nat |};
   {| hi_method := "RPC.List"; hi_args_fmt := "";
      hi_cb := mg_rpc_list_handler_addr E; hi_cb_arg := 0%nat |}].

(** The record that [mg_rpc_get_channel_info] fills for an entry. *)
Definition channel_info_of (W : World) (E : Env) (t : list event)
    (cii : mg_rpc_channel_info_internal) : mg_rpc_channel_info :=
  {| chi_dst := ci_dst cii;
     chi_type := c_str (get_type W (ci_ch cii));
     chi_info := match get_info E t (ci_ch cii) with
                 | Some i => c_str i
                 | None => MG_NULL_STR
                 end;
     chi_is_open := is_open cii;
     chi_is_persistent := is_persistent W t (ci_ch cii);
     chi_is_broadcast_enabled := is_broadcast_enabled W t (ci_ch cii) |}.

(** The events by which the handler of a request is called. *)
Definition handler_events (W : World) (c : mg_rpc) (hi : mg_rpc_handler_info)
    (ri : mg_rpc_request_info) (fi : mg_rpc_frame_info) (args : mg_str)
  : list event :=
  let call := EV_handler (hi_cb hi) (hi_cb_arg hi) ri fi args in
  match prehandler c with
  | None => [call]
  | Some pre =>
      let ok := prehandler_cb W (trace c) pre (prehandler_arg c) ri fi args in
      EV_prehandler pre (prehandler_arg c) ri fi args ok ::
      (if ok then [call] else [])
  end.

(** ** Broadcast *)

(** The frame of a call: what [mg_rpc_vcallf] has [mg_rpc_dispatch_frame]
    print when the channel is given, with the id that it allocates. *)
Definition call_frame (W : World) (c : mg_rpc) (method : mg_str)
    (cb : option ptr) (o : mg_rpc_call_opts) (args : option string) : mg_str :=
  frame_bytes W c
    (if str_empty (opts_src o) then c_str (cfg_id (cfg c)) else opts_src o)
    (guarded_opt (Some o) opts_dst)
    (wrap64 (next_id c + rand W (trace c)))
    (guarded_opt (Some o) opts_tag) (guarded_opt (Some o) opts_key)
    ((match cb with
      | Some _ => ""
      | None => json_key "nr" +++ "true,"
      end) +++
     json_key "method" +++ json_quote W method +++
     (match args with Some _ => "," +++ json_key "args" | None => "" end))%string
    args.

(** The sends of a broadcast of the frame [f] from the trace [t]: one for
    every entry, in the order of the registry, that is open and idle and
    whose channel takes broadcasts when its turn comes. *)
Fixpoint broadcast_events (W : World) (f : mg_str) (t : list event)
    (l : list mg_rpc_channel_info_internal) : list event :=
  match l with
  | [] => []
  | ci :: l' =>
      if has_is_broadcast_enabled W (ci_ch ci) &&
         is_broadcast_enabled W t (ci_ch ci) &&
         (is_open ci && negb (is_busy ci))
      then
        let ev := EV_send_frame (ci_ch ci) f (send_frame W t (ci_ch ci) f) in
        ev :: broadcast_events W f (t ++ [ev]) l'
      else broadcast_events W f t l'
  end.

(** The transport has accepted the frame. *)
Definition is_accepted (e : event) : bool :=
  match e with
  | EV_send_frame _ _ true => true
  | _ => false
  end.

(** ** A concrete world and concrete runs

    Transports that accept every frame, of which channel 2 is persistent
    and channel 9 takes no broadcast; no outbound dialing; a pre-handler
    that lets every request through; a printer that quotes without
    escaping; and a [json_scanf] that knows the frames below. *)

Definition empty_scan : frame_scan :=
  {| scan_v := None; scan_id := None; scan_src := None; scan_dst := None;
     scan_tag := None; scan_method := None; scan_args := None;
     scan_auth := None; scan_result := None; scan_error_code := None;
     scan_error_msg := None |}.

(** A request for a method and its scan. *)
Definition request_frame_bytes : mg_str :=
  "{" +++ json_key "id" +++ "9," +++ json_key "src" +++ DQ +++ "peer" +++ DQ
  +++ "," +++ json_key "method" +++ DQ +++ "Nope" +++ DQ +++ "}".

Definition request_frame_scan : frame_scan :=
  {| scan_v := None; scan_id := Some 9; scan_src := Some "peer"%string;
     scan_dst := None; scan_tag := None; scan_method := Some "Nope"%string;
     scan_args := None; scan_auth := None; scan_result := None;
     scan_error_code := None; scan_error_msg := None |}.

Definition test_scan (f : mg_str) : frame_scan :=
  if String.eqb f request_frame_bytes then request_frame_scan else empty_scan.

Definition print_decimal (z : Z) : string :=
  DecimalString.NilZero.string_of_int (Z.to_int z).

Definition test_world : World :=
  {| rand := fun _ => 1;
     atoi := fun _ => 0;
     send_frame := fun _ _ _ => true;
     is_persistent := fun _ ch => Nat.eqb ch 2%nat;
     has_is_broadcast_enabled := fun _ => true;
     is_broadcast_enabled := fun _ ch => negb (Nat.eqb ch 9%nat);
     get_type := fun _ => "test"%string;
     mg_rpc_channel_ws_out := fun _ _ => None;
     prehandler_cb := fun _ _ _ _ _ _ => true;
     mg_parse_uri := fun _ => None;
     mg_assemble_uri := fun _ _ _ _ _ _ => None;
     mg_assemble_uri_clears := true;
     mg_get_http_var := fun _ _ => None;
     MG_ENABLE_SSL := false;
     rpc_ws_reconnect_interval_min := 1;
     rpc_ws_reconnect_interval_max := 60;
     json_scanf_frame := test_scan;
     json_scanf_frame_ret := fun f => scan_count (test_scan f);
     json_quote := fun s => DQ +++ s +++ DQ;
     print_int := print_decimal;
     MG_RPC_DST_DEFAULT := "*"%string |}.

Definition test_cfg : mg_rpc_cfg :=
  {| cfg_id := "dev"%string; max_queue_length := 2;
     default_out_channel_idle_close_timeout := 10 |}.

(** The operations one after the other. *)
Fixpoint run_ops (W : World) (ops : list op) (c : mg_rpc) : option mg_rpc :=
  match ops with
  | [] => Some c
  | o :: ops' =>
      match run_op W o c with
      | Some (_, c') => run_ops W ops' c'
      | None => None
      end
  end.

Definition state_after (ops : list op) : mg_rpc :=
  match run_ops test_world ops (mg_rpc_create test_cfg) with
  | Some c => c
  | None => mg_rpc_create test_cfg
  end.

Definition default_opts : mg_rpc_call_opts :=
  {| opts_src := MG_NULL_STR; opts_dst := MG_NULL_STR; opts_tag := MG_NULL_STR;
     opts_key := MG_NULL_STR; opts_broadcast := false; opts_no_queue := false |}.

(** Channel 7, not persistent, registered as the default route and open. *)
Definition open_channel_ops : list op :=
  [Op_add_channel "*"%string 7%nat;
   Op_ev_handler 7%nat MG_RPC_CHANNEL_OPEN].

Definition open_channel_state : mg_rpc := state_after open_channel_ops.

(** The same after a call with a callback: the channel is busy and the
    request is pending. *)
Definition busy_channel_ops : list op :=
  open_channel_ops ++
  [Op_callf "Foo"%string (Some 100%nat) 0%nat (Some default_opts) None].

Definition busy_channel_state : mg_rpc := state_after busy_channel_ops.

(** Two more calls while the channel is busy: both are queued, and the
    queue is full. *)
Definition full_queue_ops : list op :=
  busy_channel_ops ++
  [Op_callf "Bar"%string (Some 101%nat) 0%nat (Some default_opts) None;
   Op_callf "Baz"%string (Some 102%nat) 0%nat (Some default_opts) None].

Definition full_queue_state : mg_rpc := state_after full_queue_ops.

(** A response without an id and without a method. *)
Definition response_without_id : mg_rpc_frame :=
  {| version := 0; frame_id := 0; error_code := 0; frame_src := "peer";
     frame_dst := MG_NULL_STR; frame_tag := MG_NULL_STR;
     frame_method := MG_NULL_STR; frame_args := MG_NULL_STR;
     frame_result := "{}"; error_msg := MG_NULL_STR;
     frame_auth := MG_NULL_STR |}.

(** What a call of Foo without a callback and without arguments puts on the
    wire when the allocated id is 1. *)
Definition nr_call_bytes : mg_str :=
  "{" +++ json_key "id" +++ "1," +++ json_key "src" +++ DQ +++ "dev" +++ DQ
  +++ "," +++ json_key "nr" +++ "true," +++ json_key "method"
  +++ DQ +++ "Foo" +++ DQ +++ "}".

(** A request addressed to somebody else. *)
Definition wrong_dst_frame : mg_rpc_frame :=
  {| version := 0; frame_id := 5; error_code := 0; frame_src := "peer";
     frame_dst := "other"; frame_tag := MG_NULL_STR;
     frame_method := "Math.Add"; frame_args := "{}";
     frame_result := MG_NULL_STR; error_msg := MG_NULL_STR;
     frame_auth := MG_NULL_STR |}.

(** The frame that [request_frame_bytes] decodes to. *)
Definition unknown_method_frame : mg_rpc_frame :=
  {| version := 0; frame_id := 9; error_code := 0; frame_src := "peer";
     frame_dst := MG_NULL_STR; frame_tag := MG_NULL_STR;
     frame_method := "Nope"; frame_args := MG_NULL_STR;
     frame_result := MG_NULL_STR; error_msg := MG_NULL_STR;
     frame_auth := MG_NULL_STR |}.

(** The answer to it: error 404. *)
Definition no_handler_bytes : mg_str :=
  "{" +++ json_key "id" +++ "9," +++ json_key "src" +++ DQ +++ "dev" +++ DQ
  +++ "," +++ json_key "dst" +++ DQ +++ "peer" +++ DQ
  +++ "," +++ json_key "error" +++ "{" +++ json_key "code" +++ "404,"
  +++ json_key "message" +++ DQ +++ "No handler for Nope" +++ DQ +++ "}}".

(** Channel 2 is persistent, channel 7 is not; both are registered, and a
    response is queued for each while it is closed. *)
Definition reply_to (ch : ptr) (id : Z) : mg_rpc_request_info :=
  {| ri_id := id; ri_src := "peer"; ri_dst := MG_NULL_STR;
     ri_tag := MG_NULL_STR; ri_auth := MG_NULL_STR; ri_method := "M";
     ri_args_fmt := ""; ri_ch := ch |}.

Definition two_channels_ops : list op :=
  [Op_add_channel "a" 2; Op_add_channel "b" 7;
   Op_send_responsef (reply_to 2 11) None;
   Op_send_responsef (reply_to 7 12) None].

Definition two_channels_state : mg_rpc := state_after two_channels_ops.

(** Two calls while the default channel is registered and not yet open:
    both wait on the queue. *)
Definition waiting_calls_ops : list op :=
  [Op_add_channel "*" 7;
   Op_callf "Foo" (Some 100%nat) 0 (Some default_opts) None;
   Op_callf "Bar" (Some 101%nat) 0 (Some default_opts) None].

Definition waiting_calls_state : mg_rpc := state_after waiting_calls_ops.

Definition call_bytes (id method : string) : mg_str :=
  "{" +++ json_key "id" +++ id +++ "," +++ json_key "src" +++ DQ +++ "dev"
  +++ DQ +++ "," +++ json_key "method" +++ DQ +++ method +++ DQ +++ "}".

(** The request of scenario S1 and the answer to it. *)
Definition add_args : mg_str :=
  "{" +++ json_key "a" +++ "2," +++ json_key "b" +++ "3}".

Definition add_frame : mg_rpc_frame :=
  {| version := 0; frame_id := 7; error_code := 0; frame_src := "peer";
     frame_dst := MG_NULL_STR; frame_tag := MG_NULL_STR;
     frame_method := "Math.Add"; frame_args := add_args;
     frame_result := MG_NULL_STR; error_msg := MG_NULL_STR;
     frame_auth := MG_NULL_STR |}.

Definition add_request_info : mg_rpc_request_info :=
  {| ri_id := 7; ri_src := "peer"; ri_dst := MG_NULL_STR;
     ri_tag := MG_NULL_STR; ri_auth := MG_NULL_STR; ri_method := "Math.Add";
     ri_args_fmt := "{a: %d, b: %d}"; ri_ch := 7 |}.

Definition add_result : string := "{" +++ json_key "sum" +++ "5}".

Definition add_response_bytes : mg_str :=
  "{" +++ json_key "id" +++ "7," +++ json_key "src" +++ DQ +++ "dev" +++ DQ
  +++ "," +++ json_key "dst" +++ DQ +++ "peer" +++ DQ
  +++ "," +++ json_key "result" +++ add_result +++ "}".

Definition math_handler_ops : list op :=
  open_channel_ops ++ [Op_add_handler "Math.Add" "{a: %d, b: %d}" 200 0].

Definition math_handler_state : mg_rpc := state_after math_handler_ops.

(** Three open channels for a broadcast. *)
Definition three_channels_ops : list op :=
  [Op_add_channel "a" 7; Op_add_channel "b" 8; Op_add_channel "c" 9;
   Op_ev_handler 7 MG_RPC_CHANNEL_OPEN; Op_ev_handler 8 MG_RPC_CHANNEL_OPEN;
   Op_ev_handler 9 MG_RPC_CHANNEL_OPEN].

Definition three_channels_state : mg_rpc := state_after three_channels_ops.

Definition broadcast_opts : mg_rpc_call_opts :=
  {| opts_src := MG_NULL_STR; opts_dst := MG_NULL_STR; opts_tag := MG_NULL_STR;
     opts_key := MG_NULL_STR; opts_broadcast := true; opts_no_queue := false |}.

(** The call of Bar, waiting in the queue of [full_queue_state]. *)
Definition queued_bar : mg_rpc_queue_entry :=
  {| qe_ptr := 2%nat; qe_dst := MG_NULL_STR; qe_frame := call_bytes "2" "Bar";
     qe_ci := Some 1%nat |}.

(** A configuration whose queue length was never validated. *)
Definition negative_queue_cfg : mg_rpc_cfg :=
  {| cfg_id := "dev"%string; max_queue_length := -1;
     default_out_channel_idle_close_timeout := 10 |}.

(** Frames that hold nothing but a field for which the format of
    [mg_rpc_parse_frame] has no target: [json_scanf] converts nothing. *)
Definition nr_only_frame : mg_str := "{" +++ json_key "nr" +++ "true}".

Definition key_only_frame : mg_str :=
  "{" +++ json_key "key" +++ DQ +++ "k" +++ DQ +++ "}".

(** A destination that is a URI, and its parts. *)
Definition ws_dst : mg_str := "ws://host/rpc".

Definition ws_uri : uri :=
  {| uri_scheme := "ws"; uri_user_info := MG_NULL_STR; uri_host := "host";
     uri_port := 0; uri_path := "/rpc"; uri_query := MG_NULL_STR;
     uri_fragment := MG_NULL_STR |}.

(** The world of [test_world] when memory has run out: [mg_parse_uri],
    which allocates nothing, takes the URI apart, and [mg_assemble_uri],
    which has to allocate, fails. *)
Definition no_memory_world : World :=
  {| rand := fun _ => 1;
     atoi := fun _ => 0;
     send_frame := fun _ _ _ => true;
     is_persistent := fun _ ch => Nat.eqb ch 2%nat;
     has_is_broadcast_enabled := fun _ => true;
     is_broadcast_enabled := fun _ ch => negb (Nat.eqb ch 9%nat);
     get_type := fun _ => "test"%string;
     mg_rpc_channel_ws_out := fun _ _ => None;
     prehandler_cb := fun _ _ _ _ _ _ => true;
     mg_parse_uri := fun s => if String.eqb s ws_dst then Some ws_uri else None;
     mg_assemble_uri := fun _ _ _ _ _ _ => None;
     mg_assemble_uri_clears := true;
     mg_get_http_var := fun _ _ => None;
     MG_ENABLE_SSL := false;
     rpc_ws_reconnect_interval_min := 1;
     rpc_ws_reconnect_interval_max := 60;
     json_scanf_frame := test_scan;
     json_scanf_frame_ret := fun f => scan_count (test_scan f);
     json_quote := fun s => DQ +++ s +++ DQ;
     print_int := print_decimal;
     MG_RPC_DST_DEFAULT := "*"%string |}.

(** Channel 7, registered for the URI; and a call to the URI. *)
Definition uri_channel_ops : list op := [Op_add_channel ws_dst 7].

Definition uri_channel_state : mg_rpc := state_after uri_channel_ops.

Definition uri_opts : mg_rpc_call_opts :=
  {| opts_src := MG_NULL_STR; opts_dst := ws_dst; opts_tag := MG_NULL_STR;
     opts_key := MG_NULL_STR; opts_broadcast := false; opts_no_queue := false |}.

(** ** More concrete runs *)

(** Channel 7 registered without a destination, and open. *)
Definition unbound_channel_ops : list op :=
  [Op_add_channel MG_NULL_STR 7%nat;
   Op_ev_handler 7%nat MG_RPC_CHANNEL_OPEN].

Definition unbound_channel_state : mg_rpc := state_after unbound_channel_ops.

(** The entry of channel 7 in [open_channel_state], and after a call. *)
Definition open_entry : mg_rpc_channel_info_internal :=
  {| ci_ptr := 1%nat; ci_dst := "*"; ci_ch := 7%nat; is_open := true;
     is_busy := false |}.

Definition busy_entry : mg_rpc_channel_info_internal :=
  {| ci_ptr := 1%nat; ci_dst := "*"; ci_ch := 7%nat; is_open := true;
     is_busy := true |}.

(** Two channels registered for the default destination, of which only
    the newer one, channel 8, is open. *)
Definition two_defaults_ops : list op :=
  [Op_add_channel "*" 7%nat; Op_add_channel "*" 8%nat;
   Op_ev_handler 8%nat MG_RPC_CHANNEL_OPEN].

Definition two_defaults_state : mg_rpc := state_after two_defaults_ops.

Definition no_queue_opts : mg_rpc_call_opts :=
  {| opts_src := MG_NULL_STR; opts_dst := MG_NULL_STR; opts_tag := MG_NULL_STR;
     opts_key := MG_NULL_STR; opts_broadcast := false; opts_no_queue := true |}.

(** The open default channel with an observer. *)
Definition observed_channel_ops : list op :=
  open_channel_ops ++ [Op_add_observer 400%nat 0%nat].

Definition observed_channel_state : mg_rpc := state_after observed_channel_ops.

(** A world that knows one URI, and where dialing out gives channel 5. *)
Definition uri_world : World :=
  {| rand := fun _ => 1;
     atoi := fun _ => 0;
     send_frame := fun _ _ _ => true;
     is_persistent := fun _ _ => false;
     has_is_broadcast_enabled := fun _ => true;
     is_broadcast_enabled := fun _ _ => true;
     get_type := fun _ => "test"%string;
     mg_rpc_channel_ws_out := fun _ _ => Some 5%nat;
     prehandler_cb := fun _ _ _ _ _ _ => true;
     mg_parse_uri := fun s => if String.eqb s ws_dst then Some ws_uri else None;
     mg_assemble_uri := fun _ _ _ _ _ _ => Some ws_dst;
     mg_assemble_uri_clears := true;
     mg_get_http_var := fun _ _ => None;
     MG_ENABLE_SSL := false;
     rpc_ws_reconnect_interval_min := 1;
     rpc_ws_reconnect_interval_max := 60;
     json_scanf_frame := test_scan;
     json_scanf_frame_ret := fun f => scan_count (test_scan f);
     json_quote := fun s => (DQ +++ s +++ DQ)%string;
     print_int := print_decimal;
     MG_RPC_DST_DEFAULT := "*"%string |}.

(** An environment for the built-in handlers: channels without info, an
    allocator that does not fail, an args scan that finds the name
    Math.Add, and no authentication. *)
Definition test_env : Env :=
  {| get_info := fun _ _ => None;
     realloc_ok := fun _ => true;
     json_scanf_token := fun _ args =>
       if String.eqb args "{}" then None else Some "Math.Add"%string;
     json_scanf_auth := fun _ => None;
     rpc_auth_domain := "RPC";
     rpc_auth_file := "rpc_auth.txt";
     fopen_r := fun _ _ => None;
     mg_check_digest_auth := fun _ _ _ _ _ _ _ _ _ _ => 0;
     mg_rpc_list_handler_addr := 501%nat;
     mg_rpc_describe_handler_addr := 502%nat;
     mg_rpc_ping_handler_addr := 503%nat |}.

(** A request for RPC.List that came in on channel 7. *)
Definition list_request_info : mg_rpc_request_info :=
  {| ri_id := 8; ri_src := "peer"; ri_dst := MG_NULL_STR;
     ri_tag := MG_NULL_STR; ri_auth := MG_NULL_STR; ri_method := "RPC.List";
     ri_args_fmt := ""; ri_ch := 7%nat |}.

(** A request for RPC.Describe that came in on channel 7, and its frame
    as a request for Math.Add would look. *)
Definition describe_request_info : mg_rpc_request_info :=
  {| ri_id := 9; ri_src := "peer"; ri_dst := MG_NULL_STR;
     ri_tag := MG_NULL_STR; ri_auth := MG_NULL_STR;
     ri_method := "RPC.Describe"; ri_args_fmt := "{name: %T}";
     ri_ch := 7%nat |}.

Definition describe_args : mg_str :=
  "{" +++ json_key "name" +++ DQ +++ "Math.Add" +++ DQ +++ "}".

Definition math_handler : mg_rpc_handler_info :=
  {| hi_method := "Math.Add"; hi_args_fmt := "{a: %d, b: %d}";
     hi_cb := 200%nat; hi_cb_arg := 0%nat |}.

(** An allocator that gives out one record and no more. *)
Definition failing_env : Env :=
  {| get_info := fun _ _ => None;
     realloc_ok := fun n => Nat.ltb n 2;
     json_scanf_token := fun _ _ => None;
     json_scanf_auth := fun _ => None;
     rpc_auth_domain := "RPC";
     rpc_auth_file := "rpc_auth.txt";
     fopen_r := fun _ _ => None;
     mg_check_digest_auth := fun _ _ _ _ _ _ _ _ _ _ => 0;
     mg_rpc_list_handler_addr := 501%nat;
     mg_rpc_describe_handler_addr := 502%nat;
     mg_rpc_ping_handler_addr := 503%nat |}.

(** Transports of which channel 9 has no [is_broadcast_enabled]. *)
Definition bare_world : World :=
  {| rand := fun _ => 1;
     atoi := fun _ => 0;
     send_frame := fun _ _ _ => true;
     is_persistent := fun _ ch => Nat.eqb ch 2%nat;
     has_is_broadcast_enabled := fun ch => negb (Nat.eqb ch 9%nat);
     is_broadcast_enabled := fun _ _ => true;
     get_type := fun _ => "test"%string;
     mg_rpc_channel_ws_out := fun _ _ => None;
     prehandler_cb := fun _ _ _ _ _ _ => true;
     mg_parse_uri := fun _ => None;
     mg_assemble_uri := fun _ _ _ _ _ _ => None;
     mg_assemble_uri_clears := true;
     mg_get_http_var := fun _ _ => None;
     MG_ENABLE_SSL := false;
     rpc_ws_reconnect_interval_min := 1;
     rpc_ws_reconnect_interval_max := 60;
     json_scanf_frame := test_scan;
     json_scanf_frame_ret := fun f => scan_count (test_scan f);
     json_quote := fun s => (DQ +++ s +++ DQ)%string;
     print_int := print_decimal;
     MG_RPC_DST_DEFAULT := "*"%string |}.




(** A configuration without a queue. *)
Definition no_queue_cfg : mg_rpc_cfg :=
  {| cfg_id := "dev"%string; max_queue_length := 0;
     default_out_channel_idle_close_timeout := 10 |}.

(** An observer that is registered twice, around another one. *)
Definition observers_ops : list op :=
  [Op_add_observer 1%nat 0%nat; Op_add_observer 2%nat 0%nat;
   Op_add_observer 1%nat 0%nat].

Definition observers_state : mg_rpc := state_after observers_ops.

(** * Properties *)

Unset Implicit Arguments.

(** ** The monad *)

Lemma bind_Some {A B} (m : M A) (k : A -> M B) c b c' :
  bind m k c = Some (b, c') <->
  exists a c1, m c = Some (a, c1) /\ k a c1 = Some (b, c').
Proof.
  unfold bind. split.
  - destruct (m c) as [[a c1]|]; [eauto | discriminate].
  - intros (a & c1 & -> & H). exact H.
Qed.

Lemma hoare_ret {A} (P : mg_rpc -> Prop) (a : A) (Q : A -> mg_rpc -> Prop) :
  (forall c, P c -> Q a c) -> hoare P (ret a) Q.
Proof. intros H c a' c' HP E. inversion E; subst. auto. Qed.

Lemma hoare_bind {A B} (P : mg_rpc -> Prop) (m : M A) (k : A -> M B)
    (Q : A -> mg_rpc -> Prop) (R : B -> mg_rpc -> Prop) :
  hoare P m Q -> (forall a, hoare (Q a) (k a) R) -> hoare P (bind m k) R.
Proof.
  intros Hm Hk c b c' HP E.
  apply bind_Some in E as (a & c1 & E1 & E2).
  eapply Hk; eauto.
Qed.

Lemma hoare_weaken {A} (P P' : mg_rpc -> Prop) (m : M A)
    (Q Q' : A -> mg_rpc -> Prop) :
  hoare P' m Q' -> (forall c, P c -> P' c) ->
  (forall a c, Q' a c -> Q a c) -> hoare P m Q.
Proof. intros H HP HQ c a c' Hc E. eauto. Qed.

Lemma hoare_get (P : mg_rpc -> Prop) (Q : mg_rpc -> mg_rpc -> Prop) :
  (forall c, P c -> Q c c) -> hoare P get Q.
Proof. intros H c a c' HP E. inversion E; subst. auto. Qed.

Lemma hoare_modify (P : mg_rpc -> Prop) f (Q : unit -> mg_rpc -> Prop) :
  (forall c, P c -> Q tt (f c)) -> hoare P (modify f) Q.
Proof. intros H c a c' HP E. inversion E; subst. auto. Qed.

Lemma hoare_undefined {A} (P : mg_rpc -> Prop) (Q : A -> mg_rpc -> Prop) :
  hoare P undefined Q.
Proof. intros c a c' _ E. discriminate E. Qed.

Lemma hoare_foreach {A} (I : mg_rpc -> Prop) (l : list A) (body : A -> M unit) :
  (forall x, In x l -> hoare I (body x) (fun _ => I)) ->
  hoare I (foreach l body) (fun _ => I).
Proof.
  induction l as [|x l IH]; intros Hbody; simpl.
  - apply hoare_ret. auto.
  - eapply hoare_bind.
    + apply Hbody. left. reflexivity.
    + intros u. apply IH. intros y Hy. apply Hbody. right. exact Hy.
Qed.

Lemma defined_ret {A} (P : mg_rpc -> Prop) (a : A) : defined P (ret a).
Proof. intros c _. exists a, c. reflexivity. Qed.

Lemma defined_bind {A B} (P : mg_rpc -> Prop) (m : M A) (k : A -> M B)
    (Q : A -> mg_rpc -> Prop) :
  defined P m -> hoare P m Q -> (forall a, defined (Q a) (k a)) ->
  defined P (bind m k).
Proof.
  intros Dm Hm Dk c HP.
  destruct (Dm c HP) as (a & c1 & E1).
  destruct (Dk a c1 (Hm _ _ _ HP E1)) as (b & c2 & E2).
  exists b, c2. apply bind_Some. eauto.
Qed.

(** ** Lists of heap objects *)

Lemma find_ci_In p l e : find_ci p l = Some e -> In e l /\ ci_ptr e = p.
Proof.
  induction l as [|ci l IH]; simpl; [discriminate|].
  destruct (Nat.eqb (ci_ptr ci) p) eqn:E.
  - intros H. inversion H; subst. apply Nat.eqb_eq in E. auto.
  - intros H. destruct (IH H). auto.
Qed.

Lemma find_ci_Some p l : In p (map ci_ptr l) -> exists e, find_ci p l = Some e.
Proof.
  induction l as [|ci l IH]; simpl; [tauto|].
  intros [H | H].
  - apply Nat.eqb_eq in H. rewrite H. eauto.
  - destruct (Nat.eqb (ci_ptr ci) p); eauto.
Qed.

Lemma update_ci_ptrs p f l :
  (forall e, ci_ptr (f e) = ci_ptr e) ->
  map ci_ptr (update_ci p f l) = map ci_ptr l.
Proof.
  intros Hf. induction l as [|ci l IH]; simpl; [reflexivity|].
  destruct (Nat.eqb (ci_ptr ci) p); simpl; [rewrite Hf | rewrite IH]; reflexivity.
Qed.

Lemma update_ci_In p f l e' :
  In e' (update_ci p f l) ->
  In e' l \/ exists e, find_ci p l = Some e /\ e' = f e.
Proof.
  induction l as [|ci l IH]; simpl; [tauto|].
  destruct (Nat.eqb (ci_ptr ci) p); simpl.
  - intros [H | H]; eauto.
  - intros [H | H]; auto. destruct (IH H) as [H' | H']; auto.
Qed.

Lemma find_ci_update p f l e :
  (forall e, ci_ptr (f e) = ci_ptr e) ->
  find_ci p l = Some e -> find_ci p (update_ci p f l) = Some (f e).
Proof.
  intros Hf. induction l as [|ci l IH]; simpl; [discriminate|].
  destruct (Nat.eqb (ci_ptr ci) p) eqn:E; simpl.
  - intros H. inversion H; subst. rewrite Hf, E. reflexivity.
  - rewrite E. exact IH.
Qed.

Lemma update_ci_twice p f g l :
  (forall e, ci_ptr (f e) = ci_ptr e) ->
  update_ci p g (update_ci p f l) = update_ci p (fun e => g (f e)) l.
Proof.
  intros Hf. induction l as [|ci l IH]; simpl; [reflexivity|].
  destruct (Nat.eqb (ci_ptr ci) p) eqn:E; simpl.
  - rewrite Hf, E. reflexivity.
  - rewrite E, IH. reflexivity.
Qed.

Lemma remove_ci_incl p l e : In e (remove_ci p l) -> In e l.
Proof.
  induction l as [|ci l IH]; simpl; [tauto|].
  destruct (Nat.eqb (ci_ptr ci) p); simpl; [auto|].
  intros [H | H]; auto.
Qed.

Lemma remove_ci_ptrs_incl p l q :
  In q (map ci_ptr (remove_ci p l)) -> In q (map ci_ptr l).
Proof.
  rewrite !in_map_iff. intros (e & H1 & H2). eauto using remove_ci_incl.
Qed.

Lemma remove_ci_NoDup p l :
  NoDup (map ci_ptr l) -> NoDup (map ci_ptr (remove_ci p l)).
Proof.
  induction l as [|ci l IH]; simpl; [auto|].
  intros H. inversion H as [|? ? Hn Hd]; subst.
  destruct (Nat.eqb (ci_ptr ci) p); simpl; [exact Hd|].
  constructor; [|auto]. intros Hin. apply Hn. eapply remove_ci_ptrs_incl; eauto.
Qed.

Lemma remove_ci_gone p l :
  NoDup (map ci_ptr l) -> ~ In p (map ci_ptr (remove_ci p l)).
Proof.
  induction l as [|ci l IH]; simpl; [tauto|].
  intros H. inversion H as [|? ? Hn Hd]; subst.
  destruct (Nat.eqb (ci_ptr ci) p) eqn:E; simpl.
  - apply Nat.eqb_eq in E. congruence.
  - apply Nat.eqb_neq in E. intros [H' | H']; [congruence | exact (IH Hd H')].
Qed.

Lemma remove_ci_other p l q :
  q <> p -> In q (map ci_ptr l) -> In q (map ci_ptr (remove_ci p l)).
Proof.
  intros Hne. induction l as [|ci l IH]; simpl; [tauto|].
  destruct (Nat.eqb (ci_ptr ci) p) eqn:E; simpl.
  - apply Nat.eqb_eq in E. intros [H | H]; [congruence | exact H].
  - intros [H | H]; auto.
Qed.

Lemma unlink_qe_incl p q q' e : unlink_qe p q = Some q' -> In e q' -> In e q.
Proof.
  revert q'. induction q as [|x q IH]; simpl; intros q'; [discriminate|].
  destruct (Nat.eqb (qe_ptr x) p).
  - intros H. inversion H; subst. auto.
  - destruct (unlink_qe p q) as [r|]; simpl; [|discriminate].
    intros H. inversion H; subst. simpl. intros [H' | H']; eauto.
Qed.

Lemma unlink_qe_length p q q' :
  unlink_qe p q = Some q' -> List.length q = S (List.length q').
Proof.
  revert q'. induction q as [|x q IH]; simpl; intros q'; [discriminate|].
  destruct (Nat.eqb (qe_ptr x) p).
  - intros H. inversion H; subst. reflexivity.
  - destruct (unlink_qe p q) as [r|]; simpl; [|discriminate].
    intros H. inversion H; subst. simpl. rewrite (IH r); reflexivity.
Qed.

Lemma filter_absent p q :
  ~ In p (map qe_ptr q) ->
  filter (fun e => negb (Nat.eqb (qe_ptr e) p)) q = q.
Proof.
  induction q as [|y q IH]; simpl; [reflexivity|].
  intros Hn. destruct (Nat.eqb (qe_ptr y) p) eqn:E; simpl.
  - apply Nat.eqb_eq in E. tauto.
  - f_equal. apply IH. tauto.
Qed.

(** Unlinking an entry of a queue of distinct entries removes that entry
    and keeps the others in their order. *)
Lemma unlink_qe_filter p q q' :
  NoDup (map qe_ptr q) -> unlink_qe p q = Some q' ->
  q' = filter (fun e => negb (Nat.eqb (qe_ptr e) p)) q.
Proof.
  revert q'. induction q as [|x q IH]; simpl; intros q' Hnd; [discriminate|].
  inversion Hnd as [|? ? Hn Hd]; subst.
  destruct (Nat.eqb (qe_ptr x) p) eqn:E; simpl.
  - intros H. apply Nat.eqb_eq in E. rewrite <- E.
    rewrite filter_absent by exact Hn. congruence.
  - destruct (unlink_qe p q) as [r|]; simpl; [|discriminate].
    intros H. inversion H; subst. f_equal. auto.
Qed.

Lemma filter_ptrs_incl (f : mg_rpc_queue_entry -> bool) q p :
  In p (map qe_ptr (filter f q)) -> In p (map qe_ptr q).
Proof.
  rewrite !in_map_iff. intros (e & H1 & H2). apply filter_In in H2.
  exists e. tauto.
Qed.

Lemma filter_ptrs_NoDup (f : mg_rpc_queue_entry -> bool) q :
  NoDup (map qe_ptr q) -> NoDup (map qe_ptr (filter f q)).
Proof.
  induction q as [|x q IH]; simpl; [auto|].
  intros H. inversion H as [|? ? Hn Hd]; subst.
  destruct (f x); simpl; [|auto].
  constructor; [|auto]. intros Hin. apply Hn. eapply filter_ptrs_incl; eauto.
Qed.

(** ** The invariant under the updates of the state *)

Section Invariant_updates.

Variable cfg0 : mg_rpc_cfg.

Ltac same_heap H := destruct H; constructor; simpl; auto.

Lemma wf_set_trace c t : wf cfg0 c -> wf cfg0 (set_trace t c).
Proof. intros H. same_heap H. Qed.

Lemma wf_set_next_id c v : wf cfg0 c -> wf cfg0 (set_next_id v c).
Proof. intros H. same_heap H. Qed.

Lemma wf_set_local_ids c v : wf cfg0 c -> wf cfg0 (set_local_ids v c).
Proof. intros H. same_heap H. Qed.

Lemma wf_set_prehandler c cb arg : wf cfg0 c -> wf cfg0 (set_prehandler cb arg c).
Proof. intros H. same_heap H. Qed.

Lemma wf_set_handlers c v : wf cfg0 c -> wf cfg0 (set_handlers v c).
Proof. intros H. same_heap H. Qed.

Lemma wf_set_requests c v : wf cfg0 c -> wf cfg0 (set_requests v c).
Proof. intros H. same_heap H. Qed.

Lemma wf_set_observers c v : wf cfg0 c -> wf cfg0 (set_observers v c).
Proof. intros H. same_heap H. Qed.

Lemma wf_set_heap_next c : wf cfg0 c -> wf cfg0 (set_heap_next (S (heap_next c)) c).
Proof.
  intros H. destruct H; constructor; simpl; auto.
  - intros p Hp. specialize (wf_chan_heap0 p Hp). lia.
  - intros p Hp. specialize (wf_queue_heap0 p Hp). lia.
Qed.

Lemma wf_update_ci c p f e :
  wf cfg0 c -> find_ci p (channels c) = Some e ->
  (forall e, ci_ptr (f e) = ci_ptr e) ->
  (is_busy (f e) = true -> is_open (f e) = true) ->
  wf cfg0 (set_channels (update_ci p f (channels c)) c).
Proof.
  intros H He Hf Hbusy.
  destruct H; constructor; simpl; auto;
    unfold chan_ptrs, valid_ci in *; simpl; try rewrite update_ci_ptrs by exact Hf;
    auto.
  - intros qe Hqe. specialize (wf_pinned0 qe Hqe).
    destruct (qe_ci qe); [|exact I]. unfold chan_ptrs in *; simpl.
    rewrite update_ci_ptrs by exact Hf. exact wf_pinned0.
  - intros ci Hci. apply update_ci_In in Hci as [Hci | (e' & He' & ->)]; auto.
    rewrite He in He'. inversion He'; subst. exact Hbusy.
Qed.

Lemma wf_add_channel c p d ch :
  wf cfg0 c -> ~ In p (chan_ptrs c) -> (p < heap_next c)%nat ->
  wf cfg0
    (set_channels
       ({| ci_ptr := p; ci_dst := d; ci_ch := ch; is_open := false;
           is_busy := false |} :: channels c) c).
Proof.
  intros H Hfresh Hlt.
  destruct H; constructor; simpl; auto; unfold chan_ptrs, valid_ci in *; simpl.
  - constructor; assumption.
  - intros q [<- | Hq]; auto.
  - intros qe Hqe. specialize (wf_pinned0 qe Hqe).
    destruct (qe_ci qe); simpl; auto.
  - intros ci [<- | Hci]; simpl; [discriminate | auto].
Qed.

Lemma wf_enqueue c p ci dst f :
  wf cfg0 c -> valid_ci c ci -> ~ In p (queue_ptrs c) -> (p < heap_next c)%nat ->
  queue_len c < max_queue_length cfg0 ->
  wf cfg0
    (set_queue_len (queue_len c + 1)
       (set_queue
          (queue c ++
           [{| qe_ptr := p; qe_dst := dst; qe_frame := f; qe_ci := ci |}]) c)).
Proof.
  intros H Hci Hfresh Hlt Hlen.
  destruct H; constructor; simpl; auto; unfold queue_ptrs, valid_ci in *; simpl.
  - rewrite map_app. simpl. apply NoDup_app; auto.
    + constructor; [simpl; tauto | constructor].
    + intros q Hq [<- | []]. tauto.
  - intros q. rewrite map_app, in_app_iff. simpl. intros [Hq | [<- | []]]; auto.
  - intros qe. rewrite in_app_iff. simpl. intros [Hqe | [<- | []]]; auto.
    exact (wf_pinned0 qe Hqe).
  - rewrite length_app. simpl. lia.
  - lia.
Qed.

Lemma wf_unlink c p q' :
  wf cfg0 c -> unlink_qe p (queue c) = Some q' ->
  wf cfg0 (set_queue_len (queue_len c - 1) (set_queue q' c)).
Proof.
  intros H Hq.
  pose proof (unlink_qe_length _ _ _ Hq) as Hlen.
  assert (Hf : q' = filter (fun e => negb (Nat.eqb (qe_ptr e) p)) (queue c))
    by (apply unlink_qe_filter; [apply H | exact Hq]).
  destruct H; constructor; simpl; auto; unfold queue_ptrs, valid_ci in *; simpl.
  - rewrite Hf. apply filter_ptrs_NoDup. assumption.
  - intros q Hin. apply wf_queue_heap0. rewrite Hf in Hin.
    eapply filter_ptrs_incl; eauto.
  - intros qe Hin. apply wf_pinned0. eapply unlink_qe_incl; eauto.
  - lia.
  - lia.
Qed.

Lemma wf_remove_ci c p :
  wf cfg0 c ->
  (forall qe, In qe (queue c) -> qe_ci qe <> Some p) ->
  wf cfg0 (set_channels (remove_ci p (channels c)) c).
Proof.
  intros H Hpin.
  destruct H; constructor; simpl; auto; unfold chan_ptrs, valid_ci in *; simpl.
  - apply remove_ci_NoDup. assumption.
  - intros q Hq. apply wf_chan_heap0. eapply remove_ci_ptrs_incl; eauto.
  - intros qe Hqe. specialize (wf_pinned0 qe Hqe). specialize (Hpin qe Hqe).
    destruct (qe_ci qe) as [q|]; [|exact I].
    apply remove_ci_other; [congruence | assumption].
  - intros ci Hci. apply wf_busy_open0. eapply remove_ci_incl; eauto.
Qed.

Lemma filter_length_split {A} (f : A -> bool) (l : list A) :
  Z.of_nat (List.length l) - Z.of_nat (List.length (filter f l)) =
  Z.of_nat (List.length (filter (fun x => negb (f x)) l)).
Proof.
  induction l as [|x l IH]; [reflexivity|].
  cbn [filter]. destruct (f x); cbn [negb List.length];
    rewrite ?Nat2Z.inj_succ; lia.
Qed.

Lemma wf_purge c (f : mg_rpc_queue_entry -> bool) :
  wf cfg0 c ->
  wf cfg0
    (set_queue_len
       (queue_len c - Z.of_nat (List.length (filter f (queue c))))
       (set_queue (filter (fun qe => negb (f qe)) (queue c)) c)).
Proof.
  intros H. destruct H; constructor; simpl; auto.
  - unfold queue_ptrs. simpl. apply filter_ptrs_NoDup. assumption.
  - unfold queue_ptrs. simpl. intros q Hq. apply wf_queue_heap0.
    eapply filter_ptrs_incl; eauto.
  - intros qe Hqe. apply filter_In in Hqe as [Hqe _].
    exact (wf_pinned0 qe Hqe).
  - rewrite wf_queue_len0. apply filter_length_split.
  - pose proof (Zle_0_nat (List.length (filter f (queue c)))). lia.
Qed.

Lemma wf_create : wf cfg0 (mg_rpc_create cfg0).
Proof.
  unfold mg_rpc_create, mg_rpc_add_local_id.
  destruct (str_empty (c_str (cfg_id cfg0))); simpl;
    (constructor; simpl; auto; try constructor; try tauto; lia).
Qed.

End Invariant_updates.

(** ** The invariant under the operations *)

Section Invariant_operations.

Variable W : World.
Variable cfg0 : mg_rpc_cfg.

Lemma live_wf ps c : live cfg0 ps c -> wf cfg0 c.
Proof. intros [H _]. exact H. Qed.

Lemma live_nil c : wf cfg0 c -> live cfg0 [] c.
Proof. intros H. split; [exact H | intros p []]. Qed.

Lemma live_set_trace ps c t : live cfg0 ps c -> live cfg0 ps (set_trace t c).
Proof. intros [H1 H2]. split; [apply wf_set_trace; exact H1 | exact H2]. Qed.

Lemma emit_live ps e : hoare (live cfg0 ps) (emit e) (fun _ => live cfg0 ps).
Proof. apply hoare_modify. intros c. apply live_set_trace. Qed.

Lemma get_spec (P : mg_rpc -> Prop) :
  hoare P get (fun a c => P c /\ a = c).
Proof. apply hoare_get. auto. Qed.

Lemma deref_ci_spec (P : mg_rpc -> Prop) p :
  hoare P (deref_ci p)
    (fun e c => P c /\ find_ci p (channels c) = Some e).
Proof.
  intros c e c' HP E. unfold deref_ci in E.
  destruct (find_ci p (channels c)) eqn:F; [|discriminate].
  inversion E; subst. auto.
Qed.

Lemma deref_ci_defined p :
  defined (fun c => In p (chan_ptrs c)) (deref_ci p).
Proof.
  intros c Hp. unfold deref_ci.
  destruct (find_ci_Some _ _ Hp) as [e ->]. eauto.
Qed.

Lemma store_ci_live ps p f :
  (forall e, ci_ptr (f e) = ci_ptr e) ->
  hoare
    (fun c => live cfg0 ps c /\
              forall e, find_ci p (channels c) = Some e ->
                        is_busy (f e) = true -> is_open (f e) = true)
    (store_ci p f) (fun _ => live cfg0 ps).
Proof.
  intros Hf c u c' [[Hwf Hps] Hb] E. unfold store_ci in E.
  apply bind_Some in E as (e & c1 & E1 & E2).
  apply (deref_ci_spec (fun c' => c' = c)) in E1 as [-> He]; [|reflexivity].
  inversion E2; subst. split.
  - eapply wf_update_ci; eauto.
  - unfold chan_ptrs. simpl. rewrite update_ci_ptrs by exact Hf. exact Hps.
Qed.

Lemma alloc_live ps :
  hoare (live cfg0 ps) alloc
    (fun p c => live cfg0 ps c /\ (p < heap_next c)%nat /\
                ~ In p (chan_ptrs c) /\ ~ In p (queue_ptrs c)).
Proof.
  intros c p c' [Hwf Hps] E. inversion E; subst. simpl.
  split; [split; [apply wf_set_heap_next; exact Hwf | exact Hps]|].
  split; [lia|]. split; intros Hin.
  - apply (wf_chan_heap Hwf) in Hin. lia.
  - apply (wf_queue_heap Hwf) in Hin. lia.
Qed.

Lemma add_channel_internal_live ps dst ch :
  hoare (live cfg0 ps) (mg_rpc_add_channel_internal dst ch)
    (fun p c => live cfg0 ps c /\ In p (chan_ptrs c)).
Proof.
  unfold mg_rpc_add_channel_internal.
  eapply hoare_bind; [apply alloc_live|]. intros p.
  eapply hoare_bind; [|intros u; apply hoare_ret; intros c H; exact H].
  apply hoare_modify. intros c ([Hwf Hps] & Hlt & Hc & Hq).
  split; [split|].
  - apply wf_add_channel; assumption.
  - intros q Hq'. right. exact (Hps q Hq').
  - left. reflexivity.
Qed.

Lemma scan_channels_valid dst l d0 r d :
  scan_channels W dst l d0 = Some (r, d) ->
  (forall p, r = Some p -> In p (map ci_ptr l)) /\
  (forall p, d = Some p -> d0 = Some p \/ In p (map ci_ptr l)).
Proof.
  revert d0. induction l as [|ci l IH]; simpl; intros d0 E.
  - inversion E; subst. split; [discriminate | auto].
  - destruct (if negb (str_empty dst) then dst_is_equal W dst (ci_dst ci)
              else Some false) as [[|]|]; [| |discriminate].
    + inversion E; subst. split.
      * intros p Hp. inversion Hp. auto.
      * auto.
    + apply IH in E. destruct E as [E1 E2]. split.
      * intros p Hp. right. auto.
      * intros p Hp. apply E2 in Hp as [Hp | Hp]; [|auto].
        destruct (mg_vcmp_eq (ci_dst ci) (MG_RPC_DST_DEFAULT W)); [|auto].
        inversion Hp. auto.
Qed.

Lemma by_dst_live ps dst :
  hoare (live cfg0 ps) (mg_rpc_get_channel_info_internal_by_dst W dst)
    (fun r c => live cfg0 ps c /\ valid_ci c (fst r)).
Proof.
  unfold mg_rpc_get_channel_info_internal_by_dst.
  eapply hoare_bind; [apply get_spec|]. intros c0. simpl.
  destruct (scan_channels W dst (channels c0) None) as [[[ci|] dflt]|]
    eqn:Hscan; [| |apply hoare_undefined].
  - apply hoare_ret. intros c [H ->]. split; [exact H|]. simpl.
    apply scan_channels_valid in Hscan as [H1 _]; auto.
  - apply scan_channels_valid in Hscan as [_ H2].
    assert (Hd : forall c, c0 = c -> valid_ci c dflt).
    { intros c <-. destruct dflt as [p|]; simpl; [|exact I].
      destruct (H2 p eq_refl) as [H | H]; [discriminate | exact H]. }
    destruct (dst_uri W dst) as [u|].
    + destruct (is_ws_scheme (uri_scheme u)).
      * eapply hoare_bind.
        { eapply hoare_weaken; [apply (emit_live ps) | | intros a c H; exact H].
          intros c [H _]. exact H. }
        intros u1. destruct (mg_rpc_channel_ws_out W _ _) as [ch|].
        -- eapply hoare_bind; [apply add_channel_internal_live|]. intros p.
           simpl.
           eapply hoare_bind.
           { intros c a c' [K1 K2] E. inversion E; subst.
             instantiate (1 := fun _ c => live cfg0 ps c /\ In p (chan_ptrs c)).
             split; [apply live_set_trace; exact K1 | exact K2]. }
           intros u2. apply hoare_ret. intros c H. exact H.
        -- eapply hoare_bind; [apply emit_live|]. intros u2.
           apply hoare_ret. intros c H. split; [exact H | exact I].
      * eapply hoare_bind.
        { eapply hoare_weaken; [apply (emit_live ps) | | intros a c H; exact H].
          intros c [H _]. exact H. }
        intros u1. apply hoare_ret. intros c H. split; [exact H | exact I].
    + apply hoare_ret. intros c [H E]. split; [exact H|]. simpl. auto.
Qed.

Lemma live_cons ps c p :
  live cfg0 ps c -> In p (chan_ptrs c) -> live cfg0 (p :: ps) c.
Proof.
  intros [H1 H2] Hp. split; [exact H1|]. intros q [<- | Hq]; auto.
Qed.

Lemma live_tail ps c p : live cfg0 (p :: ps) c -> live cfg0 ps c.
Proof.
  intros [H1 H2]. split; [exact H1|]. intros q Hq. apply H2. right. exact Hq.
Qed.

Lemma live_head ps c p : live cfg0 (p :: ps) c -> In p (chan_ptrs c).
Proof. intros [H1 H2]. apply H2. left. reflexivity. Qed.

Lemma send_frame_live ps ci f :
  hoare (fun c => live cfg0 ps c /\ valid_ci c ci) (mg_rpc_send_frame W ci f)
    (fun _ => live cfg0 ps).
Proof.
  intros c r c' [Hl Hv] E. destruct ci as [p|]; simpl in E.
  - unfold bind, deref_ci in E.
    destruct (find_ci p (channels c)) as [e|] eqn:F; [|discriminate].
    destruct (negb (is_open e) || is_busy e) eqn:G.
    { inversion E; subst. exact Hl. }
    apply orb_false_iff in G as [G1 G2]. apply negb_false_iff in G1.
    simpl in E.
    destruct (send_frame W (trace c) (ci_ch e) f) eqn:S; simpl in E.
    + unfold store_ci, bind, deref_ci in E. simpl in E. rewrite F in E.
      inversion E; subst. clear E.
      destruct Hl as [Hwf Hps]. split.
      * apply (wf_update_ci cfg0 (set_trace _ c) p (set_is_busy true) e); auto.
        apply wf_set_trace. exact Hwf.
      * unfold chan_ptrs. simpl. rewrite update_ci_ptrs by reflexivity. exact Hps.
    + inversion E; subst. apply live_set_trace. exact Hl.
  - inversion E; subst. exact Hl.
Qed.

Lemma enqueue_frame_live ps ci dst f :
  hoare (fun c => live cfg0 ps c /\ valid_ci c ci)
    (mg_rpc_enqueue_frame ci dst f) (fun _ => live cfg0 ps).
Proof.
  intros c r c' [[Hwf Hps] Hv] E. unfold mg_rpc_enqueue_frame in E.
  unfold bind, get in E.
  destruct (queue_len c >=? max_queue_length (cfg c)) eqn:G.
  { inversion E; subst. split; assumption. }
  unfold alloc, modify, ret in E. simpl in E. inversion E; subst. clear E.
  rewrite Z.geb_leb in G. apply Z.leb_gt in G. rewrite (wf_cfg Hwf) in G.
  split; [|exact Hps].
  apply (wf_enqueue cfg0 (set_heap_next (S (heap_next c)) c)); simpl.
  - apply wf_set_heap_next. exact Hwf.
  - exact Hv.
  - intros Hin. apply (wf_queue_heap Hwf) in Hin. lia.
  - lia.
  - exact G.
Qed.

Lemma remove_queue_entry_live ps qe :
  hoare (live cfg0 ps) (mg_rpc_remove_queue_entry qe) (fun _ => live cfg0 ps).
Proof.
  intros c r c' [Hwf Hps] E. unfold mg_rpc_remove_queue_entry in E.
  destruct (unlink_qe qe (queue c)) as [q'|] eqn:U; [|discriminate].
  inversion E; subst. split; [|exact Hps].
  eapply wf_unlink; eauto.
Qed.

Lemma live_opt_intro ps c ci :
  live cfg0 ps c -> valid_ci c ci -> live cfg0 (optl ci ++ ps) c.
Proof.
  intros H Hv. destruct ci as [p|]; simpl; [|exact H].
  apply live_cons; assumption.
Qed.

Lemma live_opt_valid ps c ci : live cfg0 (optl ci ++ ps) c -> valid_ci c ci.
Proof.
  destruct ci as [p|]; simpl; [|auto]. apply live_head.
Qed.

Lemma live_opt_elim ps c ci : live cfg0 (optl ci ++ ps) c -> live cfg0 ps c.
Proof.
  destruct ci as [p|]; simpl; [|auto]. apply live_tail.
Qed.

Lemma live_app_l ps qs c : live cfg0 (ps ++ qs) c -> live cfg0 qs c.
Proof.
  intros [H1 H2]. split; [exact H1|]. intros q Hq. apply H2.
  apply in_or_app. right. exact Hq.
Qed.

Lemma live_In ps c p : live cfg0 ps c -> In p ps -> In p (chan_ptrs c).
Proof. intros [_ H] Hp. exact (H p Hp). Qed.

Lemma get_channel_info_internal_spec (P : mg_rpc -> Prop) ch :
  hoare P (mg_rpc_get_channel_info_internal ch)
    (fun r c => P c /\ valid_ci c r).
Proof.
  intros c r c' HP E. unfold mg_rpc_get_channel_info_internal in E.
  inversion E; subst. clear E. split; [exact HP|].
  destruct (find _ (channels c')) as [e|] eqn:F; simpl; [|exact I].
  apply find_some in F as [F _]. unfold chan_ptrs. apply in_map. exact F.
Qed.

Lemma dispatch_frame_live ps src dst id tag key ci enqueue prefix payload :
  hoare (fun c => live cfg0 ps c /\ valid_ci c ci)
    (mg_rpc_dispatch_frame W src dst id tag key ci enqueue prefix payload)
    (fun _ => live cfg0 ps).
Proof.
  unfold mg_rpc_dispatch_frame.
  eapply hoare_bind with
    (Q := fun r c => live cfg0 (optl (fst r) ++ ps) c).
  { destruct ci as [p|].
    - apply hoare_ret. intros c [H Hv]. simpl. apply live_cons; assumption.
    - eapply hoare_weaken; [apply (by_dst_live ps) | |].
      + intros c [H _]. exact H.
      + intros r c [H Hv]. apply live_opt_intro; assumption. }
  intros r. simpl.
  eapply hoare_bind; [apply get_spec|]. intros c0. simpl.
  eapply hoare_bind with (Q := fun _ c => live cfg0 (optl (fst r) ++ ps) c).
  { eapply hoare_weaken; [apply send_frame_live | | intros a c H; exact H].
    intros c [H _]. split; [exact H | eapply live_opt_valid; exact H]. }
  intros sent. destruct sent.
  { apply hoare_ret. intros c H. eapply live_opt_elim; exact H. }
  destruct enqueue.
  - eapply hoare_bind with (Q := fun _ c => live cfg0 ps c).
    + eapply hoare_weaken; [apply (enqueue_frame_live ps) | | intros a c H; exact H].
      intros c H. split; [eapply live_opt_elim | eapply live_opt_valid]; exact H.
    + intros queued. destruct queued; apply hoare_ret; auto.
  - apply hoare_ret. intros c H. eapply live_opt_elim; exact H.
Qed.

Lemma send_responsef_live ps ri result_json :
  hoare (live cfg0 ps) (mg_rpc_send_responsef W ri result_json)
    (fun _ => live cfg0 ps).
Proof.
  unfold mg_rpc_send_responsef.
  eapply hoare_bind; [apply get_channel_info_internal_spec|]. intros ci.
  apply dispatch_frame_live.
Qed.

Lemma send_errorf_live ps ri code is_json msg :
  hoare (live cfg0 ps) (send_errorf W ri code is_json msg)
    (fun _ => live cfg0 ps).
Proof.
  unfold send_errorf.
  eapply hoare_bind; [apply get_channel_info_internal_spec|]. intros ci.
  apply dispatch_frame_live.
Qed.

Lemma process_queue_live ps :
  hoare (live cfg0 ps) (mg_rpc_process_queue W) (fun _ => live cfg0 ps).
Proof.
  intros c u c' Hl E. unfold mg_rpc_process_queue in E.
  apply bind_Some in E as (c0 & c1 & E0 & E). inversion E0; subst. clear E0.
  assert (Hl' : live cfg0 (chan_ptrs c1 ++ ps) c1).
  { destruct Hl as [H1 H2]. split; [exact H1|].
    intros p Hp. apply in_app_or in Hp as [Hp | Hp]; auto. }
  apply (live_app_l (chan_ptrs c1)).
  refine (hoare_foreach _ _ _ _ c1 u c' Hl' E). intros qe Hqe.
  unfold process_queue_entry.
  eapply hoare_bind with
    (Q := fun r c => live cfg0 (chan_ptrs c1 ++ ps) c /\ valid_ci c r).
  { destruct (qe_ci qe) as [p|] eqn:Hp.
    - apply hoare_ret. intros c H. split; [exact H|].
      eapply live_In; [exact H|]. apply in_or_app. left.
      pose proof (wf_pinned (live_wf _ _ Hl) qe Hqe) as Hv.
      rewrite Hp in Hv. exact Hv.
    - eapply hoare_bind; [apply by_dst_live|]. intros r.
      apply hoare_ret. auto. }
  intros ci.
  eapply hoare_bind; [apply send_frame_live|]. intros ok.
  destruct ok; [apply remove_queue_entry_live | apply hoare_ret; auto].
Qed.

Lemma handle_request_live ps ci frame :
  hoare (live cfg0 ps) (mg_rpc_handle_request W ci frame)
    (fun _ => live cfg0 ps).
Proof.
  unfold mg_rpc_handle_request.
  eapply hoare_bind; [apply deref_ci_spec|]. intros e.
  eapply hoare_bind; [apply get_spec|]. intros c0. simpl.
  destruct (find _ (handlers c0)) as [hi|].
  - eapply hoare_bind with (Q := fun _ c => live cfg0 ps c).
    + destruct (prehandler c0) as [cb|].
      * eapply hoare_bind with (Q := fun _ c => live cfg0 ps c).
        -- eapply hoare_weaken; [apply (emit_live ps) | | intros a c H; exact H].
           intros c [[H _] _]. exact H.
        -- intros u. apply hoare_ret. auto.
      * apply hoare_ret. intros c [[H _] _]. exact H.
    + intros ok. eapply hoare_bind with (Q := fun _ c => live cfg0 ps c).
      * destruct ok; [apply emit_live | apply hoare_ret; auto].
      * intros u. apply hoare_ret. auto.
  - eapply hoare_bind with (Q := fun _ c => live cfg0 ps c).
    + eapply hoare_weaken; [apply (emit_live ps) | | intros a c H; exact H].
      intros c [[H _] _]. exact H.
    + intros u. eapply hoare_bind; [apply send_errorf_live|].
      intros r. apply hoare_ret. auto.
Qed.

Lemma handle_response_live ps ci id result code msg :
  hoare (live cfg0 ps) (mg_rpc_handle_response W ci id result code msg)
    (fun _ => live cfg0 ps).
Proof.
  unfold mg_rpc_handle_response. destruct (id =? 0).
  - eapply hoare_bind; [apply emit_live|]. intros u. apply hoare_ret. auto.
  - eapply hoare_bind; [apply get_spec|]. intros c0. simpl.
    destruct (take_request id (requests c0)) as [[ri rest]|].
    + eapply hoare_bind with (Q := fun _ c => live cfg0 ps c).
      * apply hoare_modify. intros c [[H1 H2] _].
        split; [apply wf_set_requests; exact H1 | exact H2].
      * intros u. eapply hoare_bind; [apply deref_ci_spec|]. intros e.
        eapply hoare_bind with (Q := fun _ c => live cfg0 ps c).
        -- eapply hoare_weaken; [apply (emit_live ps) | | intros a c H; exact H].
           intros c [H _]. exact H.
        -- intros u'. apply hoare_ret. auto.
    + apply hoare_ret. intros c [H _]. exact H.
Qed.

Lemma handle_frame_live ps ci frame :
  hoare (live cfg0 ps) (mg_rpc_handle_frame W ci frame)
    (fun _ => live cfg0 ps).
Proof.
  unfold mg_rpc_handle_frame.
  eapply hoare_bind; [apply deref_ci_spec|]. intros e.
  eapply hoare_bind; [apply get_spec|]. intros c0. simpl.
  destruct (negb (is_open e)).
  { eapply hoare_bind with (Q := fun _ c => live cfg0 ps c).
    - eapply hoare_weaken; [apply (emit_live ps) | | intros a c H; exact H].
      intros c [[H _] _]. exact H.
    - intros u. apply hoare_ret. auto. }
  destruct (negb (str_empty (frame_dst frame)) && _).
  { eapply hoare_bind with (Q := fun _ c => live cfg0 ps c).
    - eapply hoare_weaken; [apply (emit_live ps) | | intros a c H; exact H].
      intros c [[H _] _]. exact H.
    - intros u. apply hoare_ret. auto. }
  eapply hoare_bind with (Q := fun _ c => live cfg0 ps c).
  { destruct (str_empty (ci_dst e)).
    - eapply hoare_weaken;
        [apply (store_ci_live ps ci (set_ci_dst (frame_src frame)));
         reflexivity | | intros a c H; exact H].
      intros c [[H F] _]. split; [exact H|].
      intros e' F'. rewrite F in F'. inversion F'; subst. simpl.
      apply (wf_busy_open (live_wf _ _ H)). apply find_ci_In in F. tauto.
    - apply hoare_ret. intros c [[H _] _]. exact H. }
  intros u. destruct (0 <? String.length (frame_method frame))%nat.
  - eapply hoare_bind; [apply handle_request_live|]. intros ok.
    destruct ok; apply hoare_ret; auto.
  - eapply hoare_bind; [apply handle_response_live|]. intros ok.
    destruct ok; apply hoare_ret; auto.
Qed.

Lemma call_observers_live ps ev dst :
  hoare (live cfg0 ps) (mg_rpc_call_observers ev dst) (fun _ => live cfg0 ps).
Proof.
  unfold mg_rpc_call_observers.
  eapply hoare_bind with (Q := fun _ c => live cfg0 ps c).
  - apply hoare_get. auto.
  - intros c0. apply hoare_foreach. intros oi _. apply emit_live.
Qed.

Lemma store_ci_seq p f g c u1 c1 u2 c2 :
  (forall e, ci_ptr (f e) = ci_ptr e) ->
  store_ci p f c = Some (u1, c1) -> store_ci p g c1 = Some (u2, c2) ->
  store_ci p (fun e => g (f e)) c = Some (tt, c2).
Proof.
  intros Hf. unfold store_ci, bind, deref_ci, modify.
  destruct (find_ci p (channels c)) as [e|] eqn:F; [|discriminate].
  intros E1. inversion E1; subst. clear E1. simpl.
  rewrite (find_ci_update _ _ _ _ Hf F). intros E2. inversion E2; subst.
  rewrite update_ci_twice by exact Hf. reflexivity.
Qed.

Lemma unlink_qe_app x pre l :
  ~ In (qe_ptr x) (map qe_ptr pre) ->
  unlink_qe (qe_ptr x) (pre ++ x :: l) = Some (pre ++ l).
Proof.
  induction pre as [|y pre IH]; simpl; intros Hn.
  - rewrite Nat.eqb_refl. reflexivity.
  - destruct (Nat.eqb (qe_ptr y) (qe_ptr x)) eqn:E.
    + apply Nat.eqb_eq in E. tauto.
    + rewrite IH by tauto. reflexivity.
Qed.

(** The loop of the CLOSED event over the queue: the entries pinned to
    [ci] are unlinked, the others stay as they are. *)
Lemma purge_loop ci l : forall pre c,
  queue c = pre ++ l -> NoDup (map qe_ptr (pre ++ l)) ->
  foreach l
    (fun qe =>
       match qe_ci qe with
       | Some p => if Nat.eqb p ci then mg_rpc_remove_queue_entry (qe_ptr qe)
                   else ret tt
       | None => ret tt
       end) c =
  Some (tt,
        set_queue_len
          (queue_len c - Z.of_nat (List.length (filter (pinned_to ci) l)))
          (set_queue (pre ++ filter (fun qe => negb (pinned_to ci qe)) l) c)).
Proof.
  induction l as [|x l IH]; intros pre c Hq Hnd; simpl.
  - unfold ret. destruct c; simpl in *. subst.
    unfold set_queue_len, set_queue. simpl.
    rewrite Z.sub_0_r. reflexivity.
  - assert (Hx : ~ In (qe_ptr x) (map qe_ptr pre)).
    { rewrite map_app in Hnd. simpl in Hnd.
      apply NoDup_remove_2 in Hnd. intros Hin. apply Hnd.
      apply in_or_app. left. exact Hin. }
    assert (Hnd' : NoDup (map qe_ptr (pre ++ l))).
    { rewrite map_app in *. simpl in Hnd. apply NoDup_remove_1 in Hnd. exact Hnd. }
    unfold bind at 1.
    destruct (pinned_to ci x) eqn:Hpin; cbn [negb].
    + replace (match qe_ci x with
               | Some p => if Nat.eqb p ci
                           then mg_rpc_remove_queue_entry (qe_ptr x)
                           else ret tt
               | None => ret tt
               end) with (mg_rpc_remove_queue_entry (qe_ptr x)).
      2:{ unfold pinned_to in Hpin. destruct (qe_ci x); [|discriminate].
          rewrite Hpin. reflexivity. }
      unfold mg_rpc_remove_queue_entry at 1.
      rewrite Hq, (unlink_qe_app _ _ _ Hx).
      rewrite (IH pre) by (simpl; auto).
      cbn [List.length]. rewrite Nat2Z.inj_succ.
      unfold set_queue_len, set_queue. cbn. do 3 f_equal. lia.
    + replace (match qe_ci x with
               | Some p => if Nat.eqb p ci
                           then mg_rpc_remove_queue_entry (qe_ptr x)
                           else ret tt
               | None => ret tt
               end) with (@ret unit tt).
      2:{ unfold pinned_to in Hpin. destruct (qe_ci x); [|reflexivity].
          rewrite Hpin. reflexivity. }
      unfold ret at 1. rewrite (IH (pre ++ [x])).
      * rewrite <- app_assoc. reflexivity.
      * rewrite <- app_assoc. exact Hq.
      * rewrite <- app_assoc. exact Hnd.
Qed.

Lemma find_by_ch_live c ch e :
  find (fun ci => Nat.eqb (ci_ch ci) ch) (channels c) = Some e ->
  In (ci_ptr e) (chan_ptrs c).
Proof.
  intros F. apply find_some in F as [F _]. unfold chan_ptrs.
  apply in_map. exact F.
Qed.

Lemma ev_handler_wf ch ev :
  hoare (wf cfg0) (mg_rpc_ev_handler W ch ev) (fun _ => wf cfg0).
Proof.
  intros c u c' Hwf E. unfold mg_rpc_ev_handler in E.
  apply bind_Some in E as (c0 & c1 & E0 & E). inversion E0; subst. clear E0.
  destruct (find _ (channels c1)) as [e|] eqn:F.
  2:{ inversion E; subst. exact Hwf. }
  pose proof (find_by_ch_live _ _ _ F) as Hp.
  set (ci := ci_ptr e) in *.
  pose proof (live_cons [] c1 ci (live_nil _ Hwf) Hp) as Hl.
  destruct ev as [|f|frame|success|].
  - (* OPEN *)
    apply (live_wf [ci]).
    apply bind_Some in E as (u1 & c2 & E1 & E).
    apply bind_Some in E as (u2 & c3 & E2 & E).
    pose proof (store_ci_seq ci (set_is_open true) (set_is_busy false)
                  _ _ _ _ _ (fun e => eq_refl) E1 E2) as E12.
    apply (store_ci_live [ci]) in E12;
      [|reflexivity | split; [exact Hl | intros; discriminate]].
    apply bind_Some in E as (u3 & c4 & E3 & E).
    apply (process_queue_live [ci]) in E3; [|exact E12].
    apply bind_Some in E as (e' & c5 & E4 & E).
    apply (deref_ci_spec (live cfg0 [ci])) in E4 as [E4 _]; [|exact E3].
    destruct (0 <? String.length (ci_dst e'))%nat.
    + exact (call_observers_live [ci] _ _ _ _ _ E4 E).
    + inversion E; subst. exact E4.
  - (* FRAME_RECD *)
    apply (live_wf [ci]).
    apply bind_Some in E as (ok & c2 & E1 & E).
    assert (H2 : live cfg0 [ci] c2).
    { destruct (mg_rpc_parse_frame W f) as [frame|].
      - exact (handle_frame_live [ci] _ _ _ _ _ Hl E1).
      - inversion E1; subst. exact Hl. }
    destruct ok; simpl in E; [inversion E; subst; exact H2|].
    apply bind_Some in E as (u1 & c3 & E2 & E).
    apply (emit_live [ci]) in E2; [|exact H2].
    apply bind_Some in E as (c4 & c5 & E3 & E). inversion E3; subst. clear E3.
    destruct (negb (is_persistent W (trace c5) ch)).
    + exact (emit_live [ci] _ _ _ _ E2 E).
    + inversion E; subst. exact E2.
  - (* FRAME_RECD_PARSED *)
    apply (live_wf [ci]).
    apply bind_Some in E as (ok & c2 & E1 & E).
    apply (handle_frame_live [ci]) in E1; [|exact Hl].
    destruct ok; simpl in E; [inversion E; subst; exact E1|].
    apply bind_Some in E as (u1 & c3 & E2 & E).
    apply (emit_live [ci]) in E2; [|exact E1].
    apply bind_Some in E as (c4 & c5 & E3 & E). inversion E3; subst. clear E3.
    destruct (negb (is_persistent W (trace c5) ch)).
    + exact (emit_live [ci] _ _ _ _ E2 E).
    + inversion E; subst. exact E2.
  - (* FRAME_SENT *)
    apply (live_wf [ci]).
    apply bind_Some in E as (u1 & c2 & E1 & E).
    apply (store_ci_live [ci]) in E1;
      [|reflexivity | split; [exact Hl | intros; discriminate]].
    exact (process_queue_live [ci] _ _ _ E1 E).
  - (* CLOSED *)
    apply bind_Some in E as (u1 & c2 & E1 & E).
    apply bind_Some in E as (u2 & c3 & E2 & E).
    pose proof (store_ci_seq ci (set_is_busy false) (set_is_open false)
                  _ _ _ _ _ (fun e => eq_refl) E1 E2) as E12.
    apply (store_ci_live [ci]) in E12;
      [|reflexivity | split; [exact Hl | intros; discriminate]].
    apply bind_Some in E as (e' & c4 & E3 & E).
    apply (deref_ci_spec (live cfg0 [ci])) in E3 as [E3 _]; [|exact E12].
    apply bind_Some in E as (u3 & c5 & E4 & E).
    assert (H5 : live cfg0 [ci] c5).
    { destruct (0 <? String.length (ci_dst e'))%nat.
      - exact (call_observers_live [ci] _ _ _ _ _ E3 E4).
      - inversion E4; subst. exact E3. }
    destruct (negb (is_persistent W (trace c1) ch));
      [|inversion E; subst; exact (live_wf _ _ H5)].
    apply bind_Some in E as (c6 & c7 & E5 & E). inversion E5; subst. clear E5.
    apply bind_Some in E as (u4 & c8 & E6 & E).
    apply bind_Some in E as (u5 & c9 & E7 & E).
    rewrite (purge_loop ci (queue c7) [] c7 eq_refl
               (wf_queue_nodup (live_wf _ _ H5))) in E6.
    assert (H8 : wf cfg0 c8 /\
                 forall qe, In qe (queue c8) -> qe_ci qe <> Some ci).
    { inversion E6; subst. clear E6. split.
      - apply wf_purge. exact (live_wf _ _ H5).
      - simpl. intros qe Hqe. apply filter_In in Hqe as [_ Hqe].
        unfold pinned_to in Hqe. intros Hp'. rewrite Hp' in Hqe.
        rewrite Nat.eqb_refl in Hqe. discriminate. }
    destruct H8 as [H8 Hpin].
    inversion E7; subst. clear E7.
    inversion E; subst. clear E.
    apply wf_set_trace. apply wf_remove_ci; assumption.
Qed.

Lemma get_id_live ps :
  hoare (live cfg0 ps) (mg_rpc_get_id W) (fun _ => live cfg0 ps).
Proof.
  intros c id c' [H1 H2] E. unfold mg_rpc_get_id in E.
  unfold bind, get, emit, modify, ret in E. simpl in E.
  inversion E; subst. split; [|exact H2].
  apply wf_set_next_id. apply wf_set_trace. exact H1.
Qed.

Lemma vcallf_broadcast_live ps l src dst id tag key pprefix args : forall result,
  (forall ci, In ci l -> In (ci_ptr ci) ps) ->
  hoare (live cfg0 ps)
    (vcallf_broadcast W l src dst id tag key pprefix args result)
    (fun _ => live cfg0 ps).
Proof.
  induction l as [|ci l IH]; intros result Hl; simpl.
  - apply hoare_ret. auto.
  - eapply hoare_bind; [apply get_spec|]. intros c0. simpl.
    destruct (negb (has_is_broadcast_enabled W (ci_ch ci)) || _).
    + eapply hoare_weaken; [apply (IH result) | | intros a c H; exact H].
      * intros x Hx. apply Hl. right. exact Hx.
      * intros c [H _]. exact H.
    + eapply hoare_bind with (Q := fun _ c => live cfg0 ps c).
      * eapply hoare_weaken;
          [apply (dispatch_frame_live ps) | | intros a c H; exact H].
        intros c [H _]. split; [exact H|]. simpl.
        eapply live_In; [exact H|]. apply Hl. left. reflexivity.
      * intros r. apply IH. intros x Hx. apply Hl. right. exact Hx.
Qed.

Lemma vcallf_live ps method cb cb_arg opts args :
  hoare (live cfg0 ps) (mg_rpc_vcallf W method cb cb_arg opts args)
    (fun _ => live cfg0 ps).
Proof.
  unfold mg_rpc_vcallf.
  eapply hoare_bind; [apply get_id_live|]. intros id. simpl.
  destruct opts as [o|]; [|apply hoare_undefined].
  intros c r c' Hl E.
  apply bind_Some in E as (c0 & c1 & E0 & E). inversion E0; subst. clear E0.
  apply bind_Some in E as (result & c2 & E1 & E).
  assert (H2 : live cfg0 ps c2).
  { destruct (negb (opts_broadcast o)).
    - eapply (dispatch_frame_live ps); [|exact E1]. split; [exact Hl | exact I].
    - apply (live_app_l (chan_ptrs c1)).
      eapply (vcallf_broadcast_live (chan_ptrs c1 ++ ps)); [| |exact E1].
      + intros ci Hci. apply in_or_app. left. unfold chan_ptrs.
        apply in_map. exact Hci.
      + destruct Hl as [H1 H2]. split; [exact H1|].
        intros p Hp. apply in_app_or in Hp as [Hp | Hp]; auto. }
  destruct cb as [f|]; [destruct result|]; simpl in E.
  - inversion E; subst. destruct H2 as [H2 H3]. split; [|exact H3].
    apply wf_set_requests. exact H2.
  - inversion E; subst. exact H2.
  - inversion E; subst. exact H2.
Qed.

Lemma is_connected_live ps :
  hoare (live cfg0 ps) (mg_rpc_is_connected W) (fun _ => live cfg0 ps).
Proof.
  unfold mg_rpc_is_connected.
  eapply hoare_bind; [apply by_dst_live|]. intros r.
  destruct (fst r) as [p|].
  - eapply hoare_bind; [apply deref_ci_spec|]. intros e.
    apply hoare_ret. intros c [[H _] _]. exact H.
  - apply hoare_ret. intros c [H _]. exact H.
Qed.

Lemma can_send_live ps :
  hoare (live cfg0 ps) (mg_rpc_can_send W) (fun _ => live cfg0 ps).
Proof.
  unfold mg_rpc_can_send.
  eapply hoare_bind; [apply by_dst_live|]. intros r.
  destruct (fst r) as [p|].
  - eapply hoare_bind; [apply deref_ci_spec|]. intros e.
    apply hoare_ret. intros c [[H _] _]. exact H.
  - apply hoare_ret. intros c [H _]. exact H.
Qed.

Lemma hoare_drop {A} (P : mg_rpc -> Prop) (m : M A) :
  hoare P m (fun _ => P) -> hoare P (_ <- m ;; ret tt) (fun _ => P).
Proof.
  intros H. eapply hoare_bind; [exact H|]. intros a. apply hoare_ret. auto.
Qed.

(** Every operation keeps the invariant. *)
Lemma run_op_wf o : hoare (wf cfg0) (run_op W o) (fun _ => wf cfg0).
Proof.
  assert (L : forall (m : M unit),
             hoare (live cfg0 []) m (fun _ => live cfg0 []) ->
             hoare (wf cfg0) m (fun _ => wf cfg0)).
  { intros m H. eapply hoare_weaken; [exact H | apply live_nil |].
    intros a c. apply live_wf. }
  destruct o; simpl.
  - unfold mg_rpc_add_local_id. destruct (str_empty id).
    + apply hoare_ret. auto.
    + apply hoare_modify. intros c. apply wf_set_local_ids.
  - apply hoare_modify. intros c. apply wf_set_handlers.
  - apply hoare_modify. intros c. apply wf_set_prehandler.
  - apply hoare_modify. intros c. apply wf_set_observers.
  - apply hoare_modify. intros c. apply wf_set_observers.
  - apply L. unfold mg_rpc_add_channel.
    eapply hoare_bind; [apply add_channel_internal_live|].
    intros p. apply hoare_ret. intros c [H _]. exact H.
  - apply L. unfold mg_rpc_connect.
    eapply hoare_bind with (Q := fun _ c => live cfg0 [] c).
    + apply hoare_get. auto.
    + intros c0. apply hoare_foreach. intros ci _. apply emit_live.
  - apply L. unfold mg_rpc_disconnect.
    eapply hoare_bind with (Q := fun _ c => live cfg0 [] c).
    + apply hoare_get. auto.
    + intros c0. apply hoare_foreach. intros ci _. apply emit_live.
  - apply L, hoare_drop, is_connected_live.
  - apply L, hoare_drop, can_send_live.
  - apply L, hoare_drop. unfold mg_rpc_callf. apply vcallf_live.
  - apply L, hoare_drop, send_responsef_live.
  - apply L, hoare_drop. unfold mg_rpc_send_errorf. apply send_errorf_live.
  - apply L, hoare_drop. unfold mg_rpc_send_error_jsonf. apply send_errorf_live.
  - apply ev_handler_wf.
Qed.

(** The invariant holds at every observable moment. *)
Lemma reachable_wf c : reachable W cfg0 c -> wf cfg0 c.
Proof.
  induction 1 as [|c o c' _ IH E].
  - apply wf_create.
  - exact (run_op_wf o c tt c' IH E).
Qed.

End Invariant_operations.

(** ** What an operation leaves alone *)

Lemma unchanged_ret {A B} (part : mg_rpc -> B) (a : A) : unchanged part (ret a).
Proof. intros c a' c' E. inversion E; subst. reflexivity. Qed.

Lemma unchanged_get {B} (part : mg_rpc -> B) : unchanged part get.
Proof. intros c a' c' E. inversion E; subst. reflexivity. Qed.

Lemma unchanged_undefined {A B} (part : mg_rpc -> B) :
  unchanged part (@undefined A).
Proof. intros c a' c' E. discriminate E. Qed.

Lemma unchanged_bind {A A' B} (part : mg_rpc -> B) (m : M A) (k : A -> M A') :
  unchanged part m -> (forall a, unchanged part (k a)) ->
  unchanged part (bind m k).
Proof.
  intros Hm Hk c b c' E. apply bind_Some in E as (a & c1 & E1 & E2).
  rewrite (Hk a _ _ _ E2). exact (Hm _ _ _ E1).
Qed.

Lemma unchanged_modify {B} (part : mg_rpc -> B) f :
  (forall c, part (f c) = part c) -> unchanged part (modify f).
Proof. intros H c a c' E. inversion E; subst. apply H. Qed.

Lemma unchanged_foreach {A B} (part : mg_rpc -> B) (l : list A) body :
  (forall x, unchanged part (body x)) -> unchanged part (foreach l body).
Proof.
  intros H. induction l as [|x l IH]; simpl.
  - apply unchanged_ret.
  - apply unchanged_bind; [apply H | intros _; exact IH].
Qed.

Lemma unchanged_deref_ci {B} (part : mg_rpc -> B) p :
  unchanged part (deref_ci p).
Proof.
  intros c a c' E. unfold deref_ci in E.
  destruct (find_ci p (channels c)); [|discriminate].
  inversion E; subst. reflexivity.
Qed.

Lemma unchanged_remove_queue_entry {B} (part : mg_rpc -> B) qe :
  (forall c n q, part (set_queue_len n (set_queue q c)) = part c) ->
  unchanged part (mg_rpc_remove_queue_entry qe).
Proof.
  intros H c a c' E. unfold mg_rpc_remove_queue_entry in E.
  destruct (unlink_qe qe (queue c)); [|discriminate].
  inversion E; subst. apply H.
Qed.

Lemma unchanged_alloc {B} (part : mg_rpc -> B) :
  (forall c n, part (set_heap_next n c) = part c) -> unchanged part alloc.
Proof. intros H c a c' E. inversion E; subst. apply H. Qed.

(** Decomposes a goal [unchanged part m] along the code of [m]. *)
Ltac frame_step :=
  first
    [ apply unchanged_ret
    | apply unchanged_get
    | apply unchanged_undefined
    | apply unchanged_deref_ci
    | apply unchanged_modify; intros ?; reflexivity
    | apply unchanged_remove_queue_entry; intros; reflexivity
    | apply unchanged_alloc; intros; reflexivity
    | apply unchanged_bind; [|intros ?]
    | apply unchanged_foreach; intros ?
    | match goal with
      | |- unchanged _ (match ?x with _ => _ end) => destruct x
      | |- unchanged _ (let _ := _ in _) => cbv zeta
      end ].

Ltac frame := cbv zeta; repeat (frame_step; cbv beta zeta).

Section Frames.

Variable W : World.

(** The pending requests are touched by nothing but a call and a response. *)
Lemma by_dst_requests dst :
  unchanged requests (mg_rpc_get_channel_info_internal_by_dst W dst).
Proof.
  unfold mg_rpc_get_channel_info_internal_by_dst, mg_rpc_add_channel_internal,
    emit.
  frame.
Qed.

Lemma send_frame_requests ci f : unchanged requests (mg_rpc_send_frame W ci f).
Proof. unfold mg_rpc_send_frame, store_ci, emit. frame. Qed.

Lemma enqueue_frame_requests ci dst f :
  unchanged requests (mg_rpc_enqueue_frame ci dst f).
Proof. unfold mg_rpc_enqueue_frame. frame. Qed.

Lemma dispatch_frame_requests src dst id tag key ci enqueue prefix payload :
  unchanged requests
    (mg_rpc_dispatch_frame W src dst id tag key ci enqueue prefix payload).
Proof.
  unfold mg_rpc_dispatch_frame.
  apply unchanged_bind.
  { destruct ci; [apply unchanged_ret | apply by_dst_requests]. }
  intros r. apply unchanged_bind; [apply unchanged_get|]. intros c0.
  apply unchanged_bind; [apply send_frame_requests|]. intros sent.
  destruct sent; [apply unchanged_ret|].
  destruct enqueue; [|apply unchanged_ret].
  apply unchanged_bind; [apply enqueue_frame_requests|].
  intros q. destruct q; apply unchanged_ret.
Qed.

Lemma vcallf_broadcast_requests l src dst id tag key pprefix args result :
  unchanged requests
    (vcallf_broadcast W l src dst id tag key pprefix args result).
Proof.
  revert result. induction l as [|ci l IH]; intros result; simpl.
  - apply unchanged_ret.
  - apply unchanged_bind; [apply unchanged_get|]. intros c0.
    destruct (_ || _); [apply IH|].
    apply unchanged_bind; [apply dispatch_frame_requests|].
    intros r. apply IH.
Qed.

(** Observers are told, and nothing of the multiplexer changes. *)
Lemma call_observers_unchanged ev dst :
  unchanged (fun c => (channels c, queue c, queue_len c))
    (mg_rpc_call_observers ev dst).
Proof. unfold mg_rpc_call_observers, emit. frame. Qed.

End Frames.

(** ** The events of an operation *)

Lemma only_events_ret {A} P (a : A) : only_events P (ret a).
Proof.
  intros c a' c' E. inversion E; subst. exists []. rewrite app_nil_r. auto.
Qed.

Lemma only_events_get P : only_events P get.
Proof.
  intros c a' c' E. inversion E; subst. exists []. rewrite app_nil_r. auto.
Qed.

Lemma only_events_undefined {A} P : only_events P (@undefined A).
Proof. intros c a' c' E. discriminate E. Qed.

Lemma only_events_bind {A B} P (m : M A) (k : A -> M B) :
  only_events P m -> (forall a, only_events P (k a)) ->
  only_events P (bind m k).
Proof.
  intros Hm Hk c b c' E. apply bind_Some in E as (a & c1 & E1 & E2).
  destruct (Hm _ _ _ E1) as (e1 & T1 & F1).
  destruct (Hk a _ _ _ E2) as (e2 & T2 & F2).
  exists (e1 ++ e2). rewrite T2, T1, app_assoc. split; [reflexivity|].
  apply Forall_app. auto.
Qed.

Lemma only_events_modify P f :
  (forall c, trace (f c) = trace c) -> only_events P (modify f).
Proof.
  intros H c a c' E. inversion E; subst. exists []. rewrite app_nil_r, H. auto.
Qed.

Lemma only_events_emit (P : event -> Prop) e : P e -> only_events P (emit e).
Proof.
  intros H c a c' E. inversion E; subst. exists [e]. simpl. auto.
Qed.

Lemma only_events_alloc P : only_events P alloc.
Proof.
  intros c a c' E. inversion E; subst. exists []. simpl.
  rewrite app_nil_r. auto.
Qed.

Lemma only_events_deref_ci P p : only_events P (deref_ci p).
Proof.
  intros c a c' E. unfold deref_ci in E.
  destruct (find_ci p (channels c)); [|discriminate].
  inversion E; subst. exists []. rewrite app_nil_r. auto.
Qed.

Lemma only_events_store_ci P p f : only_events P (store_ci p f).
Proof.
  unfold store_ci. apply only_events_bind; [apply only_events_deref_ci|].
  intros _. apply only_events_modify. reflexivity.
Qed.

Lemma only_events_remove_queue_entry P qe :
  only_events P (mg_rpc_remove_queue_entry qe).
Proof.
  intros c a c' E. unfold mg_rpc_remove_queue_entry in E.
  destruct (unlink_qe qe (queue c)); [|discriminate].
  inversion E; subst. exists []. simpl. rewrite app_nil_r. auto.
Qed.

Lemma only_events_foreach {A} P (l : list A) body :
  (forall x, only_events P (body x)) -> only_events P (foreach l body).
Proof.
  intros H. induction l as [|x l IH]; simpl.
  - apply only_events_ret.
  - apply only_events_bind; [apply H | intros _; exact IH].
Qed.

(** Decomposes a goal [only_events P m] along the code of [m]; what is
    left are the events that [m] emits. *)
Ltac events_step :=
  first
    [ apply only_events_ret
    | apply only_events_get
    | apply only_events_undefined
    | apply only_events_alloc
    | apply only_events_deref_ci
    | apply only_events_store_ci
    | apply only_events_remove_queue_entry
    | apply only_events_modify; intros ?; reflexivity
    | apply only_events_emit; exact I
    | apply only_events_bind; [|intros ?]
    | apply only_events_foreach; intros ?
    | match goal with
      | |- only_events _ (match ?x with _ => _ end) => destruct x
      end ].

Ltac events := cbv zeta; repeat (events_step; cbv beta zeta).

Section Events.

Variable W : World.









End Events.

(** ** Operations that return *)

Lemma defined_weaken {A} (P P' : mg_rpc -> Prop) (m : M A) :
  defined P' m -> (forall c, P c -> P' c) -> defined P m.
Proof. intros H HP c Hc. apply H. auto. Qed.

Lemma defined_get P : defined P get.
Proof. intros c _. exists c, c. reflexivity. Qed.

Lemma defined_modify P f : defined P (modify f).
Proof. intros c _. exists tt, (f c). reflexivity. Qed.

Lemma defined_emit P e : defined P (emit e).
Proof. apply defined_modify. Qed.

Lemma keeps_channels_ret {A} (a : A) : keeps_channels (ret a).
Proof. intros c a' c' E. inversion E; subst. intros p Hp. exact Hp. Qed.

Lemma keeps_channels_undefined {A} : keeps_channels (@undefined A).
Proof. intros c a c' E. discriminate E. Qed.

Lemma keeps_channels_get : keeps_channels get.
Proof. intros c a' c' E. inversion E; subst. intros p Hp. exact Hp. Qed.

Lemma keeps_channels_bind {A B} (m : M A) (k : A -> M B) :
  keeps_channels m -> (forall a, keeps_channels (k a)) ->
  keeps_channels (bind m k).
Proof.
  intros Hm Hk c b c' E. apply bind_Some in E as (a & c1 & E1 & E2).
  intros p Hp. apply (Hk a _ _ _ E2). apply (Hm _ _ _ E1). exact Hp.
Qed.

Lemma keeps_channels_modify f :
  (forall c, incl (chan_ptrs c) (chan_ptrs (f c))) -> keeps_channels (modify f).
Proof. intros H c a c' E. inversion E; subst. apply H. Qed.

Lemma keeps_channels_emit e : keeps_channels (emit e).
Proof. apply keeps_channels_modify. intros c p Hp. exact Hp. Qed.

Lemma keeps_channels_alloc : keeps_channels alloc.
Proof. intros c a c' E. inversion E; subst. intros p Hp. exact Hp. Qed.

Lemma keeps_channels_deref_ci p : keeps_channels (deref_ci p).
Proof.
  intros c a c' E. unfold deref_ci in E.
  destruct (find_ci p (channels c)); [|discriminate].
  inversion E; subst. intros q Hq. exact Hq.
Qed.

Lemma keeps_channels_store_ci p f :
  (forall e, ci_ptr (f e) = ci_ptr e) -> keeps_channels (store_ci p f).
Proof.
  intros Hf. unfold store_ci.
  apply keeps_channels_bind; [apply keeps_channels_deref_ci|]. intros _.
  apply keeps_channels_modify. intros c. unfold chan_ptrs. simpl.
  rewrite update_ci_ptrs by exact Hf. intros q Hq. exact Hq.
Qed.

Ltac keeps_step :=
  first
    [ apply keeps_channels_ret
    | apply keeps_channels_undefined
    | apply keeps_channels_get
    | apply keeps_channels_alloc
    | apply keeps_channels_emit
    | apply keeps_channels_deref_ci
    | apply keeps_channels_store_ci; reflexivity
    | apply keeps_channels_modify; intros ?; unfold chan_ptrs; simpl
    | apply keeps_channels_bind; [|intros ?]
    | match goal with
      | |- keeps_channels (match ?x with _ => _ end) => destruct x
      end ].

Ltac keeps := cbv zeta; repeat (keeps_step; cbv beta zeta).

Section Returns.

Variable W : World.
Variable cfg0 : mg_rpc_cfg.

Lemma uris_assemble_safe d : uris_assemble W -> dst_safe W d.
Proof. intros H _. right. exact H. Qed.

Lemma dst_is_equal_defined d1 d2 :
  str_empty d1 = false -> dst_safe W d1 ->
  exists b, dst_is_equal W d1 d2 = Some b.
Proof.
  intros Hne Hs. unfold dst_is_equal.
  destruct (Hs Hne) as [P1|Ha].
  - rewrite P1. destruct (mg_parse_uri W d2); eexists; reflexivity.
  - destruct (mg_parse_uri W d1) as [u1|] eqn:P1;
      destruct (mg_parse_uri W d2) as [u2|] eqn:P2; try (eexists; reflexivity).
    destruct (canonicalize_dst_uri W u1) eqn:C1;
      [|exfalso; exact (Ha d1 u1 P1 C1)].
    destruct (canonicalize_dst_uri W u2) eqn:C2;
      [|exfalso; exact (Ha d2 u2 P2 C2)].
    eexists; reflexivity.
Qed.

Lemma scan_channels_defined dst l :
  dst_safe W dst -> forall d, exists r, scan_channels W dst l d = Some r.
Proof.
  intros Hs. induction l as [|ci l IH]; intros d; simpl.
  - eexists; reflexivity.
  - destruct (str_empty dst) eqn:Hne; simpl; [apply IH|].
    destruct (dst_is_equal_defined dst (ci_dst ci) Hne Hs) as [b ->].
    destruct b; [eexists; reflexivity | apply IH].
Qed.

Lemma by_dst_defined P dst :
  dst_safe W dst -> defined P (mg_rpc_get_channel_info_internal_by_dst W dst).
Proof.
  intros Hs c _. unfold mg_rpc_get_channel_info_internal_by_dst.
  unfold bind at 1. unfold get at 1.
  destruct (scan_channels_defined dst (channels c) Hs None) as [[[ci|] dflt] ->];
    [eexists; eexists; reflexivity|].
  destruct (dst_uri W dst) as [u|]; [|eexists; eexists; reflexivity].
  destruct (is_ws_scheme (uri_scheme u)); [|eexists; eexists; reflexivity].
  unfold bind at 1. unfold emit at 1, modify at 1.
  destruct (mg_rpc_channel_ws_out W _ _); eexists; eexists; reflexivity.
Qed.

Lemma send_frame_defined ci f :
  defined (fun c => valid_ci c ci) (mg_rpc_send_frame W ci f).
Proof.
  intros c Hv. destruct ci as [p|]; simpl; [|eexists; eexists; reflexivity].
  destruct (find_ci_Some _ _ Hv) as [e He].
  unfold bind at 1. unfold deref_ci at 1. rewrite He.
  destruct (negb (is_open e) || is_busy e); [eexists; eexists; reflexivity|].
  unfold bind at 1. unfold get at 1. unfold bind at 1.
  unfold emit at 1, modify at 1.
  destruct (send_frame W (trace c) (ci_ch e) f).
  - unfold bind at 1. unfold store_ci, bind, deref_ci. simpl. rewrite He.
    eexists; eexists; reflexivity.
  - eexists; eexists; reflexivity.
Qed.

Lemma enqueue_frame_defined P ci dst f :
  defined P (mg_rpc_enqueue_frame ci dst f).
Proof.
  intros c _. unfold mg_rpc_enqueue_frame, bind, get.
  destruct (queue_len c >=? max_queue_length (cfg c));
    eexists; eexists; reflexivity.
Qed.

Lemma dispatch_frame_defined ps src dst id tag key ci enqueue prefix payload :
  (ci = None -> dst_safe W dst) ->
  defined (fun c => live cfg0 ps c /\ valid_ci c ci)
    (mg_rpc_dispatch_frame W src dst id tag key ci enqueue prefix payload).
Proof.
  intros Hs. unfold mg_rpc_dispatch_frame.
  eapply defined_bind with
    (Q := fun r c => live cfg0 (optl (fst r) ++ ps) c).
  { destruct ci; [apply defined_ret | apply by_dst_defined; auto]. }
  { destruct ci as [p|].
    - apply hoare_ret. intros c [H Hv]. simpl. apply live_cons; assumption.
    - eapply hoare_weaken; [apply (by_dst_live W cfg0 ps) | |].
      + intros c [H _]. exact H.
      + intros r c [H Hv]. apply live_opt_intro; assumption. }
  intros r. simpl.
  eapply defined_bind; [apply defined_get | apply get_spec|]. intros c0. simpl.
  eapply defined_bind with (Q := fun _ c => live cfg0 (optl (fst r) ++ ps) c).
  { eapply defined_weaken; [apply send_frame_defined|].
    intros c [H _]. eapply live_opt_valid; exact H. }
  { eapply hoare_weaken; [apply send_frame_live | | intros a c H; exact H].
    intros c [H _]. split; [exact H | eapply live_opt_valid; exact H]. }
  intros sent. destruct sent; [apply defined_ret|].
  destruct enqueue; [|apply defined_ret].
  eapply defined_bind with (Q := fun _ _ => True);
    [apply enqueue_frame_defined | intros c a c' _ _; exact I |].
  intros q. destruct q; apply defined_ret.
Qed.

Lemma get_channel_info_internal_defined P ch :
  defined P (mg_rpc_get_channel_info_internal ch).
Proof. intros c _. eexists; eexists; reflexivity. Qed.

(** A reply goes out on the entry of the channel of the request; its
    source is looked up only when the channel is not registered. *)
Lemma send_errorf_defined ps ri code is_json msg :
  defined
    (fun c =>
       live cfg0 ps c /\
       (find (fun ci => Nat.eqb (ci_ch ci) (ri_ch ri)) (channels c) = None ->
        dst_safe W (ri_src ri)))
    (send_errorf W ri code is_json msg).
Proof.
  intros c [Hl Hs]. unfold send_errorf. unfold bind at 1.
  unfold mg_rpc_get_channel_info_internal at 1.
  unfold bind at 1, get at 1, ret at 1.
  apply (dispatch_frame_defined ps).
  - intros Hn. apply Hs.
    destruct (find _ (channels c)); [discriminate Hn | reflexivity].
  - split; [exact Hl|].
    destruct (find _ (channels c)) as [e|] eqn:F; simpl; [|exact I].
    apply find_some in F as [F _]. unfold chan_ptrs. apply in_map. exact F.
Qed.

Lemma find_by_ch_of_find_ci p l e :
  find_ci p l = Some e ->
  find (fun ci => Nat.eqb (ci_ch ci) (ci_ch e)) l <> None.
Proof.
  intros F H. apply find_ci_In in F as [Hin _].
  pose proof (find_none _ _ H e Hin) as K. simpl in K.
  rewrite Nat.eqb_refl in K. discriminate K.
Qed.

Lemma deref_ci_live_defined ps p :
  In p ps -> defined (live cfg0 ps) (deref_ci p).
Proof.
  intros Hp. eapply defined_weaken; [apply deref_ci_defined|].
  intros c H. eapply live_In; eauto.
Qed.

Lemma handle_request_defined ps ci frame :
  In ci ps -> defined (live cfg0 ps) (mg_rpc_handle_request W ci frame).
Proof.
  intros Hp. unfold mg_rpc_handle_request.
  eapply defined_bind;
    [apply deref_ci_live_defined; exact Hp | apply deref_ci_spec |].
  intros e.
  eapply defined_bind; [apply defined_get | apply get_spec |]. intros c0.
  simpl. destruct (find _ (handlers c0)) as [hi|].
  - eapply defined_bind with (Q := fun _ _ => True).
    + destruct (prehandler c0).
      * eapply defined_bind with (Q := fun _ _ => True);
          [apply defined_emit | intros c a c' _ _; exact I |].
        intros u. apply defined_ret.
      * apply defined_ret.
    + intros c a c' _ _. exact I.
    + intros ok. eapply defined_bind with (Q := fun _ _ => True).
      * destruct ok; [apply defined_emit | apply defined_ret].
      * intros c a c' _ _. exact I.
      * intros u. apply defined_ret.
  - eapply defined_bind with
      (Q := fun _ c => live cfg0 ps c /\ find_ci ci (channels c) = Some e).
    + apply defined_emit.
    + intros c a c' [[H F] _] E. inversion E; subst. clear E.
      split; [apply live_set_trace; exact H | exact F].
    + intros u. eapply defined_bind with (Q := fun _ _ => True).
      * eapply defined_weaken; [apply (send_errorf_defined ps)|].
        intros c [H F]. split; [exact H|]. cbn [ri_ch]. intros Hn.
        exfalso. exact (find_by_ch_of_find_ci _ _ _ F Hn).
      * intros c a c' _ _. exact I.
      * intros r. apply defined_ret.
Qed.

Lemma handle_response_defined ps ci id result code msg :
  In ci ps ->
  defined (live cfg0 ps) (mg_rpc_handle_response W ci id result code msg).
Proof.
  intros Hp. unfold mg_rpc_handle_response. destruct (id =? 0).
  - eapply defined_bind with (Q := fun _ _ => True);
      [apply defined_emit | intros c a c' _ _; exact I |].
    intros u. apply defined_ret.
  - eapply defined_bind; [apply defined_get | apply get_spec |]. intros c0.
    simpl. destruct (take_request id (requests c0)) as [[ri rest]|];
      [|apply defined_ret].
    eapply defined_bind with (Q := fun _ c => live cfg0 ps c).
    + apply defined_modify.
    + apply hoare_modify. intros c [[H1 H2] _].
      split; [apply wf_set_requests; exact H1 | exact H2].
    + intros u. eapply defined_bind with (Q := fun _ _ => True).
      * apply deref_ci_live_defined. exact Hp.
      * intros c a c' _ _. exact I.
      * intros e. eapply defined_bind with (Q := fun _ _ => True);
          [apply defined_emit | intros c a c' _ _; exact I |].
        intros u'. apply defined_ret.
Qed.

Lemma store_ci_defined ps p f :
  In p ps -> defined (live cfg0 ps) (store_ci p f).
Proof.
  intros Hp c H. unfold store_ci, bind, deref_ci.
  destruct (find_ci_Some p (channels c)) as [e He].
  { eapply live_In; eauto. }
  rewrite He. eexists; eexists; reflexivity.
Qed.

Lemma handle_frame_defined ps ci frame :
  In ci ps -> defined (live cfg0 ps) (mg_rpc_handle_frame W ci frame).
Proof.
  intros Hp. unfold mg_rpc_handle_frame.
  eapply defined_bind;
    [apply deref_ci_live_defined; exact Hp | apply deref_ci_spec |].
  intros e.
  eapply defined_bind; [apply defined_get | apply get_spec |]. intros c0.
  simpl. destruct (negb (is_open e)).
  { eapply defined_bind with (Q := fun _ _ => True);
      [apply defined_emit | intros c a c' _ _; exact I |].
    intros u. apply defined_ret. }
  destruct (_ && _).
  { eapply defined_bind with (Q := fun _ _ => True);
      [apply defined_emit | intros c a c' _ _; exact I |].
    intros u. apply defined_ret. }
  eapply defined_bind with (Q := fun _ c => live cfg0 ps c).
  { destruct (str_empty (ci_dst e)); [|apply defined_ret].
    eapply defined_weaken; [apply (store_ci_defined ps); exact Hp|].
    intros c [[H _] _]. exact H. }
  { destruct (str_empty (ci_dst e)).
    - eapply hoare_weaken;
        [apply (store_ci_live cfg0 ps ci (set_ci_dst (frame_src frame)));
         reflexivity | | intros a c H; exact H].
      intros c [[H F] _]. split; [exact H|].
      intros e' F'. rewrite F in F'. inversion F'; subst. simpl.
      apply (wf_busy_open (live_wf _ _ _ H)). apply find_ci_In in F. tauto.
    - apply hoare_ret. intros c [[H _] _]. exact H. }
  intros u. destruct (0 <? _)%nat.
  - eapply defined_bind with (Q := fun _ _ => True);
      [apply handle_request_defined; exact Hp | intros c a c' _ _; exact I |].
    intros ok. destruct ok; apply defined_ret.
  - eapply defined_bind with (Q := fun _ _ => True);
      [apply handle_response_defined; exact Hp | intros c a c' _ _; exact I |].
    intros ok. destruct ok; apply defined_ret.
Qed.

Lemma get_id_defined P : defined P (mg_rpc_get_id W).
Proof.
  intros c _. unfold mg_rpc_get_id, bind, get, emit, modify, ret. simpl.
  eexists; eexists; reflexivity.
Qed.

(** A call dereferences channel entries of the registry only, whatever the
    state of the multiplexer is. *)
Lemma by_dst_keeps_channels dst :
  keeps_channels (mg_rpc_get_channel_info_internal_by_dst W dst).
Proof.
  unfold mg_rpc_get_channel_info_internal_by_dst, mg_rpc_add_channel_internal.
  keeps. intros q Hq. right. exact Hq.
Qed.

Lemma by_dst_valid dst c r c' :
  mg_rpc_get_channel_info_internal_by_dst W dst c = Some (r, c') ->
  valid_ci c' (fst r).
Proof.
  unfold mg_rpc_get_channel_info_internal_by_dst.
  unfold bind at 1. unfold get at 1.
  destruct (scan_channels W dst (channels c) None) as [[[ci|] dflt]|]
    eqn:Hscan; [| |discriminate].
  - intros E. inversion E; subst. simpl.
    apply scan_channels_valid in Hscan as [H1 _]. auto.
  - apply scan_channels_valid in Hscan as [_ H2].
    assert (Hd : valid_ci c dflt).
    { destruct dflt as [p|]; simpl; [|exact I].
      destruct (H2 p eq_refl) as [H | H]; [discriminate | exact H]. }
    destruct (dst_uri W dst) as [u|].
    + destruct (is_ws_scheme (uri_scheme u)).
      * unfold bind at 1. unfold emit at 1, modify at 1.
        destruct (mg_rpc_channel_ws_out W _ _) as [ch|].
        -- unfold mg_rpc_add_channel_internal, bind, alloc, modify, emit, ret.
           simpl. intros E. inversion E; subst. simpl. left. reflexivity.
        -- unfold bind, emit, modify, ret. intros E. inversion E; subst.
           exact I.
      * unfold bind, emit, modify, ret. intros E. inversion E; subst. exact I.
    + intros E. inversion E; subst. exact Hd.
Qed.

Lemma send_frame_keeps_channels ci f :
  keeps_channels (mg_rpc_send_frame W ci f).
Proof.
  unfold mg_rpc_send_frame. keeps.
Qed.

Lemma enqueue_frame_keeps_channels ci dst f :
  keeps_channels (mg_rpc_enqueue_frame ci dst f).
Proof. unfold mg_rpc_enqueue_frame. keeps. intros q Hq. exact Hq. Qed.

Lemma dispatch_frame_keeps_channels src dst id tag key ci enqueue prefix
    payload :
  keeps_channels
    (mg_rpc_dispatch_frame W src dst id tag key ci enqueue prefix payload).
Proof.
  unfold mg_rpc_dispatch_frame.
  apply keeps_channels_bind.
  { destruct ci; [apply keeps_channels_ret | apply by_dst_keeps_channels]. }
  intros r. apply keeps_channels_bind; [apply keeps_channels_get|]. intros c0.
  apply keeps_channels_bind; [apply send_frame_keeps_channels|]. intros sent.
  destruct sent; [apply keeps_channels_ret|].
  destruct enqueue; [|apply keeps_channels_ret].
  apply keeps_channels_bind; [apply enqueue_frame_keeps_channels|].
  intros q. destruct q; apply keeps_channels_ret.
Qed.

Lemma dispatch_frame_returns src dst id tag key ci enqueue prefix payload c :
  (ci = None -> dst_safe W dst) ->
  valid_ci c ci ->
  exists r c',
    mg_rpc_dispatch_frame W src dst id tag key ci enqueue prefix payload c =
    Some (r, c').
Proof.
  intros Hs Hv. unfold mg_rpc_dispatch_frame. unfold bind at 1.
  assert (R : exists r c1,
            match ci with
            | Some p => ret (Some p, dst)
            | None => mg_rpc_get_channel_info_internal_by_dst W dst
            end c = Some (r, c1) /\ valid_ci c1 (fst r)).
  { destruct ci as [p|].
    - eexists; eexists. split; [reflexivity | exact Hv].
    - destruct (by_dst_defined (fun _ => True) dst (Hs eq_refl) c I)
        as (r & c1 & E).
      exists r, c1. split; [exact E | exact (by_dst_valid _ _ _ _ E)]. }
  destruct R as (r & c1 & -> & Hv1). cbv zeta.
  unfold bind at 1. unfold get at 1. unfold bind at 1.
  destruct (send_frame_defined (fst r) (frame_bytes W c1 src (snd r) id tag key
                                          prefix payload) c1 Hv1)
    as (sent & c2 & ->).
  destruct sent; [eexists; eexists; reflexivity|].
  destruct enqueue; [|eexists; eexists; reflexivity].
  unfold bind.
  destruct (enqueue_frame_defined (fun _ => True) (fst r) dst
              (frame_bytes W c1 src (snd r) id tag key prefix payload) c2 I)
    as (q & c3 & ->).
  destruct q; eexists; eexists; reflexivity.
Qed.

Lemma vcallf_broadcast_returns l src dst id tag key pprefix args :
  forall result c,
  incl (map ci_ptr l) (chan_ptrs c) ->
  exists r c',
    vcallf_broadcast W l src dst id tag key pprefix args result c =
    Some (r, c').
Proof.
  induction l as [|ci l IH]; intros result c Hl; simpl.
  - eexists; eexists; reflexivity.
  - unfold bind at 1. unfold get at 1.
    destruct (negb (has_is_broadcast_enabled W (ci_ch ci)) || _).
    + apply IH. intros p Hp. apply Hl. right. exact Hp.
    + unfold bind at 1.
      destruct (dispatch_frame_returns src dst id tag key (Some (ci_ptr ci))
                  false pprefix args c) as (r & c1 & E).
      { discriminate. }
      { simpl. apply Hl. left. reflexivity. }
      rewrite E. apply IH. intros p Hp.
      apply (dispatch_frame_keeps_channels _ _ _ _ _ _ _ _ _ _ _ _ E).
      apply Hl. right. exact Hp.
Qed.

Lemma vcallf_returns method cb cb_arg o args c :
  (opts_broadcast o = false -> dst_safe W (guarded_opt (Some o) opts_dst)) ->
  exists r c', mg_rpc_vcallf W method cb cb_arg (Some o) args c = Some (r, c').
Proof.
  intros Hs. unfold mg_rpc_vcallf. unfold bind at 1.
  destruct (get_id_defined (fun _ => True) c I) as (id & c0 & ->).
  cbv zeta. unfold bind at 1. unfold get at 1. unfold bind at 1.
  match goal with
  | |- exists r c', match ?m c0 with _ => _ end = _ =>
      assert (D : exists result c2, m c0 = Some (result, c2))
  end.
  { destruct (opts_broadcast o); simpl.
    - apply vcallf_broadcast_returns. intros p Hp. exact Hp.
    - apply dispatch_frame_returns; [intros _; apply Hs; reflexivity|].
      exact I. }
  destruct D as (result & c2 & ->).
  destruct cb as [f|]; [destruct result|]; eexists; eexists; reflexivity.
Qed.

Lemma resolve_channel_defined P qe :
  (qe_ci qe = None -> dst_safe W (qe_dst qe)) ->
  defined P (resolve_channel W qe).
Proof.
  intros Hs. unfold resolve_channel. destruct (qe_ci qe); [apply defined_ret|].
  eapply defined_bind with (Q := fun _ _ => True);
    [apply by_dst_defined; auto | intros c a c' _ _; exact I |].
  intros r. apply defined_ret.
Qed.

Lemma resolve_channel_live ps qe :
  (forall p, qe_ci qe = Some p -> In p ps) ->
  hoare (live cfg0 ps) (resolve_channel W qe)
    (fun ci c => live cfg0 ps c /\ valid_ci c ci).
Proof.
  intros Hp. unfold resolve_channel. destruct (qe_ci qe) as [p|].
  - apply hoare_ret. intros c H. split; [exact H|].
    eapply live_In; [exact H | apply Hp; reflexivity].
  - eapply hoare_bind; [apply by_dst_live|]. intros r.
    apply hoare_ret. auto.
Qed.

(** The walk of the specification returns when the pinned entries are
    live and the other entries have a destination that can be looked up. *)
Lemma drain_defined ps q :
  (forall qe p, In qe q -> qe_ci qe = Some p -> In p ps) ->
  (forall qe, In qe q -> qe_ci qe = None -> dst_safe W (qe_dst qe)) ->
  defined (live cfg0 ps) (drain W q).
Proof.
  induction q as [|qe q IH]; intros Hp Hs; cbn [drain].
  - apply defined_ret.
  - eapply defined_bind;
      [apply resolve_channel_defined; apply Hs; left; reflexivity
      | apply (resolve_channel_live ps) |].
    { intros p. apply Hp. left. reflexivity. }
    intros ci.
    eapply defined_bind with (Q := fun _ c => live cfg0 ps c).
    + eapply defined_weaken; [apply send_frame_defined|]. intros c [_ H].
      exact H.
    + apply send_frame_live.
    + intros ok.
      eapply defined_bind with (Q := fun _ _ => True).
      * apply IH; [intros x p Hx; apply Hp; right; exact Hx|].
        intros x Hx. apply Hs. right. exact Hx.
      * intros c a c' _ _. exact I.
      * intros oks. apply defined_ret.
Qed.

End Returns.

(** ** The drain of the queue *)

Lemma queue_blind_ret {A} (a : A) : queue_blind (ret a).
Proof. intros n q c. reflexivity. Qed.

Lemma queue_blind_undefined {A} : queue_blind (@undefined A).
Proof. intros n q c. reflexivity. Qed.

Lemma queue_blind_bind {A B} (m : M A) (k : A -> M B) :
  queue_blind m -> (forall a, queue_blind (k a)) -> queue_blind (bind m k).
Proof.
  intros Hm Hk n q c. unfold bind. rewrite Hm.
  destruct (m c) as [[a c']|]; simpl; [apply Hk | reflexivity].
Qed.

(** Code that reads the state, but nothing of the queue. *)
Lemma queue_blind_get {B} (k : mg_rpc -> M B) :
  (forall n q c, k (with_queue n q c) = k c) ->
  (forall c0, queue_blind (k c0)) -> queue_blind (bind get k).
Proof.
  intros Hk Hb n q c. unfold bind, get. rewrite Hk. apply Hb.
Qed.

Lemma queue_blind_modify f :
  (forall n q c, f (with_queue n q c) = with_queue n q (f c)) ->
  queue_blind (modify f).
Proof. intros H n q c. unfold modify. rewrite H. reflexivity. Qed.

Lemma queue_blind_emit e : queue_blind (emit e).
Proof. apply queue_blind_modify. reflexivity. Qed.

Lemma queue_blind_alloc : queue_blind alloc.
Proof. intros n q c. reflexivity. Qed.

Lemma queue_blind_deref_ci p : queue_blind (deref_ci p).
Proof.
  intros n q c. unfold deref_ci. simpl.
  destruct (find_ci p (channels c)); reflexivity.
Qed.

Lemma queue_blind_store_ci p f : queue_blind (store_ci p f).
Proof.
  unfold store_ci. apply queue_blind_bind; [apply queue_blind_deref_ci|].
  intros _. apply queue_blind_modify. reflexivity.
Qed.

Ltac blind_step :=
  first
    [ apply queue_blind_ret
    | apply queue_blind_undefined
    | apply queue_blind_alloc
    | apply queue_blind_emit
    | apply queue_blind_deref_ci
    | apply queue_blind_store_ci
    | apply queue_blind_modify; reflexivity
    | apply queue_blind_bind; [|intros ?]
    | match goal with
      | |- queue_blind (match ?x with _ => _ end) => destruct x
      end ].

Ltac blind := cbv zeta; repeat (blind_step; cbv beta zeta).

Section Drain.

Variable W : World.

Lemma with_queue_id c : with_queue (queue_len c) (queue c) c = c.
Proof. destruct c. reflexivity. Qed.

(** Resolution and sending neither read nor write the queue. *)
Lemma by_dst_queue_blind dst :
  queue_blind (mg_rpc_get_channel_info_internal_by_dst W dst).
Proof.
  unfold mg_rpc_get_channel_info_internal_by_dst, mg_rpc_add_channel_internal.
  apply queue_blind_get; [intros; reflexivity|]. intros c0. cbv zeta.
  destruct (scan_channels W dst (channels c0) None) as [[[ci|] dflt]|];
    [apply queue_blind_ret| |apply queue_blind_undefined].
  destruct (dst_uri W dst) as [u|]; [|apply queue_blind_ret].
  destruct (is_ws_scheme (uri_scheme u)); blind.
Qed.

Lemma send_frame_queue_blind ci f : queue_blind (mg_rpc_send_frame W ci f).
Proof.
  unfold mg_rpc_send_frame. destruct ci as [p|]; [|apply queue_blind_ret].
  apply queue_blind_bind; [apply queue_blind_deref_ci|]. intros e.
  destruct (negb (is_open e) || is_busy e); [apply queue_blind_ret|].
  apply queue_blind_get; [intros; reflexivity|]. intros c0. cbv zeta.
  blind.
Qed.

Lemma resolve_channel_queue_blind qe : queue_blind (resolve_channel W qe).
Proof.
  unfold resolve_channel. destruct (qe_ci qe); [apply queue_blind_ret|].
  apply queue_blind_bind; [apply by_dst_queue_blind|]. intros r.
  apply queue_blind_ret.
Qed.

Lemma resolve_channel_with_queue n q qe c :
  resolve_channel W qe (with_queue n q c) =
  lift_queue n q (resolve_channel W qe c).
Proof. apply resolve_channel_queue_blind. Qed.

Lemma send_frame_with_queue n q ci f c :
  mg_rpc_send_frame W ci f (with_queue n q c) =
  lift_queue n q (mg_rpc_send_frame W ci f c).
Proof. apply send_frame_queue_blind. Qed.

Lemma foreach_cons {A} (x : A) l body c :
  foreach (x :: l) body c =
  match body x c with
  | Some (_, c') => foreach l body c'
  | None => None
  end.
Proof. reflexivity. Qed.

Lemma drain_cons qe l c :
  drain W (qe :: l) c =
  match resolve_channel W qe c with
  | Some (ci, c_a) =>
      match mg_rpc_send_frame W ci (qe_frame qe) c_a with
      | Some (ok, c_b) =>
          match drain W l c_b with
          | Some (oks, c1) => Some (ok :: oks, c1)
          | None => None
          end
      | None => None
      end
  | None => None
  end.
Proof.
  cbn [drain]. unfold bind.
  destruct (resolve_channel W qe c) as [[ci c_a]|]; [|reflexivity].
  destruct (mg_rpc_send_frame W ci (qe_frame qe) c_a) as [[ok c_b]|];
    [|reflexivity].
  destruct (drain W l c_b) as [[oks c1]|]; reflexivity.
Qed.

(** One round of the loop on a queue of distinct entries. *)
Lemma process_queue_entry_step qe pre l n c :
  ~ In (qe_ptr qe) (map qe_ptr pre) ->
  process_queue_entry W qe (with_queue n (pre ++ qe :: l) c) =
  match resolve_channel W qe c with
  | Some (ci, c_a) =>
      match mg_rpc_send_frame W ci (qe_frame qe) c_a with
      | Some (ok, c_b) =>
          Some (tt, if ok then with_queue (n - 1) (pre ++ l) c_b
                    else with_queue n (pre ++ qe :: l) c_b)
      | None => None
      end
  | None => None
  end.
Proof.
  intros Hx. unfold process_queue_entry.
  change (match qe_ci qe with
          | Some p => ret (Some p)
          | None =>
              r <- mg_rpc_get_channel_info_internal_by_dst W (qe_dst qe) ;;
              ret (fst r)
          end) with (resolve_channel W qe).
  unfold bind. rewrite resolve_channel_with_queue.
  destruct (resolve_channel W qe c) as [[ci c_a]|]; [|reflexivity].
  cbn [lift_queue]. rewrite send_frame_with_queue.
  destruct (mg_rpc_send_frame W ci (qe_frame qe) c_a) as [[ok c_b]|];
    [|reflexivity].
  cbn [lift_queue]. destruct ok; [|reflexivity].
  unfold mg_rpc_remove_queue_entry. simpl queue.
  rewrite (unlink_qe_app _ _ _ Hx). reflexivity.
Qed.

(** The loop of [mg_rpc_process_queue], which unlinks entries from the
    queue while it walks it, against the walk of the specification. *)
Lemma process_queue_loop l : forall pre n c,
  NoDup (map qe_ptr (pre ++ l)) ->
  foreach l (process_queue_entry W) (with_queue n (pre ++ l) c) =
  match drain W l c with
  | Some (oks, c1) =>
      Some (tt, with_queue (n - count_true oks) (pre ++ unsent l oks) c1)
  | None => None
  end.
Proof.
  induction l as [|qe l IH]; intros pre n c Hnd.
  - simpl. unfold ret. rewrite Z.sub_0_r. reflexivity.
  - assert (Hx : ~ In (qe_ptr qe) (map qe_ptr pre)).
    { rewrite map_app in Hnd. simpl in Hnd.
      apply NoDup_remove_2 in Hnd. intros Hin. apply Hnd.
      apply in_or_app. left. exact Hin. }
    assert (Hnd' : NoDup (map qe_ptr (pre ++ l))).
    { rewrite map_app in *. simpl in Hnd. apply NoDup_remove_1 in Hnd.
      exact Hnd. }
    rewrite foreach_cons, drain_cons, (process_queue_entry_step _ _ _ _ _ Hx).
    destruct (resolve_channel W qe c) as [[ci c_a]|]; [|reflexivity].
    destruct (mg_rpc_send_frame W ci (qe_frame qe) c_a) as [[ok c_b]|];
      [|reflexivity].
    destruct ok.
    + rewrite (IH pre (n - 1) c_b Hnd').
      destruct (drain W l c_b) as [[oks c1]|]; [|reflexivity].
      cbn [count_true unsent]. do 3 f_equal. lia.
    + replace (pre ++ qe :: l) with ((pre ++ [qe]) ++ l)
        by (rewrite <- app_assoc; reflexivity).
      rewrite (IH (pre ++ [qe]) n c_b)
        by (rewrite <- app_assoc; exact Hnd).
      destruct (drain W l c_b) as [[oks c1]|]; [|reflexivity].
      cbn [count_true unsent]. rewrite <- app_assoc. do 3 f_equal.
Qed.

Lemma accepted_frames_app a b :
  accepted_frames (a ++ b) = accepted_frames a ++ accepted_frames b.
Proof.
  induction a as [|e a IH]; [reflexivity|].
  destruct e; simpl; try exact IH. destruct result; simpl; [f_equal|]; exact IH.
Qed.

Lemma accepted_frames_not_send evs :
  Forall not_send evs -> accepted_frames evs = [].
Proof.
  induction 1 as [|e evs He _ IH]; [reflexivity|].
  destruct e; simpl in *; try exact IH. contradiction.
Qed.

Lemma by_dst_not_send dst :
  only_events not_send (mg_rpc_get_channel_info_internal_by_dst W dst).
Proof.
  unfold mg_rpc_get_channel_info_internal_by_dst, mg_rpc_add_channel_internal.
  events.
Qed.

Lemma resolve_channel_not_send qe : only_events not_send (resolve_channel W qe).
Proof.
  unfold resolve_channel. destruct (qe_ci qe); [apply only_events_ret|].
  apply only_events_bind; [apply by_dst_not_send|]. intros r.
  apply only_events_ret.
Qed.

(** A send puts a frame into the trace of accepted frames exactly when it
    succeeds. *)
Lemma send_frame_accepted ci f c ok c' :
  mg_rpc_send_frame W ci f c = Some (ok, c') ->
  exists evs, trace c' = trace c ++ evs /\
              accepted_frames evs = if ok then [f] else [].
Proof.
  destruct ci as [p|]; simpl.
  2:{ intros E. inversion E; subst. exists []. rewrite app_nil_r. auto. }
  unfold bind at 1. unfold deref_ci at 1.
  destruct (find_ci p (channels c)) as [e|] eqn:F; [|discriminate].
  destruct (negb (is_open e) || is_busy e).
  { intros E. inversion E; subst. exists []. rewrite app_nil_r. auto. }
  unfold bind at 1. unfold get at 1. unfold bind at 1.
  unfold emit at 1, modify at 1.
  destruct (send_frame W (trace c) (ci_ch e) f) eqn:S.
  - unfold store_ci, bind, deref_ci, modify, ret. simpl. rewrite F.
    intros E. inversion E; subst. simpl. eexists. split; [reflexivity|].
    reflexivity.
  - unfold bind, ret. intros E. inversion E; subst. simpl.
    eexists. split; [reflexivity|]. reflexivity.
Qed.

(** The walk hands the frames of the entries it removes to the
    transports, first entry first. *)
Lemma drain_accepted q : forall c oks c1,
  drain W q c = Some (oks, c1) ->
  List.length oks = List.length q /\
  exists evs, trace c1 = trace c ++ evs /\
              accepted_frames evs = map qe_frame (sent q oks).
Proof.
  induction q as [|qe q IH]; intros c oks c1 E.
  - inversion E; subst. split; [reflexivity|].
    exists []. rewrite app_nil_r. auto.
  - rewrite drain_cons in E.
    destruct (resolve_channel W qe c) as [[ci c_a]|] eqn:R; [|discriminate].
    destruct (mg_rpc_send_frame W ci (qe_frame qe) c_a) as [[ok c_b]|] eqn:S;
      [|discriminate].
    destruct (drain W q c_b) as [[oks' c1']|] eqn:D; [|discriminate].
    inversion E; subst. clear E.
    destruct (resolve_channel_not_send qe _ _ _ R) as (e1 & T1 & F1).
    destruct (send_frame_accepted _ _ _ _ _ S) as (e2 & T2 & F2).
    destruct (IH _ _ _ D) as (Hlen & e3 & T3 & F3).
    split; [simpl; rewrite Hlen; reflexivity|].
    exists (e1 ++ e2 ++ e3). split.
    + rewrite T3, T2, T1, <- !app_assoc. reflexivity.
    + rewrite !accepted_frames_app, (accepted_frames_not_send _ F1), F2, F3.
      destruct ok; reflexivity.
Qed.

Lemma unsent_length q : forall oks,
  List.length oks = List.length q ->
  Z.of_nat (List.length (unsent q oks)) =
  Z.of_nat (List.length q) - count_true oks.
Proof.
  induction q as [|qe q IH]; intros [|ok oks] Hlen; try discriminate Hlen.
  - reflexivity.
  - injection Hlen as Hlen. specialize (IH oks Hlen).
    cbn [unsent count_true List.length]. destruct ok; cbn [List.length];
      rewrite ?Nat2Z.inj_succ; lia.
Qed.

End Drain.

(** On a well-formed multiplexer the drain is the walk of the
    specification: it returns when the walk does, with the same effects. *)
Lemma process_queue_refines_drain W cfg0 c :
  wf cfg0 c ->
  mg_rpc_process_queue W c =
  match drain W (queue c) c with
  | Some (oks, c1) =>
      Some (tt,
            with_queue (Z.of_nat (List.length (unsent (queue c) oks)))
              (unsent (queue c) oks) c1)
  | None => None
  end.
Proof.
  intros Hwf.
  assert (P : mg_rpc_process_queue W c =
              foreach (queue c) (process_queue_entry W)
                (with_queue (queue_len c) ([] ++ queue c) c)).
  { unfold mg_rpc_process_queue, bind, get. simpl app.
    rewrite with_queue_id. reflexivity. }
  rewrite P, (process_queue_loop W (queue c) [] (queue_len c) c
                (wf_queue_nodup Hwf)).
  destruct (drain W (queue c) c) as [[oks c1]|] eqn:D; [|reflexivity].
  destruct (drain_accepted W _ _ _ _ D) as (Hlen & _).
  simpl app.
  rewrite (unsent_length _ _ Hlen), (wf_queue_len Hwf). reflexivity.
Qed.

(** The walk returns when the destinations of the entries that are not
    pinned can be looked up. *)
Lemma drain_returns W cfg0 c :
  wf cfg0 c ->
  (forall qe, In qe (queue c) -> qe_ci qe = None -> dst_safe W (qe_dst qe)) ->
  exists oks c1, drain W (queue c) c = Some (oks, c1).
Proof.
  intros Hwf Hs.
  assert (Hl : live cfg0 (chan_ptrs c) c).
  { split; [exact Hwf | intros p Hp; exact Hp]. }
  apply (drain_defined W cfg0 (chan_ptrs c) (queue c)); [|exact Hs|exact Hl].
  intros qe p Hqe Hp. pose proof (wf_pinned Hwf qe Hqe) as Hv.
  rewrite Hp in Hv. exact Hv.
Qed.

(** ** Operations never touch a dead object *)

Lemma find_ci_of_In l e :
  NoDup (map ci_ptr l) -> In e l -> find_ci (ci_ptr e) l = Some e.
Proof.
  induction l as [|x l IH]; simpl; intros Hnd Hin; [contradiction|].
  inversion Hnd as [|? ? Hn Hd]; subst.
  destruct Hin as [-> | Hin].
  - rewrite Nat.eqb_refl. reflexivity.
  - destruct (Nat.eqb (ci_ptr x) (ci_ptr e)) eqn:G.
    + apply Nat.eqb_eq in G. exfalso. apply Hn. rewrite G.
      apply in_map. exact Hin.
    + auto.
Qed.

Lemma store_ci_eq p f c e :
  find_ci p (channels c) = Some e ->
  store_ci p f c = Some (tt, set_channels (update_ci p f (channels c)) c).
Proof.
  intros He. unfold store_ci, bind, deref_ci. rewrite He. reflexivity.
Qed.

Lemma call_observers_defined ev dst c :
  exists c', mg_rpc_call_observers ev dst c = Some (tt, c').
Proof.
  unfold mg_rpc_call_observers, bind, get.
  generalize (observers c) at 1. intros l. revert c.
  induction l as [|oi l IH]; intros c; simpl.
  - eexists. reflexivity.
  - unfold bind, emit, modify. apply IH.
Qed.

Lemma foreach_emit_returns {A} (l : list A) (ev : A -> event) : forall c,
  exists c', foreach l (fun x => emit (ev x)) c = Some (tt, c').
Proof.
  induction l as [|x l IH]; intros c; simpl.
  - eexists. reflexivity.
  - unfold bind, emit, modify. apply IH.
Qed.

(** ** The CLOSED event *)

Lemma remove_ci_update p f l :
  (forall e, ci_ptr (f e) = ci_ptr e) ->
  remove_ci p (update_ci p f l) = remove_ci p l.
Proof.
  intros Hf. induction l as [|x l IH]; simpl; [reflexivity|].
  destruct (Nat.eqb (ci_ptr x) p) eqn:G; simpl.
  - rewrite Hf, G. reflexivity.
  - rewrite G, IH. reflexivity.
Qed.

Lemma closed_event_effect W cfg0 c ch e :
  wf cfg0 c ->
  find (fun ci => Nat.eqb (ci_ch ci) ch) (channels c) = Some e ->
  exists c',
    mg_rpc_ev_handler W ch MG_RPC_CHANNEL_CLOSED c = Some (tt, c') /\
    (In (ci_ptr e) (chan_ptrs c') <-> is_persistent W (trace c) ch = true) /\
    (is_persistent W (trace c) ch = true ->
     channels c' =
     update_ci (ci_ptr e) (fun e => set_is_open false (set_is_busy false e))
       (channels c) /\
     find_ci (ci_ptr e) (channels c') =
     Some (set_is_open false (set_is_busy false e)) /\
     queue c' = queue c /\ queue_len c' = queue_len c) /\
    (is_persistent W (trace c) ch = false ->
     channels c' = remove_ci (ci_ptr e) (channels c) /\
     queue c' =
     filter (fun qe => negb (pinned_to (ci_ptr e) qe)) (queue c) /\
     (forall qe, In qe (queue c') -> qe_ci qe <> Some (ci_ptr e)) /\
     queue_len c' = Z.of_nat (List.length (queue c')) /\
     In (EV_ch_destroy ch) (trace c')).
Proof.
  intros Hwf F.
  pose proof (find_some _ _ F) as [Hin _].
  pose proof (find_ci_of_In _ _ (wf_chan_nodup Hwf) Hin) as He.
  set (p := ci_ptr e) in *.
  set (h := fun e => set_is_open false (set_is_busy false e)).
  assert (Hh : forall x, ci_ptr (h x) = ci_ptr x) by reflexivity.
  set (c2 := set_channels (update_ci p h (channels c)) c).
  assert (E2 : (store_ci p (set_is_busy false) ;;
                store_ci p (set_is_open false)) c = Some (tt, c2)).
  { unfold bind. rewrite (store_ci_eq p _ c e He).
    rewrite (store_ci_eq p _ _ (set_is_busy false e)).
    - simpl. rewrite update_ci_twice by reflexivity. reflexivity.
    - simpl. apply find_ci_update; [reflexivity | exact He]. }
  assert (He2 : find_ci p (channels c2) = Some (h e)).
  { simpl. apply find_ci_update; [exact Hh | exact He]. }
  assert (E3 : exists c3,
            (if (0 <? String.length (ci_dst (h e)))%nat
             then mg_rpc_call_observers MG_RPC_EV_CHANNEL_CLOSED (ci_dst (h e))
             else ret tt) c2 = Some (tt, c3) /\
            channels c3 = channels c2 /\ queue c3 = queue c /\
            queue_len c3 = queue_len c).
  { destruct (0 <? String.length (ci_dst (h e)))%nat.
    - destruct (call_observers_defined MG_RPC_EV_CHANNEL_CLOSED (ci_dst (h e))
                  c2) as [c3 E].
      exists c3. split; [exact E|].
      pose proof (call_observers_unchanged _ _ _ _ _ E) as U.
      inversion U. auto.
    - exists c2. auto. }
  destruct E3 as (c3 & E3 & Hch3 & Hq3 & Hl3).
  pose proof (wf_queue_nodup Hwf) as Hnd. unfold queue_ptrs in Hnd.
  unfold mg_rpc_ev_handler. unfold bind at 1. unfold get at 1. rewrite F.
  cbv zeta. fold p.
  (* the two stores *)
  unfold bind at 1. unfold bind at 1 in E2.
  destruct (store_ci p (set_is_busy false) c) as [[u1 c1]|]; [|discriminate E2].
  unfold bind at 1. rewrite E2.
  unfold bind at 1. unfold deref_ci at 1. rewrite He2.
  unfold bind at 1. rewrite E3.
  destruct (is_persistent W (trace c) ch) eqn:P; cbn [negb].
  - exists c3. split; [reflexivity|]. split; [|split; [|intros H; discriminate H]].
    + split; [reflexivity|]. intros _. unfold chan_ptrs. rewrite Hch3. simpl.
      rewrite update_ci_ptrs by exact Hh. apply in_map. exact Hin.
    + intros _. rewrite Hch3. auto.
  - unfold bind at 1. unfold get at 1. unfold bind at 1.
    rewrite (purge_loop p (queue c3) [] c3 eq_refl)
      by (rewrite Hq3; exact Hnd).
    unfold bind, modify, emit, ret. simpl.
    eexists. split; [reflexivity|]. simpl.
    rewrite Hch3, Hq3. simpl. rewrite remove_ci_update by exact Hh.
    split; [|split; [intros H; discriminate H|]].
    + split; [|intros H; discriminate H].
      intros H. exfalso. unfold chan_ptrs in H. simpl in H.
      exact (remove_ci_gone p (channels c) (wf_chan_nodup Hwf) H).
    + intros _. split; [reflexivity|]. split; [reflexivity|]. split; [|split].
      * intros qe Hqe. apply filter_In in Hqe as [_ Hqe].
        unfold pinned_to in Hqe. intros Hp'. rewrite Hp' in Hqe.
        rewrite Nat.eqb_refl in Hqe. discriminate.
      * rewrite Hl3, (wf_queue_len Hwf). apply filter_length_split.
      * apply in_or_app. right. left. reflexivity.
Qed.


Section Safety.

Variable W : World.
Variable cfg0 : mg_rpc_cfg.

(** From here on: every URI that [mg_parse_uri] accepts can be
    assembled, so that every destination can be looked up. *)
Hypothesis assemble : uris_assemble W.

Lemma process_queue_returns ps :
  defined (live cfg0 ps) (mg_rpc_process_queue W).
Proof.
  intros c [Hwf _]. rewrite (process_queue_refines_drain W cfg0 c Hwf).
  destruct (drain_returns W cfg0 c Hwf) as (oks & c1 & ->).
  { intros qe _ _. apply uris_assemble_safe. exact assemble. }
  eexists; eexists. reflexivity.
Qed.

Lemma close_on_failure_returns ch msg (ok : bool) c :
  exists c',
    (if negb ok then
       emit (EV_log_error msg) ;;
       c <- get ;;
       if negb (is_persistent W (trace c) ch)
       then emit (EV_ch_close ch) else ret tt
     else ret tt) c = Some (tt, c').
Proof.
  destruct ok; simpl; [eexists; reflexivity|].
  unfold bind, emit, modify, get. simpl.
  destruct (is_persistent W _ ch); eexists; reflexivity.
Qed.

(** A channel event returns on every well-formed multiplexer. *)
Lemma ev_handler_returns ch ev c :
  wf cfg0 c -> exists c', mg_rpc_ev_handler W ch ev c = Some (tt, c').
Proof.
  intros Hwf. unfold mg_rpc_ev_handler. unfold bind at 1. unfold get at 1.
  destruct (find _ (channels c)) as [e|] eqn:F; [|eexists; reflexivity].
  pose proof (find_some _ _ F) as [Hin _].
  pose proof (find_ci_of_In _ _ (wf_chan_nodup Hwf) Hin) as He.
  set (p := ci_ptr e) in *. cbv zeta.
  assert (Hl : live cfg0 [p] c).
  { apply live_cons; [apply live_nil; exact Hwf|].
    unfold chan_ptrs. apply in_map. exact Hin. }
  destruct ev as [|f|frame|success|].
  - (* OPEN *)
    unfold bind at 1. rewrite (store_ci_eq p _ c e He).
    unfold bind at 1.
    rewrite (store_ci_eq p _ _ (set_is_open true e))
      by (simpl; apply find_ci_update; [reflexivity | exact He]).
    match goal with
    | |- exists c', bind _ _ ?c2 = _ =>
        assert (H2 : live cfg0 [p] c2)
    end.
    { eapply (store_ci_live cfg0 [p] p
                (fun e => set_is_busy false (set_is_open true e)));
        [reflexivity | split; [exact Hl | intros; discriminate] |].
      eapply (store_ci_seq p (set_is_open true) (set_is_busy false));
        [reflexivity | apply (store_ci_eq p _ c e He) |].
      apply (store_ci_eq p _ _ (set_is_open true e)).
      simpl. apply find_ci_update; [reflexivity | exact He]. }
    unfold bind at 1.
    destruct (process_queue_returns [p] _ H2) as ([] & c3 & E3). rewrite E3.
    pose proof (process_queue_live W cfg0 [p] _ _ _ H2 E3) as H3.
    unfold bind at 1.
    destruct (deref_ci_live_defined cfg0 [p] p (or_introl eq_refl) c3 H3)
      as (e3 & c3' & E4).
    rewrite E4.
    assert (c3' = c3).
    { unfold deref_ci in E4. destruct (find_ci p (channels c3)); [|discriminate].
      inversion E4. reflexivity. }
    subst c3'.
    destruct (0 <? String.length (ci_dst e3))%nat; [|eexists; reflexivity].
    apply call_observers_defined.
  - (* FRAME_RECD *)
    unfold bind at 1.
    assert (D : exists ok c1,
              match mg_rpc_parse_frame W f with
              | Some frame => mg_rpc_handle_frame W p frame
              | None => ret false
              end c = Some (ok, c1)).
    { destruct (mg_rpc_parse_frame W f) as [frame|].
      - apply (handle_frame_defined W cfg0 [p] p frame (or_introl eq_refl) c Hl).
      - eexists; eexists; reflexivity. }
    destruct D as (ok & c1 & ->). apply close_on_failure_returns.
  - (* FRAME_RECD_PARSED *)
    unfold bind at 1.
    destruct (handle_frame_defined W cfg0 [p] p frame (or_introl eq_refl) c Hl)
      as (ok & c1 & ->).
    apply close_on_failure_returns.
  - (* FRAME_SENT *)
    unfold bind at 1. rewrite (store_ci_eq p _ c e He).
    match goal with
    | |- exists c', _ ?c2 = _ => assert (H2 : live cfg0 [p] c2)
    end.
    { eapply (store_ci_live cfg0 [p] p (set_is_busy false));
        [reflexivity | split; [exact Hl | intros; discriminate] |].
      apply (store_ci_eq p _ c e He). }
    destruct (process_queue_returns [p] _ H2) as ([] & c3 & E3).
    exists c3. exact E3.
  - (* CLOSED *)
    destruct (closed_event_effect W cfg0 c ch e Hwf F) as (c' & E & _).
    unfold mg_rpc_ev_handler in E. unfold bind at 1 in E.
    unfold get at 1 in E. rewrite F in E. exists c'. exact E.
Qed.

Lemma by_dst_deref_returns dst (k : mg_rpc_channel_info_internal -> bool) c :
  exists r c',
    (r <- mg_rpc_get_channel_info_internal_by_dst W dst ;;
     match fst r with
     | Some p => e <- deref_ci p ;; ret (k e)
     | None => ret false
     end) c = Some (r, c').
Proof.
  unfold bind at 1.
  destruct (by_dst_defined W (fun _ => True) dst
              (uris_assemble_safe W dst assemble) c I) as (r & c1 & E).
  rewrite E. pose proof (by_dst_valid W _ _ _ _ E) as Hv.
  destruct (fst r) as [p|]; [|eexists; eexists; reflexivity].
  unfold bind, deref_ci. destruct (find_ci_Some _ _ Hv) as [e ->].
  eexists; eexists; reflexivity.
Qed.

Lemma drop_result_returns {A} (m : M A) c :
  (exists r c', m c = Some (r, c')) ->
  exists c', (_ <- m ;; ret tt) c = Some (tt, c').
Proof.
  intros (r & c' & E). unfold bind. rewrite E. eexists. reflexivity.
Qed.

(** No operation on a well-formed multiplexer dereferences a dangling
    pointer: every operation returns, but for a call with [opts] NULL. *)
Lemma run_op_returns o c :
  wf cfg0 c ->
  (forall method cb cb_arg args, o <> Op_callf method cb cb_arg None args) ->
  exists c', run_op W o c = Some (tt, c').
Proof.
  intros Hwf Hopts. pose proof (live_nil cfg0 c Hwf) as Hl.
  destruct o; simpl.
  - unfold mg_rpc_add_local_id. destruct (str_empty id); eexists; reflexivity.
  - eexists; reflexivity.
  - eexists; reflexivity.
  - eexists; reflexivity.
  - eexists; reflexivity.
  - eexists; reflexivity.
  - unfold mg_rpc_connect, bind, get. apply foreach_emit_returns.
  - unfold mg_rpc_disconnect, bind, get. apply foreach_emit_returns.
  - apply drop_result_returns. apply by_dst_deref_returns.
  - apply drop_result_returns.
    apply (by_dst_deref_returns _ (fun e => is_open e && negb (is_busy e))).
  - apply drop_result_returns. unfold mg_rpc_callf.
    destruct opts as [o|];
      [apply vcallf_returns; intros _; apply uris_assemble_safe;
       exact assemble|].
    exfalso. eapply Hopts. reflexivity.
  - apply drop_result_returns.
    unfold mg_rpc_send_responsef. unfold bind.
    destruct (get_channel_info_internal_defined (fun _ => True) (ri_ch ri) c I)
      as (ci & c1 & E).
    rewrite E.
    pose proof (get_channel_info_internal_spec (fun c' => c' = c) _ _ _ _
                  eq_refl E) as [-> Hv].
    apply dispatch_frame_returns; [|exact Hv].
    intros _. apply uris_assemble_safe. exact assemble.
  - apply drop_result_returns. unfold mg_rpc_send_errorf.
    apply (send_errorf_defined W cfg0 []). split; [exact Hl|].
    intros _. apply uris_assemble_safe. exact assemble.
  - apply drop_result_returns. unfold mg_rpc_send_error_jsonf.
    apply (send_errorf_defined W cfg0 []). split; [exact Hl|].
    intros _. apply uris_assemble_safe. exact assemble.
  - apply ev_handler_returns. exact Hwf.
Qed.

End Safety.

(** ** Replies to a known entry, and lookups that have no defined result *)

Lemma guarded_opt_Some o field : guarded_opt (Some o) field = field o.
Proof.
  unfold guarded_opt. destruct (field o); reflexivity.
Qed.

Section Replies.

Variable W : World.

(** The three outcomes of a frame for the entry [p]: the transport takes
    it, or it waits on the queue for this entry, or it is dropped. *)
Lemma dispatch_frame_pinned src dst id tag key p e enqueue prefix payload c :
  find_ci p (channels c) = Some e ->
  let f := frame_bytes W c src dst id tag key prefix payload in
  let idle := is_open e && negb (is_busy e) in
  let result := send_frame W (trace c) (ci_ch e) f in
  let c1 :=
    if idle
    then set_trace (trace c ++ [EV_send_frame (ci_ch e) f result]) c
    else c in
  mg_rpc_dispatch_frame W src dst id tag key (Some p) enqueue prefix payload c =
  Some
    (if idle && result then
       (true, set_channels (update_ci p (set_is_busy true) (channels c)) c1)
     else if enqueue && negb (queue_len c >=? max_queue_length (cfg c)) then
       (true,
        set_queue_len (queue_len c + 1)
          (set_queue (queue c ++ [pinned_entry c p dst f])
             (set_heap_next (S (heap_next c)) c1)))
     else (false, c1)).
Proof.
  intros He f idle result c1. subst f idle result c1.
  unfold mg_rpc_dispatch_frame, mg_rpc_send_frame, mg_rpc_enqueue_frame,
    store_ci, pinned_entry.
  unfold bind, ret, get, deref_ci, emit, modify, alloc. simpl. rewrite He.
  destruct (is_open e), (is_busy e); simpl;
    try (destruct enqueue; simpl;
         [destruct (queue_len c >=? max_queue_length (cfg c)); reflexivity
         | reflexivity]).
  destruct (send_frame W (trace c) (ci_ch e) _) eqn:S; simpl.
  - rewrite He. reflexivity.
  - destruct enqueue; simpl;
      [destruct (queue_len c >=? max_queue_length (cfg c)); reflexivity
      | reflexivity].
Qed.



(** A request for a method without a handler: the log, and the error 404
    as a reply on the entry that the frame came in on. *)
Lemma handle_request_no_handler c e frame :
  find (fun x => Nat.eqb (ci_ch x) (ci_ch e)) (channels c) = Some e ->
  find_ci (ci_ptr e) (channels c) = Some e ->
  find (fun hi => mg_vcmp_eq (frame_method frame) (hi_method hi))
    (handlers c) = None ->
  let msg := ("No handler for " +++ frame_method frame)%string in
  let ri := request_info_of frame "" (ci_ch e) in
  let f := reply_bytes W c ri (error_payload W 404 msg) None in
  exists c',
    mg_rpc_handle_request W (ci_ptr e) frame c = Some (true, c') /\
    (exists evs, trace c' = trace c ++ evs /\ Forall not_call evs) /\
    (is_open e = true -> is_busy e = false ->
     send_frame W (trace c ++ [EV_log_error msg]) (ci_ch e) f = true ->
     trace c' =
     trace c ++ [EV_log_error msg; EV_send_frame (ci_ch e) f true] /\
     queue c' = queue c) /\
    (is_busy e = true -> queue_len c < max_queue_length (cfg c) ->
     trace c' = trace c ++ [EV_log_error msg] /\
     queue c' = queue c ++ [pinned_entry c (ci_ptr e) (frame_src frame) f]).
Proof.
  intros F He Hnone msg ri f.
  set (c0 := set_trace (trace c ++ [EV_log_error msg]) c).
  assert (He0 : find_ci (ci_ptr e) (channels c0) = Some e) by exact He.
  pose proof (dispatch_frame_pinned (ri_dst ri) (ri_src ri) (ri_id ri)
                (ri_tag ri) MG_NULL_STR (ci_ptr e) e true
                (error_payload W 404 msg) None c0 He0) as D.
  cbv zeta in D.
  change (frame_bytes W c0 (ri_dst ri) (ri_src ri) (ri_id ri) (ri_tag ri)
            MG_NULL_STR (error_payload W 404 msg) None) with f in D.
  assert (E : mg_rpc_handle_request W (ci_ptr e) frame c =
              match mg_rpc_dispatch_frame W (ri_dst ri) (ri_src ri) (ri_id ri)
                      (ri_tag ri) MG_NULL_STR (Some (ci_ptr e)) true
                      (error_payload W 404 msg) None c0 with
              | Some (_, c') => Some (true, c')
              | None => None
              end).
  { unfold mg_rpc_handle_request.
    unfold bind at 1. unfold deref_ci at 1. rewrite He.
    unfold bind at 1. unfold get at 1. cbv zeta. rewrite Hnone.
    unfold bind at 1. unfold emit at 1, modify at 1. fold msg. fold c0.
    unfold bind at 1. unfold mg_rpc_send_errorf, send_errorf.
    unfold bind at 1.
    unfold mg_rpc_get_channel_info_internal, bind, get, ret.
    cbn [ri_ch]. change (channels c0) with (channels c). rewrite F.
    reflexivity. }
  match type of D with
  | _ = Some ?X =>
      exists (snd X); split; [rewrite E, D; destruct X; reflexivity|]
  end.
  change (cfg c0) with (cfg c). clear E D.
  change (queue_len c0) with (queue_len c).
  change (trace c0) with (trace c ++ [EV_log_error msg]).
  split; [|split].
  - destruct (is_open e && negb (is_busy e));
      destruct (send_frame W (trace c ++ [EV_log_error msg]) (ci_ch e) f);
      destruct (queue_len c >=? max_queue_length (cfg c));
      simpl; rewrite <- ?app_assoc; simpl; eexists;
      (split; [reflexivity | repeat constructor; intros []]).
  - intros Ho Hb Hs. rewrite Ho, Hb, Hs.
    simpl. rewrite <- app_assoc. split; reflexivity.
  - intros Hb Hroom. rewrite Hb, andb_false_r.
    assert (Hg : (queue_len c >=? max_queue_length (cfg c)) = false).
    { rewrite Z.geb_leb. apply Z.leb_gt. exact Hroom. }
    rewrite Hg. simpl. split; reflexivity.
Qed.


(** *** The comparison that frees what was never written *)

Lemma scan_channels_undefined dst u pre e post :
  str_empty dst = false ->
  mg_parse_uri W dst = Some u -> canonicalize_dst_uri W u = None ->
  (forall x, In x pre -> mg_parse_uri W (ci_dst x) = None) ->
  mg_parse_uri W (ci_dst e) <> None ->
  forall d, scan_channels W dst (pre ++ e :: post) d = None.
Proof.
  intros Hne Hp Hc. induction pre as [|x pre IH]; intros Hpre He d; simpl;
    rewrite Hne; simpl; unfold dst_is_equal; rewrite Hp.
  - destruct (mg_parse_uri W (ci_dst e)); [|contradiction He; reflexivity].
    rewrite Hc. reflexivity.
  - rewrite (Hpre x (or_introl eq_refl)). apply IH; [|exact He].
    intros y Hy. apply Hpre. right. exact Hy.
Qed.

Lemma by_dst_undefined dst u pre e post c :
  str_empty dst = false ->
  mg_parse_uri W dst = Some u -> canonicalize_dst_uri W u = None ->
  channels c = pre ++ e :: post ->
  (forall x, In x pre -> mg_parse_uri W (ci_dst x) = None) ->
  mg_parse_uri W (ci_dst e) <> None ->
  mg_rpc_get_channel_info_internal_by_dst W dst c = None.
Proof.
  intros Hne Hp Hc Hch Hpre He.
  unfold mg_rpc_get_channel_info_internal_by_dst, bind, get. rewrite Hch.
  rewrite (scan_channels_undefined dst u pre e post Hne Hp Hc Hpre He).
  reflexivity.
Qed.

(** A call to such a destination has no defined result. *)
Lemma vcallf_undefined method cb cb_arg o args u pre e post c :
  opts_broadcast o = false -> opts_dst o <> EmptyString ->
  mg_parse_uri W (opts_dst o) = Some u -> canonicalize_dst_uri W u = None ->
  channels c = pre ++ e :: post ->
  (forall x, In x pre -> mg_parse_uri W (ci_dst x) = None) ->
  mg_parse_uri W (ci_dst e) <> None ->
  mg_rpc_vcallf W method cb cb_arg (Some o) args c = None.
Proof.
  intros Hb Hd Hp Hc Hch Hpre He.
  assert (Hne : str_empty (opts_dst o) = false).
  { destruct (opts_dst o); [contradiction Hd; reflexivity | reflexivity]. }
  unfold mg_rpc_vcallf. unfold bind at 1.
  unfold mg_rpc_get_id at 1. unfold bind at 1, get at 1.
  unfold bind at 1, emit at 1, modify at 1.
  unfold bind at 1, modify at 1, ret at 1. cbv zeta.
  unfold bind at 1. unfold get at 1. rewrite Hb. cbn [negb]. cbv iota.
  unfold bind at 1. unfold mg_rpc_dispatch_frame. unfold bind at 1.
  rewrite guarded_opt_Some.
  erewrite (by_dst_undefined (opts_dst o) u pre e post);
    [reflexivity | exact Hne | exact Hp | exact Hc | exact Hch | exact Hpre
    | exact He].
Qed.

End Replies.

(** The lookup of the entry of a channel, where entries have distinct
    addresses. *)
Lemma get_channel_info_internal_found cfg0 c ch e :
  wf cfg0 c ->
  find (fun ci => Nat.eqb (ci_ch ci) ch) (channels c) = Some e ->
  mg_rpc_get_channel_info_internal ch c = Some (Some (ci_ptr e), c) /\
  find_ci (ci_ptr e) (channels c) = Some e /\ ci_ch e = ch.
Proof.
  intros Hwf F. pose proof (find_some _ _ F) as [Hin Hch].
  apply Nat.eqb_eq in Hch.
  split; [|split; [|exact Hch]].
  - unfold mg_rpc_get_channel_info_internal, bind, get, ret. rewrite F.
    reflexivity.
  - exact (find_ci_of_In _ _ (wf_chan_nodup Hwf) Hin).
Qed.


(** ** Runs of operations *)

Lemma reachable_run_ops W cfg0 ops : forall c c',
  reachable W cfg0 c -> run_ops W ops c = Some c' -> reachable W cfg0 c'.
Proof.
  induction ops as [|o ops IH]; simpl; intros c c' Hc E.
  - inversion E; subst. exact Hc.
  - destruct (run_op W o c) as [[[] c1]|] eqn:E1; [|discriminate].
    eapply IH; [|exact E]. eapply reachable_step; eauto.
Qed.

Lemma reachable_state_after ops c :
  run_ops test_world ops (mg_rpc_create test_cfg) = Some c ->
  reachable test_world test_cfg (state_after ops).
Proof.
  intros E. unfold state_after. rewrite E.
  eapply reachable_run_ops; [apply reachable_create | exact E].
Qed.

Example busy_channel_state_channels :
  channels busy_channel_state =
  [{| ci_ptr := 1%nat; ci_dst := "*"%string; ci_ch := 7%nat; is_open := true;
      is_busy := true |}].
Proof. vm_compute. reflexivity. Qed.

Example full_queue_state_queue_len :
  queue_len full_queue_state = 2 /\ List.length (queue full_queue_state) = 2%nat.
Proof. vm_compute. split; reflexivity. Qed.

(** ** The channel flags (C4) *)

(** C4. At every observable moment of a multiplexer, a channel entry that is
    busy is open: the invariant is established by [mg_rpc_create] and kept
    by every operation and every channel event, [is_busy] being set only by
    [mg_rpc_send_frame] on an entry it has found open and not busy. *)
Theorem busy_implies_open W cfg0 c ci :
  reachable W cfg0 c -> In ci (channels c) ->
  is_busy ci = true -> is_open ci = true.
Proof.
  intros Hr. exact (wf_busy_open (reachable_wf W cfg0 c Hr) ci).
Qed.

Lemma busy_implies_open_witness :
  exists ci, In ci (channels busy_channel_state) /\ is_busy ci = true /\
             is_open ci = true.
Proof.
  exists {| ci_ptr := 1%nat; ci_dst := "*"%string; ci_ch := 7%nat;
            is_open := true; is_busy := true |}.
  assert (Hin : In {| ci_ptr := 1%nat; ci_dst := "*"%string; ci_ch := 7%nat;
                      is_open := true; is_busy := true |}
                  (channels busy_channel_state)).
  { vm_compute. left. reflexivity. }
  split; [exact Hin|]. split; [reflexivity|].
  apply (busy_implies_open test_world test_cfg busy_channel_state).
  - eapply reachable_state_after. vm_compute. reflexivity.
  - exact Hin.
  - reflexivity.
Defined.

(** ** The bound of the send queue (C5) *)

(** C5, counterexample.  [max_queue_length] is an [int] that nothing
    validates: with the value -1 the multiplexer that [mg_rpc_create]
    returns, whose queue is empty, is at an observable moment and its
    [queue_len], 0, is above [max_queue_length]. *)
Lemma negative_max_queue_length_is_exceeded :
  reachable test_world negative_queue_cfg (mg_rpc_create negative_queue_cfg) /\
  queue (mg_rpc_create negative_queue_cfg) = [] /\
  ~ (queue_len (mg_rpc_create negative_queue_cfg) <=
     max_queue_length negative_queue_cfg).
Proof.
  split; [apply reachable_create|]. split; [reflexivity|].
  simpl. lia.
Qed.

(** C5, as amended.  For a configured [max_queue_length] that is not
    negative, at every observable moment the send queue holds at most
    [max_queue_length] entries and [queue_len] is its length; an enqueue at
    [queue_len >= max_queue_length] returns false and changes nothing, a
    successful enqueue adds one entry and increments [queue_len], and a
    removal takes one entry away and decrements it. *)
Theorem queue_len_bounded W cfg0 c :
  0 <= max_queue_length cfg0 -> reachable W cfg0 c ->
  Z.of_nat (List.length (queue c)) <= max_queue_length cfg0 /\
  queue_len c = Z.of_nat (List.length (queue c)) /\
  (forall ci dst f,
     queue_len c >= max_queue_length cfg0 ->
     mg_rpc_enqueue_frame ci dst f c = Some (false, c)) /\
  (forall ci dst f c',
     mg_rpc_enqueue_frame ci dst f c = Some (true, c') ->
     queue_len c < max_queue_length cfg0 /\
     queue_len c' = queue_len c + 1 /\
     List.length (queue c') = S (List.length (queue c))) /\
  (forall qe c',
     mg_rpc_remove_queue_entry qe c = Some (tt, c') ->
     queue_len c' = queue_len c - 1 /\
     List.length (queue c) = S (List.length (queue c'))).
Proof.
  intros Hmax Hr. pose proof (reachable_wf W cfg0 c Hr) as Hwf.
  pose proof (wf_queue_len Hwf) as Hlen.
  pose proof (wf_queue_bound Hwf) as Hb.
  pose proof (wf_cfg Hwf) as Hcfg.
  split; [lia|]. split; [exact Hlen|]. split; [|split].
  - intros ci dst f Hfull. unfold mg_rpc_enqueue_frame, bind, get.
    rewrite Hcfg. destruct (queue_len c >=? max_queue_length cfg0) eqn:G.
    + reflexivity.
    + rewrite Z.geb_leb in G. apply Z.leb_gt in G. lia.
  - intros ci dst f c' E. unfold mg_rpc_enqueue_frame, bind, get in E.
    rewrite Hcfg in E.
    destruct (queue_len c >=? max_queue_length cfg0) eqn:G; [discriminate|].
    rewrite Z.geb_leb in G. apply Z.leb_gt in G.
    unfold alloc, modify, ret in E. simpl in E. inversion E; subst. simpl.
    split; [exact G|]. split; [reflexivity|].
    rewrite length_app. simpl. lia.
  - intros qe c' E. unfold mg_rpc_remove_queue_entry in E.
    destruct (unlink_qe qe (queue c)) as [q'|] eqn:U; [|discriminate].
    inversion E; subst. simpl. split; [reflexivity|].
    eapply unlink_qe_length; eauto.
Qed.

Lemma queue_len_bounded_witness :
  Z.of_nat (List.length (queue full_queue_state)) <= 2 /\
  queue_len full_queue_state = 2.
Proof.
  assert (Hmax : 0 <= max_queue_length test_cfg) by (simpl; lia).
  assert (Hr : reachable test_world test_cfg full_queue_state)
    by (eapply reachable_state_after; vm_compute; reflexivity).
  destruct (queue_len_bounded test_world test_cfg full_queue_state Hmax Hr)
    as (H1 & H2 & _).
  split; [exact H1|]. vm_compute. reflexivity.
Defined.

(** ** Parsing a frame (C8) *)

Lemma scan_count_zero s : scan_count s = 0 <-> no_field_found s.
Proof.
  unfold scan_count, no_field_found.
  destruct s as [v id src dst tag method args auth result code msg]; simpl.
  split.
  - destruct v, id, src, dst, tag, method, args, auth, result, code, msg;
      intros H; try discriminate H; repeat split.
  - intros (-> & -> & -> & -> & -> & -> & -> & -> & -> & -> & ->). reflexivity.
Qed.

Lemma scan_count_nonneg s : 0 <= scan_count s.
Proof.
  unfold scan_count.
  destruct s as [v id src dst tag method args auth result code msg]; simpl.
  destruct v, id, src, dst, tag, method, args, auth, result, code, msg; lia.
Qed.

(** C8, counterexample.  The format that [mg_rpc_parse_frame] gives to
    [json_scanf] has no target for the fields nr and key of a frame: a
    frame that holds one of them and nothing else has a field of a frame,
    [json_scanf] converts nothing, and parsing fails. *)
Lemma frame_with_nr_or_key_only_fails_to_parse :
  json_scanf_frame test_world nr_only_frame = empty_scan /\
  mg_rpc_parse_frame test_world nr_only_frame = None /\
  json_scanf_frame test_world key_only_frame = empty_scan /\
  mg_rpc_parse_frame test_world key_only_frame = None.
Proof. repeat split; vm_compute; reflexivity. Qed.

(** C8, as amended.  When [json_scanf] returns the number of targets it
    has filled, [mg_rpc_parse_frame] fails exactly when none of the eleven
    fields that its format names was found, which are v, id, src, dst, tag,
    method, args, auth, result and the code and the message of error; when
    it succeeds, every field that was not found has its default in the frame:
    the empty span for src, dst, tag, method, args, result, auth and the
    error message, zero for the version, the id and the error code. *)
Theorem parse_frame_fails_iff_no_field W f :
  (forall f, json_scanf_frame_ret W f = scan_count (json_scanf_frame W f)) ->
  let s := json_scanf_frame W f in
  (mg_rpc_parse_frame W f = None <-> no_field_found s) /\
  (forall frame, mg_rpc_parse_frame W f = Some frame ->
     (scan_v s = None -> version frame = 0) /\
     (scan_id s = None -> frame_id frame = 0) /\
     (scan_error_code s = None -> error_code frame = 0) /\
     (scan_src s = None -> frame_src frame = MG_NULL_STR) /\
     (scan_dst s = None -> frame_dst frame = MG_NULL_STR) /\
     (scan_tag s = None -> frame_tag frame = MG_NULL_STR) /\
     (scan_method s = None -> frame_method frame = MG_NULL_STR) /\
     (scan_args s = None -> frame_args frame = MG_NULL_STR) /\
     (scan_result s = None -> frame_result frame = MG_NULL_STR) /\
     (scan_error_msg s = None -> error_msg frame = MG_NULL_STR) /\
     (scan_auth s = None -> frame_auth frame = MG_NULL_STR)).
Proof.
  intros Hret s. unfold mg_rpc_parse_frame. rewrite Hret. fold s.
  pose proof (scan_count_nonneg s) as Hnn.
  destruct (scan_count s <? 1) eqn:G.
  - apply Z.ltb_lt in G. split; [|discriminate].
    split; [intros _; apply scan_count_zero; lia | reflexivity].
  - apply Z.ltb_ge in G. split.
    + split; [discriminate|]. intros H. apply scan_count_zero in H. lia.
    + intros frame E. inversion E; subst. clear E. simpl.
      repeat split; intros ->; reflexivity.
Qed.

Lemma parse_frame_fails_iff_no_field_witness :
  mg_rpc_parse_frame test_world "{}"%string = None /\
  exists frame,
    mg_rpc_parse_frame test_world request_frame_bytes = Some frame /\
    frame_dst frame = MG_NULL_STR /\ frame_method frame = "Nope"%string.
Proof.
  assert (Hret : forall f, json_scanf_frame_ret test_world f =
                           scan_count (json_scanf_frame test_world f))
    by (intros f; reflexivity).
  split.
  - destruct (parse_frame_fails_iff_no_field test_world "{}"%string Hret)
      as [H _].
    apply H. vm_compute. repeat split.
  - destruct (mg_rpc_parse_frame test_world request_frame_bytes)
      as [frame|] eqn:E; [|vm_compute in E; discriminate E].
    exists frame. split; [reflexivity|].
    destruct (parse_frame_fails_iff_no_field test_world request_frame_bytes
                Hret) as [_ H].
    split.
    + apply (H frame E). reflexivity.
    + vm_compute in E. inversion E. reflexivity.
Defined.

(** ** Pending requests (C1) *)

Lemma take_request_found id pre ri post :
  sri_id ri = id -> (forall r, In r pre -> sri_id r <> id) ->
  take_request id (pre ++ ri :: post) = Some (ri, pre ++ post).
Proof.
  intros Hid. induction pre as [|r pre IH]; simpl; intros Hpre.
  - rewrite Hid, Z.eqb_refl. reflexivity.
  - destruct (sri_id r =? id) eqn:E.
    + apply Z.eqb_eq in E. exfalso. apply (Hpre r); auto.
    + rewrite IH by auto. reflexivity.
Qed.

Lemma take_request_absent id l :
  (forall r, In r l -> sri_id r <> id) -> take_request id l = None.
Proof.
  induction l as [|r l IH]; simpl; intros H; [reflexivity|].
  destruct (sri_id r =? id) eqn:E.
  - apply Z.eqb_eq in E. exfalso. apply (H r); auto.
  - rewrite IH by auto. reflexivity.
Qed.

Lemma vcallf_requests W method cb cb_arg opts args c r c1 :
  mg_rpc_vcallf W method cb cb_arg opts args c = Some (r, c1) ->
  match cb with
  | Some f =>
      if r
      then requests c1 =
           {| sri_id := wrap64 (next_id c + rand W (trace c)); sri_cb := f;
              sri_cb_arg := cb_arg |} :: requests c
      else requests c1 = requests c
  | None => r = false /\ requests c1 = requests c
  end.
Proof.
  unfold mg_rpc_vcallf. intros E.
  apply bind_Some in E as (id & c0 & E0 & E).
  assert (Hid : id = wrap64 (next_id c + rand W (trace c)) /\
                requests c0 = requests c).
  { unfold mg_rpc_get_id, bind, get, emit, modify, ret in E0. simpl in E0.
    inversion E0; subst. split; reflexivity. }
  destruct Hid as [Hid Hreq0].
  destruct opts as [o|]; [|discriminate E]. cbv zeta in E.
  apply bind_Some in E as (c0' & c0'' & E1 & E). inversion E1; subst c0' c0''.
  clear E1.
  apply bind_Some in E as (result & c2 & E2 & E).
  assert (Hreq2 : requests c2 = requests c).
  { rewrite <- Hreq0. destruct (negb (opts_broadcast o)).
    - exact (dispatch_frame_requests W _ _ _ _ _ _ _ _ _ _ _ _ E2).
    - exact (vcallf_broadcast_requests W _ _ _ _ _ _ _ _ _ _ _ _ E2). }
  destruct cb as [f|]; [destruct result|]; simpl in E; inversion E; subst;
    simpl; auto.
  rewrite Hreq2. reflexivity.
Qed.

(** C1, counterexample.  A response whose id matches no pending request is
    not always dropped without error: the id 0 of a frame without an id
    matches nothing in the empty table, yet the response is logged as an
    error and reported as a failure, for which the event handler asks the
    transport of a channel that is not persistent to close. *)
Lemma response_without_id_is_a_failure :
  requests open_channel_state = [] /\
  mg_rpc_handle_response test_world 1 0 "{}" 0 MG_NULL_STR open_channel_state =
  Some (false,
        set_trace
          (trace open_channel_state ++ [EV_log_error "Response without an ID"])
          open_channel_state) /\
  exists c',
    mg_rpc_ev_handler test_world 7
      (MG_RPC_CHANNEL_FRAME_RECD_PARSED response_without_id)
      open_channel_state = Some (tt, c') /\
    In (EV_ch_close 7) (trace c').
Proof.
  split; [vm_compute; reflexivity|]. split; [vm_compute; reflexivity|].
  eexists. split; [vm_compute; reflexivity|]. simpl. tauto.
Qed.

(** C1, as amended.  A call with a callback that returns true has registered
    the callback under the id it allocated, at the head of the pending
    requests, and a call that returns false has registered nothing.  A
    handled response with an id other than 0 that matches a pending request
    invokes the callback of the first matching record exactly once, with
    the result span, the error code and the error message span, and removes
    that record; in particular the response to the call just made invokes
    the callback of that call.  A handled response with an id other than 0
    that matches no pending request invokes nothing, changes nothing and
    reports success. *)
Theorem pending_request_round_trip W c :
  (forall method f cb_arg opts args r c1,
     mg_rpc_callf W method (Some f) cb_arg opts args c = Some (r, c1) ->
     let ri := {| sri_id := wrap64 (next_id c + rand W (trace c));
                  sri_cb := f; sri_cb_arg := cb_arg |} in
     (r = true -> requests c1 = ri :: requests c) /\
     (r = false -> requests c1 = requests c) /\
     (r = true -> sri_id ri <> 0 ->
      forall ci e result code msg,
        find_ci ci (channels c1) = Some e ->
        mg_rpc_handle_response W ci (sri_id ri) result code msg c1 =
        Some (true,
              set_trace
                (trace c1 ++
                 [EV_result_cb f cb_arg
                    {| channel_type := get_type W (ci_ch e) |}
                    result code msg])
                (set_requests (requests c) c1)))) /\
  (forall ci e id result code msg pre ri post,
     id <> 0 -> find_ci ci (channels c) = Some e ->
     requests c = pre ++ ri :: post -> sri_id ri = id ->
     (forall r, In r pre -> sri_id r <> id) ->
     mg_rpc_handle_response W ci id result code msg c =
     Some (true,
           set_trace
             (trace c ++
              [EV_result_cb (sri_cb ri) (sri_cb_arg ri)
                 {| channel_type := get_type W (ci_ch e) |} result code msg])
             (set_requests (pre ++ post) c))) /\
  (forall ci id result code msg,
     id <> 0 -> (forall r, In r (requests c) -> sri_id r <> id) ->
     mg_rpc_handle_response W ci id result code msg c = Some (true, c)).
Proof.
  assert (Hmatch : forall c ci e id result code msg pre ri post,
            id <> 0 -> find_ci ci (channels c) = Some e ->
            requests c = pre ++ ri :: post -> sri_id ri = id ->
            (forall r, In r pre -> sri_id r <> id) ->
            mg_rpc_handle_response W ci id result code msg c =
            Some (true,
                  set_trace
                    (trace c ++
                     [EV_result_cb (sri_cb ri) (sri_cb_arg ri)
                        {| channel_type := get_type W (ci_ch e) |}
                        result code msg])
                    (set_requests (pre ++ post) c))).
  { intros c0 ci e id result code msg pre ri post Hid He Hreq Hri Hpre.
    unfold mg_rpc_handle_response.
    apply Z.eqb_neq in Hid. rewrite Hid.
    unfold bind, get. rewrite Hreq, (take_request_found id pre ri post Hri Hpre).
    unfold modify, deref_ci. simpl. rewrite He. reflexivity. }
  split; [|split].
  - intros method f cb_arg opts args r c1 E ri.
    unfold mg_rpc_callf in E. apply vcallf_requests in E.
    split; [|split].
    + intros ->. exact E.
    + intros ->. exact E.
    + intros -> Hid ci e result code msg He. fold ri in E.
      rewrite (Hmatch c1 ci e (sri_id ri) result code msg [] ri (requests c));
        auto; intros x [].
  - apply Hmatch.
  - intros ci id result code msg Hid Hnone. unfold mg_rpc_handle_response.
    apply Z.eqb_neq in Hid. rewrite Hid. unfold bind, get.
    rewrite (take_request_absent id (requests c) Hnone). reflexivity.
Qed.

Lemma pending_request_round_trip_witness :
  mg_rpc_handle_response test_world 1 1 "{}" 0 MG_NULL_STR busy_channel_state =
  Some (true,
        set_trace
          (trace busy_channel_state ++
           [EV_result_cb 100 0 {| channel_type := "test" |} "{}" 0 MG_NULL_STR])
          (set_requests [] busy_channel_state)).
Proof.
  destruct (pending_request_round_trip test_world busy_channel_state)
    as (_ & H & _).
  apply (H 1%nat
           {| ci_ptr := 1%nat; ci_dst := "*"%string; ci_ch := 7%nat;
              is_open := true; is_busy := true |}
           1 "{}"%string 0 MG_NULL_STR []
           {| sri_id := 1; sri_cb := 100%nat; sri_cb_arg := 0%nat |} []).
  - lia.
  - vm_compute. reflexivity.
  - vm_compute. reflexivity.
  - reflexivity.
  - intros r [].
Defined.

(** ** Calls (C3) *)

(** C3, at the failing input.  A call without a callback on an open channel
    that is not busy hands its frame, which carries the nr marker, to the
    transport, which accepts it; no pending request is registered; and the
    call returns false. *)
Theorem callf_without_callback_returns_false :
  exists c',
    mg_rpc_callf test_world "Foo" None 0 (Some default_opts) None
      open_channel_state = Some (false, c') /\
    trace c' =
    trace open_channel_state ++ [EV_rand 1; EV_send_frame 7 nr_call_bytes true] /\
    requests c' = [] /\ queue c' = [].
Proof.
  eexists. split; [vm_compute; reflexivity|].
  split; [vm_compute; reflexivity|]. split; reflexivity.
Qed.

(** ** The destination of inbound frames (C2) *)

Lemma str_empty_iff s : str_empty s = true <-> s = EmptyString.
Proof.
  unfold str_empty. destruct s; simpl; split; intros H;
    try reflexivity; discriminate.
Qed.

Lemma str_drop_length n s :
  (String.length (str_drop n s) <= String.length s - n)%nat.
Proof.
  revert s. induction n as [|n IH]; intros s; simpl; [lia|].
  destruct s as [|a s]; simpl; [lia|]. apply IH.
Qed.

(** One round of the loop of [is_local_id] takes the first string off the
    buffer. *)
Lemma cstrings_step a buf :
  cstrings (String a buf) =
  c_str (String a buf) ::
  cstrings (str_drop (String.length (c_str (String a buf)) + 1) (String a buf)).
Proof.
  revert a. induction buf as [|b buf IH]; intros a; simpl.
  - destruct (Ascii.eqb a NUL); reflexivity.
  - destruct (Ascii.eqb a NUL) eqn:Ea; simpl; [reflexivity|].
    specialize (IH b). simpl in IH.
    destruct (Ascii.eqb b NUL) eqn:Eb; simpl in *.
    + reflexivity.
    + rewrite IH. reflexivity.
Qed.

Lemma is_local_id_loop_spec id : forall fuel rest,
  (String.length rest <= fuel)%nat ->
  is_local_id_loop fuel rest id = existsb (mg_str_eq id) (cstrings rest).
Proof.
  induction fuel as [|fuel IH]; intros rest Hlen.
  - destruct rest; [reflexivity | simpl in Hlen; lia].
  - destruct rest as [|a rest]; [reflexivity|].
    cbn [is_local_id_loop]. unfold str_empty at 1. cbn [String.length Nat.eqb].
    rewrite cstrings_step. cbn [existsb].
    destruct (mg_str_eq id (c_str (String a rest))); [reflexivity|].
    cbn [orb]. apply IH.
    pose proof (str_drop_length
                  (String.length (c_str (String a rest)) + 1) (String a rest))
      as Hd.
    remember (String.length (c_str (String a rest))) as n.
    remember (str_drop (n + 1) (String a rest)) as d.
    cbn [String.length] in Hlen, Hd. lia.
Qed.

(** [is_local_id] decides membership in the local identities. *)
Lemma is_local_id_spec c id :
  is_local_id c id = true <-> In id (local_identities c).
Proof.
  unfold is_local_id, local_identities.
  rewrite is_local_id_loop_spec by lia. rewrite existsb_exists. split.
  - intros (x & Hx & E). apply String.eqb_eq in E. subst. exact Hx.
  - intros H. exists id. split; [exact H | apply String.eqb_refl].
Qed.

(** C2. Whenever [mg_rpc_handle_frame] returns: a frame whose dst is not
    empty and is not a local identity is dropped, that is, the result is
    false and nothing happened but an error log (no binding of the channel
    entry, no call, no frame sent or queued); hence a frame that is accepted
    (the result is true, as it is for every dispatched request), or for
    which a handler or a pre-handler was called, has an empty dst or a dst
    among the local identities. *)
Theorem handle_frame_checks_destination W c ci frame ok c' :
  mg_rpc_handle_frame W ci frame c = Some (ok, c') ->
  (frame_dst frame <> MG_NULL_STR ->
   ~ In (frame_dst frame) (local_identities c) ->
   ok = false /\
   exists msg, c' = set_trace (trace c ++ [EV_log_error msg]) c) /\
  (ok = true \/
   (exists evs e, trace c' = trace c ++ evs /\ In e evs /\
                  is_dispatch_event e) ->
   frame_dst frame = MG_NULL_STR \/
   In (frame_dst frame) (local_identities c)).
Proof.
  intros E. unfold mg_rpc_handle_frame in E.
  apply bind_Some in E as (e & c0 & E0 & E).
  unfold deref_ci in E0. destruct (find_ci ci (channels c)); [|discriminate].
  inversion E0; subst. clear E0.
  unfold bind at 1 in E. unfold get at 1 in E.
  assert (Hdrop : forall msg,
            (emit (EV_log_error msg) ;; ret false) c0 = Some (ok, c') ->
            (ok = false /\
             exists msg, c' = set_trace (trace c0 ++ [EV_log_error msg]) c0) /\
            (ok = true \/
             (exists evs e, trace c' = trace c0 ++ evs /\ In e evs /\
                            is_dispatch_event e) -> False)).
  { intros msg H. inversion H; subst. clear H. split.
    - split; [reflexivity | exists msg; reflexivity].
    - intros [H | (evs & e' & T & Hin & Hd)]; [discriminate|].
      simpl in T. apply app_inv_head in T. subst.
      destruct Hin as [<- | []]. exact Hd. }
  destruct (negb (is_open e)).
  { apply Hdrop in E as [E1 E2]. split; [intros _ _; exact E1|].
    intros H. destruct (E2 H). }
  destruct (negb (str_empty (frame_dst frame)) &&
            negb (is_local_id c0 (frame_dst frame))) eqn:G.
  { apply Hdrop in E as [E1 E2]. split; [intros _ _; exact E1|].
    intros H. destruct (E2 H). }
  assert (Hdst : frame_dst frame = MG_NULL_STR \/
                 In (frame_dst frame) (local_identities c0)).
  { apply andb_false_iff in G as [G | G]; apply negb_false_iff in G.
    - left. apply str_empty_iff. exact G.
    - right. apply is_local_id_spec. exact G. }
  split; [|intros _; exact Hdst].
  intros H1 H2. destruct Hdst; contradiction.
Qed.

Lemma handle_frame_checks_destination_witness :
  exists msg,
    mg_rpc_handle_frame test_world 1 wrong_dst_frame open_channel_state =
    Some (false,
          set_trace (trace open_channel_state ++ [EV_log_error msg])
            open_channel_state).
Proof.
  destruct (mg_rpc_handle_frame test_world 1 wrong_dst_frame
              open_channel_state) as [[ok c']|] eqn:E;
    [|vm_compute in E; discriminate E].
  destruct (handle_frame_checks_destination test_world open_channel_state
              1%nat wrong_dst_frame ok c' E) as [H _].
  destruct H as [-> [msg ->]].
  - discriminate.
  - vm_compute. intros [H | []]. discriminate H.
  - exists msg. reflexivity.
Defined.

(** ** Failures of inbound frames (C10) *)





(** The request of an unknown method on the open channel: error 404 goes
    out, and nothing asks the channel to close. *)
Example unknown_method_is_answered :
  exists c',
    mg_rpc_ev_handler test_world 7
      (MG_RPC_CHANNEL_FRAME_RECD request_frame_bytes) open_channel_state =
    Some (tt, c') /\
    trace c' =
    trace open_channel_state ++
    [EV_log_error "No handler for Nope";
     EV_send_frame 7 no_handler_bytes true].
Proof. eexists. split; vm_compute; reflexivity. Qed.


(** ** The options of a call (C9) *)

(** C9, at the failing input.  A call with [opts] NULL has no defined
    behaviour: [opts->src] and [opts->broadcast] are read whatever the
    guards before them found, and with [opts] not NULL the guarded reads
    of dst, tag and key are the plain reads of these fields.  But [opts]
    not NULL does not make the call defined: when [opts->dst] is a URI
    that [mg_assemble_uri] cannot put together again and the registry
    holds a destination that is a URI, looking the destination up frees a
    pointer that was never written. *)
Theorem callf_requires_opts W c method cb cb_arg args :
  (forall o field, guarded_opt (Some o) field = field o) /\
  (forall field, guarded_opt None field = MG_NULL_STR) /\
  mg_rpc_callf W method cb cb_arg None args c = None /\
  mg_rpc_vcallf W method cb cb_arg None args c = None /\
  (forall o u pre e post,
     opts_broadcast o = false -> opts_dst o <> EmptyString ->
     mg_parse_uri W (opts_dst o) = Some u ->
     canonicalize_dst_uri W u = None ->
     channels c = pre ++ e :: post ->
     (forall x, In x pre -> mg_parse_uri W (ci_dst x) = None) ->
     mg_parse_uri W (ci_dst e) <> None ->
     mg_rpc_callf W method cb cb_arg (Some o) args c = None).
Proof.
  split; [|split; [|split; [|split]]].
  - apply guarded_opt_Some.
  - reflexivity.
  - reflexivity.
  - reflexivity.
  - intros o u pre e post Hb Hd Hp Hc Hch Hpre He. unfold mg_rpc_callf.
    exact (vcallf_undefined W method cb cb_arg o args u pre e post c
             Hb Hd Hp Hc Hch Hpre He).
Qed.

Lemma callf_requires_opts_witness :
  reachable no_memory_world test_cfg uri_channel_state /\
  mg_rpc_callf no_memory_world "Foo" (Some 100%nat) 0 (Some uri_opts) None
    uri_channel_state = None /\
  mg_rpc_callf no_memory_world "Foo" (Some 100%nat) 0 None None
    uri_channel_state = None.
Proof.
  destruct (callf_requires_opts no_memory_world uri_channel_state
              "Foo"%string (Some 100%nat) 0%nat None)
    as (_ & _ & H1 & _ & H2).
  split; [|split; [|exact H1]].
  - apply (reachable_step (Op_add_channel ws_dst 7%nat)
             (reachable_create no_memory_world test_cfg)).
    vm_compute. reflexivity.
  - apply (H2 uri_opts ws_uri []
             {| ci_ptr := 1%nat; ci_dst := ws_dst; ci_ch := 7%nat;
                is_open := false; is_busy := false |} []).
    + reflexivity.
    + discriminate.
    + reflexivity.
    + reflexivity.
    + vm_compute. reflexivity.
    + intros x [].
    + discriminate.
Defined.


(** C7. At every observable moment, a CLOSED event on a channel with a
    registered entry returns, and afterwards the entry is in the registry if
    and only if the transport reports the channel persistent.  When it is
    persistent the entry stays with its open and busy flags cleared, and the
    queue is as it was.  When it is not, the entry is unlinked (the other
    entries stay), every queue entry pinned to it is removed while the
    others stay in their order, and the transport is asked to destroy the
    channel. *)
Theorem closed_keeps_entry_iff_persistent W cfg0 c ch e :
  reachable W cfg0 c ->
  find (fun ci => Nat.eqb (ci_ch ci) ch) (channels c) = Some e ->
  exists c',
    mg_rpc_ev_handler W ch MG_RPC_CHANNEL_CLOSED c = Some (tt, c') /\
    (In (ci_ptr e) (chan_ptrs c') <-> is_persistent W (trace c) ch = true) /\
    (is_persistent W (trace c) ch = true ->
     channels c' =
     update_ci (ci_ptr e) (fun e => set_is_open false (set_is_busy false e))
       (channels c) /\
     find_ci (ci_ptr e) (channels c') =
     Some (set_is_open false (set_is_busy false e)) /\
     queue c' = queue c /\ queue_len c' = queue_len c) /\
    (is_persistent W (trace c) ch = false ->
     channels c' = remove_ci (ci_ptr e) (channels c) /\
     queue c' =
     filter (fun qe => negb (pinned_to (ci_ptr e) qe)) (queue c) /\
     (forall qe, In qe (queue c') -> qe_ci qe <> Some (ci_ptr e)) /\
     queue_len c' = Z.of_nat (List.length (queue c')) /\
     In (EV_ch_destroy ch) (trace c')).
Proof.
  intros Hr. apply (closed_event_effect W cfg0). exact (reachable_wf W cfg0 c Hr).
Qed.

Lemma closed_keeps_entry_iff_persistent_witness :
  exists c',
    mg_rpc_ev_handler test_world 7 MG_RPC_CHANNEL_CLOSED two_channels_state =
    Some (tt, c') /\
    chan_ptrs c' = [1%nat] /\ map qe_ci (queue c') = [Some 1%nat].
Proof.
  assert (Hr : reachable test_world test_cfg two_channels_state)
    by (eapply reachable_state_after; vm_compute; reflexivity).
  destruct (closed_keeps_entry_iff_persistent test_world test_cfg
              two_channels_state 7%nat
              {| ci_ptr := 2%nat; ci_dst := "b"%string; ci_ch := 7%nat;
                 is_open := false; is_busy := false |} Hr eq_refl)
    as (c' & E & _ & _ & H).
  destruct (H eq_refl) as (Hch & Hq & _).
  exists c'. split; [exact E|]. unfold chan_ptrs. rewrite Hch, Hq.
  vm_compute. split; reflexivity.
Defined.

(** ** The drain of the queue (C6) *)

(** C6. At every observable moment the drain of the queue does what the
    walk of the specification does, and it returns exactly when the walk
    does: the entries are visited first entry first; for each one the
    channel is the pinned entry if there is one and the channel of the
    stored destination otherwise, one send is attempted, and the entry is
    removed exactly when that send succeeds.  The entries whose send
    failed are the queue afterwards, in the order they had, [queue_len] is
    their number, and the frames that the transports accepted are those of
    the removed entries, in the order of the queue.  The walk returns when
    the destination of every entry that is not pinned can be looked up. *)
Theorem process_queue_drains_in_order W cfg0 c :
  reachable W cfg0 c ->
  mg_rpc_process_queue W c =
  match drain W (queue c) c with
  | Some (oks, c1) =>
      Some (tt,
            with_queue (Z.of_nat (List.length (unsent (queue c) oks)))
              (unsent (queue c) oks) c1)
  | None => None
  end /\
  (forall oks c1,
     drain W (queue c) c = Some (oks, c1) ->
     List.length oks = List.length (queue c) /\
     exists evs,
       trace c1 = trace c ++ evs /\
       accepted_frames evs = map qe_frame (sent (queue c) oks)) /\
  ((forall qe, In qe (queue c) -> qe_ci qe = None ->
      dst_safe W (qe_dst qe)) ->
   exists oks c1, drain W (queue c) c = Some (oks, c1)).
Proof.
  intros Hr. pose proof (reachable_wf W cfg0 c Hr) as Hwf.
  split; [exact (process_queue_refines_drain W cfg0 c Hwf)|]. split.
  - intros oks c1 D. exact (drain_accepted W _ _ _ _ D).
  - exact (drain_returns W cfg0 c Hwf).
Qed.

Lemma process_queue_drains_in_order_witness :
  exists c',
    mg_rpc_process_queue test_world full_queue_state = Some (tt, c') /\
    List.length (queue c') = 2%nat.
Proof.
  assert (Hr : reachable test_world test_cfg full_queue_state)
    by (eapply reachable_state_after; vm_compute; reflexivity).
  destruct (process_queue_drains_in_order test_world test_cfg full_queue_state
              Hr) as (E & _ & D).
  destruct D as (oks & c1 & D).
  { intros qe _ _ _. left. reflexivity. }
  rewrite D in E. eexists. split; [exact E|].
  vm_compute in D. inversion D; subst. reflexivity.
Defined.

(** Calls that waited for the channel go out one per FRAME_SENT, in the
    order they were made. *)
Example queued_calls_go_out_in_order :
  exists c1 c2,
    mg_rpc_ev_handler test_world 7 MG_RPC_CHANNEL_OPEN waiting_calls_state =
    Some (tt, c1) /\
    accepted_frames (trace c1) = [call_bytes "1" "Foo"] /\
    map qe_frame (queue c1) = [call_bytes "2" "Bar"] /\
    mg_rpc_ev_handler test_world 7 (MG_RPC_CHANNEL_FRAME_SENT 1) c1 =
    Some (tt, c2) /\
    accepted_frames (trace c2) = [call_bytes "1" "Foo"; call_bytes "2" "Bar"] /\
    queue c2 = [] /\ queue_len c2 = 0.
Proof.
  eexists. eexists.
  split; [vm_compute; reflexivity|].
  split; [vm_compute; reflexivity|].
  split; [vm_compute; reflexivity|].
  split; [vm_compute; reflexivity|].
  split; [vm_compute; reflexivity|].
  split; vm_compute; reflexivity.
Qed.

(** ** Memory safety of the operations *)

(** X1. In the runs of the model, where [calloc] never fails, and when
    every URI that [mg_parse_uri] accepts can be assembled again: the
    multiplexer never holds a dangling pointer to a channel entry or to a
    queue entry between two operations, and so no operation of the
    transition system dereferences one.  From every observable moment
    each of these operations and each channel event, a call with [opts]
    NULL apart, returns, and leaves the multiplexer at an observable
    moment.  Callbacks are events of the trace; they do not re-enter the
    multiplexer before the operation that runs them has returned. *)
Theorem operations_return W cfg0 c o :
  uris_assemble W -> reachable W cfg0 c ->
  (forall method cb cb_arg args, o <> Op_callf method cb cb_arg None args) ->
  exists c', run_op W o c = Some (tt, c') /\ reachable W cfg0 c'.
Proof.
  intros Hw Hr Ho.
  destruct (run_op_returns W cfg0 Hw o c (reachable_wf W cfg0 c Hr) Ho)
    as [c' E].
  exists c'. split; [exact E|]. exact (reachable_step o Hr E).
Qed.

Lemma operations_return_witness :
  exists c',
    run_op test_world (Op_ev_handler 7%nat MG_RPC_CHANNEL_CLOSED)
      full_queue_state = Some (tt, c') /\
    reachable test_world test_cfg c'.
Proof.
  apply (operations_return test_world test_cfg full_queue_state).
  - intros d u Hu. discriminate Hu.
  - eapply reachable_state_after. vm_compute. reflexivity.
  - intros method cb cb_arg args. discriminate.
Defined.

(** X2. At every observable moment the channel entries and the queue entries
    are distinct heap objects, and a queue entry that is pinned to a
    channel entry is pinned to one that is still in the channel list: the
    purge of the CLOSED event leaves no entry behind that points to the
    freed channel entry. *)
Theorem queue_entries_pin_live_channels W cfg0 c qe p :
  reachable W cfg0 c -> In qe (queue c) -> qe_ci qe = Some p ->
  NoDup (chan_ptrs c) /\ NoDup (queue_ptrs c) /\
  exists ci, find_ci p (channels c) = Some ci /\ In ci (channels c).
Proof.
  intros Hr Hq Hp. pose proof (reachable_wf W cfg0 c Hr) as Hwf.
  split; [exact (wf_chan_nodup Hwf)|]. split; [exact (wf_queue_nodup Hwf)|].
  pose proof (wf_pinned Hwf qe Hq) as Hv. rewrite Hp in Hv. simpl in Hv.
  destruct (find_ci_Some _ _ Hv) as [ci E].
  exists ci. split; [exact E|]. exact (proj1 (find_ci_In _ _ _ E)).
Qed.

Lemma queue_entries_pin_live_channels_witness :
  In queued_bar (queue full_queue_state) /\
  exists ci, find_ci 1%nat (channels full_queue_state) = Some ci /\
             In ci (channels full_queue_state).
Proof.
  assert (Hin : In queued_bar (queue full_queue_state)).
  { vm_compute. left. reflexivity. }
  split; [exact Hin|].
  apply (queue_entries_pin_live_channels test_world test_cfg full_queue_state
           queued_bar 1%nat).
  - eapply reachable_state_after. vm_compute. reflexivity.
  - exact Hin.
  - reflexivity.
Defined.

(** ** The scenarios of the specification, run *)

(** S1. The request is handed to the handler of its method; the response
    of the handler goes back with src and dst swapped. *)
Example method_dispatch :
  exists c1 c2,
    mg_rpc_ev_handler test_world 7 (MG_RPC_CHANNEL_FRAME_RECD_PARSED add_frame)
      math_handler_state = Some (tt, c1) /\
    trace c1 =
    trace math_handler_state ++
    [EV_handler 200 0 add_request_info {| channel_type := "test" |} add_args] /\
    mg_rpc_send_responsef test_world add_request_info (Some add_result) c1 =
    Some (true, c2) /\
    trace c2 = trace c1 ++ [EV_send_frame 7 add_response_bytes true].
Proof.
  eexists. eexists.
  split; [vm_compute; reflexivity|]. split; [vm_compute; reflexivity|].
  split; vm_compute; reflexivity.
Qed.

(** S3. The response to a call made without a callback invokes nothing and
    is no error. *)
Example response_to_nr_call :
  exists c1,
    mg_rpc_callf test_world "Foo" None 0 (Some default_opts) None
      open_channel_state = Some (false, c1) /\
    mg_rpc_handle_response test_world 1 1 "{}" 0 MG_NULL_STR c1 =
    Some (true, c1).
Proof. eexists. split; vm_compute; reflexivity. Qed.

(** S5. With room for two frames, the third call that cannot be sent fails
    and leaves the queue as it was. *)
Example queue_overflow :
  exists c1,
    mg_rpc_callf test_world "Qux" (Some 103%nat) 0 (Some default_opts) None
      full_queue_state = Some (false, c1) /\
    queue c1 = queue full_queue_state /\ queue_len c1 = 2 /\
    requests c1 = requests full_queue_state.
Proof.
  eexists. split; [vm_compute; reflexivity|].
  split; [vm_compute; reflexivity|]. split; vm_compute; reflexivity.
Qed.

(** S6. A broadcast goes to the channels that take broadcasts, and to no
    other. *)
Example broadcast :
  exists c1,
    mg_rpc_callf test_world "Foo" (Some 100%nat) 0 (Some broadcast_opts) None
      three_channels_state = Some (true, c1) /\
    map (fun e => match e with
                  | EV_send_frame ch _ _ => Some ch
                  | _ => None
                  end) (trace c1) =
    [None; Some 8%nat; Some 7%nat] /\
    queue c1 = [].
Proof.
  eexists. split; [vm_compute; reflexivity|].
  split; vm_compute; reflexivity.
Qed.

(** ** Routes of destinations *)

Lemma find_snoc {A} (f : A -> bool) l x :
  find f (l ++ [x]) =
  match find f l with
  | Some y => Some y
  | None => if f x then Some x else None
  end.
Proof.
  induction l as [|y l IH]; simpl; [reflexivity|].
  destruct (f y); [reflexivity | exact IH].
Qed.

Lemma find_ext {A} (f g : A -> bool) l :
  (forall x, f x = g x) -> find f l = find g l.
Proof.
  intros H. induction l as [|x l IH]; simpl; [reflexivity|].
  rewrite H, IH. reflexivity.
Qed.

Lemma find_rev_none {A} (f : A -> bool) l :
  find f l = None -> find f (rev l) = None.
Proof.
  intros H. destruct (find f (rev l)) as [x|] eqn:E; [|reflexivity].
  apply find_some in E as [Hin Hx]. apply in_rev in Hin.
  pose proof (find_none _ _ H x Hin) as Hn. congruence.
Qed.

Section Routes.

Variable W : World.

(** The test of the scan, for a destination that can be looked up. *)
Lemma scan_test_defined dst ci :
  dst_safe W dst ->
  (if negb (str_empty dst) then dst_is_equal W dst (ci_dst ci)
   else Some false) = Some (dst_matches W dst ci).
Proof.
  intros Hs. unfold dst_matches.
  destruct (str_empty dst) eqn:Hne; simpl; [reflexivity|].
  destruct (dst_is_equal_defined W dst (ci_dst ci) Hne Hs) as [b ->].
  reflexivity.
Qed.

(** The scan of the registry when no entry answers to the destination:
    [default_ch] ends up at the last default entry. *)
Lemma scan_channels_none dst l :
  dst_safe W dst -> forall d,
  find (dst_matches W dst) l = None ->
  scan_channels W dst l d =
  Some (None, match default_route W l with
              | Some e => Some (ci_ptr e)
              | None => d
              end).
Proof.
  intros Hs. unfold default_route.
  induction l as [|ci l IH]; intros d H; simpl in *; [reflexivity|].
  rewrite (scan_test_defined dst ci Hs).
  destruct (dst_matches W dst ci); [discriminate|].
  rewrite IH by exact H. rewrite find_snoc.
  destruct (find (is_default_route W) (rev l)); [reflexivity|].
  unfold is_default_route.
  destruct (mg_vcmp_eq (ci_dst ci) (MG_RPC_DST_DEFAULT W)); reflexivity.
Qed.

(** The scan leaves at the first entry that answers. *)
Lemma scan_channels_some dst l e :
  dst_safe W dst -> forall d,
  find (dst_matches W dst) l = Some e ->
  exists d', scan_channels W dst l d = Some (Some (ci_ptr e), d').
Proof.
  intros Hs.
  induction l as [|ci l IH]; intros d H; simpl in *; [discriminate|].
  rewrite (scan_test_defined dst ci Hs).
  destruct (dst_matches W dst ci).
  - inversion H; subst. eexists. reflexivity.
  - apply IH. exact H.
Qed.

Lemma by_dst_plain dst c :
  dst_uri W dst = None -> dst_safe W dst ->
  mg_rpc_get_channel_info_internal_by_dst W dst c =
  Some ((option_map ci_ptr (plain_route W dst (channels c)), dst), c).
Proof.
  intros Hu Hs. unfold mg_rpc_get_channel_info_internal_by_dst, plain_route.
  unfold bind at 1. unfold get at 1. cbv zeta. rewrite Hu.
  destruct (find (dst_matches W dst) (channels c)) as [e|] eqn:F.
  - destruct (scan_channels_some dst _ e Hs None F) as [d' ->]. reflexivity.
  - rewrite (scan_channels_none dst _ Hs None F).
    destruct (default_route W (channels c)); reflexivity.
Qed.

Lemma plain_route_implied l : plain_route W EmptyString l = default_route W l.
Proof.
  unfold plain_route.
  rewrite (find_ext (dst_matches W EmptyString) (fun _ => false))
    by reflexivity.
  assert (H : forall l' : list mg_rpc_channel_info_internal,
            find (fun _ => false) l' = None).
  { induction l' as [|x l' IH]; simpl; [reflexivity | exact IH]. }
  rewrite H. reflexivity.
Qed.

Lemma plain_route_In dst l e : plain_route W dst l = Some e -> In e l.
Proof.
  unfold plain_route, default_route.
  destruct (find (dst_matches W dst) l) as [x|] eqn:F.
  - intros H. inversion H; subst. exact (proj1 (find_some _ _ F)).
  - intros H. apply find_some in H as [H _]. apply in_rev. exact H.
Qed.

(** A destination answers to itself. *)
Lemma dst_is_equal_refl d :
  str_empty d = false -> dst_safe W d -> dst_is_equal W d d = Some true.
Proof.
  intros Hne Hs. unfold dst_is_equal, mg_str_eq.
  destruct (mg_parse_uri W d) as [u|] eqn:P.
  - destruct (Hs Hne) as [Hp|Ha]; [congruence|].
    destruct (canonicalize_dst_uri W u) as [s|] eqn:C;
      [|exfalso; exact (Ha d u P C)].
    rewrite String.eqb_refl. reflexivity.
  - rewrite String.eqb_refl. reflexivity.
Qed.

(** The entries registered for the default destination answer to it. *)
Lemma default_route_answers ci :
  c_str (MG_RPC_DST_DEFAULT W) <> EmptyString ->
  dst_safe W (c_str (MG_RPC_DST_DEFAULT W)) ->
  is_default_route W ci = true ->
  dst_matches W (c_str (MG_RPC_DST_DEFAULT W)) ci = true.
Proof.
  intros Hd Hs H. unfold is_default_route, mg_vcmp_eq in H.
  apply String.eqb_eq in H. unfold dst_matches. rewrite H.
  set (d := c_str (MG_RPC_DST_DEFAULT W)) in *.
  assert (Hne : str_empty d = false).
  { destruct d; [congruence | reflexivity]. }
  rewrite Hne, (dst_is_equal_refl d Hne Hs). reflexivity.
Qed.

(** So the default destination, looked up by its name, goes to the newest
    entry that answers to it. *)
Lemma plain_route_default l :
  c_str (MG_RPC_DST_DEFAULT W) <> EmptyString ->
  dst_safe W (c_str (MG_RPC_DST_DEFAULT W)) ->
  plain_route W (c_str (MG_RPC_DST_DEFAULT W)) l =
  find (dst_matches W (c_str (MG_RPC_DST_DEFAULT W))) l.
Proof.
  intros Hd Hs. unfold plain_route, default_route.
  destruct (find (dst_matches W _) l) eqn:F; [reflexivity|].
  destruct (find (is_default_route W) (rev l)) as [x|] eqn:R; [|reflexivity].
  apply find_some in R as [Hin Hx]. apply in_rev in Hin.
  pose proof (find_none _ _ F x Hin) as Hn.
  rewrite (default_route_answers x Hd Hs Hx) in Hn. discriminate Hn.
Qed.

(** When [mg_parse_uri] rejects the default destination, the entries that
    answer to it are those registered for it. *)
Lemma dst_matches_default ci :
  mg_parse_uri W (c_str (MG_RPC_DST_DEFAULT W)) = None ->
  c_str (MG_RPC_DST_DEFAULT W) <> EmptyString ->
  dst_matches W (c_str (MG_RPC_DST_DEFAULT W)) ci = is_default_route W ci.
Proof.
  intros Hp Hd. unfold dst_matches, is_default_route, dst_is_equal,
    mg_vcmp_eq, mg_str_eq.
  set (d := c_str (MG_RPC_DST_DEFAULT W)) in *.
  assert (Hne : str_empty d = false).
  { destruct d; [congruence | reflexivity]. }
  rewrite Hne, Hp. simpl.
  destruct (String.eqb (ci_dst ci) d) eqn:Eq.
  - apply String.eqb_eq in Eq. rewrite Eq, Hp. apply String.eqb_refl.
  - rewrite String.eqb_sym in Eq.
    destruct (mg_parse_uri W (ci_dst ci)); [reflexivity | exact Eq].
Qed.

End Routes.

(** X3. A destination that is not a URI with a scheme and that can be
    looked up, because it is empty, or [mg_parse_uri] rejects it, or
    [mg_assemble_uri] fails on no URI that [mg_parse_uri] accepts, is
    routed without any effect: to the
    newest entry that answers to it and, when there is none or the
    destination is empty, to the default route, which is the oldest of the
    entries registered for MG_RPC_DST_DEFAULT; the destination is left as
    it is. *)
Theorem plain_destination_route W dst c :
  dst_uri W dst = None -> dst_safe W dst ->
  mg_rpc_get_channel_info_internal_by_dst W dst c =
  Some ((option_map ci_ptr (plain_route W dst (channels c)), dst), c) /\
  (dst = EmptyString ->
   plain_route W dst (channels c) = default_route W (channels c)) /\
  (forall e, plain_route W dst (channels c) = Some e -> In e (channels c)).
Proof.
  intros Hu Hs. split; [exact (by_dst_plain W dst c Hu Hs)|]. split.
  - intros ->. apply plain_route_implied.
  - intros e. apply plain_route_In.
Qed.

(** X4. [mg_rpc_is_connected] and [mg_rpc_can_send] look the default
    destination up by its name.  When MG_RPC_DST_DEFAULT is not empty, has
    no scheme and can be looked up, they report the flags of the newest
    entry that answers to it, and false when there is none; nothing
    changes.  Every entry registered for MG_RPC_DST_DEFAULT answers to it,
    and when [mg_parse_uri] rejects MG_RPC_DST_DEFAULT no other entry
    does. *)
Theorem is_connected_reads_newest_default W cfg0 c :
  reachable W cfg0 c ->
  c_str (MG_RPC_DST_DEFAULT W) <> EmptyString ->
  dst_uri W (c_str (MG_RPC_DST_DEFAULT W)) = None ->
  dst_safe W (c_str (MG_RPC_DST_DEFAULT W)) ->
  mg_rpc_is_connected W c =
  Some (match find (dst_matches W (c_str (MG_RPC_DST_DEFAULT W)))
                (channels c) with
        | Some e => is_open e
        | None => false
        end, c) /\
  mg_rpc_can_send W c =
  Some (match find (dst_matches W (c_str (MG_RPC_DST_DEFAULT W)))
                (channels c) with
        | Some e => is_open e && negb (is_busy e)
        | None => false
        end, c) /\
  (forall ci, is_default_route W ci = true ->
     dst_matches W (c_str (MG_RPC_DST_DEFAULT W)) ci = true) /\
  (mg_parse_uri W (c_str (MG_RPC_DST_DEFAULT W)) = None ->
   forall ci, dst_matches W (c_str (MG_RPC_DST_DEFAULT W)) ci =
              is_default_route W ci).
Proof.
  intros Hr Hd Hu Hs. pose proof (reachable_wf W cfg0 c Hr) as Hwf.
  assert (Hflags : forall k : mg_rpc_channel_info_internal -> bool,
            (r <- mg_rpc_get_channel_info_internal_by_dst W
                    (c_str (MG_RPC_DST_DEFAULT W)) ;;
             match fst r with
             | Some p => e <- deref_ci p ;; ret (k e)
             | None => ret false
             end) c =
            Some (match find (dst_matches W (c_str (MG_RPC_DST_DEFAULT W)))
                          (channels c) with
                  | Some e => k e
                  | None => false
                  end, c)).
  { intros k. unfold bind at 1.
    rewrite (by_dst_plain W _ c Hu Hs), (plain_route_default W _ Hd Hs).
    destruct (find (dst_matches W _) (channels c)) as [e|] eqn:F; simpl;
      [|reflexivity].
    pose proof (find_some _ _ F) as [Hin _].
    pose proof (find_ci_of_In _ _ (wf_chan_nodup Hwf) Hin) as He.
    unfold bind, deref_ci. rewrite He. reflexivity. }
  split; [exact (Hflags is_open)|].
  split; [exact (Hflags (fun e => is_open e && negb (is_busy e)))|].
  split.
  - intros ci. apply default_route_answers; assumption.
  - intros Hp ci. apply dst_matches_default; assumption.
Qed.

Lemma plain_destination_route_witness :
  mg_rpc_get_channel_info_internal_by_dst test_world EmptyString
    two_defaults_state =
  Some ((Some 1%nat, EmptyString), two_defaults_state).
Proof.
  destruct (plain_destination_route test_world EmptyString two_defaults_state
              eq_refl) as [H _].
  - intros Hne. discriminate Hne.
  - rewrite H. vm_compute. reflexivity.
Defined.

Lemma is_connected_reads_newest_default_witness :
  mg_rpc_is_connected test_world two_defaults_state =
  Some (true, two_defaults_state).
Proof.
  assert (Hr : reachable test_world test_cfg two_defaults_state)
    by (eapply reachable_state_after; vm_compute; reflexivity).
  destruct (is_connected_reads_newest_default test_world test_cfg
              two_defaults_state Hr) as [H _].
  - discriminate.
  - reflexivity.
  - intros _. left. reflexivity.
  - rewrite H. vm_compute. reflexivity.
Defined.

(** With two channels registered for the default destination of which only
    the newer one is open, the multiplexer says that it is connected and
    that it can send, and yet a call to the default destination waits on
    the queue for the older one. *)
Example connected_and_yet_queued :
  mg_rpc_is_connected test_world two_defaults_state =
  Some (true, two_defaults_state) /\
  mg_rpc_can_send test_world two_defaults_state =
  Some (true, two_defaults_state) /\
  exists c',
    mg_rpc_callf test_world "Foo" (Some 100%nat) 0%nat (Some default_opts) None
      two_defaults_state = Some (true, c') /\
    accepted_frames (trace c') = [] /\
    map qe_ci (queue c') = [Some 1%nat] /\
    map ci_ch (channels c') = [8%nat; 7%nat].
Proof.
  split; [vm_compute; reflexivity|]. split; [vm_compute; reflexivity|].
  eexists. split; [vm_compute; reflexivity|].
  split; [vm_compute; reflexivity|]. split; vm_compute; reflexivity.
Qed.

(** ** Destinations that are URIs *)

(** X5. When [mg_assemble_uri] fails on no URI that [mg_parse_uri] accepts,
    a destination that is a URI with a scheme is routed to the newest entry
    that answers to it.  When there is none, the default route is not used: for
    the schemes ws, wss, http and https an outbound channel is asked for
    and, if there is one, it is registered for the canonical form of the
    URI, as a closed entry at the head of the registry, and asked to
    connect; any other scheme, and a channel that cannot be created, give
    no route and an error log.  In every case the destination that is left
    for the frame is empty. *)
Theorem uri_destination_route W dst u canon c :
  uris_assemble W ->
  dst_uri W dst = Some u -> canonicalize_dst_uri W u = Some canon ->
  let chcfg := ws_out_cfg W c u canon in
  (forall r c',
     mg_rpc_get_channel_info_internal_by_dst W dst c = Some (r, c') ->
     snd r = MG_NULL_STR) /\
  (forall e, find (dst_matches W dst) (channels c) = Some e ->
     mg_rpc_get_channel_info_internal_by_dst W dst c =
     Some ((Some (ci_ptr e), MG_NULL_STR), c)) /\
  (find (dst_matches W dst) (channels c) = None ->
   is_ws_scheme (uri_scheme u) = false ->
   exists msg,
     mg_rpc_get_channel_info_internal_by_dst W dst c =
     Some ((None, MG_NULL_STR), set_trace (trace c ++ [EV_log_error msg]) c)) /\
  (find (dst_matches W dst) (channels c) = None ->
   is_ws_scheme (uri_scheme u) = true ->
   mg_rpc_channel_ws_out W (trace c) chcfg = None ->
   exists msg,
     mg_rpc_get_channel_info_internal_by_dst W dst c =
     Some ((None, MG_NULL_STR),
           set_trace
             (trace c ++ [EV_channel_ws_out chcfg None; EV_log_error msg]) c)) /\
  (forall ch,
     find (dst_matches W dst) (channels c) = None ->
     is_ws_scheme (uri_scheme u) = true ->
     mg_rpc_channel_ws_out W (trace c) chcfg = Some ch ->
     exists c',
       mg_rpc_get_channel_info_internal_by_dst W dst c =
       Some ((Some (heap_next c), MG_NULL_STR), c') /\
       channels c' =
       {| ci_ptr := heap_next c; ci_dst := canon; ci_ch := ch;
          is_open := false; is_busy := false |} :: channels c /\
       trace c' =
       trace c ++ [EV_channel_ws_out chcfg (Some ch); EV_ch_connect ch] /\
       heap_next c' = S (heap_next c) /\
       queue c' = queue c /\ queue_len c' = queue_len c).
Proof.
  intros Ha Hu Hc chcfg.
  pose proof (uris_assemble_safe W dst Ha) as Hs.
  assert (Hfound : forall e,
            find (dst_matches W dst) (channels c) = Some e ->
            mg_rpc_get_channel_info_internal_by_dst W dst c =
            Some ((Some (ci_ptr e), MG_NULL_STR), c)).
  { intros e F. unfold mg_rpc_get_channel_info_internal_by_dst.
    unfold bind at 1. unfold get at 1. cbv zeta. rewrite Hu.
    destruct (scan_channels_some W dst _ e Hs None F) as [d' ->].
    reflexivity. }
  assert (Hnone : find (dst_matches W dst) (channels c) = None ->
            mg_rpc_get_channel_info_internal_by_dst W dst c =
            (if is_ws_scheme (uri_scheme u) then
               emit (EV_channel_ws_out chcfg
                       (mg_rpc_channel_ws_out W (trace c) chcfg)) ;;
               match mg_rpc_channel_ws_out W (trace c) chcfg with
               | Some ch =>
                   ci <- mg_rpc_add_channel_internal canon ch ;;
                   emit (EV_ch_connect ch) ;;
                   ret (Some ci, MG_NULL_STR)
               | None =>
                   emit (EV_log_error
                           ("Failed to create RPC channel from " +++ dst)) ;;
                   ret (None, MG_NULL_STR)
               end
             else
               emit (EV_log_error
                       ("Unsupported connection scheme in " +++ dst)) ;;
               ret (None, MG_NULL_STR)) c).
  { intros F. unfold mg_rpc_get_channel_info_internal_by_dst.
    unfold bind at 1. unfold get at 1. cbv zeta. rewrite Hu.
    rewrite (scan_channels_none W dst _ Hs None F). rewrite Hc.
    destruct (default_route W (channels c)); reflexivity. }
  assert (Hdst : (if negb (str_empty canon) then canon else MG_NULL_STR) =
                 canon).
  { destruct canon; reflexivity. }
  split; [|split; [exact Hfound|split; [|split]]].
  - intros r c' E.
    destruct (find (dst_matches W dst) (channels c)) as [e|] eqn:F.
    + rewrite (Hfound e eq_refl) in E. inversion E. reflexivity.
    + rewrite (Hnone eq_refl) in E.
      destruct (is_ws_scheme (uri_scheme u)).
      * unfold bind at 1 in E. unfold emit at 1, modify at 1 in E.
        destruct (mg_rpc_channel_ws_out W (trace c) chcfg);
          unfold mg_rpc_add_channel_internal, bind, alloc, emit, modify, ret
            in E; inversion E; reflexivity.
      * unfold bind, emit, modify, ret in E. inversion E. reflexivity.
  - intros F Hsch. rewrite (Hnone F), Hsch. eexists. reflexivity.
  - intros F Hsch Hch. rewrite (Hnone F), Hsch.
    unfold bind at 1. unfold emit at 1, modify at 1. rewrite Hch.
    unfold bind, emit, modify, ret. simpl. rewrite <- app_assoc.
    eexists. reflexivity.
  - intros ch F Hsch Hch. rewrite (Hnone F), Hsch.
    unfold bind at 1. unfold emit at 1, modify at 1. rewrite Hch.
    unfold mg_rpc_add_channel_internal, bind, alloc, emit, modify, ret.
    simpl. eexists. split; [reflexivity|]. simpl. rewrite Hdst.
    rewrite <- app_assoc. repeat split.
Qed.

Lemma uri_destination_route_witness :
  exists c',
    mg_rpc_get_channel_info_internal_by_dst uri_world ws_dst
      (mg_rpc_create test_cfg) = Some ((Some 1%nat, MG_NULL_STR), c') /\
    channels c' =
    [{| ci_ptr := 1%nat; ci_dst := ws_dst; ci_ch := 5%nat; is_open := false;
        is_busy := false |}].
Proof.
  destruct (uri_destination_route uri_world ws_dst ws_uri ws_dst
              (mg_rpc_create test_cfg)) as (_ & _ & _ & _ & H);
    [intros d u _; discriminate | reflexivity | reflexivity |].
  destruct (H 5%nat eq_refl eq_refl eq_refl) as (c' & E & Hc & _).
  exists c'. split; [exact E | exact Hc].
Defined.

(** ** What a computation keeps *)

Lemma preserves_ret {A} I (a : A) : preserves I (ret a).
Proof. intros c a' c' H E. inversion E; subst. exact H. Qed.

Lemma preserves_get I : preserves I get.
Proof. intros c a' c' H E. inversion E; subst. exact H. Qed.

Lemma preserves_undefined {A} I : preserves I (@undefined A).
Proof. intros c a' c' H E. discriminate E. Qed.

Lemma preserves_bind {A B} I (m : M A) (k : A -> M B) :
  preserves I m -> (forall a, preserves I (k a)) -> preserves I (bind m k).
Proof.
  intros Hm Hk c b c' H E. apply bind_Some in E as (a & c1 & E1 & E2).
  exact (Hk a _ _ _ (Hm _ _ _ H E1) E2).
Qed.

Lemma preserves_modify I f : (forall c, I c -> I (f c)) -> preserves I (modify f).
Proof. intros Hf c a c' H E. inversion E; subst. auto. Qed.

Lemma preserves_foreach {A} I (l : list A) body :
  (forall x, preserves I (body x)) -> preserves I (foreach l body).
Proof.
  intros H. induction l as [|x l IH]; simpl.
  - apply preserves_ret.
  - apply preserves_bind; [apply H | intros _; exact IH].
Qed.

Lemma preserves_deref_ci I p : preserves I (deref_ci p).
Proof.
  intros c a c' H E. unfold deref_ci in E.
  destruct (find_ci p (channels c)); [|discriminate].
  inversion E; subst. exact H.
Qed.

Lemma find_ci_update_any p q f l :
  (forall e, ci_ptr (f e) = ci_ptr e) ->
  find_ci p (update_ci q f l) =
  if Nat.eqb q p then option_map f (find_ci p l) else find_ci p l.
Proof.
  intros Hf. induction l as [|ci l IH]; simpl.
  - destruct (Nat.eqb q p); reflexivity.
  - destruct (Nat.eqb (ci_ptr ci) q) eqn:Eq; simpl.
    + apply Nat.eqb_eq in Eq. rewrite Hf, Eq.
      destruct (Nat.eqb q p); reflexivity.
    + rewrite IH. destruct (Nat.eqb (ci_ptr ci) p) eqn:Ep; [|reflexivity].
      apply Nat.eqb_eq in Ep. subst p. rewrite Nat.eqb_sym, Eq. reflexivity.
Qed.

Lemma find_ci_remove_other p q l :
  p <> q -> find_ci p (remove_ci q l) = find_ci p l.
Proof.
  intros Hpq. induction l as [|ci l IH]; simpl; [reflexivity|].
  destruct (Nat.eqb (ci_ptr ci) q) eqn:Eq.
  - apply Nat.eqb_eq in Eq.
    destruct (Nat.eqb (ci_ptr ci) p) eqn:Ep; [|reflexivity].
    apply Nat.eqb_eq in Ep. congruence.
  - simpl. destruct (Nat.eqb (ci_ptr ci) p); [reflexivity | exact IH].
Qed.

Lemma find_ci_remove p q l e :
  NoDup (map ci_ptr l) -> find_ci p (remove_ci q l) = Some e ->
  p <> q /\ find_ci p l = Some e.
Proof.
  intros Hnd H.
  assert (Hpq : p <> q).
  { intros ->. apply find_ci_In in H as [Hin Hp].
    apply (remove_ci_gone q l Hnd). rewrite <- Hp at 1. apply in_map.
    exact Hin. }
  split; [exact Hpq|]. rewrite find_ci_remove_other in H; assumption.
Qed.

Section Entries.

Variable W : World.
Variable p : ptr.
Variable Q : mg_rpc_channel_info_internal -> Prop.

Local Abbreviation ent := (entry_sat p Q).

Lemma ent_same c c' :
  (heap_next c <= heap_next c')%nat -> channels c' = channels c ->
  ent c -> ent c'.
Proof.
  intros Hh Hc [Hp He]. split; [lia|]. rewrite Hc. exact He.
Qed.

Lemma ent_modify f :
  (forall c, (heap_next c <= heap_next (f c))%nat) ->
  (forall c, channels (f c) = channels c) ->
  preserves ent (modify f).
Proof.
  intros Hh Hc. apply preserves_modify. intros c.
  apply ent_same; [apply Hh | apply Hc].
Qed.

Lemma ent_emit e : preserves ent (emit e).
Proof. apply ent_modify; intros c; simpl; [lia | reflexivity]. Qed.

Lemma ent_alloc : preserves ent alloc.
Proof.
  intros c a c' H E. inversion E; subst.
  eapply ent_same; [| |exact H]; simpl; [lia | reflexivity].
Qed.

Lemma ent_remove_queue_entry qe : preserves ent (mg_rpc_remove_queue_entry qe).
Proof.
  intros c a c' H E. unfold mg_rpc_remove_queue_entry in E.
  destruct (unlink_qe qe (queue c)); [|discriminate]. inversion E; subst.
  eapply ent_same; [| |exact H]; simpl; [lia | reflexivity].
Qed.

(** Writing to an entry: to another one, or what keeps [Q]. *)
Lemma ent_store_ci_at q f c a c' :
  (forall e, ci_ptr (f e) = ci_ptr e) ->
  (forall e, q = p -> find_ci p (channels c) = Some e -> Q e -> Q (f e)) ->
  ent c -> store_ci q f c = Some (a, c') -> ent c'.
Proof.
  intros Hf HQ [Hp (e & He & Hq)] E. unfold store_ci in E.
  apply bind_Some in E as (e0 & c0 & E0 & E).
  unfold deref_ci in E0. destruct (find_ci q (channels c)); [|discriminate].
  inversion E0; subst. inversion E; subst. clear E0 E.
  split; [exact Hp|]. simpl.
  rewrite find_ci_update_any by exact Hf. rewrite He.
  destruct (Nat.eqb q p) eqn:Eq; simpl.
  - apply Nat.eqb_eq in Eq. exists (f e). split; [reflexivity|].
    apply HQ; assumption.
  - exists e. auto.
Qed.

Lemma ent_store_ci q f :
  (forall e, ci_ptr (f e) = ci_ptr e) ->
  (q = p -> forall e, Q e -> Q (f e)) ->
  preserves ent (store_ci q f).
Proof.
  intros Hf HQ c a c'. apply ent_store_ci_at; [exact Hf|].
  intros e Hqp _. apply HQ. exact Hqp.
Qed.

(** Unlinking another entry. *)
Lemma ent_remove_ci q :
  q <> p ->
  preserves ent (modify (fun c => set_channels (remove_ci q (channels c)) c)).
Proof.
  intros Hqp. apply preserves_modify. intros c [Hp (e & He & Hq)].
  split; [exact Hp|]. simpl. exists e. split; [|exact Hq].
  rewrite find_ci_remove_other by (intros H; apply Hqp; symmetry; exact H).
  exact He.
Qed.

(** A new entry gets a fresh address. *)
Lemma ent_add_channel_internal dst ch' :
  preserves ent (mg_rpc_add_channel_internal dst ch').
Proof.
  intros c a c' [Hp (e & He & Hq)] E.
  unfold mg_rpc_add_channel_internal, bind, alloc, modify, ret in E.
  inversion E; subst. clear E. split; simpl; [lia|].
  destruct (Nat.eqb (heap_next c) p) eqn:Eq.
  - apply Nat.eqb_eq in Eq. lia.
  - exists e. auto.
Qed.

(** A frame that the transport accepts makes the entry busy. *)
Hypothesis Q_busy : forall e, Q e -> Q (set_is_busy true e).

Ltac ent_step :=
  first
    [ apply preserves_ret
    | apply preserves_get
    | apply preserves_undefined
    | apply preserves_deref_ci
    | apply ent_emit
    | apply ent_alloc
    | apply ent_remove_queue_entry
    | apply ent_add_channel_internal
    | apply ent_store_ci; [intros ?; reflexivity | intros _; exact Q_busy]
    | apply ent_modify; [intros ?; simpl; lia | intros ?; reflexivity]
    | apply preserves_bind; [|intros ?]
    | apply preserves_foreach; intros ?
    | match goal with
      | |- preserves _ (match ?x with _ => _ end) => destruct x
      end ].

Ltac ent_all := cbv zeta; repeat (ent_step; cbv beta zeta).

Lemma ent_by_dst dst :
  preserves ent (mg_rpc_get_channel_info_internal_by_dst W dst).
Proof. unfold mg_rpc_get_channel_info_internal_by_dst. ent_all. Qed.

Lemma ent_send_frame ci f : preserves ent (mg_rpc_send_frame W ci f).
Proof. unfold mg_rpc_send_frame. ent_all. Qed.

Lemma ent_enqueue_frame ci dst f : preserves ent (mg_rpc_enqueue_frame ci dst f).
Proof. unfold mg_rpc_enqueue_frame. ent_all. Qed.

Lemma ent_dispatch_frame src dst id tag key ci enqueue prefix payload :
  preserves ent
    (mg_rpc_dispatch_frame W src dst id tag key ci enqueue prefix payload).
Proof.
  unfold mg_rpc_dispatch_frame.
  apply preserves_bind.
  { destruct ci; [apply preserves_ret | apply ent_by_dst]. }
  intros r. apply preserves_bind; [apply preserves_get|]. intros c0.
  apply preserves_bind; [apply ent_send_frame|]. intros sent.
  destruct sent; [apply preserves_ret|].
  destruct enqueue; [|apply preserves_ret].
  apply preserves_bind; [apply ent_enqueue_frame|].
  intros q. destruct q; apply preserves_ret.
Qed.

Lemma ent_send_responsef ri result_json :
  preserves ent (mg_rpc_send_responsef W ri result_json).
Proof.
  unfold mg_rpc_send_responsef, mg_rpc_get_channel_info_internal.
  apply preserves_bind; [ent_all|]. intros ci. apply ent_dispatch_frame.
Qed.

Lemma ent_send_errorf ri code is_json msg :
  preserves ent (send_errorf W ri code is_json msg).
Proof.
  unfold send_errorf, mg_rpc_get_channel_info_internal.
  apply preserves_bind; [ent_all|]. intros ci. apply ent_dispatch_frame.
Qed.

Lemma ent_process_queue : preserves ent (mg_rpc_process_queue W).
Proof.
  unfold mg_rpc_process_queue.
  apply preserves_bind; [apply preserves_get|]. intros c0.
  apply preserves_foreach. intros qe. unfold process_queue_entry.
  apply preserves_bind.
  { destruct (qe_ci qe); [apply preserves_ret|].
    apply preserves_bind; [apply ent_by_dst | intros r; apply preserves_ret]. }
  intros ci. apply preserves_bind; [apply ent_send_frame|].
  intros ok. destruct ok; [apply ent_remove_queue_entry | apply preserves_ret].
Qed.

Lemma ent_call_observers ev dst : preserves ent (mg_rpc_call_observers ev dst).
Proof. unfold mg_rpc_call_observers. ent_all. Qed.

Lemma ent_handle_request ci frame :
  preserves ent (mg_rpc_handle_request W ci frame).
Proof.
  unfold mg_rpc_handle_request, mg_rpc_send_errorf.
  apply preserves_bind; [apply preserves_deref_ci|]. intros e.
  apply preserves_bind; [apply preserves_get|]. intros c0. cbv zeta.
  destruct (find _ (handlers c0)).
  - ent_all.
  - apply preserves_bind; [apply ent_emit|]. intros _.
    apply preserves_bind; [apply ent_send_errorf|]. intros _.
    apply preserves_ret.
Qed.

Lemma ent_handle_response ci id result code msg :
  preserves ent (mg_rpc_handle_response W ci id result code msg).
Proof. unfold mg_rpc_handle_response. ent_all. Qed.

Lemma ent_vcallf_broadcast l src dst id tag key pprefix args : forall result,
  preserves ent (vcallf_broadcast W l src dst id tag key pprefix args result).
Proof.
  induction l as [|ci l IH]; intros result; simpl.
  - apply preserves_ret.
  - apply preserves_bind; [apply preserves_get|]. intros c0.
    destruct (_ || _); [apply IH|].
    apply preserves_bind; [apply ent_dispatch_frame|].
    intros r. apply IH.
Qed.

Lemma ent_vcallf method cb cb_arg opts args :
  preserves ent (mg_rpc_vcallf W method cb cb_arg opts args).
Proof.
  unfold mg_rpc_vcallf, mg_rpc_get_id.
  apply preserves_bind; [ent_all|]. intros id. cbv zeta.
  destruct opts as [o|]; [|apply preserves_undefined].
  apply preserves_bind; [apply preserves_get|]. intros c0.
  apply preserves_bind.
  { destruct (negb (opts_broadcast o));
      [apply ent_dispatch_frame | apply ent_vcallf_broadcast]. }
  intros result. ent_all.
Qed.

(** Binding a destination to an entry that has none. *)
Hypothesis Q_dst :
  forall e s, str_empty (ci_dst e) = true -> Q e -> Q (set_ci_dst s e).

Lemma ent_bind_dst q s c a c' e :
  find_ci q (channels c) = Some e -> str_empty (ci_dst e) = true ->
  ent c -> store_ci q (set_ci_dst s) c = Some (a, c') -> ent c'.
Proof.
  intros He Hempty. apply ent_store_ci_at; [reflexivity|].
  intros e1 -> He1 H1. apply Q_dst; [|exact H1].
  rewrite He in He1. inversion He1; subst e1. exact Hempty.
Qed.

Lemma ent_handle_frame ci frame :
  preserves ent (mg_rpc_handle_frame W ci frame).
Proof.
  intros c a c' H E. unfold mg_rpc_handle_frame in E.
  apply bind_Some in E as (e & c0 & E0 & E).
  unfold deref_ci in E0.
  destruct (find_ci ci (channels c)) as [e0|] eqn:He; [|discriminate].
  inversion E0; subst e0 c0. clear E0.
  unfold bind at 1 in E. unfold get at 1 in E.
  destruct (negb (is_open e)).
  { revert E.
    apply preserves_bind;
      [apply ent_emit | intros; apply preserves_ret | exact H]. }
  destruct (_ && _).
  { revert E.
    apply preserves_bind;
      [apply ent_emit | intros; apply preserves_ret | exact H]. }
  apply bind_Some in E as (u & c1 & E1 & E).
  assert (H1 : ent c1).
  { destruct (str_empty (ci_dst e)) eqn:Hempty.
    - exact (ent_bind_dst ci _ c u c1 e He Hempty H E1).
    - inversion E1; subst. exact H. }
  revert E. destruct (0 <? String.length (frame_method frame))%nat.
  - apply preserves_bind; [apply ent_handle_request | | exact H1].
    intros ok. destruct (negb ok); apply preserves_ret.
  - apply preserves_bind; [apply ent_handle_response | | exact H1].
    intros ok. destruct (negb ok); apply preserves_ret.
Qed.

(** An event of a channel: the writes to the flags of its entry, when it is
    the entry at [p], are to keep [Q]. *)
Lemma ent_ev_handler ch' ev c a c' :
  (forall e0, find (fun ci => Nat.eqb (ci_ch ci) ch') (channels c) = Some e0 ->
              ci_ptr e0 = p -> flags_kept Q ev) ->
  ent c -> mg_rpc_ev_handler W ch' ev c = Some (a, c') -> ent c'.
Proof.
  intros Hq H E. unfold mg_rpc_ev_handler in E.
  unfold bind at 1 in E. unfold get at 1 in E.
  destruct (find (fun ci => Nat.eqb (ci_ch ci) ch') (channels c))
    as [e0|] eqn:F.
  2:{ inversion E; subst. exact H. }
  specialize (Hq e0 eq_refl). cbv zeta in E. revert E.
  destruct ev as [|f|frame|success|].
  - apply preserves_bind;
      [apply ent_store_ci; [reflexivity | intros Hp; apply (Hq Hp)]
      | intros _ | exact H].
    apply preserves_bind;
      [apply ent_store_ci; [reflexivity | intros Hp; apply (Hq Hp)]
      | intros _].
    apply preserves_bind; [apply ent_process_queue|]. intros _.
    apply preserves_bind; [apply preserves_deref_ci|]. intros e'.
    destruct (0 <? _)%nat; [apply ent_call_observers | apply preserves_ret].
  - apply preserves_bind; [| intros ok; ent_all | exact H].
    destruct (mg_rpc_parse_frame W f);
      [apply ent_handle_frame | apply preserves_ret].
  - apply preserves_bind; [apply ent_handle_frame | intros ok; ent_all
                          | exact H].
  - apply preserves_bind;
      [apply ent_store_ci; [reflexivity | intros Hp; apply (Hq Hp)]
      | intros _; apply ent_process_queue | exact H].
  - assert (Hne : ci_ptr e0 <> p) by (intros Hp; exact (Hq Hp)).
    apply preserves_bind;
      [apply ent_store_ci; [reflexivity | intros Hp; contradiction]
      | intros _ | exact H].
    apply preserves_bind;
      [apply ent_store_ci; [reflexivity | intros Hp; contradiction]
      | intros _].
    apply preserves_bind; [apply preserves_deref_ci|]. intros e'.
    apply preserves_bind.
    { destruct (0 <? _)%nat; [apply ent_call_observers | apply preserves_ret]. }
    intros _. destruct (negb _); [|apply preserves_ret].
    apply preserves_bind; [apply preserves_get|]. intros c1.
    apply preserves_bind.
    { apply preserves_foreach. intros qe. destruct (qe_ci qe) as [q|];
        [|apply preserves_ret].
      destruct (Nat.eqb q (ci_ptr e0));
        [apply ent_remove_queue_entry | apply preserves_ret]. }
    intros _. apply preserves_bind; [apply ent_remove_ci; exact Hne|].
    intros _. apply ent_emit.
Qed.

Lemma ent_run_op o c c' :
  (forall ch' ev e0,
     o = Op_ev_handler ch' ev ->
     find (fun ci => Nat.eqb (ci_ch ci) ch') (channels c) = Some e0 ->
     ci_ptr e0 = p -> flags_kept Q ev) ->
  ent c -> run_op W o c = Some (tt, c') -> ent c'.
Proof.
  intros Hq. destruct o; simpl.
  15:{ apply ent_ev_handler. intros e0. apply Hq. reflexivity. }
  all: clear Hq.
  all: match goal with
       | |- _ ?x -> ?m ?x = Some (tt, ?y) -> _ =>
           cut (preserves ent m); [intros P; exact (P x tt y) |]
       end.
  - unfold mg_rpc_add_local_id. ent_all.
  - unfold mg_rpc_add_handler. ent_all.
  - unfold mg_rpc_set_prehandler. ent_all.
  - unfold mg_rpc_add_observer. ent_all.
  - unfold mg_rpc_remove_observer. ent_all.
  - unfold mg_rpc_add_channel. ent_all.
  - unfold mg_rpc_connect. ent_all.
  - unfold mg_rpc_disconnect. ent_all.
  - unfold mg_rpc_is_connected.
    apply preserves_bind; [|intros; apply preserves_ret].
    apply preserves_bind; [apply ent_by_dst|]. intros r. ent_all.
  - unfold mg_rpc_can_send.
    apply preserves_bind; [|intros; apply preserves_ret].
    apply preserves_bind; [apply ent_by_dst|]. intros r. ent_all.
  - apply preserves_bind; [apply ent_vcallf | intros; apply preserves_ret].
  - apply preserves_bind; [apply ent_send_responsef | intros; apply preserves_ret].
  - apply preserves_bind; [apply ent_send_errorf | intros; apply preserves_ret].
  - apply preserves_bind; [apply ent_send_errorf | intros; apply preserves_ret].
Qed.

End Entries.

(** Every operation but the CLOSED event keeps the channel of an entry and,
    when [Pd] allows the binding of a source, its destination. *)
Lemma entry_with_run_op W p Pd ch o :
  (Pd EmptyString -> forall s, Pd s) ->
  (forall ch', o <> Op_ev_handler ch' MG_RPC_CHANNEL_CLOSED) ->
  preserves (entry_with p Pd ch) (run_op W o).
Proof.
  intros Hbind Hclosed c [] c' H E. revert H E. unfold entry_with.
  apply ent_run_op.
  - intros e [H1 H2]. auto.
  - intros e s Hempty [H1 H2]. simpl. split; [|exact H2].
    apply Hbind. destruct (ci_dst e); [exact H1 | discriminate Hempty].
  - intros ch' ev e0 -> _ _. destruct ev; simpl; auto.
    exfalso. eapply Hclosed. reflexivity.
Qed.

Lemma closed_or_not o :
  (exists ch, o = Op_ev_handler ch MG_RPC_CHANNEL_CLOSED) \/
  (forall ch, o <> Op_ev_handler ch MG_RPC_CHANNEL_CLOSED).
Proof.
  destruct o; try (right; intros; discriminate).
  destruct ev; try (right; intros; discriminate).
  left. eexists. reflexivity.
Qed.

(** X6. At every observable moment and for every operation: the channel of a
    registered entry does not change, a destination that the entry has is
    not replaced, and the entry is unlinked by nothing but the CLOSED event
    of its channel. *)
Theorem channel_entry_is_stable W cfg0 c o c' p e :
  reachable W cfg0 c -> run_op W o c = Some (tt, c') ->
  find_ci p (channels c) = Some e ->
  (forall e', find_ci p (channels c') = Some e' ->
     ci_ch e' = ci_ch e /\
     (ci_dst e <> EmptyString -> ci_dst e' = ci_dst e)) /\
  (find_ci p (channels c') = None ->
   o = Op_ev_handler (ci_ch e) MG_RPC_CHANNEL_CLOSED).
Proof.
  intros Hr E He. pose proof (reachable_wf W cfg0 c Hr) as Hwf.
  pose proof (find_ci_In _ _ _ He) as [Hin Hptr].
  assert (Hp : (p < heap_next c)%nat).
  { apply (wf_chan_heap Hwf). rewrite <- Hptr. apply in_map. exact Hin. }
  destruct (closed_or_not o) as [[ch ->] | Hnot].
  - simpl in E.
    destruct (find (fun ci => Nat.eqb (ci_ch ci) ch) (channels c))
      as [e0|] eqn:F.
    2:{ unfold mg_rpc_ev_handler, bind, get in E. rewrite F in E.
        inversion E; subst. rewrite He. split; [|discriminate].
        intros e' H. inversion H; subst. auto. }
    pose proof (find_some _ _ F) as [Hin0 Hch0]. apply Nat.eqb_eq in Hch0.
    pose proof (find_ci_of_In _ _ (wf_chan_nodup Hwf) Hin0) as He0.
    destruct (closed_event_effect W cfg0 c ch e0 Hwf F)
      as (c'' & E' & _ & Hpers & Hrem).
    rewrite E in E'. inversion E'; subst c''. clear E'.
    destruct (is_persistent W (trace c) ch).
    + destruct (Hpers eq_refl) as (Hch & _). rewrite Hch.
      rewrite find_ci_update_any by reflexivity. rewrite He.
      destruct (Nat.eqb (ci_ptr e0) p); simpl; (split; [|discriminate]);
        intros e' H; inversion H; subst; simpl; auto.
    + destruct (Hrem eq_refl) as (Hch & _). rewrite Hch. split.
      * intros e' H.
        apply (find_ci_remove _ _ _ _ (wf_chan_nodup Hwf)) in H as [_ H].
        rewrite He in H. inversion H; subst. auto.
      * intros H. destruct (Nat.eq_dec p (ci_ptr e0)) as [Hpq | Hpq].
        -- rewrite Hpq, He0 in He. inversion He; subst e0. rewrite Hch0.
           reflexivity.
        -- rewrite find_ci_remove_other in H by exact Hpq. congruence.
  - assert (Hch : entry_with p (fun _ => True) (ci_ch e) c').
    { apply (entry_with_run_op W p (fun _ => True) (ci_ch e) o
               (fun _ _ => I) Hnot c tt c'); [|exact E].
      split; [exact Hp|]. exists e. auto. }
    destruct Hch as [_ (e1 & He1 & _ & Hch1)]. split; [|congruence].
    intros e' H. rewrite He1 in H. inversion H; subst e1. clear H.
    split; [exact Hch1|]. intros Hd.
    assert (Hdst : entry_with p (fun s => s = ci_dst e) (ci_ch e) c').
    { apply (entry_with_run_op W p (fun s => s = ci_dst e) (ci_ch e))
        with (o := o) (c := c) (a := tt); [|exact Hnot| |exact E].
      - intros H. symmetry in H. contradiction.
      - split; [exact Hp|]. exists e. auto. }
    destruct Hdst as [_ (e2 & He2 & Hd2 & _)]. congruence.
Qed.

Lemma channel_entry_is_stable_witness :
  ci_ch busy_entry = 7%nat /\ ci_dst busy_entry = "*"%string.
Proof.
  assert (Hr : reachable test_world test_cfg open_channel_state)
    by (eapply reachable_state_after; vm_compute; reflexivity).
  assert (E : run_op test_world
                (Op_callf "Foo" (Some 100%nat) 0%nat (Some default_opts) None)
                open_channel_state = Some (tt, busy_channel_state))
    by (vm_compute; reflexivity).
  assert (He : find_ci 1%nat (channels open_channel_state) = Some open_entry)
    by (vm_compute; reflexivity).
  destruct (channel_entry_is_stable test_world test_cfg open_channel_state _
              busy_channel_state 1%nat open_entry Hr E He) as [H _].
  destruct (H busy_entry) as [H1 H2]; [vm_compute; reflexivity|].
  split; [exact H1|]. apply H2. discriminate.
Defined.

(** X7. A frame that passes the two checks of [mg_rpc_handle_frame] on an
    entry without a destination binds the source of the frame to the
    entry, before the frame is dispatched and whatever its handling
    reports; in every other case the destination of the entry is as it
    was.  The entry stays registered for its channel. *)
Theorem first_frame_binds_destination W cfg0 c ci e frame ok c' :
  reachable W cfg0 c ->
  find_ci ci (channels c) = Some e ->
  mg_rpc_handle_frame W ci frame c = Some (ok, c') ->
  exists e',
    find_ci ci (channels c') = Some e' /\ ci_ch e' = ci_ch e /\
    ci_dst e' =
    if frame_admitted c e frame && str_empty (ci_dst e)
    then frame_src frame else ci_dst e.
Proof.
  intros Hr He E. pose proof (reachable_wf W cfg0 c Hr) as Hwf.
  pose proof (find_ci_In _ _ _ He) as [Hin Hptr].
  assert (Hp : (ci < heap_next c)%nat).
  { apply (wf_chan_heap Hwf). rewrite <- Hptr. apply in_map. exact Hin. }
  unfold frame_admitted. unfold mg_rpc_handle_frame in E.
  unfold bind at 1 in E. unfold deref_ci at 1 in E. rewrite He in E.
  unfold bind at 1 in E. unfold get at 1 in E.
  destruct (is_open e); simpl in E |- *.
  2:{ inversion E; subst. simpl. exists e. auto. }
  replace (negb (str_empty (frame_dst frame)) &&
           negb (is_local_id c (frame_dst frame)))
    with (negb (str_empty (frame_dst frame) ||
                is_local_id c (frame_dst frame))) in E
    by apply negb_orb.
  destruct (str_empty (frame_dst frame) || is_local_id c (frame_dst frame));
    simpl in E |- *.
  2:{ inversion E; subst. simpl. exists e. auto. }
  apply bind_Some in E as (u & c1 & E1 & E).
  set (d := if str_empty (ci_dst e) then frame_src frame else ci_dst e).
  assert (H1 : entry_with ci (fun s => s = d) (ci_ch e) c1).
  { subst d. destruct (str_empty (ci_dst e)) eqn:Hempty.
    - rewrite (store_ci_eq ci _ c e He) in E1. inversion E1; subst c1.
      split; [exact Hp|]. simpl.
      rewrite find_ci_update_any by reflexivity. rewrite He.
      rewrite Nat.eqb_refl. simpl. eexists. split; [reflexivity|].
      simpl. auto.
    - inversion E1; subst c1. split; [exact Hp|]. exists e. auto. }
  assert (H2 : entry_with ci (fun s => s = d) (ci_ch e) c').
  { revert E. destruct (0 <? String.length (frame_method frame))%nat.
    - apply preserves_bind;
        [apply ent_handle_request; intros x Hx; exact Hx | | exact H1].
      intros r. destruct (negb r); apply preserves_ret.
    - apply preserves_bind;
        [apply ent_handle_response; intros x Hx; exact Hx | | exact H1].
      intros r. destruct (negb r); apply preserves_ret. }
  destruct H2 as [_ (e' & He' & Hd' & Hc')]. exists e'. auto.
Qed.

Lemma first_frame_binds_destination_witness :
  exists ok c' e',
    mg_rpc_handle_frame test_world 1%nat add_frame unbound_channel_state =
    Some (ok, c') /\
    find_ci 1%nat (channels c') = Some e' /\ ci_dst e' = "peer"%string.
Proof.
  assert (Hr : reachable test_world test_cfg unbound_channel_state)
    by (eapply reachable_state_after; vm_compute; reflexivity).
  destruct (mg_rpc_handle_frame test_world 1%nat add_frame
              unbound_channel_state) as [[ok c']|] eqn:E;
    [|vm_compute in E; discriminate E].
  destruct (first_frame_binds_destination test_world test_cfg
              unbound_channel_state 1%nat
              {| ci_ptr := 1%nat; ci_dst := MG_NULL_STR; ci_ch := 7%nat;
                 is_open := true; is_busy := false |}
              add_frame ok c' Hr eq_refl E) as (e' & He' & _ & Hd).
  exists ok, c', e'. split; [reflexivity|]. split; [exact He' | exact Hd].
Defined.

(** ** The flags of a channel entry *)

(** X8. At every observable moment: an operation that is not the OPEN, the
    FRAME_SENT or the CLOSED event of the channel of a registered entry
    leaves its [is_open] as it was and does not clear its [is_busy].  Of
    the events of the channel that its entry handles, OPEN sets [is_open],
    FRAME_SENT leaves it, and after CLOSED an entry that is still
    registered is neither open nor busy. *)
Theorem channel_flags_follow_events W cfg0 c o c' p e e' :
  reachable W cfg0 c -> run_op W o c = Some (tt, c') ->
  find_ci p (channels c) = Some e -> find_ci p (channels c') = Some e' ->
  ((forall ev, is_flag_event ev -> o <> Op_ev_handler (ci_ch e) ev) ->
   is_open e' = is_open e /\ (is_busy e = true -> is_busy e' = true)) /\
  (find (fun ci => Nat.eqb (ci_ch ci) (ci_ch e)) (channels c) = Some e ->
   (o = Op_ev_handler (ci_ch e) MG_RPC_CHANNEL_OPEN -> is_open e' = true) /\
   (forall s, o = Op_ev_handler (ci_ch e) (MG_RPC_CHANNEL_FRAME_SENT s) ->
              is_open e' = is_open e) /\
   (o = Op_ev_handler (ci_ch e) MG_RPC_CHANNEL_CLOSED ->
    is_open e' = false /\ is_busy e' = false)).
Proof.
  intros Hr E He He'. pose proof (reachable_wf W cfg0 c Hr) as Hwf.
  pose proof (find_ci_In _ _ _ He) as [Hin Hptr].
  assert (Hp : (p < heap_next c)%nat).
  { apply (wf_chan_heap Hwf). rewrite <- Hptr. apply in_map. exact Hin. }
  assert (Hsat : forall Q : mg_rpc_channel_info_internal -> Prop,
             Q e -> entry_sat p Q c).
  { intros Q HQ. split; [exact Hp|]. exists e. auto. }
  assert (Hget : forall Q, entry_sat p Q c' -> Q e').
  { intros Q [_ (x & Hx & HQ)]. rewrite He' in Hx. inversion Hx; subst x.
    exact HQ. }
  split.
  - intros Hnot.
    apply (Hget (fun x => is_open x = is_open e /\
                          (is_busy e = true -> is_busy x = true))).
    revert E. apply ent_run_op; [| | |apply Hsat; auto].
    + intros x [H1 H2]. simpl. auto.
    + intros x s _ [H1 H2]. simpl. auto.
    + intros ch' ev e0 -> F Hq.
      pose proof (find_some _ _ F) as [Hin0 Hch0]. apply Nat.eqb_eq in Hch0.
      pose proof (find_ci_of_In _ _ (wf_chan_nodup Hwf) Hin0) as He0.
      rewrite Hq, He in He0. inversion He0; subst e0.
      destruct ev; simpl; auto; exfalso.
      all: eapply Hnot; [|rewrite Hch0; reflexivity]; exact I.
  - intros F. split; [|split].
    + intros ->. simpl in E. unfold mg_rpc_ev_handler in E.
      unfold bind at 1 in E. unfold get at 1 in E. rewrite F in E.
      cbv zeta in E. rewrite Hptr in E.
      apply bind_Some in E as (u1 & c1 & E1 & E).
      apply bind_Some in E as (u2 & c2 & E2 & E).
      pose proof (store_ci_seq p (set_is_open true) (set_is_busy false)
                    c u1 c1 u2 c2 (fun _ => eq_refl) E1 E2) as E12.
      rewrite (store_ci_eq _ _ c e He) in E12. inversion E12; subst c2.
      clear E1 E2 E12.
      apply (Hget (fun x => is_open x = true)). revert E.
      apply preserves_bind;
        [apply ent_process_queue; intros x Hx; exact Hx | intros _ |].
      * apply preserves_bind; [apply preserves_deref_ci|]. intros e3.
        destruct (0 <? _)%nat; [|apply preserves_ret].
        apply ent_call_observers; intros x Hx; exact Hx.
      * split; [exact Hp|]. simpl.
        rewrite find_ci_update_any by reflexivity.
        rewrite He, Nat.eqb_refl. simpl. eexists. split; reflexivity.
    + intros s ->. simpl in E.
      apply (Hget (fun x => is_open x = is_open e)). revert E.
      apply ent_ev_handler; [| | |apply Hsat; reflexivity].
      * intros x Hx. exact Hx.
      * intros x d _ Hx. exact Hx.
      * intros e0 _ _ x Hx. exact Hx.
    + intros ->. simpl in E.
      destruct (closed_event_effect W cfg0 c (ci_ch e) e Hwf F)
        as (c'' & E' & _ & Hpers & Hrem).
      rewrite E in E'. inversion E'; subst c''. clear E'.
      rewrite Hptr in Hpers, Hrem.
      destruct (is_persistent W (trace c) (ci_ch e)).
      * destruct (Hpers eq_refl) as (_ & H & _). rewrite He' in H.
        inversion H; subst e'. split; reflexivity.
      * destruct (Hrem eq_refl) as (Hch & _). rewrite Hch in He'.
        apply (find_ci_remove _ _ _ _ (wf_chan_nodup Hwf)) in He' as [H _].
        contradiction.
Qed.

Lemma channel_flags_follow_events_witness :
  is_open busy_entry = is_open open_entry.
Proof.
  assert (Hr : reachable test_world test_cfg open_channel_state)
    by (eapply reachable_state_after; vm_compute; reflexivity).
  assert (E : run_op test_world
                (Op_callf "Foo" (Some 100%nat) 0%nat (Some default_opts) None)
                open_channel_state = Some (tt, busy_channel_state))
    by (vm_compute; reflexivity).
  assert (He : find_ci 1%nat (channels open_channel_state) = Some open_entry)
    by (vm_compute; reflexivity).
  assert (He' : find_ci 1%nat (channels busy_channel_state) = Some busy_entry)
    by (vm_compute; reflexivity).
  destruct (channel_flags_follow_events test_world test_cfg open_channel_state
              _ busy_channel_state 1%nat open_entry busy_entry Hr E He He')
    as [H _].
  destruct H as [H1 _]; [intros ev _; discriminate | exact H1].
Defined.

(** ** What the transports and the queue leave alone *)

Section Application_state.

Variable W : World.

Lemma by_dst_application dst :
  unchanged application_state (mg_rpc_get_channel_info_internal_by_dst W dst).
Proof.
  unfold mg_rpc_get_channel_info_internal_by_dst, mg_rpc_add_channel_internal,
    emit.
  frame.
Qed.

Lemma send_frame_application ci f :
  unchanged application_state (mg_rpc_send_frame W ci f).
Proof. unfold mg_rpc_send_frame, store_ci, emit. frame. Qed.

Lemma enqueue_frame_application ci dst f :
  unchanged application_state (mg_rpc_enqueue_frame ci dst f).
Proof. unfold mg_rpc_enqueue_frame. frame. Qed.

Lemma dispatch_frame_application src dst id tag key ci enqueue prefix payload :
  unchanged application_state
    (mg_rpc_dispatch_frame W src dst id tag key ci enqueue prefix payload).
Proof.
  unfold mg_rpc_dispatch_frame.
  apply unchanged_bind.
  { destruct ci; [apply unchanged_ret | apply by_dst_application]. }
  intros r. apply unchanged_bind; [apply unchanged_get|]. intros c0.
  apply unchanged_bind; [apply send_frame_application|]. intros sent.
  destruct sent; [apply unchanged_ret|].
  destruct enqueue; [|apply unchanged_ret].
  apply unchanged_bind; [apply enqueue_frame_application|].
  intros q. destruct q; apply unchanged_ret.
Qed.

Lemma send_responsef_application ri result_json :
  unchanged application_state (mg_rpc_send_responsef W ri result_json).
Proof.
  unfold mg_rpc_send_responsef, mg_rpc_get_channel_info_internal.
  apply unchanged_bind; [frame|]. intros ci. apply dispatch_frame_application.
Qed.

Lemma send_errorf_application ri code is_json msg :
  unchanged application_state (send_errorf W ri code is_json msg).
Proof.
  unfold send_errorf, mg_rpc_get_channel_info_internal.
  apply unchanged_bind; [frame|]. intros ci. apply dispatch_frame_application.
Qed.

Lemma process_queue_application :
  unchanged application_state (mg_rpc_process_queue W).
Proof.
  unfold mg_rpc_process_queue.
  apply unchanged_bind; [apply unchanged_get|]. intros c0.
  apply unchanged_foreach. intros qe. unfold process_queue_entry.
  apply unchanged_bind.
  { destruct (qe_ci qe); [apply unchanged_ret|].
    apply unchanged_bind; [apply by_dst_application|].
    intros r. apply unchanged_ret. }
  intros ci. apply unchanged_bind; [apply send_frame_application|].
  intros ok. destruct ok; [|apply unchanged_ret].
  apply unchanged_remove_queue_entry. reflexivity.
Qed.

Lemma call_observers_application ev dst :
  unchanged application_state (mg_rpc_call_observers ev dst).
Proof. unfold mg_rpc_call_observers, emit. frame. Qed.

Lemma handle_request_application ci frame :
  unchanged application_state (mg_rpc_handle_request W ci frame).
Proof.
  unfold mg_rpc_handle_request, mg_rpc_send_errorf.
  apply unchanged_bind; [apply unchanged_deref_ci|]. intros e.
  apply unchanged_bind; [apply unchanged_get|]. intros c0. cbv zeta.
  destruct (find _ (handlers c0)).
  - unfold emit. frame.
  - apply unchanged_bind; [unfold emit; frame|]. intros _.
    apply unchanged_bind; [apply send_errorf_application|]. intros _.
    apply unchanged_ret.
Qed.

Lemma vcallf_broadcast_application l src dst id tag key pprefix args :
  forall result,
  unchanged application_state
    (vcallf_broadcast W l src dst id tag key pprefix args result).
Proof.
  induction l as [|ci l IH]; intros result; simpl.
  - apply unchanged_ret.
  - apply unchanged_bind; [apply unchanged_get|]. intros c0.
    destruct (_ || _); [apply IH|].
    apply unchanged_bind; [apply dispatch_frame_application|].
    intros r. apply IH.
Qed.

(** What is left of the event handler after a frame was handled. *)
Lemma close_on_failure_application ch msg (ok : bool) :
  unchanged application_state
    (if negb ok then
       emit (EV_log_error msg) ;;
       c <- get ;;
       if negb (is_persistent W (trace c) ch)
       then emit (EV_ch_close ch) else ret tt
     else ret tt).
Proof. unfold emit. frame. Qed.

(** The registries are not touched by a response either. *)
Lemma handle_response_registries ci id result code msg :
  unchanged registries (mg_rpc_handle_response W ci id result code msg).
Proof. unfold mg_rpc_handle_response, emit. frame. Qed.

Lemma unchanged_fst {A B C} (part : mg_rpc -> B * C) (m : M A) :
  unchanged part m -> unchanged (fun c => fst (part c)) m.
Proof. intros H c a c' E. rewrite (H _ _ _ E). reflexivity. Qed.

Lemma unchanged_snd {A B C} (part : mg_rpc -> B * C) (m : M A) :
  unchanged part m -> unchanged (fun c => snd (part c)) m.
Proof. intros H c a c' E. rewrite (H _ _ _ E). reflexivity. Qed.

Lemma handle_frame_registries ci frame :
  unchanged registries (mg_rpc_handle_frame W ci frame).
Proof.
  unfold mg_rpc_handle_frame.
  apply unchanged_bind; [apply unchanged_deref_ci|]. intros e.
  apply unchanged_bind; [apply unchanged_get|]. intros c0.
  destruct (negb (is_open e)); [unfold emit; frame|].
  destruct (_ && _); [unfold emit; frame|].
  apply unchanged_bind; [unfold store_ci; frame|]. intros _.
  destruct (0 <? _)%nat.
  - apply unchanged_bind.
    + apply (unchanged_fst application_state).
      apply handle_request_application.
    + intros ok. destruct (negb ok); apply unchanged_ret.
  - apply unchanged_bind; [apply handle_response_registries|].
    intros ok. destruct (negb ok); apply unchanged_ret.
Qed.

Lemma vcallf_registries method cb cb_arg opts args :
  unchanged registries (mg_rpc_vcallf W method cb cb_arg opts args).
Proof.
  unfold mg_rpc_vcallf, mg_rpc_get_id.
  apply unchanged_bind; [unfold emit; frame|]. intros id. cbv zeta.
  destruct opts as [o|]; [|apply unchanged_undefined].
  apply unchanged_bind; [apply unchanged_get|]. intros c0.
  apply unchanged_bind.
  { apply (unchanged_fst application_state).
    destruct (negb (opts_broadcast o));
      [apply dispatch_frame_application | apply vcallf_broadcast_application]. }
  intros result. frame.
Qed.

Lemma ev_handler_registries ch ev :
  unchanged registries (mg_rpc_ev_handler W ch ev).
Proof.
  unfold mg_rpc_ev_handler.
  apply unchanged_bind; [apply unchanged_get|]. intros c0.
  destruct (find _ (channels c0)) as [e|]; [|apply unchanged_ret].
  cbv zeta. destruct ev as [|f|frame|success|].
  - apply unchanged_bind; [unfold store_ci; frame|]. intros _.
    apply unchanged_bind; [unfold store_ci; frame|]. intros _.
    apply unchanged_bind.
    { apply (unchanged_fst application_state), process_queue_application. }
    intros _. apply unchanged_bind; [apply unchanged_deref_ci|]. intros e'.
    destruct (0 <? _)%nat; [|apply unchanged_ret].
    apply (unchanged_fst application_state), call_observers_application.
  - apply unchanged_bind.
    { destruct (mg_rpc_parse_frame W f);
        [apply handle_frame_registries | apply unchanged_ret]. }
    intros ok.
    apply (unchanged_fst application_state), close_on_failure_application.
  - apply unchanged_bind; [apply handle_frame_registries|]. intros ok.
    apply (unchanged_fst application_state), close_on_failure_application.
  - apply unchanged_bind; [unfold store_ci; frame|]. intros _.
    apply (unchanged_fst application_state), process_queue_application.
  - apply unchanged_bind; [unfold store_ci; frame|]. intros _.
    apply unchanged_bind; [unfold store_ci; frame|]. intros _.
    apply unchanged_bind; [apply unchanged_deref_ci|]. intros e'.
    apply unchanged_bind.
    { destruct (0 <? _)%nat; [|apply unchanged_ret].
      apply (unchanged_fst application_state), call_observers_application. }
    intros _. destruct (negb _); [|apply unchanged_ret].
    apply unchanged_bind; [apply unchanged_get|]. intros c1.
    apply unchanged_bind.
    { apply unchanged_foreach. intros qe.
      destruct (qe_ci qe) as [q|]; [|apply unchanged_ret].
      destruct (Nat.eqb q (ci_ptr e)); [|apply unchanged_ret].
      apply unchanged_remove_queue_entry. reflexivity. }
    intros _. unfold emit. frame.
Qed.

Lemma by_dst_deref_registries dst (k : mg_rpc_channel_info_internal -> bool) :
  unchanged registries
    (r <- mg_rpc_get_channel_info_internal_by_dst W dst ;;
     match fst r with
     | Some p => e <- deref_ci p ;; ret (k e)
     | None => ret false
     end).
Proof.
  apply unchanged_bind.
  { apply (unchanged_fst application_state), by_dst_application. }
  intros r. frame.
Qed.

(** The operations on the registries apart, no operation touches them. *)
Lemma run_op_registries o c c' :
  run_op W o c = Some (tt, c') ->
  match o with
  | Op_add_local_id _ | Op_add_handler _ _ _ _ | Op_set_prehandler _ _
  | Op_add_observer _ _ | Op_remove_observer _ _ => True
  | _ => registries c' = registries c
  end.
Proof.
  destruct o; simpl; try exact (fun _ => I); intros E.
  - revert E. apply (unchanged_fst application_state).
    unfold mg_rpc_add_channel, mg_rpc_add_channel_internal. frame.
  - revert E. unfold mg_rpc_connect, emit.
    apply (unchanged_fst application_state). frame.
  - revert E. unfold mg_rpc_disconnect, emit.
    apply (unchanged_fst application_state). frame.
  - revert E. apply unchanged_bind; [|intros; apply unchanged_ret].
    apply by_dst_deref_registries.
  - revert E. apply unchanged_bind; [|intros; apply unchanged_ret].
    apply (by_dst_deref_registries _ (fun e => is_open e && negb (is_busy e))).
  - revert E. apply unchanged_bind; [|intros; apply unchanged_ret].
    apply vcallf_registries.
  - revert E. apply unchanged_bind; [|intros; apply unchanged_ret].
    apply (unchanged_fst application_state), send_responsef_application.
  - revert E. apply unchanged_bind; [|intros; apply unchanged_ret].
    apply (unchanged_fst application_state), send_errorf_application.
  - revert E. apply unchanged_bind; [|intros; apply unchanged_ret].
    apply (unchanged_fst application_state), send_errorf_application.
  - revert E. apply ev_handler_registries.
Qed.

End Application_state.

(** X9. Whatever the state: the configuration never changes, and the local
    ids, the handlers, the pre-handler and the observers are changed by
    nothing but the operation that registers or removes them; no call, no
    reply and no channel event touches them. *)
Theorem registries_change_by_their_operations W o c c' :
  run_op W o c = Some (tt, c') ->
  cfg c' = cfg c /\
  ((forall id, o <> Op_add_local_id id) -> local_ids c' = local_ids c) /\
  ((forall method args_fmt cb cb_arg,
      o <> Op_add_handler method args_fmt cb cb_arg) ->
   handlers c' = handlers c) /\
  ((forall cb cb_arg, o <> Op_set_prehandler cb cb_arg) ->
   prehandler c' = prehandler c /\ prehandler_arg c' = prehandler_arg c) /\
  ((forall cb cb_arg, o <> Op_add_observer cb cb_arg) ->
   (forall cb cb_arg, o <> Op_remove_observer cb cb_arg) ->
   observers c' = observers c).
Proof.
  intros E. pose proof (run_op_registries W o c c' E) as R.
  destruct o; simpl in E;
    try (unfold registries in R; inversion R; repeat split; intros;
         congruence).
  1: unfold mg_rpc_add_local_id in E; destruct (str_empty id).
  all: inversion E; subst; repeat split; intros; try reflexivity;
    match goal with H : _ |- _ => exfalso; eapply H; reflexivity end.
Qed.

Lemma registries_change_by_their_operations_witness :
  handlers busy_channel_state = handlers open_channel_state /\
  local_ids busy_channel_state = local_ids open_channel_state.
Proof.
  assert (E : run_op test_world
                (Op_callf "Foo" (Some 100%nat) 0%nat (Some default_opts) None)
                open_channel_state = Some (tt, busy_channel_state))
    by (vm_compute; reflexivity).
  destruct (registries_change_by_their_operations test_world _ _ _ E)
    as (_ & H1 & H2 & _).
  split; [apply H2 | apply H1]; intros; discriminate.
Defined.

(** ** Pending requests *)

Lemma take_request_In id l r rest :
  take_request id l = Some (r, rest) ->
  sri_id r = id /\ forall x, In x l -> x = r \/ In x rest.
Proof.
  revert r rest. induction l as [|y l IH]; simpl; intros r rest H;
    [discriminate|].
  destruct (sri_id y =? id) eqn:Ey.
  - inversion H; subst. apply Z.eqb_eq in Ey. split; [exact Ey|].
    intros x [<- | Hx]; auto.
  - destruct (take_request id l) as [[r' rest']|]; [|discriminate].
    inversion H; subst. destruct (IH r rest' eq_refl) as [Hid Hin].
    split; [exact Hid|]. intros x [<- | Hx].
    + right. left. reflexivity.
    + destruct (Hin x Hx); [left | right; right]; assumption.
Qed.

Section Pending.

Variable W : World.
Variable ri : mg_rpc_sent_request_info.

Lemma handle_response_pending ci id result code msg c ok c' :
  mg_rpc_handle_response W ci id result code msg c = Some (ok, c') ->
  In ri (requests c) ->
  In ri (requests c') \/ (id = sri_id ri /\ id <> 0).
Proof.
  unfold mg_rpc_handle_response. intros E Hin.
  destruct (id =? 0) eqn:G.
  { inversion E; subst. left. exact Hin. }
  apply Z.eqb_neq in G. unfold bind at 1 in E. unfold get at 1 in E.
  destruct (take_request id (requests c)) as [[r rest]|] eqn:T.
  2:{ inversion E; subst. left. exact Hin. }
  destruct (take_request_In _ _ _ _ T) as [Hid Hall].
  assert (Hreq : requests c' = rest).
  { unfold bind, modify, deref_ci, emit, modify, ret in E. simpl in E.
    destruct (find_ci ci (channels c)); [|discriminate].
    inversion E; subst. reflexivity. }
  rewrite Hreq. destruct (Hall ri Hin) as [-> | H]; [right | left]; auto.
Qed.

Lemma handle_frame_pending ci frame c ok c' :
  mg_rpc_handle_frame W ci frame c = Some (ok, c') ->
  In ri (requests c) ->
  In ri (requests c') \/
  (frame_method frame = MG_NULL_STR /\ frame_id frame = sri_id ri /\
   sri_id ri <> 0).
Proof.
  unfold mg_rpc_handle_frame. intros E Hin.
  apply bind_Some in E as (e & c0 & E0 & E).
  pose proof (unchanged_deref_ci requests ci _ _ _ E0) as R0.
  assert (c0 = c).
  { unfold deref_ci in E0. destruct (find_ci ci (channels c)); [|discriminate].
    inversion E0. reflexivity. }
  subst c0. clear E0 R0.
  unfold bind at 1 in E. unfold get at 1 in E.
  destruct (negb (is_open e)).
  { inversion E; subst. left. exact Hin. }
  destruct (_ && _).
  { inversion E; subst. left. exact Hin. }
  apply bind_Some in E as (u & c1 & E1 & E).
  assert (R1 : requests c1 = requests c).
  { revert E1. destruct (str_empty (ci_dst e)); [|apply unchanged_ret].
    unfold store_ci. frame. }
  destruct (0 <? String.length (frame_method frame))%nat eqn:M.
  - apply bind_Some in E as (r & c2 & E2 & E).
    pose proof (unchanged_snd application_state _
                  (handle_request_application W ci frame) _ _ _ E2) as R2.
    simpl in R2. left.
    assert (c' = c2) by (destruct (negb r); inversion E; reflexivity).
    subst c'. rewrite R2, R1. exact Hin.
  - apply bind_Some in E as (r & c2 & E2 & E).
    assert (c' = c2) by (destruct (negb r); inversion E; reflexivity).
    subst c'. rewrite <- R1 in Hin.
    destruct (handle_response_pending _ _ _ _ _ _ _ _ E2 Hin) as [H | [H1 H2]].
    + left. exact H.
    + right. split; [|split; [exact H1 | congruence]].
      destruct (frame_method frame); [reflexivity | discriminate M].
Qed.

Lemma close_on_failure_requests ch msg (ok : bool) c u c' :
  (if negb ok then
     emit (EV_log_error msg) ;;
     c <- get ;;
     if negb (is_persistent W (trace c) ch)
     then emit (EV_ch_close ch) else ret tt
   else ret tt) c = Some (u, c') ->
  requests c' = requests c.
Proof.
  apply (unchanged_snd application_state), close_on_failure_application.
Qed.

End Pending.

(** X10. Whatever the state, a pending request is taken out of the table by
    nothing but a response frame that carries its id, which is not 0: no
    other operation drops it, neither the CLOSED event of the channel the
    call went out on nor a full queue; and a request that was registered
    under the id 0 stays for ever. *)
Theorem pending_requests_wait_for_their_response W o c c' ri :
  run_op W o c = Some (tt, c') -> In ri (requests c) ->
  (In ri (requests c') \/
   exists ch frame,
     (o = Op_ev_handler ch (MG_RPC_CHANNEL_FRAME_RECD_PARSED frame) \/
      exists f, o = Op_ev_handler ch (MG_RPC_CHANNEL_FRAME_RECD f) /\
                mg_rpc_parse_frame W f = Some frame) /\
     frame_method frame = MG_NULL_STR /\ frame_id frame = sri_id ri) /\
  (sri_id ri = 0 -> In ri (requests c')).
Proof.
  intros E Hin.
  assert (Hsame : requests c' = requests c -> In ri (requests c')).
  { intros ->. exact Hin. }
  assert (Hmain :
    In ri (requests c') \/
    exists ch frame,
      (o = Op_ev_handler ch (MG_RPC_CHANNEL_FRAME_RECD_PARSED frame) \/
       exists f, o = Op_ev_handler ch (MG_RPC_CHANNEL_FRAME_RECD f) /\
                 mg_rpc_parse_frame W f = Some frame) /\
      frame_method frame = MG_NULL_STR /\ frame_id frame = sri_id ri /\
      sri_id ri <> 0).
  { destruct o; simpl in E.
    1-5: left; apply Hsame;
      try (unfold mg_rpc_add_local_id in E; destruct (str_empty id));
      inversion E; reflexivity.
    - left. apply Hsame. revert E.
      apply (unchanged_snd application_state).
      unfold mg_rpc_add_channel, mg_rpc_add_channel_internal. frame.
    - left. apply Hsame. revert E. unfold mg_rpc_connect, emit.
      apply (unchanged_snd application_state). frame.
    - left. apply Hsame. revert E. unfold mg_rpc_disconnect, emit.
      apply (unchanged_snd application_state). frame.
    - left. apply Hsame. revert E.
      apply unchanged_bind; [|intros; apply unchanged_ret].
      unfold mg_rpc_is_connected.
      apply unchanged_bind; [apply by_dst_requests|]. intros r. frame.
    - left. apply Hsame. revert E.
      apply unchanged_bind; [|intros; apply unchanged_ret].
      unfold mg_rpc_can_send.
      apply unchanged_bind; [apply by_dst_requests|]. intros r. frame.
    - left. apply bind_Some in E as (r & c1 & E1 & E2).
      inversion E2; subst c1. unfold mg_rpc_callf in E1.
      apply vcallf_requests in E1.
      destruct cb as [f|]; [destruct r|]; [rewrite E1; right; exact Hin | |].
      + apply Hsame. exact E1.
      + apply Hsame. exact (proj2 E1).
    - left. apply Hsame. revert E.
      apply unchanged_bind; [|intros; apply unchanged_ret].
      apply (unchanged_snd application_state), send_responsef_application.
    - left. apply Hsame. revert E.
      apply unchanged_bind; [|intros; apply unchanged_ret].
      apply (unchanged_snd application_state), send_errorf_application.
    - left. apply Hsame. revert E.
      apply unchanged_bind; [|intros; apply unchanged_ret].
      apply (unchanged_snd application_state), send_errorf_application.
    - unfold mg_rpc_ev_handler in E.
      unfold bind at 1 in E. unfold get at 1 in E.
      destruct (find _ (channels c)) as [e|];
        [|inversion E; subst; left; exact Hin].
      cbv zeta in E. destruct ev as [|f|frame|success|].
      + left. apply Hsame. revert E.
        apply unchanged_bind; [unfold store_ci; frame|]. intros _.
        apply unchanged_bind; [unfold store_ci; frame|]. intros _.
        apply unchanged_bind.
        { apply (unchanged_snd application_state), process_queue_application. }
        intros _. apply unchanged_bind; [apply unchanged_deref_ci|].
        intros e'. destruct (0 <? _)%nat; [|apply unchanged_ret].
        apply (unchanged_snd application_state), call_observers_application.
      + apply bind_Some in E as (ok & c1 & E1 & E2).
        apply close_on_failure_requests in E2.
        destruct (mg_rpc_parse_frame W f) as [frame|] eqn:P.
        * destruct (handle_frame_pending W ri _ _ _ _ _ E1 Hin) as [H | H].
          -- left. rewrite E2. exact H.
          -- right. exists ch, frame. split; [|exact H].
             right. exists f. auto.
        * inversion E1; subst. left. rewrite E2. exact Hin.
      + apply bind_Some in E as (ok & c1 & E1 & E2).
        apply close_on_failure_requests in E2.
        destruct (handle_frame_pending W ri _ _ _ _ _ E1 Hin) as [H | H].
        * left. rewrite E2. exact H.
        * right. exists ch, frame. split; [|exact H]. left. reflexivity.
      + left. apply Hsame. revert E.
        apply unchanged_bind; [unfold store_ci; frame|]. intros _.
        apply (unchanged_snd application_state), process_queue_application.
      + left. apply Hsame. revert E.
        apply unchanged_bind; [unfold store_ci; frame|]. intros _.
        apply unchanged_bind; [unfold store_ci; frame|]. intros _.
        apply unchanged_bind; [apply unchanged_deref_ci|]. intros e'.
        apply unchanged_bind.
        { destruct (0 <? _)%nat; [|apply unchanged_ret].
          apply (unchanged_snd application_state),
            call_observers_application. }
        intros _. destruct (negb _); [|apply unchanged_ret].
        apply unchanged_bind; [apply unchanged_get|]. intros c1.
        apply unchanged_bind.
        { apply unchanged_foreach. intros qe.
          destruct (qe_ci qe) as [q|]; [|apply unchanged_ret].
          destruct (Nat.eqb q (ci_ptr e)); [|apply unchanged_ret].
          apply unchanged_remove_queue_entry. reflexivity. }
        intros _. unfold emit. frame. }
  split.
  - destruct Hmain as [H | (ch & frame & H1 & H2 & H3 & _)]; [left; exact H|].
    right. exists ch, frame. auto.
  - intros Hz. destruct Hmain as [H | (ch & frame & _ & _ & _ & H)];
      [exact H | contradiction].
Qed.

Lemma pending_requests_wait_for_their_response_witness :
  In {| sri_id := 1; sri_cb := 100%nat; sri_cb_arg := 0%nat |}
    (requests
       (state_after (busy_channel_ops ++
                     [Op_ev_handler 7%nat MG_RPC_CHANNEL_CLOSED]))).
Proof.
  assert (E : run_op test_world (Op_ev_handler 7%nat MG_RPC_CHANNEL_CLOSED)
                busy_channel_state =
              Some (tt, state_after (busy_channel_ops ++
                          [Op_ev_handler 7%nat MG_RPC_CHANNEL_CLOSED])))
    by (vm_compute; reflexivity).
  destruct (pending_requests_wait_for_their_response test_world _ _ _
              {| sri_id := 1; sri_cb := 100%nat; sri_cb_arg := 0%nat |} E)
    as [[H | (ch & frame & [H | (f & H & _)] & _)] _].
  - vm_compute. left. reflexivity.
  - exact H.
  - discriminate H.
  - discriminate H.
Defined.

(** ** Frames to a known entry *)

Section Dispatch.

Variable W : World.

Lemma only_events_weaken {A} (P Q : event -> Prop) (m : M A) :
  (forall e, P e -> Q e) -> only_events P m -> only_events Q m.
Proof.
  intros H Hm c a c' E. destruct (Hm _ _ _ E) as (evs & T & F).
  exists evs. split; [exact T|]. eapply Forall_impl; eauto.
Qed.

Lemma by_dst_not_call dst :
  only_events not_call (mg_rpc_get_channel_info_internal_by_dst W dst).
Proof.
  unfold mg_rpc_get_channel_info_internal_by_dst, mg_rpc_add_channel_internal.
  events; apply only_events_emit; intros [].
Qed.

Lemma send_frame_not_call ci f : only_events not_call (mg_rpc_send_frame W ci f).
Proof. unfold mg_rpc_send_frame. events; apply only_events_emit; intros []. Qed.

Lemma enqueue_frame_not_call ci dst f :
  only_events not_call (mg_rpc_enqueue_frame ci dst f).
Proof. unfold mg_rpc_enqueue_frame. events. Qed.

Lemma dispatch_frame_not_call src dst id tag key ci enqueue prefix payload :
  only_events not_call
    (mg_rpc_dispatch_frame W src dst id tag key ci enqueue prefix payload).
Proof.
  unfold mg_rpc_dispatch_frame.
  apply only_events_bind.
  { destruct ci; [apply only_events_ret | apply by_dst_not_call]. }
  intros r. apply only_events_bind; [apply only_events_get|]. intros c0.
  apply only_events_bind; [apply send_frame_not_call|]. intros sent.
  destruct sent; [apply only_events_ret|].
  destruct enqueue; [|apply only_events_ret].
  apply only_events_bind; [apply enqueue_frame_not_call|].
  intros q. destruct q; apply only_events_ret.
Qed.

Lemma send_errorf_not_call ri code is_json msg :
  only_events not_call (send_errorf W ri code is_json msg).
Proof.
  unfold send_errorf, mg_rpc_get_channel_info_internal.
  apply only_events_bind; [events|]. intros ci.
  apply dispatch_frame_not_call.
Qed.

Lemma send_responsef_not_call ri result_json :
  only_events not_call (mg_rpc_send_responsef W ri result_json).
Proof.
  unfold mg_rpc_send_responsef, mg_rpc_get_channel_info_internal.
  apply only_events_bind; [events|]. intros ci.
  apply dispatch_frame_not_call.
Qed.

Lemma process_queue_not_call : only_events not_call (mg_rpc_process_queue W).
Proof.
  unfold mg_rpc_process_queue.
  apply only_events_bind; [apply only_events_get|]. intros c0.
  apply only_events_foreach. intros qe. unfold process_queue_entry.
  apply only_events_bind.
  { destruct (qe_ci qe); [apply only_events_ret|].
    apply only_events_bind; [apply by_dst_not_call|].
    intros r. apply only_events_ret. }
  intros ci. apply only_events_bind; [apply send_frame_not_call|].
  intros ok. destruct ok; [|apply only_events_ret].
  apply only_events_remove_queue_entry.
Qed.

End Dispatch.

(** X11. At every observable moment, a reply to a request whose channel is
    still registered concerns that channel alone.  When the entry is open
    and not busy the frame is handed to its transport and, if it is
    accepted, the entry becomes busy.  Otherwise the frame is appended to
    the queue, pinned to the entry and with the source of the request as
    its destination, if there is room; if there is none the frame is
    dropped, the reply reports a failure and nothing has changed.  The
    result format NULL stands for the result null. *)
Theorem reply_goes_back_on_its_channel W cfg0 c ri result e :
  reachable W cfg0 c ->
  find (fun ci => Nat.eqb (ci_ch ci) (ri_ch ri)) (channels c) = Some e ->
  let f := reply_bytes W c ri (json_key "result") (Some result) in
  exists ok c',
    mg_rpc_send_responsef W ri (Some result) c = Some (ok, c') /\
    (is_open e = true -> is_busy e = false ->
     send_frame W (trace c) (ri_ch ri) f = true ->
     ok = true /\ trace c' = trace c ++ [EV_send_frame (ri_ch ri) f true] /\
     find_ci (ci_ptr e) (channels c') = Some (set_is_busy true e) /\
     queue c' = queue c) /\
    (is_open e = false \/ is_busy e = true ->
     queue_len c < max_queue_length cfg0 ->
     ok = true /\ trace c' = trace c /\ channels c' = channels c /\
     queue c' = queue c ++ [pinned_entry c (ci_ptr e) (ri_src ri) f] /\
     queue_len c' = queue_len c + 1) /\
    (is_open e = false \/ is_busy e = true ->
     max_queue_length cfg0 <= queue_len c ->
     ok = false /\ c' = c) /\
    mg_rpc_send_responsef W ri None c =
    mg_rpc_send_responsef W ri (Some "null"%string) c.
Proof.
  intros Hr F f. pose proof (reachable_wf W cfg0 c Hr) as Hwf.
  destruct (get_channel_info_internal_found cfg0 c _ e Hwf F)
    as (G & He & Hch).
  pose proof (dispatch_frame_pinned W (ri_dst ri) (ri_src ri) (ri_id ri)
                (ri_tag ri) MG_NULL_STR (ci_ptr e) e true (json_key "result")
                (Some result) c He) as D.
  cbv zeta in D. fold (reply_bytes W c ri (json_key "result") (Some result)) in D.
  fold f in D. rewrite Hch in D. rewrite (wf_cfg Hwf) in D.
  unfold mg_rpc_send_responsef. unfold bind at 1. rewrite G. rewrite D.
  match goal with
  | |- exists ok c', Some ?X = Some (ok, c') /\ _ =>
      exists (fst X), (snd X); split; [destruct X; reflexivity|]
  end.
  split; [|split; [|split; [|reflexivity]]].
  - intros Ho Hb Hs. rewrite Ho, Hb, Hs. simpl. repeat split.
    rewrite find_ci_update_any by reflexivity.
    rewrite He, Nat.eqb_refl. reflexivity.
  - intros Hcant Hroom.
    assert (Hi : is_open e && negb (is_busy e) = false)
      by (destruct Hcant as [-> | ->]; [reflexivity | apply andb_false_r]).
    rewrite Hi. simpl.
    assert (Hg : (queue_len c >=? max_queue_length cfg0) = false).
    { rewrite Z.geb_leb. apply Z.leb_gt. exact Hroom. }
    rewrite Hg. simpl. repeat split.
  - intros Hcant Hfull.
    assert (Hi : is_open e && negb (is_busy e) = false)
      by (destruct Hcant as [-> | ->]; [reflexivity | apply andb_false_r]).
    rewrite Hi. simpl.
    assert (Hg : (queue_len c >=? max_queue_length cfg0) = true).
    { rewrite Z.geb_leb. apply Z.leb_le. exact Hfull. }
    rewrite Hg. simpl. split; reflexivity.
Qed.

Lemma reply_goes_back_on_its_channel_witness :
  exists c',
    mg_rpc_send_responsef test_world add_request_info (Some add_result)
      math_handler_state = Some (true, c') /\
    trace c' =
    trace math_handler_state ++ [EV_send_frame 7%nat add_response_bytes true].
Proof.
  assert (Hr : reachable test_world test_cfg math_handler_state)
    by (eapply reachable_state_after; vm_compute; reflexivity).
  destruct (reply_goes_back_on_its_channel test_world test_cfg
              math_handler_state add_request_info add_result open_entry Hr
              eq_refl) as (ok & c' & E & H & _).
  destruct H as (-> & T & _); try reflexivity.
  exists c'. split; [exact E|]. rewrite T. vm_compute. reflexivity.
Defined.

(** ** Requests *)

(** X12. At every observable moment, a request for a method that has no handler
    is answered by the multiplexer itself, with the error 404 and the
    message "No handler for <method>", as a reply on the channel entry the
    frame came in on: sent at once when the entry is not busy and the
    transport accepts it, queued for the entry when it is busy and there
    is room.  The request is reported as handled, and no callback of the
    application runs. *)
Theorem unknown_method_gets_error_404 W cfg0 c e frame :
  reachable W cfg0 c ->
  find (fun x => Nat.eqb (ci_ch x) (ci_ch e)) (channels c) = Some e ->
  find (fun hi => mg_vcmp_eq (frame_method frame) (hi_method hi))
    (handlers c) = None ->
  let msg := ("No handler for " +++ frame_method frame)%string in
  let ri := request_info_of frame "" (ci_ch e) in
  let f := reply_bytes W c ri (error_payload W 404 msg) None in
  exists c',
    mg_rpc_handle_request W (ci_ptr e) frame c = Some (true, c') /\
    (exists evs, trace c' = trace c ++ evs /\ Forall not_call evs) /\
    (is_open e = true -> is_busy e = false ->
     send_frame W (trace c ++ [EV_log_error msg]) (ci_ch e) f = true ->
     trace c' =
     trace c ++ [EV_log_error msg; EV_send_frame (ci_ch e) f true] /\
     queue c' = queue c) /\
    (is_busy e = true -> queue_len c < max_queue_length cfg0 ->
     trace c' = trace c ++ [EV_log_error msg] /\
     queue c' = queue c ++ [pinned_entry c (ci_ptr e) (frame_src frame) f]).
Proof.
  intros Hr F Hnone. pose proof (reachable_wf W cfg0 c Hr) as Hwf.
  destruct (get_channel_info_internal_found cfg0 c _ e Hwf F) as (_ & He & _).
  rewrite <- (wf_cfg Hwf).
  exact (handle_request_no_handler W c e frame F He Hnone).
Qed.

Lemma unknown_method_gets_error_404_witness :
  exists c',
    mg_rpc_handle_request test_world 1%nat unknown_method_frame
      open_channel_state = Some (true, c') /\
    trace c' =
    trace open_channel_state ++
    [EV_log_error "No handler for Nope";
     EV_send_frame 7%nat no_handler_bytes true].
Proof.
  assert (Hr : reachable test_world test_cfg open_channel_state)
    by (eapply reachable_state_after; vm_compute; reflexivity).
  destruct (unknown_method_gets_error_404 test_world test_cfg
              open_channel_state open_entry unknown_method_frame Hr eq_refl
              eq_refl) as (c' & E & _ & H & _).
  exists c'. split; [exact E|].
  destruct H as [T _]; try reflexivity. rewrite T. vm_compute. reflexivity.
Defined.

(** A request for a method that has a handler: the pre-handler, if there
    is one, is asked first, and the handler is called exactly when there
    is no pre-handler or the pre-handler lets the request through. *)
Lemma handle_request_found W c e frame hi :
  find_ci (ci_ptr e) (channels c) = Some e ->
  find (fun hi => mg_vcmp_eq (frame_method frame) (hi_method hi))
    (handlers c) = Some hi ->
  mg_rpc_handle_request W (ci_ptr e) frame c =
  Some (true,
        set_trace
          (trace c ++
           handler_events W c hi
             (request_info_of frame (hi_args_fmt hi) (ci_ch e))
             {| channel_type := get_type W (ci_ch e) |} (frame_args frame))
          c).
Proof.
  intros He Hfind. unfold mg_rpc_handle_request, handler_events.
  unfold bind at 1. unfold deref_ci at 1. rewrite He.
  unfold bind at 1. unfold get at 1. cbv zeta. rewrite Hfind.
  fold (request_info_of frame (hi_args_fmt hi) (ci_ch e)).
  destruct (prehandler c) as [pre|].
  - destruct (prehandler_cb W (trace c) pre (prehandler_arg c) _ _ _);
      unfold bind, emit, modify, ret; simpl;
      try rewrite <- app_assoc; reflexivity.
  - unfold bind, emit, modify, ret. reflexivity.
Qed.

(** X13. A handler that has just been registered serves the requests for its
    method, whatever was registered for the method before: the request
    info carries its args format, the pre-handler, if there is one, is
    asked first, the handler is called exactly when there is no
    pre-handler or the pre-handler lets the request through, and the
    multiplexer sends no reply of its own. *)
Theorem newest_handler_serves_the_method W c method args_fmt cb cb_arg e
    frame :
  find_ci (ci_ptr e) (channels c) = Some e ->
  frame_method frame = c_str method ->
  let hi :=
    {| hi_method := method; hi_args_fmt := args_fmt; hi_cb := cb;
       hi_cb_arg := cb_arg |} in
  let c1 := set_handlers (hi :: handlers c) c in
  mg_rpc_add_handler method args_fmt cb cb_arg c = Some (tt, c1) /\
  mg_rpc_handle_request W (ci_ptr e) frame c1 =
  Some (true,
        set_trace
          (trace c ++
           handler_events W c hi (request_info_of frame args_fmt (ci_ch e))
             {| channel_type := get_type W (ci_ch e) |} (frame_args frame))
          c1).
Proof.
  intros He Hm hi c1. split; [reflexivity|].
  apply (handle_request_found W c1 e frame hi); [exact He|].
  simpl. unfold mg_vcmp_eq. simpl. rewrite Hm, String.eqb_refl. reflexivity.
Qed.

Lemma newest_handler_serves_the_method_witness :
  mg_rpc_handle_request test_world 1%nat add_frame math_handler_state =
  Some (true,
        set_trace
          (trace open_channel_state ++
           [EV_handler 200%nat 0%nat add_request_info
              {| channel_type := "test" |} add_args])
          math_handler_state).
Proof.
  assert (Hs : math_handler_state =
               set_handlers
                 ({| hi_method := "Math.Add"; hi_args_fmt := "{a: %d, b: %d}";
                     hi_cb := 200%nat; hi_cb_arg := 0%nat |}
                  :: handlers open_channel_state) open_channel_state)
    by (vm_compute; reflexivity).
  rewrite Hs at 1.
  destruct (newest_handler_serves_the_method test_world open_channel_state
              "Math.Add" "{a: %d, b: %d}" 200%nat 0%nat open_entry add_frame
              eq_refl eq_refl) as [_ H].
  refine (eq_trans H _). vm_compute. reflexivity.
Defined.

(** ** Calls that do not wait *)

Section Unqueued.

Variable W : World.

Lemma by_dst_queue dst :
  unchanged (fun c => (queue c, queue_len c))
    (mg_rpc_get_channel_info_internal_by_dst W dst).
Proof.
  unfold mg_rpc_get_channel_info_internal_by_dst, mg_rpc_add_channel_internal,
    emit.
  frame.
Qed.

Lemma send_frame_queue ci f :
  unchanged (fun c => (queue c, queue_len c)) (mg_rpc_send_frame W ci f).
Proof. unfold mg_rpc_send_frame, store_ci, emit. frame. Qed.

(** A frame that may not be queued leaves the queue alone, and is
    reported as sent only if a transport accepted it. *)
Lemma dispatch_frame_unqueued src dst id tag key ci prefix payload c r c' :
  mg_rpc_dispatch_frame W src dst id tag key ci false prefix payload c =
  Some (r, c') ->
  (queue c', queue_len c') = (queue c, queue_len c) /\
  exists evs, trace c' = trace c ++ evs /\
              (r = true -> accepted_frames evs <> []).
Proof.
  unfold mg_rpc_dispatch_frame. intros E.
  apply bind_Some in E as (r0 & c1 & E1 & E).
  assert (H1 : (queue c1, queue_len c1) = (queue c, queue_len c) /\
               exists evs, trace c1 = trace c ++ evs /\ Forall not_send evs).
  { destruct ci as [p|].
    - inversion E1; subst. split; [reflexivity|]. exists []. split; [|constructor].
      rewrite app_nil_r. reflexivity.
    - split; [exact (by_dst_queue _ _ _ _ E1)|].
      exact (by_dst_not_send W _ _ _ _ E1). }
  destruct H1 as [Q1 (evs1 & T1 & F1)].
  unfold bind at 1 in E. unfold get at 1 in E.
  apply bind_Some in E as (sent & c2 & E2 & E).
  pose proof (send_frame_queue _ _ _ _ _ E2) as Q2. simpl in Q2.
  destruct (send_frame_accepted W _ _ _ _ _ E2) as (evs2 & T2 & A2).
  assert (r = sent /\ c' = c2) as [-> ->]
    by (destruct sent; inversion E; auto).
  split; [congruence|].
  exists (evs1 ++ evs2). rewrite T2, T1, app_assoc. split; [reflexivity|].
  intros ->. rewrite accepted_frames_app, A2.
  rewrite (accepted_frames_not_send _ F1). discriminate.
Qed.

Lemma vcallf_broadcast_unqueued l src dst id tag key pprefix args :
  forall result c r c',
  vcallf_broadcast W l src dst id tag key pprefix args result c =
  Some (r, c') ->
  (queue c', queue_len c') = (queue c, queue_len c) /\
  exists evs, trace c' = trace c ++ evs /\
              (r = true -> result = true \/ accepted_frames evs <> []).
Proof.
  induction l as [|ci l IH]; intros result c r c' E; simpl in E.
  - inversion E; subst. split; [reflexivity|]. exists [].
    rewrite app_nil_r. auto.
  - unfold bind at 1 in E. unfold get at 1 in E.
    destruct (_ || _).
    + exact (IH _ _ _ _ E).
    + apply bind_Some in E as (r1 & c1 & E1 & E).
      destruct (dispatch_frame_unqueued _ _ _ _ _ _ _ _ _ _ _ E1)
        as (Q1 & evs1 & T1 & A1).
      destruct (IH _ _ _ _ E) as (Q2 & evs2 & T2 & A2).
      split; [congruence|].
      exists (evs1 ++ evs2). rewrite T2, T1, app_assoc.
      split; [reflexivity|]. intros Hr. rewrite accepted_frames_app.
      destruct (A2 Hr) as [H | H].
      * apply orb_true_iff in H as [H | H]; [left; exact H|].
        right. specialize (A1 H).
        destruct (accepted_frames evs1); [contradiction | discriminate].
      * right. destruct (accepted_frames evs1); [exact H | discriminate].
Qed.

End Unqueued.

(** X14. A call with the option no_queue, and a broadcast call, never touch
    the queue, whatever the state of the channels; such a call reports
    success only if a transport has accepted its frame. *)
Theorem calls_that_do_not_wait W method cb cb_arg o args c r c' :
  opts_no_queue o = true \/ opts_broadcast o = true ->
  mg_rpc_callf W method cb cb_arg (Some o) args c = Some (r, c') ->
  queue c' = queue c /\ queue_len c' = queue_len c /\
  exists evs, trace c' = trace c ++ evs /\
              (r = true -> accepted_frames evs <> []).
Proof.
  intros Ho E. unfold mg_rpc_callf, mg_rpc_vcallf in E.
  apply bind_Some in E as (id & c0 & E0 & E).
  assert (H0 : (queue c0, queue_len c0) = (queue c, queue_len c) /\
               trace c0 = trace c ++ [EV_rand (rand W (trace c))]).
  { unfold mg_rpc_get_id, bind, get, emit, modify, ret in E0.
    inversion E0; subst. split; reflexivity. }
  destruct H0 as [Q0 T0]. cbv zeta in E.
  unfold bind at 1 in E. unfold get at 1 in E.
  apply bind_Some in E as (result & c1 & E1 & E).
  assert (H1 : (queue c1, queue_len c1) = (queue c0, queue_len c0) /\
               exists evs, trace c1 = trace c0 ++ evs /\
                           (result = true -> accepted_frames evs <> [])).
  { destruct (opts_broadcast o) eqn:B; rewrite ?B in E1; simpl in E1.
    - destruct (vcallf_broadcast_unqueued W _ _ _ _ _ _ _ _ _ _ _ _ E1)
        as (Q & evs & T & A).
      split; [exact Q|]. exists evs. split; [exact T|].
      intros Hr. destruct (A Hr) as [H | H]; [discriminate | exact H].
    - destruct Ho as [Ho | Ho]; [|discriminate]. rewrite Ho in E1.
      exact (dispatch_frame_unqueued W _ _ _ _ _ _ _ _ _ _ _ E1). }
  destruct H1 as [Q1 (evs & T1 & A1)].
  assert (H2 : (queue c', queue_len c') = (queue c1, queue_len c1) /\
               trace c' = trace c1 /\ (r = true -> result = true)).
  { destruct cb as [f|]; [destruct result|]; inversion E; subst;
      simpl; repeat split; auto; discriminate. }
  destruct H2 as (Q2 & T2 & R2).
  assert (Q : (queue c', queue_len c') = (queue c, queue_len c)) by congruence.
  split; [exact (f_equal fst Q)|]. split; [exact (f_equal snd Q)|].
  exists (EV_rand (rand W (trace c)) :: evs).
  rewrite T2, T1, T0, <- app_assoc. split; [reflexivity|].
  intros Hr. simpl. apply A1, R2, Hr.
Qed.

Lemma calls_that_do_not_wait_witness :
  queue
    (state_after (busy_channel_ops ++
                  [Op_callf "Bar" (Some 101%nat) 0%nat (Some no_queue_opts)
                     None])) = [].
Proof.
  assert (E : exists r,
            mg_rpc_callf test_world "Bar" (Some 101%nat) 0%nat
              (Some no_queue_opts) None busy_channel_state =
            Some (r, state_after
                       (busy_channel_ops ++
                        [Op_callf "Bar" (Some 101%nat) 0%nat
                           (Some no_queue_opts) None])))
    by (eexists; vm_compute; reflexivity).
  destruct E as [r E].
  destruct (calls_that_do_not_wait test_world _ _ _ no_queue_opts _ _ _ _
              (or_introl eq_refl) E) as (H & _).
  rewrite H. vm_compute. reflexivity.
Defined.

(** ** Broadcast *)

Lemma frame_bytes_ext W c1 c2 src dst id tag key prefix payload :
  local_ids c1 = local_ids c2 ->
  frame_bytes W c1 src dst id tag key prefix payload =
  frame_bytes W c2 src dst id tag key prefix payload.
Proof.
  intros H. unfold frame_bytes, local_ids_buf. rewrite H. reflexivity.
Qed.

Lemma vcallf_broadcast_events W src dst id tag key pprefix args f l :
  forall c result r c',
    NoDup (map ci_ptr l) ->
    (forall ci, In ci l -> find_ci (ci_ptr ci) (channels c) = Some ci) ->
    frame_bytes W c src dst id tag key pprefix args = f ->
    vcallf_broadcast W l src dst id tag key pprefix args result c =
    Some (r, c') ->
    trace c' = trace c ++ broadcast_events W f (trace c) l /\
    r = result || existsb is_accepted (broadcast_events W f (trace c) l).
Proof.
  induction l as [|ci l IH]; intros c result r c' Hnd Hl Hf E; simpl in E.
  - inversion E; subst. simpl. rewrite app_nil_r, orb_false_r. auto.
  - unfold bind at 1 in E. unfold get at 1 in E.
    inversion Hnd as [|x xs Hnotin Hnd']; subst x xs.
    assert (Hl' : forall ci', In ci' l ->
                  find_ci (ci_ptr ci') (channels c) = Some ci').
    { intros ci' H. apply Hl. right. exact H. }
    simpl.
    destruct (has_is_broadcast_enabled W (ci_ch ci)); simpl in E |- *;
      [|exact (IH c result r c' Hnd' Hl' Hf E)].
    destruct (is_broadcast_enabled W (trace c) (ci_ch ci)); simpl in E |- *;
      [|exact (IH c result r c' Hnd' Hl' Hf E)].
    apply bind_Some in E as (r1 & c1 & E1 & E).
    rewrite (dispatch_frame_pinned W src dst id tag key (ci_ptr ci) ci false
               pprefix args c (Hl ci (or_introl eq_refl))) in E1.
    rewrite Hf in E1. simpl in E1.
    assert (Hother : forall ci', In ci' l ->
              Nat.eqb (ci_ptr ci) (ci_ptr ci') = false).
    { intros ci' H. apply Nat.eqb_neq. intros Heq. apply Hnotin.
      rewrite Heq. apply in_map. exact H. }
    destruct (is_open ci && negb (is_busy ci)); simpl in E1 |- *.
    + destruct (send_frame W (trace c) (ci_ch ci) f) eqn:S; simpl in E1.
      * inversion E1; subst r1 c1. clear E1.
        apply IH in E; [|exact Hnd'| |].
        -- simpl in E. destruct E as [T R]. rewrite T, <- app_assoc.
           split; [reflexivity|]. rewrite R. destruct result; reflexivity.
        -- intros ci' H. simpl.
           rewrite find_ci_update_any by reflexivity.
           rewrite (Hother ci' H). apply Hl'. exact H.
        -- rewrite <- Hf. apply frame_bytes_ext. reflexivity.
      * inversion E1; subst r1 c1. clear E1.
        apply IH in E; [|exact Hnd'| |].
        -- simpl in E. destruct E as [T R]. rewrite T, <- app_assoc.
           split; [reflexivity|]. rewrite R. destruct result; reflexivity.
        -- intros ci' H. simpl. apply Hl'. exact H.
        -- rewrite <- Hf. apply frame_bytes_ext. reflexivity.
    + inversion E1; subst r1 c1. clear E1.
      apply IH in E; [|exact Hnd'|exact Hl'|exact Hf].
      rewrite orb_false_r in E. exact E.
Qed.

(** X15. At every observable moment, a broadcast call offers its frame once to
    every registered entry that is open and idle and whose channel takes
    broadcasts, in the order of the registry, newest first, and to no
    other; nothing else happens after the id is drawn.  The call reports
    success when it has a callback and a transport accepted the frame. *)
Theorem broadcast_offers_once W cfg0 c method cb cb_arg o args r c' :
  reachable W cfg0 c -> opts_broadcast o = true ->
  mg_rpc_callf W method cb cb_arg (Some o) args c = Some (r, c') ->
  let t := trace c ++ [EV_rand (rand W (trace c))] in
  let evs := broadcast_events W (call_frame W c method cb o args) t
               (channels c) in
  trace c' = t ++ evs /\
  r = match cb with
      | Some _ => existsb is_accepted evs
      | None => false
      end.
Proof.
  intros Hr Hb E t evs. pose proof (reachable_wf W cfg0 c Hr) as Hwf.
  unfold mg_rpc_callf, mg_rpc_vcallf in E.
  apply bind_Some in E as (id & c0 & E0 & E).
  unfold mg_rpc_get_id, bind, get, emit, modify, ret in E0.
  inversion E0; subst id c0. clear E0. cbv zeta in E.
  unfold bind at 1 in E. unfold get at 1 in E.
  apply bind_Some in E as (result & c1 & E1 & E).
  rewrite Hb in E1. simpl in E1.
  apply vcallf_broadcast_events with (f := call_frame W c method cb o args)
    in E1.
  - simpl in E1. destruct E1 as [T R]. fold t in T, R. fold evs in T, R.
    simpl in R.
    destruct cb as [f|]; [destruct result|]; inversion E; subst; simpl;
      split; auto.
  - exact (wf_chan_nodup Hwf).
  - intros ci H. apply find_ci_of_In; [exact (wf_chan_nodup Hwf) | exact H].
  - unfold call_frame. apply frame_bytes_ext. reflexivity.
Qed.

Lemma broadcast_offers_once_witness :
  exists r c',
    mg_rpc_callf test_world "Foo" None 0%nat (Some broadcast_opts) None
      three_channels_state = Some (r, c') /\
    accepted_frames (skipn (List.length (trace three_channels_state)) (trace c'))
    = [nr_call_bytes; nr_call_bytes].
Proof.
  assert (Hr : reachable test_world test_cfg three_channels_state)
    by (eapply reachable_state_after; vm_compute; reflexivity).
  destruct (mg_rpc_callf test_world "Foo" None 0%nat (Some broadcast_opts) None
              three_channels_state) as [[r c']|] eqn:E;
    [|vm_compute in E; discriminate E].
  destruct (broadcast_offers_once test_world test_cfg three_channels_state
              "Foo" None 0%nat broadcast_opts None r c' Hr eq_refl E)
    as [T _].
  exists r, c'. split; [reflexivity|]. rewrite T. vm_compute. reflexivity.
Defined.

(** ** The buffer of local ids *)

Lemma cstrings_nonempty a s : cstrings (String a s) <> [].
Proof.
  simpl. destruct (Ascii.eqb a NUL); [discriminate|].
  destruct (cstrings s); discriminate.
Qed.

(** A buffer that ends with NUL holds whole strings: what is appended
    starts a new one. *)
Lemma cstrings_app a b :
  ends_with_nul a = true -> cstrings (a +++ b) = cstrings a ++ cstrings b.
Proof.
  induction a as [|x a IH]; intros H; [reflexivity|].
  destruct a as [|y a].
  - simpl in H. simpl. rewrite H. reflexivity.
  - specialize (IH H).
    change (cstrings (String x (String y a +++ b)) =
            cstrings (String x (String y a)) ++ cstrings b).
    cbn [cstrings] in IH |- *. rewrite IH.
    destruct (Ascii.eqb x NUL); [reflexivity|].
    pose proof (cstrings_nonempty y a) as Hne. cbn [cstrings] in Hne.
    destruct (if Ascii.eqb y NUL then _ else _); [contradiction | reflexivity].
Qed.

Lemma cstrings_c_str id :
  id <> EmptyString -> c_str id = id ->
  cstrings (id +++ String NUL EmptyString) = [id].
Proof.
  induction id as [|a id IH]; intros Hne Hc; [contradiction|].
  simpl in Hc. destruct (Ascii.eqb a NUL) eqn:Ea; [discriminate|].
  inversion Hc as [Hc']. rewrite Hc'.
  change (cstrings (String a (id +++ String NUL EmptyString)) = [String a id]).
  cbn [cstrings]. rewrite Ea.
  destruct id as [|b id].
  - reflexivity.
  - rewrite IH; [reflexivity | discriminate | exact Hc'].
Qed.

Lemma c_str_idempotent s : c_str (c_str s) = c_str s.
Proof.
  induction s as [|a s IH]; simpl; [reflexivity|].
  destruct (Ascii.eqb a NUL) eqn:Ea; simpl; [reflexivity|].
  rewrite Ea, IH. reflexivity.
Qed.

Lemma ends_with_nul_app a :
  ends_with_nul (a +++ String NUL EmptyString) = true.
Proof.
  induction a as [|x a IH]; simpl; [reflexivity|].
  destruct (a +++ String NUL EmptyString) eqn:Ea; [|exact IH].
  destruct a; discriminate Ea.
Qed.

Lemma str_append_assoc (a b d : string) : (a +++ b) +++ d = a +++ b +++ d.
Proof. induction a as [|x a IH]; simpl; [reflexivity | rewrite IH; reflexivity]. Qed.

(** What [mg_rpc_add_local_id] does to a buffer of whole strings. *)
Lemma add_local_id_identities id c :
  ends_with_nul (local_ids c) = true -> id <> EmptyString ->
  exists c',
    mg_rpc_add_local_id id c = Some (tt, c') /\
    ends_with_nul (local_ids c') = true /\
    local_identities c' =
    local_identities c ++ cstrings (id +++ String NUL EmptyString).
Proof.
  intros Hend Hne. unfold mg_rpc_add_local_id.
  assert (Hs : str_empty id = false) by (destruct id; [congruence | reflexivity]).
  rewrite Hs. eexists. split; [reflexivity|]. unfold local_identities. simpl.
  split.
  - rewrite <- str_append_assoc. apply ends_with_nul_app.
  - apply cstrings_app. exact Hend.
Qed.

Section Local_ids.

Variable W : World.
Variable cfg0 : mg_rpc_cfg.

(** The buffer holds whole strings, the first of which is the configured
    id. *)
Lemma reachable_local_ids c :
  reachable W cfg0 c ->
  ends_with_nul (local_ids c) = true /\
  (c_str (cfg_id cfg0) <> EmptyString ->
   In (c_str (cfg_id cfg0)) (local_identities c)).
Proof.
  induction 1 as [|c o c' Hr [IH1 IH2] E].
  - unfold mg_rpc_create, mg_rpc_add_local_id.
    destruct (str_empty (c_str (cfg_id cfg0))) eqn:Hs; simpl.
    + split; [reflexivity|]. intros Hne. apply str_empty_iff in Hs.
      contradiction.
    + split; [apply ends_with_nul_app|]. intros Hne.
      unfold local_identities. simpl.
      rewrite cstrings_c_str;
        [left; reflexivity | exact Hne | apply c_str_idempotent].
  - pose proof (run_op_registries W o c c' E) as R.
    destruct o; simpl in E;
      try (unfold registries in R; inversion R as [[R1 R2 R3 R4 R5 R6]];
           unfold local_identities; rewrite R2; auto);
      try (inversion E; subst; auto).
    unfold mg_rpc_add_local_id in E.
    destruct (str_empty id) eqn:Hs; [inversion E; subst; auto|].
    assert (Hne : id <> EmptyString).
    { intros ->. discriminate Hs. }
    destruct (add_local_id_identities id c IH1 Hne) as (c'' & E' & H1 & H2).
    unfold mg_rpc_add_local_id in E'. rewrite Hs in E'.
    rewrite E in E'. inversion E'; subst c''.
    split; [exact H1|]. intros H. rewrite H2. apply in_or_app. left. auto.
Qed.

End Local_ids.

(** X16. At every observable moment the configured id, when it is not empty,
    is a local identity.  Adding the empty id does nothing.  Adding an id
    that is not empty appends it to the local identities; an id without a
    NUL byte is one local identity from then on, and every local identity
    stays one. *)
Theorem local_ids_accumulate W cfg0 c :
  reachable W cfg0 c ->
  (c_str (cfg_id cfg0) <> EmptyString ->
   is_local_id c (c_str (cfg_id cfg0)) = true) /\
  mg_rpc_add_local_id EmptyString c = Some (tt, c) /\
  (forall id, id <> EmptyString ->
   exists c',
     mg_rpc_add_local_id id c = Some (tt, c') /\
     local_identities c' =
     local_identities c ++ cstrings (id +++ String NUL EmptyString) /\
     (c_str id = id ->
      local_identities c' = local_identities c ++ [id] /\
      is_local_id c' id = true) /\
     (forall x, is_local_id c x = true -> is_local_id c' x = true)).
Proof.
  intros Hr. destruct (reachable_local_ids W cfg0 c Hr) as [Hend Hcfg].
  split; [|split; [reflexivity|]].
  - intros Hne. apply is_local_id_spec. auto.
  - intros id Hne.
    destruct (add_local_id_identities id c Hend Hne) as (c' & E & _ & H).
    exists c'. split; [exact E|]. split; [exact H|]. split.
    + intros Hc. rewrite (cstrings_c_str id Hne Hc) in H.
      split; [exact H|]. apply is_local_id_spec. rewrite H.
      apply in_or_app. right. left. reflexivity.
    + intros x Hx. apply is_local_id_spec. apply is_local_id_spec in Hx.
      rewrite H. apply in_or_app. left. exact Hx.
Qed.

Lemma local_ids_accumulate_witness :
  is_local_id open_channel_state "dev" = true /\
  exists c',
    mg_rpc_add_local_id "alias" open_channel_state = Some (tt, c') /\
    local_identities c' = ["dev"%string; "alias"%string].
Proof.
  assert (Hr : reachable test_world test_cfg open_channel_state)
    by (eapply reachable_state_after; vm_compute; reflexivity).
  destruct (local_ids_accumulate test_world test_cfg open_channel_state Hr)
    as (H1 & _ & H2).
  split; [apply H1; discriminate|].
  destruct (H2 "alias"%string) as (c' & E & _ & H & _); [discriminate|].
  exists c'. split; [exact E|].
  destruct (H eq_refl) as [-> _]. vm_compute. reflexivity.
Defined.

(** ** Connecting, disconnecting and notifying *)

Lemma set_trace_same c : set_trace (trace c) c = c.
Proof. destruct c; reflexivity. Qed.

(** A loop that only calls out. *)
Lemma foreach_emit_trace {A} (l : list A) (ev : A -> event) : forall c,
  foreach l (fun x => emit (ev x)) c =
  Some (tt, set_trace (trace c ++ map ev l) c).
Proof.
  induction l as [|x l IH]; intros c; simpl.
  - rewrite app_nil_r, set_trace_same. reflexivity.
  - unfold bind, emit at 1, modify. rewrite IH. simpl.
    rewrite <- app_assoc. reflexivity.
Qed.

(** X17. [mg_rpc_connect] asks the transport of every registered channel to
    connect and [mg_rpc_disconnect] asks every one to close, newest entry
    first and whatever the flags of the entry are; the flags, the
    registry and the queue are as they were: it is the OPEN and the
    CLOSED event that change them. *)
Theorem connect_and_disconnect_ask_every_channel c :
  mg_rpc_connect c =
  Some (tt,
        set_trace
          (trace c ++ map (fun ci => EV_ch_connect (ci_ch ci)) (channels c))
          c) /\
  mg_rpc_disconnect c =
  Some (tt,
        set_trace
          (trace c ++ map (fun ci => EV_ch_close (ci_ch ci)) (channels c)) c).
Proof.
  unfold mg_rpc_connect, mg_rpc_disconnect, bind, get.
  split; apply foreach_emit_trace.
Qed.

Lemma call_observers_trace ev dst c :
  mg_rpc_call_observers ev dst c =
  Some (tt, set_trace (trace c ++ notes ev dst (observers c)) c).
Proof.
  unfold mg_rpc_call_observers, bind, get, notes. apply foreach_emit_trace.
Qed.

Lemma notifications_app a b :
  notifications (a ++ b) = notifications a ++ notifications b.
Proof.
  induction a as [|e a IH]; simpl; [reflexivity|].
  destruct e; simpl; rewrite IH; reflexivity.
Qed.

Lemma notifications_none evs : Forall not_note evs -> notifications evs = [].
Proof.
  induction 1 as [|e evs He _ IH]; simpl; [reflexivity|].
  destruct e; try exact IH. destruct He.
Qed.

Lemma notifications_notes ev dst l : notifications (notes ev dst l) = notes ev dst l.
Proof.
  unfold notes. induction l as [|oi l IH]; simpl; [reflexivity|].
  rewrite IH. reflexivity.
Qed.

Lemma not_call_not_note e : not_call e -> not_note e.
Proof. intros H. destruct e; try exact I. apply H. exact I. Qed.

Section Notes.

Variable W : World.

Lemma send_errorf_not_note ri code is_json msg :
  only_events not_note (send_errorf W ri code is_json msg).
Proof.
  eapply only_events_weaken; [apply not_call_not_note|].
  apply send_errorf_not_call.
Qed.

Lemma dispatch_frame_not_note src dst id tag key ci enqueue prefix payload :
  only_events not_note
    (mg_rpc_dispatch_frame W src dst id tag key ci enqueue prefix payload).
Proof.
  eapply only_events_weaken; [apply not_call_not_note|].
  apply dispatch_frame_not_call.
Qed.

Lemma by_dst_not_note dst :
  only_events not_note (mg_rpc_get_channel_info_internal_by_dst W dst).
Proof.
  eapply only_events_weaken; [apply not_call_not_note|].
  apply by_dst_not_call.
Qed.

Lemma process_queue_not_note : only_events not_note (mg_rpc_process_queue W).
Proof.
  eapply only_events_weaken; [apply not_call_not_note|].
  apply process_queue_not_call.
Qed.

Lemma handle_request_not_note ci frame :
  only_events not_note (mg_rpc_handle_request W ci frame).
Proof.
  unfold mg_rpc_handle_request, mg_rpc_send_errorf.
  apply only_events_bind; [apply only_events_deref_ci|]. intros e.
  apply only_events_bind; [apply only_events_get|]. intros c0. cbv zeta.
  destruct (find _ (handlers c0)).
  - events.
  - apply only_events_bind; [events|]. intros _.
    apply only_events_bind; [apply send_errorf_not_note|]. intros _.
    apply only_events_ret.
Qed.

Lemma handle_response_not_note ci id result code msg :
  only_events not_note (mg_rpc_handle_response W ci id result code msg).
Proof. unfold mg_rpc_handle_response. events. Qed.

Lemma handle_frame_not_note ci frame :
  only_events not_note (mg_rpc_handle_frame W ci frame).
Proof.
  unfold mg_rpc_handle_frame.
  apply only_events_bind; [apply only_events_deref_ci|]. intros e.
  apply only_events_bind; [apply only_events_get|]. intros c0.
  destruct (negb (is_open e)); [events|].
  destruct (_ && _); [events|].
  apply only_events_bind; [events|]. intros _.
  destruct (0 <? _)%nat.
  - apply only_events_bind; [apply handle_request_not_note|].
    intros ok. events.
  - apply only_events_bind; [apply handle_response_not_note|].
    intros ok. events.
Qed.

Lemma vcallf_broadcast_not_note l src dst id tag key pprefix args :
  forall result,
  only_events not_note
    (vcallf_broadcast W l src dst id tag key pprefix args result).
Proof.
  induction l as [|ci l IH]; intros result; simpl.
  - apply only_events_ret.
  - apply only_events_bind; [apply only_events_get|]. intros c0.
    destruct (_ || _); [apply IH|].
    apply only_events_bind; [apply dispatch_frame_not_note|].
    intros r. apply IH.
Qed.

Lemma vcallf_not_note method cb cb_arg opts args :
  only_events not_note (mg_rpc_vcallf W method cb cb_arg opts args).
Proof.
  unfold mg_rpc_vcallf, mg_rpc_get_id.
  apply only_events_bind; [events|]. intros id. cbv zeta.
  destruct opts as [o|]; [|apply only_events_undefined].
  apply only_events_bind; [apply only_events_get|]. intros c0.
  apply only_events_bind.
  { destruct (negb (opts_broadcast o));
      [apply dispatch_frame_not_note | apply vcallf_broadcast_not_note]. }
  intros result. events.
Qed.

Lemma by_dst_deref_not_note dst (k : mg_rpc_channel_info_internal -> bool) :
  only_events not_note
    (r <- mg_rpc_get_channel_info_internal_by_dst W dst ;;
     match fst r with
     | Some p => e <- deref_ci p ;; ret (k e)
     | None => ret false
     end).
Proof.
  apply only_events_bind; [apply by_dst_not_note|]. intros r. events.
Qed.

(** The end of the CLOSED event, after the observers were told. *)
Lemma closed_purge_not_note ch ci (remove : bool) :
  only_events not_note
    (if remove then
       c <- get ;;
       foreach (queue c) (fun qe =>
         match qe_ci qe with
         | Some p => if Nat.eqb p ci
                     then mg_rpc_remove_queue_entry (qe_ptr qe)
                     else ret tt
         | None => ret tt
         end) ;;
       modify (fun c => set_channels (remove_ci ci (channels c)) c) ;;
       emit (EV_ch_destroy ch)
     else ret tt).
Proof.
  destruct remove; [|apply only_events_ret].
  apply only_events_bind; [apply only_events_get|]. intros c0.
  apply only_events_bind.
  { apply only_events_foreach. intros qe.
    destruct (qe_ci qe) as [q|]; [|apply only_events_ret].
    destruct (Nat.eqb q ci); [|apply only_events_ret].
    apply only_events_remove_queue_entry. }
  intros _. events.
Qed.

End Notes.

(** X18. At every observable moment and for every operation: observers are
    called for the OPEN and for the CLOSED event of a registered channel
    whose entry has a destination, every observer once, newest first,
    with the event and that destination; and for nothing else. *)
Theorem observers_hear_open_and_closed W cfg0 c o c' :
  reachable W cfg0 c -> run_op W o c = Some (tt, c') ->
  exists evs,
    trace c' = trace c ++ evs /\
    notifications evs = expected_notifications c o.
Proof.
  intros Hr E. pose proof (reachable_wf W cfg0 c Hr) as Hwf.
  assert (Hnone : forall (m : M unit),
            only_events not_note m -> m c = Some (tt, c') ->
            exists evs, trace c' = trace c ++ evs /\ notifications evs = []).
  { intros m Hm Em. destruct (Hm _ _ _ Em) as (evs & T & F).
    exists evs. split; [exact T | apply notifications_none; exact F]. }
  assert (Hdrop : forall (m : M bool),
            only_events not_note m ->
            only_events not_note (_ <- m ;; ret tt)).
  { intros m Hm. apply only_events_bind; [exact Hm|].
    intros _. apply only_events_ret. }
  destruct o; simpl in E |- *.
  1-5: revert E; apply Hnone.
  1: unfold mg_rpc_add_local_id. 2: unfold mg_rpc_add_handler.
  3: unfold mg_rpc_set_prehandler. 4: unfold mg_rpc_add_observer.
  5: unfold mg_rpc_remove_observer.
  1-5: events.
  - revert E. apply Hnone.
    unfold mg_rpc_add_channel, mg_rpc_add_channel_internal. events.
  - revert E. apply Hnone. unfold mg_rpc_connect. events.
  - revert E. apply Hnone. unfold mg_rpc_disconnect. events.
  - revert E. apply Hnone, Hdrop, by_dst_deref_not_note.
  - revert E. apply Hnone, Hdrop.
    apply (by_dst_deref_not_note W _ (fun e => is_open e && negb (is_busy e))).
  - revert E. apply Hnone, Hdrop, vcallf_not_note.
  - revert E. apply Hnone, Hdrop.
    unfold mg_rpc_send_responsef, mg_rpc_get_channel_info_internal.
    apply only_events_bind; [events|]. intros ci.
    apply dispatch_frame_not_note.
  - revert E. apply Hnone, Hdrop, send_errorf_not_note.
  - revert E. apply Hnone, Hdrop, send_errorf_not_note.
  - unfold mg_rpc_ev_handler in E.
    unfold bind at 1 in E. unfold get at 1 in E.
    destruct (find (fun ci => Nat.eqb (ci_ch ci) ch) (channels c))
      as [e|] eqn:F.
    2:{ inversion E; subst. exists []. rewrite app_nil_r. auto. }
    destruct (get_channel_info_internal_found cfg0 c ch e Hwf F)
      as (_ & He & _).
    pose proof (find_ci_In _ _ _ He) as [Hin _].
    assert (Hp : (ci_ptr e < heap_next c)%nat).
    { apply (wf_chan_heap Hwf). apply in_map. exact Hin. }
    cbv zeta in E. destruct ev as [|f|frame|success|].
    + (* OPEN *)
      apply bind_Some in E as (u1 & c1 & E1 & E).
      apply bind_Some in E as (u2 & c2 & E2 & E).
      apply bind_Some in E as (u3 & c3 & E3 & E).
      apply bind_Some in E as (e3 & c4 & E4 & E).
      pose proof (store_ci_seq (ci_ptr e) (set_is_open true)
                    (set_is_busy false) c u1 c1 u2 c2 (fun _ => eq_refl)
                    E1 E2) as E12.
      rewrite (store_ci_eq _ _ c e He) in E12. inversion E12; subst c2.
      clear E1 E2 E12.
      assert (H2 : entry_with (ci_ptr e) (fun s => s = ci_dst e) (ci_ch e)
                     (set_channels
                        (update_ci (ci_ptr e)
                           (fun e0 => set_is_busy false (set_is_open true e0))
                           (channels c)) c)).
      { split; [exact Hp|]. simpl.
        rewrite find_ci_update_any by reflexivity.
        rewrite He, Nat.eqb_refl. simpl. eexists. split; [reflexivity|].
        simpl. auto. }
      assert (H3 : entry_with (ci_ptr e) (fun s => s = ci_dst e) (ci_ch e) c3).
      { revert H2 E3. unfold entry_with. apply ent_process_queue.
        intros x Hx. exact Hx. }
      destruct H3 as [_ (e' & He' & Hd' & _)].
      destruct (process_queue_not_note W _ _ _ E3) as (evs & T3 & F3).
      pose proof (unchanged_fst application_state _
                    (process_queue_application W) _ _ _ E3) as R3.
      unfold deref_ci in E4. rewrite He' in E4. inversion E4; subst e3 c4.
      rewrite Hd' in E.
      destruct (0 <? String.length (ci_dst e))%nat.
      * rewrite call_observers_trace in E. inversion E; subst c'.
        exists (evs ++ notes MG_RPC_EV_CHANNEL_OPEN (ci_dst e) (observers c3)).
        simpl. rewrite T3, <- app_assoc. split; [reflexivity|].
        rewrite notifications_app, (notifications_none _ F3),
          notifications_notes.
        simpl in R3. unfold registries in R3. inversion R3. reflexivity.
      * inversion E; subst c'. exists evs. split; [exact T3|].
        apply notifications_none. exact F3.
    + destruct (0 <? String.length (ci_dst e))%nat; revert E; apply Hnone.
      all: apply only_events_bind; [|intros ok; events].
      all: destruct (mg_rpc_parse_frame W f);
        [apply handle_frame_not_note | apply only_events_ret].
    + destruct (0 <? String.length (ci_dst e))%nat; revert E; apply Hnone.
      all: apply only_events_bind; [apply handle_frame_not_note|].
      all: intros ok; events.
    + destruct (0 <? String.length (ci_dst e))%nat; revert E; apply Hnone.
      all: apply only_events_bind; [events|]; intros _.
      all: apply process_queue_not_note.
    + (* CLOSED *)
      apply bind_Some in E as (u1 & c1 & E1 & E).
      apply bind_Some in E as (u2 & c2 & E2 & E).
      apply bind_Some in E as (e2 & c3 & E3 & E).
      apply bind_Some in E as (u4 & c4 & E4 & E).
      pose proof (store_ci_seq (ci_ptr e) (set_is_busy false)
                    (set_is_open false) c u1 c1 u2 c2 (fun _ => eq_refl)
                    E1 E2) as E12.
      rewrite (store_ci_eq _ _ c e He) in E12. inversion E12; subst c2.
      clear E1 E2 E12.
      unfold deref_ci in E3. simpl in E3.
      rewrite find_ci_update_any in E3 by reflexivity.
      rewrite He, Nat.eqb_refl in E3. simpl in E3.
      inversion E3; subst e2 c3. clear E3. simpl in E4.
      destruct (closed_purge_not_note _ _ _ _ _ _ E) as (evs & T & Fn).
      destruct (0 <? String.length (ci_dst e))%nat.
      * rewrite call_observers_trace in E4. inversion E4; subst c4.
        exists (notes MG_RPC_EV_CHANNEL_CLOSED (ci_dst e) (observers c) ++ evs).
        rewrite T. simpl. rewrite <- app_assoc. split; [reflexivity|].
        rewrite notifications_app, (notifications_none _ Fn),
          notifications_notes, app_nil_r. reflexivity.
      * inversion E4; subst c4. exists evs. split; [exact T|].
        apply notifications_none. exact Fn.
Qed.

Lemma observers_hear_open_and_closed_witness :
  exists c',
    run_op test_world (Op_ev_handler 7%nat MG_RPC_CHANNEL_CLOSED)
      observed_channel_state = Some (tt, c') /\
    notifications (skipn (List.length (trace observed_channel_state))
                     (trace c')) =
    [EV_observer 400%nat 0%nat MG_RPC_EV_CHANNEL_CLOSED "*"].
Proof.
  assert (Hr : reachable test_world test_cfg observed_channel_state)
    by (eapply reachable_state_after; vm_compute; reflexivity).
  destruct (run_op test_world (Op_ev_handler 7%nat MG_RPC_CHANNEL_CLOSED)
              observed_channel_state) as [[[] c']|] eqn:E;
    [|vm_compute in E; discriminate E].
  destruct (observers_hear_open_and_closed test_world test_cfg
              observed_channel_state _ c' Hr E) as (evs & T & N).
  exists c'. split; [reflexivity|].
  rewrite T, skipn_app, skipn_all, Nat.sub_diag. simpl. rewrite N.
  vm_compute. reflexivity.
Defined.

(** ** The built-in handlers *)

Lemma str_length_append (a b : string) :
  String.length (a +++ b) = (String.length a + String.length b)%nat.
Proof. induction a as [|x a IH]; simpl; [reflexivity | rewrite IH; reflexivity]. Qed.

Lemma str_append_nil_r (a : string) : a +++ EmptyString = a.
Proof. induction a as [|x a IH]; simpl; [reflexivity | rewrite IH; reflexivity]. Qed.

(** A string without a NUL byte is printed whole. *)
Lemma c_str_append a b : c_str a = a -> c_str (a +++ b) = a +++ c_str b.
Proof.
  induction a as [|x a IH]; simpl; intros H; [reflexivity|].
  destruct (Ascii.eqb x NUL); [discriminate|].
  inversion H as [H']. rewrite H', (IH H'). reflexivity.
Qed.

Lemma c_str_concat sep l :
  c_str sep = sep -> Forall (fun s => c_str s = s) l ->
  c_str (String.concat sep l) = String.concat sep l.
Proof.
  intros Hsep. induction 1 as [|x l Hx Hl IH]; [reflexivity|].
  destruct l as [|y l]; [exact Hx|].
  change (String.concat sep (x :: y :: l))
    with (x +++ sep +++ String.concat sep (y :: l)).
  rewrite (c_str_append _ _ Hx), (c_str_append _ _ Hsep), IH. reflexivity.
Qed.

Section List_handler.

Variable W : World.

Hypothesis quote_not_empty : forall s, json_quote W s <> EmptyString.

(** The loop after the first name: a comma goes before every name. *)
Lemma list_handler_loop_tail l : forall mbuf x,
  (1 <? String.length (mbuf +++ x))%nat = true ->
  list_handler_loop W l (mbuf +++ x) =
  mbuf +++ String.concat "," (x :: quoted_methods W l).
Proof.
  induction l as [|hi l IH]; intros mbuf x Hlen.
  - reflexivity.
  - cbn [list_handler_loop]. rewrite Hlen.
    rewrite (IH ((mbuf +++ x) +++ ",")%string).
    + change (quoted_methods W (hi :: l))
        with (json_quote W (c_str (hi_method hi)) :: quoted_methods W l).
      change (String.concat "," (x :: ?q :: ?r))
        with (x +++ "," +++ String.concat "," (q :: r)).
      rewrite !str_append_assoc. reflexivity.
    + apply Nat.ltb_lt. apply Nat.ltb_lt in Hlen.
      rewrite !str_length_append in *. simpl. lia.
Qed.

Lemma list_handler_loop_spec l :
  list_handler_loop W l "[" =
  ("[" +++ String.concat "," (quoted_methods W l))%string.
Proof.
  destruct l as [|hi l]; [reflexivity|].
  cbn [list_handler_loop]. simpl (1 <? String.length "[")%nat. cbv iota.
  apply (list_handler_loop_tail l "[").
  apply Nat.ltb_lt. rewrite str_length_append. simpl.
  pose proof (quote_not_empty (c_str (hi_method hi))) as H.
  destruct (json_quote W (c_str (hi_method hi))); [contradiction|].
  simpl. lia.
Qed.

End List_handler.

(** X19. When [%Q] prints at least the two quotes, and no NUL byte for a
    string that has none, RPC.List answers with the JSON array of the
    names of all registered methods, quoted and separated by commas,
    newest first; the built-in methods are listed like the others, and
    a name that was registered twice is listed twice. *)
Theorem list_handler_lists_every_method W ri c :
  (forall s, json_quote W s <> EmptyString) ->
  (forall s, c_str s = s -> c_str (json_quote W s) = json_quote W s) ->
  mg_rpc_list_handler W ri c =
  (_ <- mg_rpc_send_responsef W ri
          (Some ("[" +++ String.concat "," (quoted_methods W (handlers c)) +++
                 "]")%string) ;;
   ret tt) c.
Proof.
  intros H1 H2. unfold mg_rpc_list_handler.
  unfold bind at 1. unfold get at 1. cbv zeta.
  rewrite (list_handler_loop_spec W H1).
  set (names := String.concat "," (quoted_methods W (handlers c))).
  assert (Hn : c_str names = names).
  { apply c_str_concat; [reflexivity|]. unfold quoted_methods.
    apply Forall_forall. intros s Hs. apply in_map_iff in Hs as (hi & <- & _).
    apply H2. apply c_str_idempotent. }
  assert (Hc : c_str (("[" +++ names) +++ "]") = ("[" +++ names +++ "]")%string).
  { rewrite str_append_assoc.
    rewrite (c_str_append "[" _ eq_refl), (c_str_append names _ Hn).
    reflexivity. }
  rewrite Hc. reflexivity.
Qed.

Lemma test_quote_not_empty s : json_quote test_world s <> EmptyString.
Proof. simpl. discriminate. Qed.

Lemma test_quote_c_str s :
  c_str s = s -> c_str (json_quote test_world s) = json_quote test_world s.
Proof.
  intros H. change (json_quote test_world s) with (DQ +++ s +++ DQ)%string.
  rewrite (c_str_append DQ _ eq_refl), (c_str_append s _ H). reflexivity.
Qed.

Lemma list_handler_lists_every_method_witness :
  mg_rpc_list_handler test_world list_request_info math_handler_state =
  (_ <- mg_rpc_send_responsef test_world list_request_info
          (Some ("[" +++ DQ +++ "Math.Add" +++ DQ +++ "]")%string) ;;
   ret tt) math_handler_state.
Proof.
  rewrite (list_handler_lists_every_method test_world list_request_info
             math_handler_state test_quote_not_empty test_quote_c_str).
  reflexivity.
Defined.

(** A request for a method without a handler calls nothing. *)
Lemma handle_request_unknown_not_call W ci frame c ok c' :
  find (fun hi => mg_vcmp_eq (frame_method frame) (hi_method hi))
    (handlers c) = None ->
  mg_rpc_handle_request W ci frame c = Some (ok, c') ->
  exists evs, trace c' = trace c ++ evs /\ Forall not_call evs.
Proof.
  intros Hnone E. unfold mg_rpc_handle_request in E.
  apply bind_Some in E as (e & c0 & E0 & E).
  unfold deref_ci in E0. destruct (find_ci ci (channels c)); [|discriminate].
  inversion E0; subst c0. clear E0.
  unfold bind at 1 in E. unfold get at 1 in E. cbv zeta in E.
  rewrite Hnone in E. revert E.
  apply only_events_bind; [apply only_events_emit; intros []|]. intros _.
  apply only_events_bind; [apply send_errorf_not_call|]. intros _.
  apply only_events_ret.
Qed.

(** X20. RPC.Describe looks a name up as a request for it is dispatched.
    Without a name in the arguments the answer is the error 400.  A name
    for which requests have a handler is described with the args format
    that this handler is called with; a name for which requests are
    answered with "No handler" gets the error 404.  Every registered
    method can be described. *)
Theorem describe_agrees_with_dispatch W E c ri args e frame :
  find_ci (ci_ptr e) (channels c) = Some e ->
  (json_scanf_token E (ri_args_fmt ri) args = None ->
   mg_rpc_describe_handler W E ri args c =
   (_ <- mg_rpc_send_errorf W ri 400 (Some "name is required"%string) ;;
    ret tt) c) /\
  (forall name,
     json_scanf_token E (ri_args_fmt ri) args = Some name ->
     frame_method frame = name ->
     match find (fun hi => mg_vcmp_eq name (hi_method hi)) (handlers c) with
     | Some hi =>
         mg_rpc_describe_handler W E ri args c =
         (_ <- mg_rpc_send_responsef W ri
                 (Some (c_str (description W name hi))) ;;
          ret tt) c /\
         mg_rpc_handle_request W (ci_ptr e) frame c =
         Some (true,
               set_trace
                 (trace c ++
                  handler_events W c hi
                    (request_info_of frame (hi_args_fmt hi) (ci_ch e))
                    {| channel_type := get_type W (ci_ch e) |}
                    (frame_args frame))
                 c)
     | None =>
         mg_rpc_describe_handler W E ri args c =
         (_ <- mg_rpc_send_errorf W ri 404 (Some "name not found"%string) ;;
          ret tt) c /\
         forall ok c',
           mg_rpc_handle_request W (ci_ptr e) frame c = Some (ok, c') ->
           exists evs, trace c' = trace c ++ evs /\ Forall not_call evs
     end) /\
  (forall hi, In hi (handlers c) ->
     find (fun h => mg_vcmp_eq (c_str (hi_method hi)) (hi_method h))
       (handlers c) <> None).
Proof.
  intros He. split; [|split].
  - intros Hs. unfold mg_rpc_describe_handler. rewrite Hs. reflexivity.
  - intros name Hs Hm. unfold mg_rpc_describe_handler. rewrite Hs.
    destruct (find (fun hi => mg_vcmp_eq name (hi_method hi)) (handlers c))
      as [hi|] eqn:F;
      (split; [unfold bind at 1; unfold get at 1; cbv beta iota; rewrite F;
               reflexivity|]).
    + apply handle_request_found; [exact He|]. rewrite Hm. exact F.
    + intros ok c'.
      apply handle_request_unknown_not_call. rewrite Hm. exact F.
  - intros hi Hin F.
    pose proof (find_none _ _ F hi Hin) as H. simpl in H.
    unfold mg_vcmp_eq in H. rewrite String.eqb_refl in H. discriminate.
Qed.

Lemma describe_agrees_with_dispatch_witness :
  mg_rpc_describe_handler test_world test_env describe_request_info
    describe_args math_handler_state =
  (_ <- mg_rpc_send_responsef test_world describe_request_info
          (Some (description test_world "Math.Add" math_handler)) ;;
   ret tt) math_handler_state.
Proof.
  destruct (describe_agrees_with_dispatch test_world test_env
              math_handler_state describe_request_info describe_args
              open_entry add_frame eq_refl) as (_ & H & _).
  specialize (H "Math.Add"%string eq_refl eq_refl).
  change (find (fun hi => mg_vcmp_eq "Math.Add" (hi_method hi))
            (handlers math_handler_state)) with (Some math_handler) in H.
  destruct H as [H _]. rewrite H. reflexivity.
Defined.

(** X21. [mg_rpc_add_list_handler] puts RPC.Ping, RPC.Describe and RPC.List at
    the head of the registry and changes nothing else: a request for one
    of the three names finds the built-in handler, whatever was
    registered under the name before, and every other name finds what it
    found before. *)
Theorem builtin_handlers_take_precedence E c name :
  mg_rpc_add_list_handler E c =
  Some (tt, set_handlers (builtin_handlers E ++ handlers c) c) /\
  find (fun hi => mg_vcmp_eq name (hi_method hi))
    (builtin_handlers E ++ handlers c) =
  (if String.eqb name "RPC.Ping" then nth_error (builtin_handlers E) 0
   else if String.eqb name "RPC.Describe"
        then nth_error (builtin_handlers E) 1
   else if String.eqb name "RPC.List" then nth_error (builtin_handlers E) 2
   else find (fun hi => mg_vcmp_eq name (hi_method hi)) (handlers c)).
Proof.
  split; [reflexivity|].
  unfold builtin_handlers. cbn [app find hi_method nth_error].
  unfold mg_vcmp_eq.
  change (c_str "RPC.Ping") with "RPC.Ping"%string.
  change (c_str "RPC.Describe") with "RPC.Describe"%string.
  change (c_str "RPC.List") with "RPC.List"%string.
  destruct (String.eqb name "RPC.Ping"); [reflexivity|].
  destruct (String.eqb name "RPC.Describe"); [reflexivity|].
  destruct (String.eqb name "RPC.List"); reflexivity.
Qed.


(** ** The list of channels *)

Section Channel_info.

Variable W : World.
Variable E : Env.
Variable t : list event.

(** The loop over entries that can all be recorded. *)
Lemma get_channel_info_loop_all l : forall ci,
  (forall k, (List.length ci < k <= List.length ci + List.length l)%nat ->
             realloc_ok E k = true) ->
  (forall cii, In cii l -> has_is_broadcast_enabled W (ci_ch cii) = true) ->
  get_channel_info_loop W E t l ci =
  Some (true, ci ++ map (channel_info_of W E t) l).
Proof.
  induction l as [|cii l IH]; intros ci Hre Hbe.
  - simpl. rewrite app_nil_r. reflexivity.
  - cbn [get_channel_info_loop].
    rewrite (Hre (S (List.length ci))) by (simpl; lia).
    rewrite (Hbe cii) by (left; reflexivity). cbn [negb].
    fold (channel_info_of W E t cii). rewrite IH.
    + rewrite <- app_assoc. reflexivity.
    + intros k Hk. apply Hre. rewrite length_app in Hk. simpl in *. lia.
    + intros x Hx. apply Hbe. right. exact Hx.
Qed.

(** The loop up to the first entry that cannot be recorded. *)
Lemma get_channel_info_loop_stop pre cii post : forall ci,
  (forall k, (List.length ci < k <= List.length ci + List.length pre)%nat ->
             realloc_ok E k = true) ->
  (forall x, In x pre -> has_is_broadcast_enabled W (ci_ch x) = true) ->
  get_channel_info_loop W E t (pre ++ cii :: post) ci =
  get_channel_info_loop W E t (cii :: post)
    (ci ++ map (channel_info_of W E t) pre).
Proof.
  induction pre as [|x pre IH]; intros ci Hre Hbe.
  - simpl. rewrite app_nil_r. reflexivity.
  - cbn [app get_channel_info_loop].
    rewrite (Hre (S (List.length ci))) by (simpl; lia).
    rewrite (Hbe x) by (left; reflexivity). cbn [negb].
    fold (channel_info_of W E t x). rewrite IH.
    + cbn [map]. rewrite <- app_assoc. reflexivity.
    + intros k Hk. apply Hre. rewrite length_app in Hk. simpl in *. lia.
    + intros y Hy. apply Hbe. right. exact Hy.
Qed.

End Channel_info.

(** X23. When the allocator gives what is asked and every registered channel
    has an [is_broadcast_enabled], [mg_rpc_get_channel_info] succeeds with
    one record for every entry of the registry, newest first, which has
    the destination and the open flag of its entry; the count is the
    number of entries, and the multiplexer is as it was. *)
Theorem channel_info_lists_the_registry W E c :
  (forall k, (1 <= k <= List.length (channels c))%nat ->
             realloc_ok E k = true) ->
  (forall cii, In cii (channels c) ->
               has_is_broadcast_enabled W (ci_ch cii) = true) ->
  mg_rpc_get_channel_info W E c =
  Some ((true, map (channel_info_of W E (trace c)) (channels c),
         Z.of_nat (List.length (channels c))), c) /\
  map chi_dst (map (channel_info_of W E (trace c)) (channels c)) =
  map ci_dst (channels c) /\
  map chi_is_open (map (channel_info_of W E (trace c)) (channels c)) =
  map is_open (channels c).
Proof.
  intros Hre Hbe. split; [|split].
  - unfold mg_rpc_get_channel_info, bind, get.
    rewrite (get_channel_info_loop_all W E (trace c) (channels c) []).
    + simpl. rewrite length_map. reflexivity.
    + intros k Hk. apply Hre. simpl in Hk. lia.
    + exact Hbe.
  - rewrite map_map. reflexivity.
  - rewrite map_map. reflexivity.
Qed.

Lemma channel_info_lists_the_registry_witness :
  exists infos,
    mg_rpc_get_channel_info test_world test_env three_channels_state =
    Some ((true, infos, 3), three_channels_state) /\
    map chi_dst infos = ["c"%string; "b"%string; "a"%string].
Proof.
  destruct (channel_info_lists_the_registry test_world test_env
              three_channels_state) as (H & Hd & _).
  - intros k _. reflexivity.
  - intros cii _. reflexivity.
  - eexists. split; [exact H|]. rewrite Hd. vm_compute. reflexivity.
Defined.

(** X24. When the allocator fails at some entry, [mg_rpc_get_channel_info]
    fails with no array and the count 0, whatever was recorded before,
    and the multiplexer is as it was. *)
Theorem channel_info_failure_is_clean W E c pre cii post :
  channels c = pre ++ cii :: post ->
  (forall k, (1 <= k <= List.length pre)%nat -> realloc_ok E k = true) ->
  (forall x, In x pre -> has_is_broadcast_enabled W (ci_ch x) = true) ->
  realloc_ok E (S (List.length pre)) = false ->
  mg_rpc_get_channel_info W E c = Some ((false, [], 0), c).
Proof.
  intros Hc Hre Hbe Hfail. unfold mg_rpc_get_channel_info, bind, get.
  rewrite Hc, (get_channel_info_loop_stop W E (trace c) pre cii post []).
  - cbn [get_channel_info_loop app]. rewrite length_map, Hfail. reflexivity.
  - intros k Hk. apply Hre. simpl in Hk. lia.
  - exact Hbe.
Qed.

Lemma channel_info_failure_is_clean_witness :
  mg_rpc_get_channel_info test_world failing_env three_channels_state =
  Some ((false, [], 0), three_channels_state).
Proof.
  apply (channel_info_failure_is_clean test_world failing_env
           three_channels_state
           [{| ci_ptr := 3%nat; ci_dst := "c"; ci_ch := 9%nat;
               is_open := true; is_busy := false |}]
           {| ci_ptr := 2%nat; ci_dst := "b"; ci_ch := 8%nat;
              is_open := true; is_busy := false |}
           [{| ci_ptr := 1%nat; ci_dst := "a"; ci_ch := 7%nat;
               is_open := true; is_busy := false |}]).
  - vm_compute. reflexivity.
  - intros k Hk. simpl in Hk. assert (k = 1%nat) by lia. subst. reflexivity.
  - intros x [<- | []]. reflexivity.
  - reflexivity.
Defined.

(** X25. A channel may have no [is_broadcast_enabled]: a broadcast call tests
    for it and passes such a channel over.  [mg_rpc_get_channel_info]
    calls it without the test: with such a channel in the registry, and
    an allocator that does not fail before it, the call has no defined
    behaviour. *)
Theorem channel_info_needs_is_broadcast_enabled W E c pre cii post :
  channels c = pre ++ cii :: post ->
  (forall k, (1 <= k <= S (List.length pre))%nat -> realloc_ok E k = true) ->
  (forall x, In x pre -> has_is_broadcast_enabled W (ci_ch x) = true) ->
  has_is_broadcast_enabled W (ci_ch cii) = false ->
  mg_rpc_get_channel_info W E c = None /\
  forall src dst id tag key pprefix args result,
    vcallf_broadcast W (cii :: post) src dst id tag key pprefix args result c =
    vcallf_broadcast W post src dst id tag key pprefix args result c.
Proof.
  intros Hc Hre Hbe Hnone. split.
  - unfold mg_rpc_get_channel_info, bind, get.
    rewrite Hc, (get_channel_info_loop_stop W E (trace c) pre cii post []).
    + cbn [get_channel_info_loop app]. rewrite length_map.
      rewrite (Hre (S (List.length pre))) by lia. rewrite Hnone. reflexivity.
    + intros k Hk. apply Hre. simpl in Hk. lia.
    + exact Hbe.
  - intros. simpl. unfold bind at 1. unfold get at 1. rewrite Hnone.
    reflexivity.
Qed.

Lemma channel_info_needs_is_broadcast_enabled_witness :
  mg_rpc_get_channel_info bare_world test_env three_channels_state = None.
Proof.
  apply (channel_info_needs_is_broadcast_enabled bare_world test_env
           three_channels_state []
           {| ci_ptr := 3%nat; ci_dst := "c"; ci_ch := 9%nat;
              is_open := true; is_busy := false |}
           [{| ci_ptr := 2%nat; ci_dst := "b"; ci_ch := 8%nat;
               is_open := true; is_busy := false |};
            {| ci_ptr := 1%nat; ci_dst := "a"; ci_ch := 7%nat;
               is_open := true; is_busy := false |}]).
  - vm_compute. reflexivity.
  - intros k _. reflexivity.
  - intros x [].
  - reflexivity.
Defined.

(** ** Digest authentication *)



(** ** Observers *)

Lemma set_observers_same c : set_observers (observers c) c = c.
Proof. destruct c; reflexivity. Qed.

Lemma remove_observer_absent cb cb_arg l :
  (forall oi, In oi l -> oi_cb oi <> cb \/ oi_cb_arg oi <> cb_arg) ->
  remove_observer cb cb_arg l = l.
Proof.
  induction l as [|oi l IH]; intros H; simpl; [reflexivity|].
  destruct (Nat.eqb (oi_cb oi) cb && Nat.eqb (oi_cb_arg oi) cb_arg) eqn:M.
  - apply andb_true_iff in M as [M1 M2].
    apply Nat.eqb_eq in M1, M2.
    destruct (H oi (or_introl eq_refl)); contradiction.
  - rewrite IH; [reflexivity|]. intros x Hx. apply H. right. exact Hx.
Qed.

Lemma remove_observer_first cb cb_arg pre post :
  (forall oi, In oi pre -> oi_cb oi <> cb \/ oi_cb_arg oi <> cb_arg) ->
  remove_observer cb cb_arg
    (pre ++ {| oi_cb := cb; oi_cb_arg := cb_arg |} :: post) = pre ++ post.
Proof.
  induction pre as [|oi pre IH]; intros H; simpl.
  - rewrite !Nat.eqb_refl. reflexivity.
  - destruct (Nat.eqb (oi_cb oi) cb && Nat.eqb (oi_cb_arg oi) cb_arg) eqn:M.
    + apply andb_true_iff in M as [M1 M2].
      apply Nat.eqb_eq in M1, M2.
      destruct (H oi (or_introl eq_refl)); contradiction.
    + rewrite IH; [reflexivity|]. intros x Hx. apply H. right. exact Hx.
Qed.

(** X27. Removing an observer takes out its newest registration and nothing
    else: the other observers stay in their order, an observer that was
    registered twice is still registered once, and removing an observer
    that is not registered changes nothing.  Adding an observer and
    removing it gives the multiplexer back as it was. *)
Theorem remove_observer_takes_the_newest cb cb_arg c :
  (forall pre post,
     observers c = pre ++ {| oi_cb := cb; oi_cb_arg := cb_arg |} :: post ->
     (forall oi, In oi pre -> oi_cb oi <> cb \/ oi_cb_arg oi <> cb_arg) ->
     mg_rpc_remove_observer cb cb_arg c =
     Some (tt, set_observers (pre ++ post) c)) /\
  ((forall oi, In oi (observers c) ->
      oi_cb oi <> cb \/ oi_cb_arg oi <> cb_arg) ->
   mg_rpc_remove_observer cb cb_arg c = Some (tt, c)) /\
  (mg_rpc_add_observer cb cb_arg ;; mg_rpc_remove_observer cb cb_arg) c =
  Some (tt, c).
Proof.
  split; [|split].
  - intros pre post Ho Hpre. unfold mg_rpc_remove_observer, modify.
    rewrite Ho, remove_observer_first by exact Hpre. reflexivity.
  - intros Habs. unfold mg_rpc_remove_observer, modify.
    rewrite remove_observer_absent by exact Habs.
    rewrite set_observers_same. reflexivity.
  - unfold bind, mg_rpc_add_observer, mg_rpc_remove_observer, modify. simpl.
    rewrite !Nat.eqb_refl. simpl. destruct c; reflexivity.
Qed.

Lemma remove_observer_takes_the_newest_witness :
  mg_rpc_remove_observer 2%nat 0%nat observers_state =
  Some (tt,
        set_observers
          [{| oi_cb := 1%nat; oi_cb_arg := 0%nat |};
           {| oi_cb := 1%nat; oi_cb_arg := 0%nat |}] observers_state).
Proof.
  destruct (remove_observer_takes_the_newest 2%nat 0%nat observers_state)
    as (H & _).
  apply (H [{| oi_cb := 1%nat; oi_cb_arg := 0%nat |}]
           [{| oi_cb := 1%nat; oi_cb_arg := 0%nat |}]).
  - vm_compute. reflexivity.
  - intros oi [<- | []]. left. discriminate.
Defined.

(** ** A multiplexer without a queue *)

(** X28. With a configured [max_queue_length] of 0 or less, the queue is empty
    at every observable moment and no frame is ever queued: a frame that
    cannot be sent at once is dropped. *)
Theorem no_queue_without_room W cfg0 c :
  max_queue_length cfg0 <= 0 -> reachable W cfg0 c ->
  queue c = [] /\ queue_len c = 0 /\
  forall ci dst f, mg_rpc_enqueue_frame ci dst f c = Some (false, c).
Proof.
  intros Hmax Hr. pose proof (reachable_wf W cfg0 c Hr) as Hwf.
  pose proof (wf_queue_len Hwf) as Hlen.
  pose proof (wf_queue_bound Hwf) as Hb.
  assert (Hz : queue_len c = 0) by lia.
  split; [|split; [exact Hz|]].
  - destruct (queue c); [reflexivity | simpl in Hlen; lia].
  - intros ci dst f. unfold mg_rpc_enqueue_frame, bind, get.
    rewrite (wf_cfg Hwf), Hz.
    assert (Hg : (0 >=? max_queue_length cfg0) = true).
    { rewrite Z.geb_leb. apply Z.leb_le. exact Hmax. }
    rewrite Hg. reflexivity.
Qed.

Lemma no_queue_without_room_witness :
  mg_rpc_enqueue_frame None MG_NULL_STR "{}" (mg_rpc_create no_queue_cfg) =
  Some (false, mg_rpc_create no_queue_cfg).
Proof.
  destruct (no_queue_without_room test_world no_queue_cfg
              (mg_rpc_create no_queue_cfg)) as (_ & _ & H).
  - simpl. lia.
  - apply reachable_create.
  - apply H.
Defined.
